(** * Graph assembly and expand/collapse view of the metrics dashboard

    A shallow embedding of the hierarchical graph service
    ([GraphDataService.buildGraph] and its helpers) and of the graph view
    controller ([HierarchicalGraphComponent], [ModuleFunctionGraphComponent]),
    followed by the properties of the specification that these functions
    decide.

    Conventions of the embedding:
    - a JavaScript [Map] is an insertion-ordered association list
      ([JsMap]): [set] on a present key replaces the value in place, on an
      absent key appends; [forEach] and [values()] follow that order;
    - a JSON object ([Record<string, X>]) is the list of its entries in
      enumeration order;
    - node objects live in a store ([list GraphNode.t]) and are referred to
      by their index, so that the registry and the [children] arrays share
      the objects exactly as the service does;
    - call counts are JavaScript numbers holding integers, embedded in [Z]. *)

From Stdlib Require Import ZArith Lia Ascii String.
From stdpp Require Import base tactics option list strings.

Local Open Scope string_scope.
Local Open Scope list_scope.
Local Open Scope nat_scope.

(** ** JavaScript primitives *)

Module Js.

(** Truthiness of a string: only the empty string is falsy. *)
Definition truthy (s : string) : bool := negb (String.eqb s "").

(** Truthiness of [string | undefined]. *)
Definition truthyO (o : option string) : bool :=
  match o with Some s => truthy s | None => false end.

(** [a || b] on strings. *)
Definition orElse (o : option string) (d : string) : string :=
  match o with Some s => if truthy s then s else d | None => d end.

(** [s.split(c)] for a one-character separator. *)
Fixpoint splitChar (c : ascii) (s : string) : list string :=
  match s with
  | EmptyString => [EmptyString]
  | String a s' =>
      if Ascii.eqb a c then EmptyString :: splitChar c s'
      else match splitChar c s' with
           | h :: t => String a h :: t
           | [] => [String a EmptyString]
           end
  end.

(** [s.split('->')]. *)
Fixpoint splitArrow (s : string) : list string :=
  match s with
  | EmptyString => [EmptyString]
  | String a s' =>
      let keep := match splitArrow s' with
                  | h :: t => String a h :: t
                  | [] => [String a EmptyString]
                  end in
      match s' with
      | String b s'' =>
          if Ascii.eqb a "-" && Ascii.eqb b ">"
          then EmptyString :: splitArrow s''
          else keep
      | EmptyString => keep
      end
  end.

(** [const [a, b] = key.split('->')]: the first two segments.  Every key
    the service splits was built as [`${a}->${b}`], so the second segment
    always exists; the default stands for [undefined]. *)
Definition splitArrowPair (key : string) : string * string :=
  match splitArrow key with
  | a :: b :: _ => (a, b)
  | a :: [] => (a, "undefined")
  | [] => ("undefined", "undefined")
  end.

(** [s.startsWith(p)]. *)
Definition startsWith (s p : string) : bool := String.prefix p s.

(** [arr.pop()] as the pair (remaining array, popped element). *)
Definition pop {A} (l : list A) : list A * option A :=
  (removelast l, last l).

End Js.

(** ** Insertion-ordered maps *)

Module JsMap.
Section Defs.
Context {V : Type}.

Fixpoint get (m : list (string * V)) (k : string) : option V :=
    match m with
    | [] => None
    | (k', v) :: m' => if String.eqb k' k then Some v else get m' k
    end.

Definition has (m : list (string * V)) (k : string) : bool :=
    match get m k with Some _ => true | None => false end.

Fixpoint set (m : list (string * V)) (k : string) (v : V) : list (string * V) :=
    match m with
    | [] => [(k, v)]
    | (k', v') :: m' =>
        if String.eqb k' k then (k', v) :: m' else (k', v') :: set m' k v
    end.

Definition keys (m : list (string * V)) : list string := map fst m.
Definition values (m : list (string * V)) : list V := map snd m.
End Defs.

Abbreviation t V := (list (string * V)).
End JsMap.

(** ** Data model of the graph service *)

Inductive NodeType := DIRECTORY | FILE | CLASS | FUNCTION.

#[global] Instance NodeType_eq_dec : EqDecision NodeType.
Proof. solve_decision. Defined.

(** A reference to a node object of the store. *)
Abbreviation ref := nat.

Module GraphNode.
(** [interface GraphNode]; the layout coordinates [x], [y] are never
    written by the service and are left out. *)
Record t := mk {
  id : string;
  label : string;
  type : NodeType;
  parentId : option string;
  children : option (list ref);
  loc : option Z;
  depth : option nat
}.

Definition withChildren (n : t) (cs : option (list ref)) : t :=
  mk (id n) (label n) (type n) (parentId n) cs (loc n) (depth n).
End GraphNode.

Inductive LinkType := DEPENDENCY | COUPLING | CALL.
Inductive Direction := FanOut | FanIn.

#[global] Instance LinkType_eq_dec : EqDecision LinkType.
Proof. solve_decision. Defined.
#[global] Instance Direction_eq_dec : EqDecision Direction.
Proof. solve_decision. Defined.

Module GraphLink.
(** [interface GraphLink]; [fanIn] and [fanOut] are never assigned by the
    service and are left out. *)
Record t := mk {
  source : string;
  target : string;
  value : Z;
  type : LinkType;
  direction : option Direction
}.
End GraphLink.

(** The values of the [methodLinks], [functionLinks], [classLinks] and
    [fileLinks] maps. *)
Record LinkData := mkLinkData { count : Z; dir : Direction }.

(** [interface HierarchicalData], with the object store the node references
    point into. *)
Record HierarchicalData := mkHierarchicalData {
  store : list GraphNode.t;
  nodes : list ref;
  links : list GraphLink.t
}.

(** *** Metric payloads *)

(** [Record<targetName, Record<memberName, count>>] *)
Abbreviation FanMap := (list (string * list (string * Z))).

(** An entry of a class in [classes-per-file] or [class-coupling]:
    [{ key: { name }, 'fan-out'?, 'fan-in'? }]; an absent fan map is empty. *)
Record ClassMember := mkClassMember {
  keyName : option string;
  fanOut : FanMap;
  fanIn : FanMap
}.

(** The value stored under a class name: an array of entries, or anything
    else. *)
Inductive ClassDetails :=
| NotArray
| Members (ms : list ClassMember).

(** [{ 'fan-out'?: Record<name, count>, 'fan-in'?: Record<name, count> }] *)
Record FuncDetails := mkFuncDetails {
  fnFanOut : list (string * Z);
  fnFanIn : list (string * Z)
}.

(** The shapes [buildDirectories] distinguishes in [data.files]. *)
Inductive FilesPayload :=
| FilesArray (paths : list string)
| FilesResult (paths : list string)
| FilesOther.

(** The object handed to [buildGraph].  Each field holds the part of the
    payload the service reads ([data.x?.result || {}] and the like), the
    empty list standing for a missing or defaulted payload. *)
Record MetricData := mkMetricData {
  files : FilesPayload;
  locByFile : list (string * Z);
  dependencies : list (string * list string);
  classes : list (string * list (string * ClassDetails));
  classCoupling : list (string * list (string * ClassDetails));
  funcs : list (string * list string);
  funcCoupling : list (string * list (string * FuncDetails))
}.

(** ** The graph service ([GraphDataService]) *)

Module GraphDataService.

(** The node registry under construction: the object store and the
    [nodesMap] from ids to objects. *)
Record Registry := mkRegistry {
  heap : list GraphNode.t;
  nodesMap : JsMap.t ref
}.

Definition emptyRegistry : Registry := mkRegistry [] [].

(** Creation of a node object. *)
Definition alloc (h : list GraphNode.t) (n : GraphNode.t) : list GraphNode.t * ref :=
  (h ++ [n], length h).

(** [p.children = p.children || []; p.children.push(c)] *)
Definition pushChild (h : list GraphNode.t) (p c : ref) : list GraphNode.t :=
  match h !! p with
  | Some n =>
      <[p := GraphNode.withChildren n (Some (default [] (GraphNode.children n) ++ [c]))]> h
  | None => h
  end.

(** [p.children?.push(c)] *)
Definition pushChildOpt (h : list GraphNode.t) (p c : ref) : list GraphNode.t :=
  match h !! p with
  | Some n =>
      match GraphNode.children n with
      | Some cs => <[p := GraphNode.withChildren n (Some (cs ++ [c]))]> h
      | None => h
      end
  | None => h
  end.

(** [p.children.find(c => c.id === id)] as a test. *)
Definition hasChildWithId (h : list GraphNode.t) (cs : list ref) (i : string) : bool :=
  existsb (fun c => match h !! c with
                    | Some n => String.eqb (GraphNode.id n) i
                    | None => false
                    end) cs.

(** *** [buildDirectories] *)

Definition filePathsOf (data : MetricData) : list string :=
  match files data with
  | FilesArray l => l
  | FilesResult l => l
  | FilesOther => JsMap.keys (dependencies data)
  end.

(** The locals of the loop over the directory segments of one path. *)
Record DirCursor := mkDirCursor {
  currentPath : string;
  parentId : option string;
  depth : nat
}.

(** Body of [parts.forEach(part => ...)]. *)
Definition dirStep (st : Registry * DirCursor) (part : string) : Registry * DirCursor :=
  let '(reg, cur) := st in
  let i := if Js.truthy (currentPath cur)
           then currentPath cur +:+ "/" +:+ part else part in
  let reg' :=
    if JsMap.has (nodesMap reg) i then reg
    else
      let '(h1, r) := alloc (heap reg)
        (GraphNode.mk i part DIRECTORY (parentId cur) (Some []) None (Some (depth cur))) in
      let m1 := JsMap.set (nodesMap reg) i r in
      let h2 :=
        if Js.truthyO (parentId cur) then
          match JsMap.get m1 (default "" (parentId cur)) with
          | Some p =>
              match h1 !! p with
              | Some pn =>
                  if hasChildWithId h1 (default [] (GraphNode.children pn)) i
                  then <[p := GraphNode.withChildren pn
                                 (Some (default [] (GraphNode.children pn)))]> h1
                  else pushChild h1 p r
              | None => h1
              end
          | None => h1
          end
        else h1 in
      mkRegistry h2 m1 in
  (reg', mkDirCursor i (Some i) (S (depth cur))).

(** [data.loc?.byFile?.[path]?.loc || 10] *)
Definition fileLoc (data : MetricData) (path : string) : Z :=
  match JsMap.get (locByFile data) path with
  | Some l => if Z.eqb l 0 then 10%Z else l
  | None => 10%Z
  end.

(** Body of [filePaths.forEach(path => ...)]. *)
Definition pathStep (data : MetricData) (reg : Registry) (path : string) : Registry :=
  let '(parts, fileName) := Js.pop (Js.splitChar "/" path) in
  let '(reg1, cur) := fold_left dirStep parts (reg, mkDirCursor "" None 0) in
  let '(h1, r) := alloc (heap reg1)
    (GraphNode.mk path (default "" fileName) FILE (parentId cur) (Some [])
                  (Some (fileLoc data path)) (Some (depth cur))) in
  let m1 := JsMap.set (nodesMap reg1) path r in
  let h2 :=
    if Js.truthyO (parentId cur) then
      match JsMap.get m1 (default "" (parentId cur)) with
      | Some p => pushChild h1 p r
      | None => h1
      end
    else h1 in
  mkRegistry h2 m1.

(** The import edges of the file-dependency metric. *)
Definition importLinks (data : MetricData) (m : JsMap.t ref) : list GraphLink.t :=
  flat_map (fun '(src, imports) =>
    if JsMap.has m src then
      flat_map (fun tgt =>
        if JsMap.has m tgt
        then [GraphLink.mk src tgt 1%Z DEPENDENCY None]
        else []) imports
    else []) (dependencies data).

Definition buildDirectories (data : MetricData) (reg : Registry) (links : list GraphLink.t)
  : Registry * list GraphLink.t :=
  let reg' := fold_left (pathStep data) (filePathsOf data) reg in
  (reg', links ++ importLinks data (nodesMap reg')).

(** *** [buildClassToFileMap] *)

(** [(n.depth || 0) + 1] *)
Definition childDepth (d : option nat) : option nat := Some (default 0 d + 1).

(** [methodName === 'constructor' ? '_constructor' : methodName] *)
Definition normalizeMethodName (name : string) : string :=
  if String.eqb name "constructor" then "_constructor" else name.

(** Body of [methods.forEach(method => ...)] for the class object [rc]. *)
Definition methodStep (classId : string) (rc : ref) (classDepth : option nat)
    (reg : Registry) (method : ClassMember) : Registry :=
  let methodName := Js.orElse (keyName method) "unknown" in
  let normalizedName := normalizeMethodName methodName in
  let methodId := classId +:+ "::" +:+ normalizedName in
  let '(h1, r) := alloc (heap reg)
    (GraphNode.mk methodId
       (if String.eqb methodName "_constructor" then "constructor" else methodName)
       FUNCTION (Some classId) None (Some 1%Z) (childDepth classDepth)) in
  let m1 := JsMap.set (nodesMap reg) methodId r in
  let m2 := if String.eqb methodName "constructor"
            then JsMap.set m1 (classId +:+ "::constructor") r else m1 in
  mkRegistry (pushChildOpt h1 rc r) m2.

(** [existingFiles.includes(file)] then [push], then [set]. *)
Definition addClassFile (c2f : JsMap.t (list string)) (className file : string)
  : JsMap.t (list string) :=
  let existingFiles := default [] (JsMap.get c2f className) in
  JsMap.set c2f className
    (if bool_decide (file ∈ existingFiles) then existingFiles
     else existingFiles ++ [file]).

(** Body of [Object.entries(clsMap).forEach(([className, details]) => ...)]
    for the file object [rf]. *)
Definition classStep (file : string) (rf : ref) (fileDepth : option nat)
    (st : Registry * JsMap.t (list string)) (entry : string * ClassDetails)
  : Registry * JsMap.t (list string) :=
  let '(reg, c2f) := st in
  let '(className, details) := entry in
  let classId := file +:+ "::" +:+ className in
  let c2f' := addClassFile c2f className file in
  let '(h1, rc) := alloc (heap reg)
    (GraphNode.mk classId className CLASS (Some file) (Some []) (Some 1%Z)
                  (childDepth fileDepth)) in
  let m1 := JsMap.set (nodesMap reg) classId rc in
  let reg1 := mkRegistry (pushChildOpt h1 rf rc) m1 in
  let reg2 :=
    match details with
    | Members ms => fold_left (methodStep classId rc (childDepth fileDepth)) ms reg1
    | NotArray => reg1
    end in
  (reg2, c2f').

(** Body of [Object.entries(classesObj).forEach(([file, clsMap]) => ...)]. *)
Definition classFileStep (st : Registry * JsMap.t (list string))
    (entry : string * list (string * ClassDetails))
  : Registry * JsMap.t (list string) :=
  let '(file, clsMap) := entry in
  match JsMap.get (nodesMap (fst st)) file with
  | None => st
  | Some rf =>
      let fileDepth := match heap (fst st) !! rf with
                       | Some n => GraphNode.depth n
                       | None => None
                       end in
      fold_left (classStep file rf fileDepth) clsMap st
  end.

Definition buildClassToFileMap (data : MetricData) (reg : Registry)
  : Registry * JsMap.t (list string) :=
  fold_left classFileStep (classes data) (reg, []).

(** *** [buildFunctionToFileMap] *)

(** [fileNode.children?.find(c => c.type === 'CLASS' &&
      (funcName.startsWith(c.label + '.') || funcName.startsWith(c.label + '::')))] *)
Definition findParentClass (h : list GraphNode.t) (rf : ref) (funcName : string)
  : option ref :=
  match h !! rf with
  | Some fileNode =>
      List.find (fun c =>
        match h !! c with
        | Some n =>
            bool_decide (GraphNode.type n = CLASS) &&
            (Js.startsWith funcName (GraphNode.label n +:+ ".") ||
             Js.startsWith funcName (GraphNode.label n +:+ "::"))
        | None => false
        end) (default [] (GraphNode.children fileNode))
  | None => None
  end.

(** [funcName.split('.').pop() || funcName] *)
Definition funcLabel (funcName : string) : string :=
  Js.orElse (last (Js.splitChar "." funcName)) funcName.

(** Body of [Object.keys(funcMap).forEach(funcName => ...)] for the file
    object [rf]. *)
Definition funcStep (file : string) (rf : ref)
    (st : Registry * JsMap.t string) (funcName : string)
  : Registry * JsMap.t string :=
  let '(reg, f2f) := st in
  let parentClass := findParentClass (heap reg) rf funcName in
  let i := file +:+ "::" +:+ funcName in
  if JsMap.has (nodesMap reg) i then st
  else
    let pnode := match parentClass with
                 | Some rc => heap reg !! rc
                 | None => None
                 end in
    let pid := match pnode with Some n => GraphNode.id n | None => file end in
    let parentDepth := match pnode with
                       | Some n => GraphNode.depth n
                       | None => match heap reg !! rf with
                                 | Some fn => GraphNode.depth fn
                                 | None => None
                                 end
                       end in
    let '(h1, r) := alloc (heap reg)
      (GraphNode.mk i (funcLabel funcName) FUNCTION (Some pid) None (Some 1%Z)
                    (childDepth parentDepth)) in
    let m1 := JsMap.set (nodesMap reg) i r in
    let h2 := match parentClass with
              | Some rc => pushChild h1 rc r
              | None => pushChild h1 rf r
              end in
    (mkRegistry h2 m1, JsMap.set f2f funcName file).

Definition funcFileStep (st : Registry * JsMap.t string)
    (entry : string * list string) : Registry * JsMap.t string :=
  let '(file, funcMap) := entry in
  match JsMap.get (nodesMap (fst st)) file with
  | None => st
  | Some rf => fold_left (funcStep file rf) funcMap st
  end.

Definition buildFunctionToFileMap (data : MetricData) (reg : Registry)
  : Registry * JsMap.t string :=
  fold_left funcFileStep (funcs data) (reg, []).

(** *** Link maps *)

(** [const existing = m.get(key) || { count: 0, direction };
     m.set(key, { count: existing.count + n, direction })] *)
Definition accumulate (m : JsMap.t LinkData) (key : string) (n : Z) (d : Direction)
  : JsMap.t LinkData :=
  let existing := default (mkLinkData 0%Z d) (JsMap.get m key) in
  JsMap.set m key (mkLinkData (count existing + n)%Z d).

(** [m.forEach((linkData, linkKey) => links.push({...}))] *)
Definition emitLinks (ty : LinkType) (m : JsMap.t LinkData) : list GraphLink.t :=
  map (fun '(linkKey, linkData) =>
         let '(srcId, targetId) := Js.splitArrowPair linkKey in
         GraphLink.mk srcId targetId (count linkData) ty (Some (dir linkData))) m.

Definition linkKey (src tgt : string) : string := src +:+ "->" +:+ tgt.

(** *** [findClassFile] *)

(** The loop [for (const file of files) if (nodesMap.has(`${file}::${className}`)) return file]. *)
Fixpoint firstRegistered (m : JsMap.t ref) (className : string) (fs : list string)
  : option string :=
  match fs with
  | [] => None
  | file :: rest =>
      if JsMap.has m (file +:+ "::" +:+ className) then Some file
      else firstRegistered m className rest
  end.

Definition findClassFile (m : JsMap.t ref) (classToFilesMap : JsMap.t (list string))
    (className : string) : option string :=
  match JsMap.get classToFilesMap className with
  | None => None
  | Some [] => None
  | Some (f0 :: rest) =>
      match firstRegistered m className (f0 :: rest) with
      | Some file => Some file
      | None => Some f0
      end
  end.

(** *** [buildMethodLevelCoupling] *)

Section MethodLevel.
Variable m : JsMap.t ref.
Variable classToFilesMap : JsMap.t (list string).

(** One side of a method entry: [out = true] for the fan-out loop (edges
    leave [srcMethodId]), [false] for the fan-in loop (edges enter it). *)
Definition methodFanStep (out : bool) (srcMethodId : string)
    (ml : JsMap.t LinkData) (entry : string * list (string * Z))
  : JsMap.t LinkData :=
  let '(otherClassName, otherMethods) := entry in
  match findClassFile m classToFilesMap otherClassName with
  | None => ml
  | Some otherFile =>
      if negb (Js.truthy otherFile) then ml
      else
        let otherClassId := otherFile +:+ "::" +:+ otherClassName in
        if negb (JsMap.has m otherClassId) then ml
        else
          fold_left (fun ml '(otherMethodName, cnt) =>
            let otherMethodId :=
              otherClassId +:+ "::" +:+ normalizeMethodName otherMethodName in
            if negb (JsMap.has m otherMethodId) || String.eqb srcMethodId otherMethodId
            then ml
            else if out
                 then accumulate ml (linkKey srcMethodId otherMethodId) cnt FanOut
                 else accumulate ml (linkKey otherMethodId srcMethodId) cnt FanIn)
            otherMethods ml
  end.

(** Body of [methods.forEach(method => ...)]. *)
Definition methodCouplingStep (classId : string) (ml : JsMap.t LinkData)
    (method : ClassMember) : JsMap.t LinkData :=
  let methodName := Js.orElse (keyName method) "unknown" in
  let srcMethodId := classId +:+ "::" +:+ normalizeMethodName methodName in
  if negb (JsMap.has m srcMethodId) then ml
  else
    let ml1 := fold_left (methodFanStep true srcMethodId) (fanOut method) ml in
    fold_left (methodFanStep false srcMethodId) (fanIn method) ml1.

Definition classCouplingStep (file : string) (ml : JsMap.t LinkData)
    (entry : string * ClassDetails) : JsMap.t LinkData :=
  let '(className, details) := entry in
  match details with
  | NotArray => ml
  | Members methods =>
      let classId := file +:+ "::" +:+ className in
      if negb (JsMap.has m classId) then ml
      else fold_left (methodCouplingStep classId) methods ml
  end.

Definition methodLinksOf (data : MetricData) (ml : JsMap.t LinkData) : JsMap.t LinkData :=
  fold_left (fun ml '(file, clsMap) => fold_left (classCouplingStep file) clsMap ml)
            (classCoupling data) ml.

End MethodLevel.

Definition buildMethodLevelCoupling (data : MetricData) (m : JsMap.t ref)
    (classToFilesMap : JsMap.t (list string)) (methodLinks : JsMap.t LinkData)
    (links : list GraphLink.t) : JsMap.t LinkData * list GraphLink.t :=
  let ml := methodLinksOf m classToFilesMap data methodLinks in
  (ml, links ++ emitLinks CALL ml).

(** *** [buildFunctionLevelCoupling] *)

Section FunctionLevel.
Variable m : JsMap.t ref.
Variable functionToFileMap : JsMap.t string.

Definition funcFanStep (out : bool) (srcFuncId : string)
    (fl : JsMap.t LinkData) (entry : string * Z) : JsMap.t LinkData :=
  let '(otherFuncName, cnt) := entry in
  match JsMap.get functionToFileMap otherFuncName with
  | None => fl
  | Some otherFile =>
      if negb (Js.truthy otherFile) then fl
      else
        let otherFuncId := otherFile +:+ "::" +:+ otherFuncName in
        if negb (JsMap.has m otherFuncId) || String.eqb srcFuncId otherFuncId then fl
        else if out
             then accumulate fl (linkKey srcFuncId otherFuncId) cnt FanOut
             else accumulate fl (linkKey otherFuncId srcFuncId) cnt FanIn
  end.

Definition funcCouplingStep (srcFile : string) (fl : JsMap.t LinkData)
    (entry : string * FuncDetails) : JsMap.t LinkData :=
  let '(srcFuncName, details) := entry in
  let srcFuncId := srcFile +:+ "::" +:+ srcFuncName in
  if negb (JsMap.has m srcFuncId) then fl
  else
    let fl1 := fold_left (funcFanStep true srcFuncId) (fnFanOut details) fl in
    fold_left (funcFanStep false srcFuncId) (fnFanIn details) fl1.

Definition functionLinksOf (fnCoupling : list (string * list (string * FuncDetails)))
    (fl : JsMap.t LinkData) : JsMap.t LinkData :=
  fold_left (fun fl '(srcFile, fnMap) => fold_left (funcCouplingStep srcFile) fnMap fl)
            fnCoupling fl.

End FunctionLevel.

Definition buildFunctionLevelCoupling
    (fnCoupling : list (string * list (string * FuncDetails))) (m : JsMap.t ref)
    (functionToFileMap : JsMap.t string) (functionLinks : JsMap.t LinkData)
    (links : list GraphLink.t) : JsMap.t LinkData * list GraphLink.t :=
  let fl := functionLinksOf m functionToFileMap fnCoupling functionLinks in
  (fl, links ++ emitLinks CALL fl).

(** *** [buildClassLevelCoupling] *)

Section ClassLevel.
Variable h : list GraphNode.t.
Variable m : JsMap.t ref.
Variable classToFilesMap : JsMap.t (list string).

(** [nodesMap.get(id)] followed by a field access on the object. *)
Definition node (i : string) : option GraphNode.t :=
  match JsMap.get m i with
  | Some r => h !! r
  | None => None
  end.

(** First loop: method-level edges promoted to their parent classes. *)
Definition promoteMethodLink (cl : JsMap.t LinkData) (entry : string * LinkData)
  : JsMap.t LinkData :=
  let '(key, linkData) := entry in
  let '(srcMethodId, targetMethodId) := Js.splitArrowPair key in
  match node srcMethodId, node targetMethodId with
  | Some srcMethod, Some targetMethod =>
      let srcClassId := GraphNode.parentId srcMethod in
      let targetClassId := GraphNode.parentId targetMethod in
      if Js.truthyO srcClassId && Js.truthyO targetClassId
         && negb (bool_decide (srcClassId = targetClassId))
      then accumulate cl (linkKey (default "" srcClassId) (default "" targetClassId))
                      (count linkData) (dir linkData)
      else cl
  | _, _ => cl
  end.

(** Second loop: function-level edges whose two ends are members of
    different classes. *)
Definition promoteFunctionLink (cl : JsMap.t LinkData) (entry : string * LinkData)
  : JsMap.t LinkData :=
  let '(key, linkData) := entry in
  let '(srcFuncId, targetFuncId) := Js.splitArrowPair key in
  match node srcFuncId, node targetFuncId with
  | Some srcFunc, Some targetFunc =>
      let srcClassId := GraphNode.parentId srcFunc in
      let targetClassId := GraphNode.parentId targetFunc in
      let srcClass := srcClassId ≫= node in
      let targetClass := targetClassId ≫= node in
      if bool_decide (GraphNode.type <$> srcClass = Some CLASS)
         && bool_decide (GraphNode.type <$> targetClass = Some CLASS)
         && negb (bool_decide (srcClassId = targetClassId))
      then accumulate cl (linkKey (default "undefined" srcClassId)
                                  (default "undefined" targetClassId))
                      (count linkData) (dir linkData)
      else cl
  | _, _ => cl
  end.

(** [Object.values(ms).reduce((sum, val) => sum + val, 0)] *)
Definition totalCount (ms : list (string * Z)) : Z :=
  fold_left (fun sum '(_, val) => (sum + val)%Z) ms 0%Z.

(** Third loop, one side of a method entry of the class [srcClassId]. *)
Definition classFanStep (out : bool) (srcClassId : string)
    (cl : JsMap.t LinkData) (entry : string * list (string * Z))
  : JsMap.t LinkData :=
  let '(otherClassName, otherMethods) := entry in
  match findClassFile m classToFilesMap otherClassName with
  | None => cl
  | Some otherFile =>
      if negb (Js.truthy otherFile) then cl
      else
        let otherClassId := otherFile +:+ "::" +:+ otherClassName in
        if negb (JsMap.has m otherClassId) || String.eqb srcClassId otherClassId then cl
        else if out
             then accumulate cl (linkKey srcClassId otherClassId)
                             (totalCount otherMethods) FanOut
             else accumulate cl (linkKey otherClassId srcClassId)
                             (totalCount otherMethods) FanIn
  end.

Definition directClassStep (file : string) (cl : JsMap.t LinkData)
    (entry : string * ClassDetails) : JsMap.t LinkData :=
  let '(srcClassName, details) := entry in
  match details with
  | NotArray => cl
  | Members methods =>
      let srcClassId := file +:+ "::" +:+ srcClassName in
      if negb (JsMap.has m srcClassId) then cl
      else
        fold_left (fun cl method =>
          let cl1 := fold_left (classFanStep true srcClassId) (fanOut method) cl in
          fold_left (classFanStep false srcClassId) (fanIn method) cl1)
          methods cl
  end.

Definition classLinksOf (methodLinks functionLinks : JsMap.t LinkData)
    (data : MetricData) (cl : JsMap.t LinkData) : JsMap.t LinkData :=
  let cl1 := fold_left promoteMethodLink methodLinks cl in
  let cl2 := fold_left promoteFunctionLink functionLinks cl1 in
  fold_left (fun cl '(file, clsMap) => fold_left (directClassStep file) clsMap cl)
            (classCoupling data) cl2.

(** *** [buildFileLevelCoupling] *)

(** First loop: class-level edges promoted to the owning files. *)
Definition promoteClassLink (fl : JsMap.t LinkData) (entry : string * LinkData)
  : JsMap.t LinkData :=
  let '(key, linkData) := entry in
  let '(srcClassId, targetClassId) := Js.splitArrowPair key in
  match node srcClassId, node targetClassId with
  | Some srcClass, Some targetClass =>
      if bool_decide (GraphNode.type srcClass = CLASS)
         && bool_decide (GraphNode.type targetClass = CLASS)
      then
        let srcFileId := GraphNode.parentId srcClass in
        let targetFileId := GraphNode.parentId targetClass in
        if negb (bool_decide (srcFileId = targetFileId))
        then accumulate fl (linkKey (default "undefined" srcFileId)
                                    (default "undefined" targetFileId))
                        (count linkData) (dir linkData)
        else fl
      else fl
  | _, _ => fl
  end.

(** Second loop: edges between two standalone functions of different
    files. *)
Definition promoteStandaloneLink (fl : JsMap.t LinkData) (entry : string * LinkData)
  : JsMap.t LinkData :=
  let '(key, linkData) := entry in
  let '(srcFuncId, targetFuncId) := Js.splitArrowPair key in
  match node srcFuncId, node targetFuncId with
  | Some srcFunc, Some targetFunc =>
      let srcParent := GraphNode.parentId srcFunc ≫= node in
      let targetParent := GraphNode.parentId targetFunc ≫= node in
      if bool_decide (GraphNode.type <$> srcParent = Some FILE)
         && bool_decide (GraphNode.type <$> targetParent = Some FILE)
      then
        let srcFileId := GraphNode.parentId srcFunc in
        let targetFileId := GraphNode.parentId targetFunc in
        if negb (bool_decide (srcFileId = targetFileId))
        then accumulate fl (linkKey (default "undefined" srcFileId)
                                    (default "undefined" targetFileId))
                        (count linkData) (dir linkData)
        else fl
      else fl
  | _, _ => fl
  end.

Definition fileLinksOf (classLinks functionLinks : JsMap.t LinkData) : JsMap.t LinkData :=
  let fl1 := fold_left promoteClassLink classLinks [] in
  fold_left promoteStandaloneLink functionLinks fl1.

End ClassLevel.

Definition buildClassLevelCoupling (methodLinks : JsMap.t LinkData) (reg : Registry)
    (classLinks functionLinks : JsMap.t LinkData) (data : MetricData)
    (classToFilesMap : JsMap.t (list string)) (links : list GraphLink.t)
  : JsMap.t LinkData * list GraphLink.t :=
  let cl := classLinksOf (heap reg) (nodesMap reg) classToFilesMap
                         methodLinks functionLinks data classLinks in
  (cl, links ++ emitLinks COUPLING cl).

Definition buildFileLevelCoupling (classLinks : JsMap.t LinkData) (reg : Registry)
    (functionLinks : JsMap.t LinkData) (links : list GraphLink.t) : list GraphLink.t :=
  links ++ emitLinks DEPENDENCY
             (fileLinksOf (heap reg) (nodesMap reg) classLinks functionLinks).

(** *** [buildGraph] *)

Definition buildGraph (data : MetricData) : HierarchicalData :=
  let '(reg1, links1) := buildDirectories data emptyRegistry [] in
  let '(reg2, classToFilesMap) := buildClassToFileMap data reg1 in
  let '(reg3, functionToFileMap) := buildFunctionToFileMap data reg2 in
  let '(methodLinks, links2) :=
    buildMethodLevelCoupling data (nodesMap reg3) classToFilesMap [] links1 in
  let '(functionLinks, links3) :=
    buildFunctionLevelCoupling (funcCoupling data) (nodesMap reg3)
                               functionToFileMap [] links2 in
  let '(classLinks, links4) :=
    buildClassLevelCoupling methodLinks reg3 [] functionLinks data
                            classToFilesMap links3 in
  let links5 := buildFileLevelCoupling classLinks reg3 functionLinks links4 in
  mkHierarchicalData (heap reg3) (JsMap.values (nodesMap reg3)) links5.

(** The registry and the two symbol indices [buildGraph] holds once its
    registration passes are done. *)
Definition registryOf (data : MetricData) : Registry :=
  (buildFunctionToFileMap data
     (buildClassToFileMap data (buildDirectories data emptyRegistry []).1).1).1.

Definition classIndexOf (data : MetricData) : JsMap.t (list string) :=
  (buildClassToFileMap data (buildDirectories data emptyRegistry []).1).2.

Definition functionIndexOf (data : MetricData) : JsMap.t string :=
  (buildFunctionToFileMap data
     (buildClassToFileMap data (buildDirectories data emptyRegistry []).1).1).2.

End GraphDataService.

(** ** Specification of the containment forest *)

Module Containment.
Import GraphDataService.

(** The directory ids [buildDirectories] derives from one path: the
    cumulative prefixes of its directory segments. *)
Fixpoint dirIdsFrom (currentPath : string) (parts : list string) : list string :=
  match parts with
  | [] => []
  | part :: rest =>
      let i := if Js.truthy currentPath
               then currentPath +:+ "/" +:+ part else part in
      i :: dirIdsFrom i rest
  end.

Definition dirIds (path : string) : list string :=
  dirIdsFrom "" (Js.pop (Js.splitChar "/" path)).1.

(** All ids a list of paths gives rise to. *)
Definition allIds (paths : list string) : list string :=
  flat_map (fun q => dirIds q ++ [q]) paths.

(** The registry is a forest: it holds exactly the created nodes, each
    under its id; a node with a parent is listed once among the children of
    the registered node of that id, which was created before it; and every
    listed child names its parent. *)
Record forest (reg : Registry) : Prop := mkForest {
  forest_registry : forall i r,
    JsMap.get (nodesMap reg) i = Some r <->
    GraphNode.id <$> heap reg !! r = Some i;
  forest_parent : forall r n p,
    heap reg !! r = Some n -> GraphNode.parentId n = Some p ->
    Js.truthy p = true ->
    exists rp pn, JsMap.get (nodesMap reg) p = Some rp
                  /\ heap reg !! rp = Some pn /\ rp < r
                  /\ r ∈ default [] (GraphNode.children pn);
  forest_children : forall rp pn c,
    heap reg !! rp = Some pn -> c ∈ default [] (GraphNode.children pn) ->
    exists cn, heap reg !! c = Some cn
               /\ GraphNode.parentId cn = Some (GraphNode.id pn)
               /\ Js.truthy (GraphNode.id pn) = true;
  forest_children_once : forall rp pn,
    heap reg !! rp = Some pn -> NoDup (default [] (GraphNode.children pn))
}.

(** The number of created nodes that carry a given id. *)
Definition created (reg : Registry) (i : string) : nat :=
  length (List.filter (fun n => String.eqb (GraphNode.id n) i) (heap reg)).

(** The cursor of the directory loop points at a registered node. *)
Definition cursorOk (reg : Registry) (cur : DirCursor) : Prop :=
  (parentId cur = None /\ currentPath cur = "")
  \/ (parentId cur = Some (currentPath cur)
      /\ JsMap.has (nodesMap reg) (currentPath cur) = true).

End Containment.

(** ** Registry keys *)

(** [!s.includes(':')]: the names for which the [::]-joined ids decompose
    in one way only. *)
Fixpoint noColon (s : string) : bool :=
  match s with
  | EmptyString => true
  | String c s' => negb (Ascii.eqb c ":") && noColon s'
  end.

(** The raw name [method.key?.name || 'unknown'] of a class member. *)
Definition rawName (method : ClassMember) : string :=
  Js.orElse (keyName method) "unknown".

(** From one heap to a later one: the objects keep their place, id, label
    and type. *)
Definition keeps (h h' : list GraphNode.t) : Prop :=
  forall r n, h !! r = Some n ->
    exists n', h' !! r = Some n'
               /\ GraphNode.id n' = GraphNode.id n
               /\ GraphNode.label n' = GraphNode.label n
               /\ GraphNode.type n' = GraphNode.type n.

(** From one registry to a later one: the objects are kept, and every
    registered key stays registered. *)
Definition grows (reg reg' : GraphDataService.Registry) : Prop :=
  keeps (GraphDataService.heap reg) (GraphDataService.heap reg')
  /\ (forall k, JsMap.has (GraphDataService.nodesMap reg) k = true ->
                JsMap.has (GraphDataService.nodesMap reg') k = true).

(** The key [k] keeps its entry. *)
Definition stays (k : string) (reg reg' : GraphDataService.Registry) : Prop :=
  forall r, JsMap.get (GraphDataService.nodesMap reg) k = Some r ->
            JsMap.get (GraphDataService.nodesMap reg') k = Some r.

(** From one registry to a later one that kept the entries of [k1] and
    [k2]. *)
Definition later (k1 k2 : string) (reg reg' : GraphDataService.Registry) : Prop :=
  grows reg reg' /\ stays k1 reg reg' /\ stays k2 reg reg'.

(** The keys [k1] and [k2] are entries of the one constructor node [r]. *)
Definition aliased (reg : GraphDataService.Registry) (k1 k2 : string) (r : ref)
  : Prop :=
  JsMap.get (GraphDataService.nodesMap reg) k1 = Some r
  /\ JsMap.get (GraphDataService.nodesMap reg) k2 = Some r
  /\ exists n, GraphDataService.heap reg !! r = Some n
               /\ GraphNode.id n = k1
               /\ GraphNode.label n = "constructor"
               /\ GraphNode.type n = FUNCTION.

(** ** The reports behind the call edges *)

(** A report accepted by a coupling pass: the key of the directed pair it
    resolves to, its count and the loop that produced it. *)
Record Report := mkReport {
  reportKey : string;
  reportCount : Z;
  reportDir : Direction
}.

Module Reports.
Import GraphDataService.

Section MethodLevel.
Variable m : JsMap.t ref.
Variable classToFilesMap : JsMap.t (list string).

(** The reports of one fan map of the method [srcMethodId]: the entries
    whose class resolves to a registered class and whose method is a
    registered node other than [srcMethodId] itself. *)
Definition ofMethodFan (out : bool) (srcMethodId : string)
    (entry : string * list (string * Z)) : list Report :=
  let '(otherClassName, otherMethods) := entry in
  match findClassFile m classToFilesMap otherClassName with
  | None => []
  | Some otherFile =>
      let otherClassId := otherFile +:+ "::" +:+ otherClassName in
      if Js.truthy otherFile && JsMap.has m otherClassId then
        flat_map (fun '(otherMethodName, cnt) =>
          let otherMethodId :=
            otherClassId +:+ "::" +:+ normalizeMethodName otherMethodName in
          if JsMap.has m otherMethodId && negb (String.eqb srcMethodId otherMethodId)
          then [if out
                then mkReport (linkKey srcMethodId otherMethodId) cnt FanOut
                else mkReport (linkKey otherMethodId srcMethodId) cnt FanIn]
          else []) otherMethods
      else []
  end.

Definition ofMethod (classId : string) (method : ClassMember) : list Report :=
  let srcMethodId :=
    classId +:+ "::" +:+ normalizeMethodName (Js.orElse (keyName method) "unknown") in
  if JsMap.has m srcMethodId then
    flat_map (ofMethodFan true srcMethodId) (fanOut method)
    ++ flat_map (ofMethodFan false srcMethodId) (fanIn method)
  else [].

Definition ofClass (file : string) (entry : string * ClassDetails) : list Report :=
  match entry.2 with
  | NotArray => []
  | Members methods =>
      let classId := file +:+ "::" +:+ entry.1 in
      if JsMap.has m classId then flat_map (ofMethod classId) methods else []
  end.

(** All reports of the class-coupling metric, in the order the method-level
    pass meets them. *)
Definition methodReports (data : MetricData) : list Report :=
  flat_map (fun entry => flat_map (ofClass entry.1) entry.2) (classCoupling data).

End MethodLevel.

Section FunctionLevel.
Variable m : JsMap.t ref.
Variable functionToFileMap : JsMap.t string.

Definition ofFuncFan (out : bool) (srcFuncId : string) (entry : string * Z)
  : list Report :=
  let '(otherFuncName, cnt) := entry in
  match JsMap.get functionToFileMap otherFuncName with
  | None => []
  | Some otherFile =>
      let otherFuncId := otherFile +:+ "::" +:+ otherFuncName in
      if Js.truthy otherFile && JsMap.has m otherFuncId
         && negb (String.eqb srcFuncId otherFuncId)
      then [if out
            then mkReport (linkKey srcFuncId otherFuncId) cnt FanOut
            else mkReport (linkKey otherFuncId srcFuncId) cnt FanIn]
      else []
  end.

Definition ofFunc (srcFile : string) (entry : string * FuncDetails) : list Report :=
  let srcFuncId := srcFile +:+ "::" +:+ entry.1 in
  if JsMap.has m srcFuncId then
    flat_map (ofFuncFan true srcFuncId) (fnFanOut entry.2)
    ++ flat_map (ofFuncFan false srcFuncId) (fnFanIn entry.2)
  else [].

(** All reports of the function-coupling metric, in processing order. *)
Definition functionReports (fnCoupling : list (string * list (string * FuncDetails)))
  : list Report :=
  flat_map (fun entry => flat_map (ofFunc entry.1) entry.2) fnCoupling.

End FunctionLevel.

(** The counts reported for one key, in order. *)
Definition countsFor (key : string) (rs : list Report) : list Z :=
  map reportCount (List.filter (fun r => String.eqb (reportKey r) key) rs).

Definition total (ns : list Z) : Z := fold_right Z.add 0%Z ns.

(** Replaying a list of reports on a link map. *)
Definition applyReports (rs : list Report) (ml : JsMap.t LinkData) : JsMap.t LinkData :=
  fold_left (fun ml r => accumulate ml (reportKey r) (reportCount r) (reportDir r))
            rs ml.



End Reports.

(** ** The metric fetch layer ([loadHierarchy]) *)

Module MetricFetch.

(** What a request observable does: it emits one value and completes, it
    fails, or it has not settled. *)
Inductive Observable (A : Type) :=
| Emits (a : A)
| Errors
| Pending.
Arguments Emits {A} a.
Arguments Errors {A}.
Arguments Pending {A}.

(** [o.pipe(catchError(() => of(d)))] *)
Definition catchError {A} (o : Observable A) (d : A) : Observable A :=
  match o with
  | Errors => Emits d
  | _ => o
  end.

(** [o.pipe(map(f))] *)
Definition mapO {A B} (f : A -> B) (o : Observable A) : Observable B :=
  match o with
  | Emits a => Emits (f a)
  | Errors => Errors
  | Pending => Pending
  end.

(** [forkJoin({ k1: o1, ... })]: fails as soon as a source fails, emits the
    object of the sources' values once all of them have completed. *)
Fixpoint forkJoin {A} (sources : list (string * Observable A))
  : Observable (list (string * A)) :=
  match sources with
  | [] => Emits []
  | (k, o) :: rest =>
      match o, forkJoin rest with
      | Errors, _ => Errors
      | _, Errors => Errors
      | Emits a, Emits r => Emits ((k, a) :: r)
      | _, _ => Pending
      end
  end.

(** The requests of [MetricsService]. *)
Inductive Request :=
| GetMetric (repoId metricName : string)
| GetLocSloc (repoId : string)
| GetDependencies (repoId : string).

(** The metric a request asks the analysis service for (the last segment of
    its URL). *)
Definition metricOf (rq : Request) : string :=
  match rq with
  | GetMetric _ name => name
  | GetLocSloc _ => "loc-sloc"
  | GetDependencies _ => "dependencies"
  end.

Section LoadHierarchy.
(** The JSON payloads, the three defaults [{ result: {} }], [{ byFile: {} }]
    and [{ graph: {} }], the HTTP client and the stage
    [map(data => this.buildGraph(data))]. *)
Variable Payload : Type.
Variables emptyResult emptyByFile emptyGraph : Payload.
Variable http : Request -> Observable Payload.
Variable build : list (string * Payload) -> HierarchicalData.

(** The sources of a [forkJoin]: field, request, default on failure. *)
Definition gathered (sources : list (string * Request * Payload))
  : Observable (list (string * Payload)) :=
  forkJoin (map (fun '(field, rq, d) => (field, catchError (http rq) d)) sources).

Definition join (sources : list (string * Request * Payload))
  : Observable HierarchicalData :=
  mapO build (gathered sources).

(** What a source contributes once it has settled: its value, or its
    default when it failed. *)
Definition settled (s : string * Request * Payload) : string * Payload :=
  (s.1.1, match http s.1.2 with
          | Emits a => a
          | _ => s.2
          end).

(** [const req = (name) => this.metrics.getMetric(repoId, name)
       .pipe(catchError(() => of({ result: {} })))] *)
Definition req (repoId field name : string) : string * Request * Payload :=
  (field, GetMetric repoId name, emptyResult).

(** [loadHierarchy] of the refactored service (the one whose [buildGraph]
    is embedded above). *)
Definition sources (repoId : string) : list (string * Request * Payload) :=
  [ req repoId "files" "files";
    req repoId "classes" "classes-per-file";
    req repoId "classCoupling" "class-coupling";
    req repoId "funcs" "functions-per-file";
    req repoId "funcCoupling" "function-coupling" ].

Definition loadHierarchy (repoId : string) : Observable HierarchicalData :=
  join (sources repoId).

(** [loadHierarchy] of the earlier version of the service. *)
Definition sourcesEarlier (repoId : string) : list (string * Request * Payload) :=
  [ req repoId "files" "files";
    ("loc", GetLocSloc repoId, emptyByFile);
    ("dependencies", GetDependencies repoId, emptyGraph);
    req repoId "classes" "classes-per-file";
    req repoId "classCoupling" "class-coupling";
    req repoId "funcs" "functions-per-file";
    req repoId "funcCoupling" "function-coupling" ].

Definition loadHierarchyEarlier (repoId : string) : Observable HierarchicalData :=
  join (sourcesEarlier repoId).

(** The metrics requested by a list of sources. *)
Definition requested (srcs : list (string * Request * Payload)) : list string :=
  map (fun s => metricOf s.1.2) srcs.

End LoadHierarchy.

(** The seven metrics of the specification. *)
Definition requiredMetrics : list string :=
  [ "files"; "loc-sloc"; "dependencies"; "classes-per-file"; "class-coupling";
    "functions-per-file"; "function-coupling" ].

End MetricFetch.

(** ** The graph view controllers *)

(** Outcome of running a handler of the view: a value, a run-time
    [TypeError], or a loop that has not finished within the given number of
    iterations. *)
Inductive result (A : Type) :=
| Ok (a : A)
| Throws
| OutOfFuel.
Arguments Ok {A} a.
Arguments Throws {A}.
Arguments OutOfFuel {A}.

Definition rbind {A B} (x : result A) (f : A -> result B) : result B :=
  match x with
  | Ok a => f a
  | Throws => Throws
  | OutOfFuel => OutOfFuel
  end.

Notation "x <- e1 ;;; e2" := (rbind e1 (fun x => e2))
  (at level 100, e1 at next level, right associativity).

(** [arr.filter(p)] for a predicate that runs a loop. *)
Fixpoint filterR {A} (p : A -> result bool) (l : list A) : result (list A) :=
  match l with
  | [] => Ok []
  | x :: l' =>
      b <- p x ;;;
      r <- filterR p l' ;;;
      Ok (if b : bool then x :: r else r)
  end.

Module RenderNode.
(** [interface RenderNode]; the simulation coordinates, radius and colour
    do not take part in the visible-set logic and are left out. *)
Record t := mk {
  id : string;
  label : string;
  type : NodeType;
  parentId : option string;
  data : ref
}.
End RenderNode.

Module RenderLink.
(** [interface RenderLink].  The ends are read from [visibleNodeMap] with a
    non-null assertion, hence [option]. *)
Record t := mk {
  source : option RenderNode.t;
  target : option RenderNode.t;
  value : Z
}.
End RenderLink.

(** The fields of a component that are fixed once the graph is loaded. *)
Record Graph := mkGraph {
  objects : list GraphNode.t;
  allNodesMap : JsMap.t ref;
  allLinks : list GraphLink.t
}.

(** The fields that change with the user's clicks. *)
Record View := mkView {
  vnodes : list RenderNode.t;
  vlinks : list RenderLink.t;
  expandedNodes : list string
}.

(** [allNodesMap.get(id)] *)
Definition getNode (g : Graph) (i : string) : option GraphNode.t :=
  JsMap.get (allNodesMap g) i ≫= (fun r => objects g !! r).

Definition createRenderNode (h : list GraphNode.t) (r : ref) : option RenderNode.t :=
  (fun n => RenderNode.mk (GraphNode.id n) (GraphNode.label n) (GraphNode.type n)
                          (GraphNode.parentId n) r) <$> h !! r.

(** [Set.prototype.add] and [delete] on an insertion-ordered set. *)
Definition setAdd (s : list string) (x : string) : list string :=
  if bool_decide (x ∈ s) then s else s ++ [x].
Definition setDelete (s : list string) (x : string) : list string :=
  filter (fun y => y ≠ x) s.

(** [new Map(nodes.map(n => [n.id, n]))] *)
Definition visibleNodeMapOf (ns : list RenderNode.t) : JsMap.t RenderNode.t :=
  fold_left (fun m n => JsMap.set m (RenderNode.id n) n) ns [].

(** [visibleNodeIds.has(id)] for [new Set(nodes.map(n => n.id))] *)
Definition isVisible (ns : list RenderNode.t) (i : string) : bool :=
  bool_decide (i ∈ map RenderNode.id ns).

Definition viewKey (sourceId targetId : string) : string :=
  sourceId +:+ "-" +:+ targetId.

Module HierarchicalGraph.

(** [findVisible]: the loop [while (curr) { ... }]. *)
Fixpoint findVisible (g : Graph) (ns : list RenderNode.t) (fuel : nat)
    (curr : option string) : result (option string) :=
  match fuel with
  | O => OutOfFuel
  | S fuel' =>
      match curr with
      | Some c =>
          if Js.truthy c then
            if isVisible ns c then Ok (Some c)
            else findVisible g ns fuel' (getNode g c ≫= GraphNode.parentId)
          else Ok None
      | None => Ok None
      end
  end.

(** Body of [this.allLinks.forEach(l => ...)]. *)
Definition linkStep (g : Graph) (ns : list RenderNode.t) (fuel : nat)
    (acc : result (JsMap.t RenderLink.t)) (l : GraphLink.t)
  : result (JsMap.t RenderLink.t) :=
  newLinks <- acc ;;;
  sourceId <- findVisible g ns fuel (Some (GraphLink.source l)) ;;;
  targetId <- findVisible g ns fuel (Some (GraphLink.target l)) ;;;
  match sourceId, targetId with
  | Some s, Some t =>
      if Js.truthy s && Js.truthy t && negb (String.eqb s t) then
        let key := viewKey s t in
        if negb (JsMap.has newLinks key) then
          Ok (JsMap.set newLinks key
                (RenderLink.mk (JsMap.get (visibleNodeMapOf ns) s)
                               (JsMap.get (visibleNodeMapOf ns) t) 1%Z))
        else Ok newLinks
      else Ok newLinks
  | _, _ => Ok newLinks
  end.

Definition updateLinks (g : Graph) (fuel : nat) (ns : list RenderNode.t)
  : result (list RenderLink.t) :=
  newLinks <- fold_left (linkStep g ns fuel) (allLinks g) (Ok []) ;;;
  Ok (JsMap.values newLinks).

(** [updateSimulation], as far as the component's own fields go. *)
Definition updateSimulation (g : Graph) (fuel : nat) (ns : list RenderNode.t)
    (ex : list string) : result View :=
  ls <- updateLinks g fuel ns ;;;
  Ok (mkView ns ls ex).

(** [loadGraph], the [next] handler. *)
Definition loadedGraph (data : HierarchicalData) : Graph :=
  mkGraph (store data)
    (fold_left (fun m r => match store data !! r with
                           | Some n => JsMap.set m (GraphNode.id n) r
                           | None => m
                           end) (nodes data) [])
    (links data).

Definition rootNodes (data : HierarchicalData) : list ref :=
  List.filter (fun r => match store data !! r with
                        | Some n => negb (Js.truthyO (GraphNode.parentId n))
                        | None => false
                        end) (nodes data).

Definition loadGraph (data : HierarchicalData) (fuel : nat) : result View :=
  updateSimulation (loadedGraph data) fuel
    (omap (createRenderNode (store data)) (rootNodes data)) [].

(** [expand] *)
Definition expand (g : Graph) (fuel : nat) (v : View) (parent : RenderNode.t)
  : result View :=
  let ex := setAdd (expandedNodes v) (RenderNode.id parent) in
  let ns := List.filter (fun n => negb (String.eqb (RenderNode.id n) (RenderNode.id parent)))
                        (vnodes v) in
  match getNode g (RenderNode.id parent) ≫= GraphNode.children with
  | Some children =>
      updateSimulation g fuel (ns ++ omap (createRenderNode (objects g)) children) ex
  | None => Throws
  end.

(** [handleNodeClick] *)
Definition handleNodeClick (g : Graph) (fuel : nat) (v : View) (node : RenderNode.t)
  : result View :=
  match getNode g (RenderNode.id node) with
  | None => Ok v
  | Some original =>
      match GraphNode.children original with
      | None | Some [] => Ok v
      | Some (_ :: _) => expand g fuel v node
      end
  end.

(** The local function [isDescendant] of [collapse]. *)
Fixpoint isDescendant (g : Graph) (parentId : string) (fuel : nat) (i : string)
  : result bool :=
  match fuel with
  | O => OutOfFuel
  | S fuel' =>
      match getNode g i with
      | None => Ok false
      | Some n =>
          match GraphNode.parentId n with
          | None => Ok false
          | Some p =>
              if negb (Js.truthy p) then Ok false
              else if String.eqb p parentId then Ok true
              else isDescendant g parentId fuel' p
          end
      end
  end.

(** [collapse] *)
Definition collapse (g : Graph) (fuel : nat) (v : View) (parentId : string)
  : result View :=
  let ex := setDelete (expandedNodes v) parentId in
  ns <- filterR (fun n => b <- isDescendant g parentId fuel (RenderNode.id n) ;;;
                          Ok (negb b)) (vnodes v) ;;;
  match JsMap.get (allNodesMap g) parentId with
  | Some r =>
      match createRenderNode (objects g) r with
      | Some pn => updateSimulation g fuel (ns ++ [pn]) ex
      | None => Throws
      end
  | None => Throws
  end.

(** [drawEnclosures] draws a clickable enclosure for [parentId] when it is
    expanded and one of its children is on screen. *)
Definition hasEnclosure (v : View) (parentId : string) : bool :=
  bool_decide (parentId ∈ expandedNodes v) &&
  existsb (fun n => bool_decide (RenderNode.parentId n = Some parentId)) (vnodes v).

End HierarchicalGraph.

Module ModuleFunctionGraph.

(** The loop [while (curr && curr.parentId) { ... }] of [findVisible]. *)
Fixpoint findVisibleLoop (g : Graph) (ns : list RenderNode.t) (fuel : nat)
    (curr : option GraphNode.t) : result (option string) :=
  match fuel with
  | O => OutOfFuel
  | S fuel' =>
      match curr ≫= GraphNode.parentId with
      | Some p =>
          if Js.truthy p then
            if isVisible ns p then Ok (Some p)
            else findVisibleLoop g ns fuel' (getNode g p)
          else Ok None
      | None => Ok None
      end
  end.

Definition findVisible (g : Graph) (ns : list RenderNode.t) (fuel : nat) (i : string)
  : result (option string) :=
  if isVisible ns i then Ok (Some i)
  else findVisibleLoop g ns fuel (getNode g i).

(** Body of [this.allLinks.forEach(l => ...)]; a repeated key increments
    the stored link's [value]. *)
Definition linkStep (g : Graph) (ns : list RenderNode.t) (fuel : nat)
    (acc : result (JsMap.t RenderLink.t)) (l : GraphLink.t)
  : result (JsMap.t RenderLink.t) :=
  newLinks <- acc ;;;
  sourceId <- findVisible g ns fuel (GraphLink.source l) ;;;
  targetId <- findVisible g ns fuel (GraphLink.target l) ;;;
  match sourceId, targetId with
  | Some s, Some t =>
      if Js.truthy s && Js.truthy t && negb (String.eqb s t) then
        let key := viewKey s t in
        match JsMap.get newLinks key with
        | None =>
            Ok (JsMap.set newLinks key
                  (RenderLink.mk (JsMap.get (visibleNodeMapOf ns) s)
                                 (JsMap.get (visibleNodeMapOf ns) t) 1%Z))
        | Some e =>
            Ok (JsMap.set newLinks key
                  (RenderLink.mk (RenderLink.source e) (RenderLink.target e)
                                 (RenderLink.value e + 1)%Z))
        end
      else Ok newLinks
  | _, _ => Ok newLinks
  end.

Definition updateLinks (g : Graph) (fuel : nat) (ns : list RenderNode.t)
  : result (list RenderLink.t) :=
  newLinks <- fold_left (linkStep g ns fuel) (allLinks g) (Ok []) ;;;
  Ok (JsMap.values newLinks).

Definition updateSimulation (g : Graph) (fuel : nat) (ns : list RenderNode.t)
    (ex : list string) : result View :=
  ls <- updateLinks g fuel ns ;;;
  Ok (mkView ns ls ex).

(** [n.type === 'DIRECTORY' || n.type === 'FILE' || n.type === 'FUNCTION'] *)
Definition shown (ty : NodeType) : bool :=
  match ty with CLASS => false | _ => true end.

Definition filteredNodes (data : HierarchicalData) : list ref :=
  List.filter (fun r => match store data !! r with
                        | Some n => shown (GraphNode.type n)
                        | None => false
                        end) (nodes data).

Definition hasNodeWithId (data : HierarchicalData) (rs : list ref) (i : string) : bool :=
  existsb (fun r => match store data !! r with
                    | Some n => String.eqb (GraphNode.id n) i
                    | None => false
                    end) rs.

Definition loadedGraph (data : HierarchicalData) : Graph :=
  mkGraph (store data)
    (fold_left (fun m r => match store data !! r with
                           | Some n => JsMap.set m (GraphNode.id n) r
                           | None => m
                           end) (filteredNodes data) [])
    (List.filter (fun l =>
       bool_decide (GraphLink.type l = CALL)
       && hasNodeWithId data (filteredNodes data) (GraphLink.source l)
       && hasNodeWithId data (filteredNodes data) (GraphLink.target l)) (links data)).

Definition rootNodes (data : HierarchicalData) : list ref :=
  List.filter (fun r => match store data !! r with
                        | Some n => negb (Js.truthyO (GraphNode.parentId n))
                        | None => false
                        end) (filteredNodes data).

Definition loadGraph (data : HierarchicalData) (fuel : nat) : result View :=
  updateSimulation (loadedGraph data) fuel
    (omap (createRenderNode (store data)) (rootNodes data)) [].

(** [handleNodeClick] *)
Definition handleNodeClick (g : Graph) (fuel : nat) (v : View) (node : RenderNode.t)
  : result View :=
  match getNode g (RenderNode.id node) with
  | None => Ok v
  | Some original =>
      match GraphNode.children original with
      | None | Some [] => Ok v
      | Some (c :: cs) =>
          let ex := setAdd (expandedNodes v) (RenderNode.id node) in
          let ns := List.filter (fun n => negb (String.eqb (RenderNode.id n)
                                                          (RenderNode.id node)))
                                (vnodes v) in
          let childrenToAdd :=
            List.filter (fun n => shown (RenderNode.type n))
                        (omap (createRenderNode (objects g)) (c :: cs)) in
          updateSimulation g fuel (ns ++ childrenToAdd) ex
      end
  end.

(** The loop of [isDescendant]. *)
Fixpoint isDescendantLoop (g : Graph) (ancestorId : string) (fuel : nat)
    (curr : option GraphNode.t) : result bool :=
  match fuel with
  | O => OutOfFuel
  | S fuel' =>
      match curr ≫= GraphNode.parentId with
      | Some p =>
          if Js.truthy p then
            if String.eqb p ancestorId then Ok true
            else isDescendantLoop g ancestorId fuel' (getNode g p)
          else Ok false
      | None => Ok false
      end
  end.

Definition isDescendant (g : Graph) (fuel : nat) (nodeId ancestorId : string)
  : result bool :=
  isDescendantLoop g ancestorId fuel (getNode g nodeId).

(** [collapse] *)
Definition collapse (g : Graph) (fuel : nat) (v : View) (parentId : string)
  : result View :=
  let ex := setDelete (expandedNodes v) parentId in
  ns <- filterR (fun n => b <- isDescendant g fuel (RenderNode.id n) parentId ;;;
                          Ok (negb b)) (vnodes v) ;;;
  match JsMap.get (allNodesMap g) parentId with
  | Some r =>
      match createRenderNode (objects g) r with
      | Some pn => updateSimulation g fuel (ns ++ [pn]) ex
      | None => Throws
      end
  | None => Throws
  end.

End ModuleFunctionGraph.

(** ** The view as a transition system *)

(** A handler run with some number of loop iterations returns [a]. *)
Definition runs {A} (f : nat -> result A) (a : A) : Prop :=
  exists fuel, f fuel = Ok a.

(** The user's actions: a click on a drawn node, a click on a drawn
    enclosure. *)
Inductive event :=
| Click (node : RenderNode.t)
| ClickEnclosure (parentId : string).

Inductive step (g : Graph) : View -> event -> View -> Prop :=
| step_click v node v' :
    node ∈ vnodes v ->
    runs (fun fuel => HierarchicalGraph.handleNodeClick g fuel v node) v' ->
    step g v (Click node) v'
| step_collapse v parentId v' :
    HierarchicalGraph.hasEnclosure v parentId = true ->
    runs (fun fuel => HierarchicalGraph.collapse g fuel v parentId) v' ->
    step g v (ClickEnclosure parentId) v'.

Inductive reachable (data : HierarchicalData) : View -> Prop :=
| reachable_init v :
    runs (HierarchicalGraph.loadGraph data) v -> reachable data v
| reachable_step v e v' :
    reachable data v ->
    step (HierarchicalGraph.loadedGraph data) v e v' ->
    reachable data v'.

(** ** Specification of the visible edges *)

(** [nearestVisible g ns i a]: walking up [parentId] from the node [i], the
    first node on screen is [a] ([i] itself when it is on screen). *)
Inductive nearestVisible (g : Graph) (ns : list RenderNode.t)
  : string -> string -> Prop :=
| nearest_self i :
    Js.truthy i = true -> isVisible ns i = true ->
    nearestVisible g ns i i
| nearest_up i p a :
    Js.truthy i = true -> isVisible ns i = false ->
    getNode g i ≫= GraphNode.parentId = Some p ->
    nearestVisible g ns p a ->
    nearestVisible g ns i a.

(** The test [sourceId && targetId && sourceId !== targetId] on the two
    resolved ends of a raw edge. *)
Definition resolvedPair (so to : option string) : option (string * string) :=
  match so, to with
  | Some s, Some t =>
      if Js.truthy s && Js.truthy t && negb (String.eqb s t) then Some (s, t)
      else None
  | _, _ => None
  end.

(** The pair of visible ends a raw edge contributes to the view, for either
    component's [findVisible]. *)
Definition resolvedBy (find : string -> result (option string)) (raw : GraphLink.t)
  : option (string * string) :=
  match find (GraphLink.source raw), find (GraphLink.target raw) with
  | Ok so, Ok to => resolvedPair so to
  | _, _ => None
  end.

(** The key under which a visible edge is stored. *)
Definition keyOf (l : RenderLink.t) : option string :=
  match RenderLink.source l, RenderLink.target l with
  | Some s, Some t => Some (viewKey (RenderNode.id s) (RenderNode.id t))
  | _, _ => None
  end.

(** The sum of the weights of the raw edges that resolve to a given key. *)
Definition weightOf (find : string -> result (option string))
    (raws : list GraphLink.t) (key : string) : Z :=
  fold_right Z.add 0%Z
    (map GraphLink.value
       (List.filter (fun raw => bool_decide
                       ((fun p => viewKey p.1 p.2) <$> resolvedBy find raw = Some key))
                    raws)).

(** Storing one resolved pair in [newLinks]; [bump] tells whether a repeated
    key increments the stored value. *)
Definition mergePair (bump : bool) (vmap : JsMap.t RenderNode.t)
    (acc : JsMap.t RenderLink.t) (p : string * string) : JsMap.t RenderLink.t :=
  let key := viewKey p.1 p.2 in
  match JsMap.get acc key with
  | None =>
      JsMap.set acc key (RenderLink.mk (JsMap.get vmap p.1) (JsMap.get vmap p.2) 1%Z)
  | Some e =>
      if bump
      then JsMap.set acc key
             (RenderLink.mk (RenderLink.source e) (RenderLink.target e)
                            (RenderLink.value e + 1)%Z)
      else acc
  end.

Definition pairKey (p : string * string) : string := viewKey p.1 p.2.

(** [newLinks] after a list of resolved pairs, and the value stored under a
    key. *)
Definition mergedPairs (bump : bool) (vmap : JsMap.t RenderNode.t)
    (pairs : list (string * string)) : JsMap.t RenderLink.t :=
  fold_left (mergePair bump vmap) pairs [].

Definition mergedValue (bump : bool) (pairs : list (string * string)) (k : string) : Z :=
  if bump
  then Z.of_nat (length (List.filter (fun p => bool_decide (pairKey p = k)) pairs))
  else 1%Z.

(** The pair of node ids a visible edge joins. *)
Definition endsOf (l : RenderLink.t) : option (string * string) :=
  match RenderLink.source l, RenderLink.target l with
  | Some s, Some t => Some (RenderNode.id s, RenderNode.id t)
  | _, _ => None
  end.

(** The number of raw edges that resolve to a given visible pair. *)
Definition countOfPair (find : string -> result (option string))
    (raws : list GraphLink.t) (p : string * string) : Z :=
  Z.of_nat (length
    (List.filter (fun raw => bool_decide (resolvedBy find raw = Some p)) raws)).

(** The ids on screen give every ordered pair a key [`${s}-${t}`] of its
    own. *)
Definition unambiguous (ids : list string) : bool :=
  forallb (fun s => forallb (fun t => forallb (fun s' => forallb (fun t' =>
    implb (String.eqb (viewKey s t) (viewKey s' t'))
          (String.eqb s s' && String.eqb t t')) ids) ids) ids) ids.

(** The visible edges of the specification: with [valueOf] the value of
    the edge of a visible pair, [ls] holds one edge for every pair of
    different visible nodes that the two ends of some raw edge resolve to,
    between the nodes of that pair, and no other edge. *)
Definition visibleEdgesSpec (g : Graph) (ns : list RenderNode.t)
    (valueOf : string * string -> Z) (ls : list RenderLink.t) : Prop :=
  (* every visible edge joins the nearest visible ancestors of some raw edge *)
  (forall l, l ∈ ls ->
     exists raw sn tn,
       raw ∈ allLinks g
       /\ RenderLink.source l = Some sn /\ RenderLink.target l = Some tn
       /\ sn ∈ ns /\ tn ∈ ns
       /\ nearestVisible g ns (GraphLink.source raw) (RenderNode.id sn)
       /\ nearestVisible g ns (GraphLink.target raw) (RenderNode.id tn)
       /\ RenderNode.id sn <> RenderNode.id tn
       /\ RenderLink.value l = valueOf (RenderNode.id sn, RenderNode.id tn))
  (* every raw edge whose ends resolve to different nodes is represented by
     an edge between these two nodes *)
  /\ (forall raw s t,
        raw ∈ allLinks g ->
        nearestVisible g ns (GraphLink.source raw) s ->
        nearestVisible g ns (GraphLink.target raw) t ->
        s <> t ->
        exists l, l ∈ ls /\ endsOf l = Some (s, t))
  (* and a pair has one edge only *)
  /\ NoDup (map endsOf ls).

(** ** Containment as the view sees it *)

(** [descendantOf g a i]: the chain of [parentId]s from [i] reaches [a]. *)
Inductive descendantOf (g : Graph) (a : string) : string -> Prop :=
| descendant_child i n :
    getNode g i = Some n -> GraphNode.parentId n = Some a ->
    Js.truthy a = true ->
    descendantOf g a i
| descendant_up i n p :
    getNode g i = Some n -> GraphNode.parentId n = Some p ->
    Js.truthy p = true -> descendantOf g a p ->
    descendantOf g a i.

(** The graph data a view can rely on: the registry agrees with every
    listed node on its parent; the children of a listed node exist, are
    listed, and name that node as their parent; and [parentId] is
    well-founded. *)
Definition wellFormed (data : HierarchicalData) : Prop :=
  let g := HierarchicalGraph.loadedGraph data in
  (forall r n, r ∈ nodes data -> store data !! r = Some n ->
     GraphNode.parentId <$> getNode g (GraphNode.id n)
     = Some (GraphNode.parentId n))
  /\ (forall r n cs c, r ∈ nodes data -> store data !! r = Some n ->
        GraphNode.children n = Some cs -> c ∈ cs ->
        c ∈ nodes data /\ Js.truthy (GraphNode.id n) = true
        /\ exists cn, store data !! c = Some cn
                      /\ GraphNode.parentId cn = Some (GraphNode.id n))
  /\ (exists rank : string -> nat,
        forall i n p, getNode g i = Some n -> GraphNode.parentId n = Some p ->
                      Js.truthy p = true -> rank p < rank i).

(** The node ids on screen. *)
Definition visibleIds (v : View) : list string := map RenderNode.id (vnodes v).

(** What holds of every state of the view: no node on screen is a
    descendant of a node on screen, the nodes on screen carry the parent the
    registry records for their id, and expanded ids are not empty. *)
Definition viewInvariant (g : Graph) (v : View) : Prop :=
  (forall a b, a ∈ visibleIds v -> b ∈ visibleIds v -> ~ descendantOf g a b)
  /\ (forall n, n ∈ vnodes v ->
        GraphNode.parentId <$> getNode g (RenderNode.id n)
        = Some (RenderNode.parentId n))
  /\ (forall p, p ∈ expandedNodes v -> Js.truthy p = true).

(** A number of iterations that lets every walk up the registry finish,
    from the ends of the raw edges and from the given ids. *)
Definition enoughFuel (rank : string -> nat) (g : Graph) (ids : list string) : nat :=
  S (S (list_max (map rank
          (flat_map (fun raw => [GraphLink.source raw; GraphLink.target raw])
                    (allLinks g) ++ ids)))).

(** ** Example payloads *)

Module Examples.
Import GraphDataService.

Definition method (name : string) (fanOut fanIn : FanMap) : ClassMember :=
  mkClassMember (Some name) fanOut fanIn.

(** Scenario 2 of the specification: [Foo.bar] in [f1] calls [Baz.qux] in
    [f2] three times, reported by the fan-out of [bar] only. *)
Definition scenario2 : MetricData :=
  mkMetricData (FilesArray ["f1"; "f2"]) [] []
    [("f1", [("Foo", Members [method "bar" [] []])]);
     ("f2", [("Baz", Members [method "qux" [] []])])]
    [("f1", [("Foo", Members [method "bar" [("Baz", [("qux", 3%Z)])] []])])]
    [] [].

(** A file that lists itself among its imports. *)
Definition selfImport : MetricData :=
  mkMetricData (FilesArray ["a.ts"]) [] [("a.ts", ["a.ts"])] [] [] [] [].




(** A standalone function of [f1] calling one of [f2] three times. *)
Definition functionCall : MetricData :=
  mkMetricData (FilesArray ["f1"; "f2"]) [] [] [] []
    [("f1", ["foo"]); ("f2", ["baz"])]
    [("f1", [("foo", mkFuncDetails [("baz", 3%Z)] [])])].

(** Scenario 1 of the specification. *)
Definition scenario1 : MetricData :=
  mkMetricData (FilesArray ["a/b/x.ts"; "a/c/y.ts"]) [] [] [] [] [] [].

(** The same path listed twice. *)
Definition duplicatePath : MetricData :=
  mkMetricData (FilesArray ["a/x.ts"; "a/x.ts"]) [] [] [] [] [] [].

(** A class with a constructor and one more method, a second class and a
    standalone function in the same file. *)
Definition withConstructor : MetricData :=
  mkMetricData (FilesArray ["src/a.ts"]) [] []
    [("src/a.ts",
      [("Foo", Members [method "constructor" [] []; method "run" [] []]);
       ("Bar", Members [method "go" [] []])])]
    [] [("src/a.ts", ["helper"])] [].

(** A class whose members are named [constructor] and [_constructor]. *)
Definition constructorPair : MetricData :=
  mkMetricData (FilesArray ["a.ts"]) [] []
    [("a.ts",
      [("Foo", Members [method "constructor" [] []; method "_constructor" [] []])])]
    [] [] [].

(** A class with a constructor in a file the file list does not have. *)
Definition unlistedFile : MetricData :=
  mkMetricData (FilesArray []) [] []
    [("a.ts", [("Foo", Members [method "constructor" [] []])])]
    [] [] [].

(** Four files whose ids give the pairs [(a-b, c)] and [(a, b-c)] the same
    key [a-b-c], with one import for each pair. *)
Definition collidingKeys : MetricData :=
  mkMetricData (FilesArray ["a-b"; "c"; "a"; "b-c"]) []
    [("a-b", ["c"]); ("a", ["b-c"])] [] [] [] [].

(** A file whose name is the id of a class of its sibling: [a/b::c] beside
    the file [a/b] with the class [c]. *)
Definition colonPath : MetricData :=
  mkMetricData (FilesArray ["a/b"; "a/b::c"]) [] []
    [("a/b", [("c", Members [])])] [] [] [].

(** A class with two members of one name (an accessor pair) and a second
    class, beside a standalone function. *)
Definition accessorPair : MetricData :=
  mkMetricData (FilesArray ["src/a.ts"; "src/b.ts"]) [] []
    [("src/a.ts",
      [("Foo", Members [method "size" [] []; method "size" [] []]);
       ("Bar", Members [method "constructor" [] []])])]
    [] [("src/a.ts", ["helper"])] [].

End Examples.

(** ** Further notions of the view *)

(** The [parentId] chains of a registry are finite: a rank decreases from
    every node to its parent. *)
Definition ranked (g : Graph) (rank : string -> nat) : Prop :=
  forall i n p, getNode g i = Some n -> GraphNode.parentId n = Some p ->
                Js.truthy p = true -> rank p < rank i.

Module ModuleFunctionView.

(** [calculateEnclosures]: an enclosure is computed for [parentId] when it
    is expanded and [nodes.filter(n => isDescendant(n.id, parentId))] is
    not empty. *)
Definition hasEnclosure (g : Graph) (fuel : nat) (v : View) (parentId : string)
  : result bool :=
  if bool_decide (parentId ∈ expandedNodes v) then
    descendants <-
      filterR (fun n => ModuleFunctionGraph.isDescendant g fuel (RenderNode.id n) parentId)
              (vnodes v) ;;;
    Ok (negb (Nat.eqb (length descendants) 0))
  else Ok false.

(** The user's actions on the module-function view. *)
Inductive step (g : Graph) : View -> event -> View -> Prop :=
| step_click v node v' :
    node ∈ vnodes v ->
    runs (fun fuel => ModuleFunctionGraph.handleNodeClick g fuel v node) v' ->
    step g v (Click node) v'
| step_collapse v parentId v' :
    runs (fun fuel => hasEnclosure g fuel v parentId) true ->
    runs (fun fuel => ModuleFunctionGraph.collapse g fuel v parentId) v' ->
    step g v (ClickEnclosure parentId) v'.

Inductive reachable (data : HierarchicalData) : View -> Prop :=
| reachable_init v :
    runs (ModuleFunctionGraph.loadGraph data) v -> reachable data v
| reachable_step v e v' :
    reachable data v ->
    step (ModuleFunctionGraph.loadedGraph data) v e v' ->
    reachable data v'.

End ModuleFunctionView.

(** ** Further notions of the service *)

(** Two node objects that differ at most in their [children]. *)
Definition sameFields (n n' : GraphNode.t) : Prop :=
  GraphNode.withChildren n None = GraphNode.withChildren n' None.

(** From one heap to a later one: the objects keep their place and every
    field but [children]. *)
Definition keepsFields (h h' : list GraphNode.t) : Prop :=
  forall r n, h !! r = Some n -> exists n', h' !! r = Some n' /\ sameFields n n'.

(** The registry holds, under [key], a file node with the fields
    [buildDirectories] derives from the path. *)
Definition fileRegistered (data : MetricData) (reg : GraphDataService.Registry)
    (path : string) : Prop :=
  exists r n,
    JsMap.get (GraphDataService.nodesMap reg) path = Some r
    /\ GraphDataService.heap reg !! r = Some n
    /\ GraphNode.id n = path
    /\ GraphNode.type n = FILE
    /\ GraphNode.label n = default "" (last (Js.splitChar "/" path))
    /\ GraphNode.parentId n = last (Containment.dirIds path)
    /\ GraphNode.depth n = Some (length (Containment.dirIds path))
    /\ GraphNode.loc n = Some (GraphDataService.fileLoc data path).

(** What holds of the registry at every point of [buildGraph]: a key is
    registered once; the object under a key carries that key as its id, or,
    under the alias [C::constructor], the id [C::_constructor]; the id of
    every object and the [parentId] of every object are registered keys;
    and a class object has a parent, whose id and the class name make up
    the id of the class. *)
Record consistent (reg : GraphDataService.Registry) : Prop := mkConsistent {
  consistent_keys : NoDup (JsMap.keys (GraphDataService.nodesMap reg));
  consistent_entry : forall k r,
    JsMap.get (GraphDataService.nodesMap reg) k = Some r ->
    exists n, GraphDataService.heap reg !! r = Some n
              /\ (GraphNode.id n = k
                  \/ exists classId, k = classId +:+ "::constructor"
                                     /\ GraphNode.id n = classId +:+ "::_constructor");
  consistent_id : forall r n,
    GraphDataService.heap reg !! r = Some n ->
    JsMap.has (GraphDataService.nodesMap reg) (GraphNode.id n) = true;
  consistent_parent : forall r n p,
    GraphDataService.heap reg !! r = Some n -> GraphNode.parentId n = Some p ->
    JsMap.has (GraphDataService.nodesMap reg) p = true;
  consistent_class : forall r n,
    GraphDataService.heap reg !! r = Some n -> GraphNode.type n = CLASS ->
    exists file, GraphNode.parentId n = Some file
                 /\ GraphNode.id n = file +:+ "::" +:+ GraphNode.label n
}.

(** ** The contributions to the class-level and file-level link maps *)

Module Promotion.
Import GraphDataService.

Section Levels.
Variable h : list GraphNode.t.
Variable m : JsMap.t ref.
Variable classToFilesMap : JsMap.t (list string).

(** What a method-level link adds to [classLinks]: its count, under the
    pair of the parents of its two methods, when both methods are
    registered and have different non-empty parents. *)
Definition ofMethodLink (entry : string * LinkData) : list Report :=
  let '(srcMethodId, targetMethodId) := Js.splitArrowPair entry.1 in
  match node h m srcMethodId, node h m targetMethodId with
  | Some srcMethod, Some targetMethod =>
      let srcClassId := GraphNode.parentId srcMethod in
      let targetClassId := GraphNode.parentId targetMethod in
      if Js.truthyO srcClassId && Js.truthyO targetClassId
         && negb (bool_decide (srcClassId = targetClassId))
      then [mkReport (linkKey (default "" srcClassId) (default "" targetClassId))
                     (count entry.2) (dir entry.2)]
      else []
  | _, _ => []
  end.

(** What a function-level link adds to [classLinks]: its count, when its
    two ends are registered members of two different registered classes. *)
Definition ofFunctionLink (entry : string * LinkData) : list Report :=
  let '(srcFuncId, targetFuncId) := Js.splitArrowPair entry.1 in
  match node h m srcFuncId, node h m targetFuncId with
  | Some srcFunc, Some targetFunc =>
      let srcClassId := GraphNode.parentId srcFunc in
      let targetClassId := GraphNode.parentId targetFunc in
      if bool_decide (GraphNode.type <$> (srcClassId ≫= node h m) = Some CLASS)
         && bool_decide (GraphNode.type <$> (targetClassId ≫= node h m) = Some CLASS)
         && negb (bool_decide (srcClassId = targetClassId))
      then [mkReport (linkKey (default "undefined" srcClassId)
                              (default "undefined" targetClassId))
                     (count entry.2) (dir entry.2)]
      else []
  | _, _ => []
  end.

(** What one fan entry of the class-coupling metric adds to [classLinks]:
    the sum of its counts, when the other class resolves to a registered
    class other than [srcClassId]. *)
Definition ofClassFan (out : bool) (srcClassId : string)
    (entry : string * list (string * Z)) : list Report :=
  match findClassFile m classToFilesMap entry.1 with
  | None => []
  | Some otherFile =>
      let otherClassId := otherFile +:+ "::" +:+ entry.1 in
      if Js.truthy otherFile && JsMap.has m otherClassId
         && negb (String.eqb srcClassId otherClassId)
      then [if out
            then mkReport (linkKey srcClassId otherClassId) (totalCount entry.2) FanOut
            else mkReport (linkKey otherClassId srcClassId) (totalCount entry.2) FanIn]
      else []
  end.

Definition ofClassEntry (file : string) (entry : string * ClassDetails) : list Report :=
  match entry.2 with
  | NotArray => []
  | Members methods =>
      let srcClassId := file +:+ "::" +:+ entry.1 in
      if JsMap.has m srcClassId then
        flat_map (fun method =>
                    flat_map (ofClassFan true srcClassId) (fanOut method)
                    ++ flat_map (ofClassFan false srcClassId) (fanIn method))
                 methods
      else []
  end.

(** The contributions of the class-coupling metric itself. *)
Definition directReports (data : MetricData) : list Report :=
  flat_map (fun entry => flat_map (ofClassEntry entry.1) entry.2) (classCoupling data).

(** All contributions to [classLinks], in the order of the three loops. *)
Definition classReports (methodLinks functionLinks : JsMap.t LinkData)
    (data : MetricData) : list Report :=
  flat_map ofMethodLink methodLinks
  ++ flat_map ofFunctionLink functionLinks
  ++ directReports data.

(** What a class-level link adds to [fileLinks]: its count, under the pair
    of the parents of its two classes, when these differ. *)
Definition ofClassLink (entry : string * LinkData) : list Report :=
  let '(srcClassId, targetClassId) := Js.splitArrowPair entry.1 in
  match node h m srcClassId, node h m targetClassId with
  | Some srcClass, Some targetClass =>
      if bool_decide (GraphNode.type srcClass = CLASS)
         && bool_decide (GraphNode.type targetClass = CLASS)
         && negb (bool_decide (GraphNode.parentId srcClass = GraphNode.parentId targetClass))
      then [mkReport (linkKey (default "undefined" (GraphNode.parentId srcClass))
                              (default "undefined" (GraphNode.parentId targetClass)))
                     (count entry.2) (dir entry.2)]
      else []
  | _, _ => []
  end.

(** What a function-level link adds to [fileLinks]: its count, when its
    two ends are standalone functions of two different files. *)
Definition ofStandaloneLink (entry : string * LinkData) : list Report :=
  let '(srcFuncId, targetFuncId) := Js.splitArrowPair entry.1 in
  match node h m srcFuncId, node h m targetFuncId with
  | Some srcFunc, Some targetFunc =>
      if bool_decide (GraphNode.type <$> (GraphNode.parentId srcFunc ≫= node h m)
                      = Some FILE)
         && bool_decide (GraphNode.type <$> (GraphNode.parentId targetFunc ≫= node h m)
                         = Some FILE)
         && negb (bool_decide (GraphNode.parentId srcFunc = GraphNode.parentId targetFunc))
      then [mkReport (linkKey (default "undefined" (GraphNode.parentId srcFunc))
                              (default "undefined" (GraphNode.parentId targetFunc)))
                     (count entry.2) (dir entry.2)]
      else []
  | _, _ => []
  end.

(** All contributions to [fileLinks], in the order of the two loops. *)
Definition fileReports (classLinks functionLinks : JsMap.t LinkData) : list Report :=
  flat_map ofClassLink classLinks ++ flat_map ofStandaloneLink functionLinks.

End Levels.

(** A report joins two different registered ids. *)
Definition joinsDistinct (m : JsMap.t ref) (r : Report) : Prop :=
  exists s t, reportKey r = linkKey s t
              /\ JsMap.has m s = true /\ JsMap.has m t = true /\ s <> t.

End Promotion.

(** The class index lists, for the class name [cn], the files among the
    processed entries of the class metric that declare [cn] and were
    registered when their entry was met: each of them once, and every one
    that [reg1] (the registry before the class pass) has. *)
Definition indexes (cn : string) (reg1 : GraphDataService.Registry)
    (processed : list (string * list (string * ClassDetails)))
    (st : GraphDataService.Registry * JsMap.t (list string)) : Prop :=
  let fs := default [] (JsMap.get st.2 cn) in
  NoDup fs
  /\ JsMap.get st.2 cn <> Some []
  /\ (forall f, f ∈ fs ->
        exists clsMap, (f, clsMap) ∈ processed /\ cn ∈ JsMap.keys clsMap
                       /\ JsMap.has (GraphDataService.nodesMap st.1) f = true)
  /\ (forall f clsMap,
        (f, clsMap) ∈ processed -> cn ∈ JsMap.keys clsMap ->
        JsMap.has (GraphDataService.nodesMap reg1) f = true -> f ∈ fs).

(** ** Coherent graph data *)

(** What a view needs of the registry [g] it walks, of the nodes [roots] it
    shows first and of the children it draws (those whose type [keep]
    holds): a root carries the parent the registry records for its id; a
    registered node with children has a non-empty id, and each of its
    children that is drawn names it as its parent, in the child's own field
    and in the registry entry of the child's id; and parent chains are
    finite. *)
Definition coherentOn (g : Graph) (roots : list ref) (keep : NodeType -> bool) : Prop :=
  (forall r n, r ∈ roots -> objects g !! r = Some n ->
     GraphNode.parentId <$> getNode g (GraphNode.id n) = Some (GraphNode.parentId n))
  /\ (forall i n cs c,
        getNode g i = Some n -> GraphNode.children n = Some cs -> c ∈ cs ->
        Js.truthy i = true
        /\ exists cn, objects g !! c = Some cn
             /\ (keep (GraphNode.type cn) = true ->
                 GraphNode.parentId cn = Some i
                 /\ GraphNode.parentId <$> getNode g (GraphNode.id cn)
                    = Some (Some i)))
  /\ exists rank, ranked g rank.

(** The id of a node's parent is shorter than the node's own id. *)
Definition shorter (n : GraphNode.t) : Prop :=
  forall p, GraphNode.parentId n = Some p -> Js.truthy p = true ->
            String.length p < String.length (GraphNode.id n).

(** The registry is tidy: every listed child names its parent, which has a
    non-empty id; objects with one id have one parent and one type; the
    entry of an object's id is an object of that id; and the id of a parent
    is shorter than the id of its child. *)
Record tidy (reg : GraphDataService.Registry) : Prop := mkTidy {
  tidy_children : forall rp pn c,
    GraphDataService.heap reg !! rp = Some pn ->
    c ∈ default [] (GraphNode.children pn) ->
    exists cn, GraphDataService.heap reg !! c = Some cn
               /\ GraphNode.parentId cn = Some (GraphNode.id pn)
               /\ Js.truthy (GraphNode.id pn) = true;
  tidy_same : forall r1 r2 n1 n2,
    GraphDataService.heap reg !! r1 = Some n1 ->
    GraphDataService.heap reg !! r2 = Some n2 ->
    GraphNode.id n1 = GraphNode.id n2 ->
    GraphNode.parentId n1 = GraphNode.parentId n2
    /\ GraphNode.type n1 = GraphNode.type n2;
  tidy_self : forall r n,
    GraphDataService.heap reg !! r = Some n ->
    exists r' n', JsMap.get (GraphDataService.nodesMap reg) (GraphNode.id n) = Some r'
                  /\ GraphDataService.heap reg !! r' = Some n'
                  /\ GraphNode.id n' = GraphNode.id n;
  tidy_shorter : forall r n,
    GraphDataService.heap reg !! r = Some n -> shorter n
}.

(** The three shapes of the objects the directory and class passes create,
    for colon-free file and class names: a directory or file, a class of a
    file, a member of a class. *)
Definition shaped (n : GraphNode.t) : Prop :=
  noColon (GraphNode.id n) = true
  \/ (exists f c, noColon f = true /\ noColon c = true
                  /\ GraphNode.id n = f +:+ "::" +:+ c
                  /\ GraphNode.parentId n = Some f /\ GraphNode.type n = CLASS)
  \/ (exists f c m, noColon f = true /\ noColon c = true /\ m <> "constructor"
                    /\ GraphNode.id n = (f +:+ "::" +:+ c) +:+ "::" +:+ m
                    /\ GraphNode.parentId n = Some (f +:+ "::" +:+ c)
                    /\ GraphNode.type n = FUNCTION).

(** Payloads with plain names: the listed paths are pairwise different,
    colon-free and not directory ids of listed paths; the class metric is
    keyed by non-empty colon-free file names and colon-free class names; the
    function metric is keyed by non-empty colon-free file names. *)
Definition plainNames (data : MetricData) : Prop :=
  NoDup (GraphDataService.filePathsOf data)
  /\ (forall p q, p ∈ GraphDataService.filePathsOf data ->
                  q ∈ GraphDataService.filePathsOf data -> p ∉ Containment.dirIds q)
  /\ (forall p, p ∈ GraphDataService.filePathsOf data -> noColon p = true)
  /\ (forall f cm, (f, cm) ∈ classes data ->
        noColon f = true /\ Js.truthy f = true
        /\ forall c, c ∈ JsMap.keys cm -> noColon c = true)
  /\ (forall f, f ∈ JsMap.keys (funcs data) ->
        noColon f = true /\ Js.truthy f = true).

(** * Properties *)

Import GraphDataService.


(** ** Strings *)

Lemma string_eqb_true (a b : string) : String.eqb a b = true <-> a = b.
Proof. apply String.eqb_eq. Qed.

Lemma string_eqb_false (a b : string) : String.eqb a b = false <-> a <> b.
Proof. apply String.eqb_neq. Qed.

Lemma string_app_nil (b : string) : "" +:+ b = b.
Proof. reflexivity. Qed.

Lemma string_app_cons (x : ascii) (a b : string) :
  String x a +:+ b = String x (a +:+ b).
Proof. reflexivity. Qed.

Lemma string_app_length (a b : string) :
  String.length (a +:+ b) = String.length a + String.length b.
Proof.
  induction a as [|c a IH]; [done|].
  rewrite string_app_cons. simpl. by rewrite IH.
Qed.

Lemma string_app_assoc (a b c : string) : (a +:+ b) +:+ c = a +:+ (b +:+ c).
Proof.
  induction a as [|x a IH]; [done|].
  rewrite !string_app_cons. by rewrite IH.
Qed.



(** ** Insertion-ordered maps *)

Section JsMapFacts.
Context {V : Type}.
Implicit Types (m : JsMap.t V) (k : string) (v : V).

Lemma get_set_eq m k v : JsMap.get (JsMap.set m k v) k = Some v.
Proof.
  induction m as [|[k' v'] m IH]; simpl.
  - by rewrite String.eqb_refl.
  - destruct (String.eqb k' k) eqn:E; simpl; rewrite E; done.
Qed.

Lemma get_set_ne m k k' v :
  k <> k' -> JsMap.get (JsMap.set m k v) k' = JsMap.get m k'.
Proof.
  intros Hne. induction m as [|[k0 v0] m IH]; simpl.
  - apply string_eqb_false in Hne. by rewrite Hne.
  - destruct (String.eqb k0 k) eqn:E; simpl.
    + apply string_eqb_true in E as ->.
      apply string_eqb_false in Hne. by rewrite Hne.
    + by rewrite IH.
Qed.

Lemma has_set_eq m k v : JsMap.has (JsMap.set m k v) k = true.
Proof. unfold JsMap.has. by rewrite get_set_eq. Qed.

Lemma has_set_ne m k k' v :
  k <> k' -> JsMap.has (JsMap.set m k v) k' = JsMap.has m k'.
Proof. intros. unfold JsMap.has. by rewrite get_set_ne. Qed.

Lemma get_None_not_in m k : JsMap.get m k = None <-> k ∉ JsMap.keys m.
Proof.
  induction m as [|[k' v'] m IH]; simpl.
  - split; [intros _; apply not_elem_of_nil|done].
  - rewrite not_elem_of_cons. destruct (String.eqb k' k) eqn:E.
    + apply string_eqb_true in E. split; [done|]. intros [? _]. congruence.
    + apply string_eqb_false in E. rewrite IH. split; [|tauto].
      intros; split; [congruence|done].
Qed.

Lemma set_absent m k v : JsMap.get m k = None -> JsMap.set m k v = m ++ [(k, v)].
Proof.
  induction m as [|[k' v'] m IH]; simpl; [done|].
  destruct (String.eqb k' k); [done|]. intros H. by rewrite IH.
Qed.

Lemma get_app m1 m2 k :
  JsMap.get (m1 ++ m2) k =
  match JsMap.get m1 k with Some v => Some v | None => JsMap.get m2 k end.
Proof.
  induction m1 as [|[k' v'] m1 IH]; simpl; [done|].
  by destruct (String.eqb k' k).
Qed.

Lemma get_Some_in m k v : JsMap.get m k = Some v -> (k, v) ∈ m.
Proof.
  induction m as [|[k' v'] m IH]; simpl; [done|].
  destruct (String.eqb k' k) eqn:E.
  - apply string_eqb_true in E as ->. intros [= ->]. apply list_elem_of_here.
  - intros. apply list_elem_of_further. auto.
Qed.

End JsMapFacts.


Lemma prefix_app (p r : string) : String.prefix p (p +:+ r) = true.
Proof.
  induction p as [|c p IH]; [by destruct r|].
  rewrite string_app_cons. simpl.
  destruct (ascii_dec c c); [done|congruence].
Qed.

Lemma prefix_inv (p s : string) : String.prefix p s = true -> exists r, s = p +:+ r.
Proof.
  revert s. induction p as [|c p IH]; intros s H.
  - by exists s.
  - destruct s as [|d s]; simpl in H; [done|].
    destruct (ascii_dec c d) as [->|]; [|done].
    destruct (IH s H) as [r ->]. by exists r.
Qed.


Lemma methodStep_get_other classId rc cd reg method k :
  Js.startsWith k (classId +:+ "::") = false ->
  JsMap.get (nodesMap (methodStep classId rc cd reg method)) k =
  JsMap.get (nodesMap reg) k.
Proof.
  intros Hk. unfold methodStep. simpl.
  assert (Hne : forall x, classId +:+ "::" +:+ x <> k).
  { intros x <-. unfold Js.startsWith in Hk.
    by rewrite <- string_app_assoc, prefix_app in Hk. }
  destruct (String.eqb _ "constructor"); simpl;
    rewrite ?get_set_ne; auto.
  apply (Hne "constructor").
Qed.

Lemma methodSteps_get_other classId rc cd ms reg k :
  Js.startsWith k (classId +:+ "::") = false ->
  JsMap.get (nodesMap (fold_left (methodStep classId rc cd) ms reg)) k =
  JsMap.get (nodesMap reg) k.
Proof.
  intros Hk. revert reg. induction ms as [|x ms IH]; intros reg; simpl; [done|].
  rewrite IH. by apply methodStep_get_other.
Qed.

Lemma get_addClassFile c2f className file :
  JsMap.get (addClassFile c2f className file) className =
  Some (let existing := default [] (JsMap.get c2f className) in
        if bool_decide (file ∈ existing) then existing else existing ++ [file]).
Proof. unfold addClassFile. by rewrite get_set_eq. Qed.


(** C2 (specification, scenario 2).  On the payload of the scenario
    [buildGraph] emits the method-level edge [f1::Foo::bar -> f2::Baz::qux]
    with value 3, but the class-level edge [f1::Foo -> f2::Baz] and the
    file-level edge [f1 -> f2] carry value 6: the class-level pass counts
    the fan-out once through the promoted method edge and once more through
    its direct reading of the class-coupling metric. *)
Theorem C2_scenario2_links :
  links (buildGraph Examples.scenario2) =
    [ GraphLink.mk "f1::Foo::bar" "f2::Baz::qux" 3%Z CALL (Some FanOut);
      GraphLink.mk "f1::Foo" "f2::Baz" 6%Z COUPLING (Some FanOut);
      GraphLink.mk "f1" "f2" 6%Z DEPENDENCY (Some FanOut) ].
Proof. vm_compute. reflexivity. Qed.

(** C4 (no self-loops).  The import edges are pushed without comparing the
    two ends: a file that imports itself yields an edge whose source equals
    its target. *)
Theorem C4_import_self_loop :
  links (buildGraph Examples.selfImport) =
    [ GraphLink.mk "a.ts" "a.ts" 1%Z DEPENDENCY None ]
  /\ exists l, l ∈ links (buildGraph Examples.selfImport)
             /\ GraphLink.source l = GraphLink.target l.
Proof.
  assert (E : links (buildGraph Examples.selfImport) =
              [ GraphLink.mk "a.ts" "a.ts" 1%Z DEPENDENCY None ])
    by (vm_compute; reflexivity).
  split; [exact E|].
  rewrite E. eexists. split; [apply list_elem_of_here|reflexivity].
Qed.




(** ** Link keys *)

Lemma splitArrow_nonempty (s : string) : Js.splitArrow s <> [].
Proof.
  destruct s as [|a [|b s]]; simpl; [done| |].
  - done.
  - destruct (Ascii.eqb a "-" && Ascii.eqb b ">"); [done|].
    by destruct (match s with "" => _ | String _ _ => _ end).
Qed.

Lemma splitArrow_cons (a : ascii) (s : string) :
  Js.splitArrow (String a s) =
  match s with
  | String b s'' =>
      if Ascii.eqb a "-" && Ascii.eqb b ">" then "" :: Js.splitArrow s''
      else match Js.splitArrow s with
           | h :: t => String a h :: t
           | [] => [String a ""]
           end
  | "" => match Js.splitArrow s with
          | h :: t => String a h :: t
          | [] => [String a ""]
          end
  end.
Proof. by destruct s. Qed.

(** A string without ['->'] in front of the separator is the first segment
    of the key. *)
Lemma splitArrow_key (a b : string) :
  Js.splitArrow a = [a] ->
  Js.splitArrow (a +:+ "->" +:+ b) = a :: Js.splitArrow b.
Proof.
  induction a as [|c a IH]; intros Ha.
  - done.
  - rewrite string_app_cons, splitArrow_cons.
    rewrite splitArrow_cons in Ha.
    destruct a as [|d a].
    + (* a single character in front of the separator *)
      rewrite IH by done.
      change ("" +:+ "->" +:+ b) with (String "-" (String ">" b)).
      cbn. by rewrite andb_false_r.
    + rewrite string_app_cons.
      destruct (Ascii.eqb c "-" && Ascii.eqb d ">").
      * done.
      * rewrite <- string_app_cons.
        destruct (Js.splitArrow (String d a)) as [|h t] eqn:E.
        { by apply splitArrow_nonempty in E. }
        inversion Ha; subst.
        rewrite IH by done. done.
Qed.

Lemma splitArrowPair_linkKey (a b : string) :
  Js.splitArrow a = [a] -> Js.splitArrow b = [b] ->
  Js.splitArrowPair (linkKey a b) = (a, b).
Proof.
  intros Ha Hb. unfold Js.splitArrowPair, linkKey.
  by rewrite splitArrow_key, Hb.
Qed.

Lemma linkKey_inj (a b a' b' : string) :
  Js.splitArrow a = [a] -> Js.splitArrow b = [b] ->
  Js.splitArrow a' = [a'] -> Js.splitArrow b' = [b'] ->
  linkKey a b = linkKey a' b' -> a = a' /\ b = b'.
Proof.
  intros Ha Hb Ha' Hb' E.
  apply (f_equal Js.splitArrowPair) in E.
  rewrite !splitArrowPair_linkKey in E by done. by injection E.
Qed.


(** ** Link maps as sums of reports *)

Lemma keys_set {V} (m : JsMap.t V) (k : string) (v : V) :
  JsMap.keys (JsMap.set m k v) =
  if JsMap.has m k then JsMap.keys m else JsMap.keys m ++ [k].
Proof.
  unfold JsMap.has. induction m as [|[k' v'] m IH]; simpl; [done|].
  destruct (String.eqb k' k) eqn:E; simpl; [done|].
  rewrite IH. by destruct (JsMap.get m k).
Qed.

Lemma has_true_in {V} (m : JsMap.t V) (k : string) :
  JsMap.has m k = true <-> k ∈ JsMap.keys m.
Proof.
  unfold JsMap.has. destruct (JsMap.get m k) eqn:E.
  - split; [intros _|done].
    apply get_Some_in in E. apply (list_elem_of_fmap_2 fst) in E. done.
  - apply get_None_not_in in E. split; [done|]. intros; contradiction.
Qed.

Lemma NoDup_keys_set {V} (m : JsMap.t V) (k : string) (v : V) :
  NoDup (JsMap.keys m) -> NoDup (JsMap.keys (JsMap.set m k v)).
Proof.
  intros Hnd. rewrite keys_set. destruct (JsMap.has m k) eqn:E; [done|].
  apply NoDup_app. split_and!; [done| |apply NoDup_singleton].
  intros x Hx ->%list_elem_of_singleton.
  apply has_true_in in Hx. congruence.
Qed.

Lemma in_NoDup_get {V} (m : JsMap.t V) (k : string) (v : V) :
  NoDup (JsMap.keys m) -> (k, v) ∈ m -> JsMap.get m k = Some v.
Proof.
  induction m as [|[k' v'] m IH]; simpl; intros Hnd Hin.
  - by apply elem_of_nil in Hin.
  - apply NoDup_cons in Hnd as [Hk' Hnd].
    apply elem_of_cons in Hin as [[= <- <-]|Hin].
    + by rewrite String.eqb_refl.
    + destruct (String.eqb k' k) eqn:E; [|auto].
      apply string_eqb_true in E as ->. exfalso. apply Hk'.
      by apply (list_elem_of_fmap_2 fst) in Hin.
Qed.

Lemma applyReports_app rs1 rs2 ml :
  Reports.applyReports (rs1 ++ rs2) ml =
  Reports.applyReports rs2 (Reports.applyReports rs1 ml).
Proof. apply fold_left_app. Qed.

(** A loop whose body replays reports replays their concatenation. *)
Lemma fold_left_reports {A} (f : JsMap.t LinkData -> A -> JsMap.t LinkData)
    (g : A -> list Report) (l : list A) (ml : JsMap.t LinkData) :
  (forall ml x, f ml x = Reports.applyReports (g x) ml) ->
  fold_left f l ml = Reports.applyReports (flat_map g l) ml.
Proof.
  intros Hf. revert ml. induction l as [|x l IH]; intros ml; simpl; [done|].
  by rewrite applyReports_app, <- Hf, IH.
Qed.

Lemma methodFanStep_reports m c2f out src ml entry :
  methodFanStep m c2f out src ml entry =
  Reports.applyReports (Reports.ofMethodFan m c2f out src entry) ml.
Proof.
  destruct entry as [cn ms]. unfold methodFanStep, Reports.ofMethodFan.
  destruct (findClassFile m c2f cn) as [f|]; [|done].
  destruct (Js.truthy f); simpl; [|done].
  destruct (JsMap.has m (f +:+ "::" +:+ cn)); simpl; [|done].
  apply fold_left_reports. intros ml' [mn cnt].
  destruct (JsMap.has m _); simpl; [|done].
  destruct (String.eqb src _); simpl; [done|].
  by destruct out.
Qed.

Lemma methodCouplingStep_reports m c2f classId ml method :
  methodCouplingStep m c2f classId ml method =
  Reports.applyReports (Reports.ofMethod m c2f classId method) ml.
Proof.
  unfold methodCouplingStep, Reports.ofMethod.
  destruct (JsMap.has m _); simpl; [|done].
  rewrite applyReports_app.
  set (src := classId +:+ "::" +:+ _).
  rewrite (fold_left_reports (methodFanStep m c2f true src) (Reports.ofMethodFan m c2f true src))
    by (intros; apply methodFanStep_reports).
  by rewrite (fold_left_reports (methodFanStep m c2f false src) (Reports.ofMethodFan m c2f false src))
    by (intros; apply methodFanStep_reports).
Qed.

Lemma classCouplingStep_reports m c2f file ml entry :
  classCouplingStep m c2f file ml entry =
  Reports.applyReports (Reports.ofClass m c2f file entry) ml.
Proof.
  destruct entry as [cn [|ms]]; unfold classCouplingStep, Reports.ofClass; simpl;
    [done|].
  destruct (JsMap.has m _); simpl; [|done].
  apply fold_left_reports. intros. apply methodCouplingStep_reports.
Qed.

Lemma methodLinksOf_reports m c2f data ml :
  methodLinksOf m c2f data ml =
  Reports.applyReports (Reports.methodReports m c2f data) ml.
Proof.
  unfold methodLinksOf, Reports.methodReports.
  apply fold_left_reports. intros ml' [file clsMap]. simpl.
  apply fold_left_reports. intros. apply classCouplingStep_reports.
Qed.

Lemma funcFanStep_reports m f2f out src fl entry :
  funcFanStep m f2f out src fl entry =
  Reports.applyReports (Reports.ofFuncFan m f2f out src entry) fl.
Proof.
  destruct entry as [fn cnt]. unfold funcFanStep, Reports.ofFuncFan.
  destruct (JsMap.get f2f fn) as [f|]; [|done].
  destruct (Js.truthy f); simpl; [|done].
  destruct (JsMap.has m _); simpl; [|done].
  destruct (String.eqb src _); simpl; [done|].
  by destruct out.
Qed.

Lemma funcCouplingStep_reports m f2f srcFile fl entry :
  funcCouplingStep m f2f srcFile fl entry =
  Reports.applyReports (Reports.ofFunc m f2f srcFile entry) fl.
Proof.
  destruct entry as [fn details]. unfold funcCouplingStep, Reports.ofFunc. simpl.
  destruct (JsMap.has m _); simpl; [|done].
  rewrite applyReports_app.
  set (src := srcFile +:+ "::" +:+ _).
  rewrite (fold_left_reports (funcFanStep m f2f true src) (Reports.ofFuncFan m f2f true src))
    by (intros; apply funcFanStep_reports).
  by rewrite (fold_left_reports (funcFanStep m f2f false src) (Reports.ofFuncFan m f2f false src))
    by (intros; apply funcFanStep_reports).
Qed.

Lemma functionLinksOf_reports m f2f fnCoupling fl :
  functionLinksOf m f2f fnCoupling fl =
  Reports.applyReports (Reports.functionReports m f2f fnCoupling) fl.
Proof.
  unfold functionLinksOf, Reports.functionReports.
  apply fold_left_reports. intros fl' [file fnMap]. simpl.
  apply fold_left_reports. intros. apply funcCouplingStep_reports.
Qed.


Lemma get_accumulate_eq ml k n d :
  JsMap.get (accumulate ml k n d) k =
  Some (mkLinkData (default 0%Z (count <$> JsMap.get ml k) + n) d).
Proof. unfold accumulate. rewrite get_set_eq. by destruct (JsMap.get ml k). Qed.

Lemma get_accumulate_ne ml k k' n d :
  k <> k' -> JsMap.get (accumulate ml k n d) k' = JsMap.get ml k'.
Proof. intros. unfold accumulate. by rewrite get_set_ne. Qed.

(** The count stored under a key is the sum of the counts reported for it. *)
Lemma count_applyReports rs ml k :
  count <$> JsMap.get (Reports.applyReports rs ml) k =
  match Reports.countsFor k rs with
  | [] => count <$> JsMap.get ml k
  | ns => Some (default 0%Z (count <$> JsMap.get ml k) + Reports.total ns)%Z
  end.
Proof.
  revert ml. induction rs as [|r rs IH]; intros ml; [done|].
  change (Reports.applyReports (r :: rs) ml) with
    (Reports.applyReports rs
       (accumulate ml (reportKey r) (reportCount r) (reportDir r))).
  rewrite IH. unfold Reports.countsFor. simpl.
  destruct (String.eqb (reportKey r) k) eqn:E; simpl.
  - apply string_eqb_true in E as <-. rewrite get_accumulate_eq. simpl.
    destruct (map reportCount (List.filter _ rs)) as [|n ns]; simpl; f_equal; lia.
  - apply string_eqb_false in E. by rewrite get_accumulate_ne.
Qed.

Lemma NoDup_keys_applyReports rs ml :
  NoDup (JsMap.keys ml) -> NoDup (JsMap.keys (Reports.applyReports rs ml)).
Proof.
  revert ml. induction rs as [|r rs IH]; intros ml Hnd; [done|].
  apply IH. by apply NoDup_keys_set.
Qed.



Lemma in_flat_map_inv {A B} (f : A -> list B) (l : list A) (y : B) :
  y ∈ flat_map f l -> exists x, x ∈ l /\ y ∈ f x.
Proof.
  rewrite list_elem_of_In, in_flat_map. intros (x & Hx & Hy).
  exists x. by rewrite !list_elem_of_In.
Qed.




Lemma countsFor_nonempty_in k rs :
  Reports.countsFor k rs <> [] -> exists r, r ∈ rs /\ reportKey r = k.
Proof.
  unfold Reports.countsFor. induction rs as [|r rs IH]; simpl; [done|].
  destruct (String.eqb (reportKey r) k) eqn:E.
  - intros _. apply string_eqb_true in E. exists r.
    split; [apply list_elem_of_here|done].
  - intros (r' & Hr' & Hk)%IH. exists r'. split; [by apply list_elem_of_further|done].
Qed.







(** ** Resolution to the nearest visible ancestor *)

Lemma nearestVisible_visible g ns i a :
  nearestVisible g ns i a -> isVisible ns a = true /\ Js.truthy a = true.
Proof. induction 1; auto. Qed.

Lemma nearestVisible_start g ns i a :
  nearestVisible g ns i a -> Js.truthy i = true.
Proof. by destruct 1. Qed.

Lemma nearestVisible_fun g ns i a b :
  nearestVisible g ns i a -> nearestVisible g ns i b -> a = b.
Proof.
  intros Ha. revert b. induction Ha as [i Ht Hv|i p a Ht Hv Hp Ha IH]; intros b Hb.
  - destruct Hb; congruence.
  - destruct Hb as [|i p' b ? ? Hp' Hb]; [congruence|].
    apply IH. congruence.
Qed.

Lemma findVisibleH_sound g ns fuel curr a :
  HierarchicalGraph.findVisible g ns fuel curr = Ok (Some a) ->
  exists i, curr = Some i /\ nearestVisible g ns i a.
Proof.
  revert curr. induction fuel as [|fuel IH]; intros curr H; simpl in H; [done|].
  destruct curr as [c|]; [|done].
  destruct (Js.truthy c) eqn:Ht; [|done].
  exists c. split; [done|].
  destruct (isVisible ns c) eqn:Hv.
  - injection H as <-. by constructor.
  - apply IH in H as (p & Hp & Hn). by eapply nearest_up.
Qed.

Lemma findVisibleH_complete g ns fuel i a r :
  nearestVisible g ns i a ->
  HierarchicalGraph.findVisible g ns fuel (Some i) = Ok r -> r = Some a.
Proof.
  intros Hn. revert fuel. induction Hn as [i Ht Hv|i p a Ht Hv Hp Ha IH];
    intros [|fuel] H; simpl in H; try done; rewrite Ht, Hv in H.
  - by injection H.
  - rewrite Hp in H. by apply IH in H.
Qed.

Lemma findVisibleLoopM_sound g ns fuel curr a :
  ModuleFunctionGraph.findVisibleLoop g ns fuel curr = Ok (Some a) ->
  exists p, curr ≫= GraphNode.parentId = Some p /\ nearestVisible g ns p a.
Proof.
  revert curr. induction fuel as [|fuel IH]; intros curr H; simpl in H; [done|].
  destruct (curr ≫= GraphNode.parentId) as [p|]; [|done].
  destruct (Js.truthy p) eqn:Ht; [|done].
  exists p. split; [done|].
  destruct (isVisible ns p) eqn:Hv.
  - injection H as <-. by constructor.
  - apply IH in H as (q & Hq & Hn). by eapply nearest_up.
Qed.

Lemma findVisibleM_sound g ns fuel i a :
  Js.truthy i = true ->
  ModuleFunctionGraph.findVisible g ns fuel i = Ok (Some a) ->
  nearestVisible g ns i a.
Proof.
  intros Ht H. unfold ModuleFunctionGraph.findVisible in H.
  destruct (isVisible ns i) eqn:Hv.
  - injection H as <-. by constructor.
  - apply findVisibleLoopM_sound in H as (p & Hp & Hn). by eapply nearest_up.
Qed.

Lemma findVisibleLoopM_complete g ns fuel curr p a r :
  curr ≫= GraphNode.parentId = Some p ->
  nearestVisible g ns p a ->
  ModuleFunctionGraph.findVisibleLoop g ns fuel curr = Ok r -> r = Some a.
Proof.
  intros Hp Hn. revert fuel curr Hp.
  induction Hn as [i Ht Hv|i q a Ht Hv Hq Ha IH];
    intros [|fuel] curr Hp H; simpl in H; try done; rewrite Hp, Ht, Hv in H.
  - by injection H.
  - by eapply IH in H.
Qed.

Lemma findVisibleM_complete g ns fuel i a r :
  nearestVisible g ns i a ->
  ModuleFunctionGraph.findVisible g ns fuel i = Ok r -> r = Some a.
Proof.
  intros Hn H. unfold ModuleFunctionGraph.findVisible in H.
  destruct Hn as [i Ht Hv|i p a Ht Hv Hp Ha]; rewrite Hv in H.
  - by injection H.
  - by eapply findVisibleLoopM_complete in H.
Qed.

(** ** The map of the nodes on screen *)

Lemma get_visibleNodeMapOf_snoc ns n i :
  JsMap.get (visibleNodeMapOf (ns ++ [n])) i =
  if String.eqb (RenderNode.id n) i then Some n
  else JsMap.get (visibleNodeMapOf ns) i.
Proof.
  unfold visibleNodeMapOf. rewrite fold_left_app. simpl.
  destruct (String.eqb (RenderNode.id n) i) eqn:E.
  - apply string_eqb_true in E as <-. apply get_set_eq.
  - apply string_eqb_false in E. by apply get_set_ne.
Qed.

Lemma get_visibleNodeMapOf ns i :
  isVisible ns i = true ->
  exists n, JsMap.get (visibleNodeMapOf ns) i = Some n
            /\ RenderNode.id n = i /\ n ∈ ns.
Proof.
  unfold isVisible. rewrite bool_decide_eq_true.
  induction ns as [|n ns IH] using rev_ind.
  - by intros ?%elem_of_nil.
  - rewrite fmap_app, elem_of_app, get_visibleNodeMapOf_snoc. intros Hi.
    destruct (String.eqb (RenderNode.id n) i) eqn:E.
    + apply string_eqb_true in E. exists n. split_and!; [done..|].
      apply elem_of_app. right. apply list_elem_of_here.
    + apply string_eqb_false in E. destruct Hi as [Hi|Hi].
      * destruct (IH Hi) as (n' & ? & ? & ?). exists n'. split_and!; [done..|].
        apply elem_of_app. by left.
      * apply list_elem_of_singleton in Hi. simpl in Hi. congruence.
Qed.


(** ** Merging resolved pairs *)

Section MergePairs.
Variable bump : bool.
Variable vmap : JsMap.t RenderNode.t.

Lemma get_mergePair_ne acc p k :
  pairKey p <> k -> JsMap.get (mergePair bump vmap acc p) k = JsMap.get acc k.
Proof.
  intros Hk. unfold mergePair. fold (pairKey p).
  destruct (JsMap.get acc (pairKey p)); [destruct bump|];
    rewrite ?get_set_ne by done; done.
Qed.

Lemma get_mergePair_eq acc p :
  JsMap.get (mergePair bump vmap acc p) (pairKey p) =
  Some match JsMap.get acc (pairKey p) with
       | None => RenderLink.mk (JsMap.get vmap p.1) (JsMap.get vmap p.2) 1%Z
       | Some e =>
           if bump
           then RenderLink.mk (RenderLink.source e) (RenderLink.target e)
                              (RenderLink.value e + 1)%Z
           else e
       end.
Proof.
  unfold mergePair. fold (pairKey p).
  destruct (JsMap.get acc (pairKey p)) eqn:E; [destruct bump|];
    rewrite ?get_set_eq; done.
Qed.

Lemma mergedPairs_snoc pairs p :
  mergedPairs bump vmap (pairs ++ [p]) =
  mergePair bump vmap (mergedPairs bump vmap pairs) p.
Proof. unfold mergedPairs. by rewrite fold_left_app. Qed.

Lemma mergedPairs_NoDup pairs : NoDup (JsMap.keys (mergedPairs bump vmap pairs)).
Proof.
  induction pairs as [|p pairs IH] using rev_ind; [apply NoDup_nil_2|].
  rewrite mergedPairs_snoc. unfold mergePair.
  destruct (JsMap.get (mergedPairs bump vmap pairs) _); [destruct bump|];
    auto using NoDup_keys_set.
Qed.

Lemma mergedPairs_has pairs q :
  q ∈ pairs -> exists l, JsMap.get (mergedPairs bump vmap pairs) (pairKey q) = Some l.
Proof.
  induction pairs as [|p pairs IH] using rev_ind; [by intros ?%elem_of_nil|].
  rewrite mergedPairs_snoc. intros Hq.
  destruct (decide (pairKey p = pairKey q)) as [<-|Hne].
  - rewrite get_mergePair_eq. eauto.
  - rewrite get_mergePair_ne by done.
    apply elem_of_app in Hq as [Hq|Hq%list_elem_of_singleton]; [auto|congruence].
Qed.

Lemma mergedValue_snoc pairs p k :
  mergedValue bump (pairs ++ [p]) k =
  if bump
  then (mergedValue bump pairs k + if bool_decide (pairKey p = k) then 1 else 0)%Z
  else 1%Z.
Proof.
  unfold mergedValue. destruct bump; [|done].
  rewrite List.filter_app, length_app. simpl.
  destruct (bool_decide (pairKey p = k)); simpl; lia.
Qed.

Lemma mergedValue_absent pairs k :
  JsMap.get (mergedPairs bump vmap pairs) k = None ->
  mergedValue bump pairs k = if bump then 0%Z else 1%Z.
Proof.
  intros Hget. unfold mergedValue. destruct bump eqn:Hb; [|done].
  destruct (List.filter _ pairs) as [|q qs] eqn:Ef; [done|]. exfalso.
  assert (Hq : q ∈ List.filter (fun p => bool_decide (pairKey p = k)) pairs)
    by (rewrite Ef; apply list_elem_of_here).
  apply list_elem_of_In, filter_In in Hq as [Hq Hqk].
  apply bool_decide_eq_true in Hqk. apply list_elem_of_In in Hq.
  destruct (mergedPairs_has pairs q Hq) as [l Hl]. congruence.
Qed.

Lemma mergedPairs_get pairs k l :
  JsMap.get (mergedPairs bump vmap pairs) k = Some l ->
  exists p, p ∈ pairs /\ pairKey p = k
            /\ RenderLink.source l = JsMap.get vmap p.1
            /\ RenderLink.target l = JsMap.get vmap p.2
            /\ RenderLink.value l = mergedValue bump pairs k.
Proof.
  revert l. induction pairs as [|p pairs IH] using rev_ind; intros l; [done|].
  rewrite mergedPairs_snoc, mergedValue_snoc.
  assert (Hlift : forall q, q ∈ pairs -> q ∈ pairs ++ [p])
    by (intros; apply elem_of_app; by left).
  destruct (decide (pairKey p = k)) as [<-|Hk].
  - rewrite get_mergePair_eq, bool_decide_eq_true_2 by done.
    destruct (JsMap.get (mergedPairs bump vmap pairs) (pairKey p)) as [e|] eqn:Ee.
    + destruct (IH e eq_refl) as (q & Hq & Hqk & Hs & Ht & Hv).
      intros [= <-]. exists q.
      assert (Hval : RenderLink.value
                (if bump
                 then RenderLink.mk (RenderLink.source e) (RenderLink.target e)
                                    (RenderLink.value e + 1)%Z
                 else e) =
              if bump then (mergedValue bump pairs (pairKey p) + 1)%Z else 1%Z).
      { unfold mergedValue in *. destruct bump; simpl; rewrite Hv; done. }
      destruct bump; simpl in *; split_and!; auto.
    + intros [= <-]. exists p. simpl. split_and!; auto.
      * apply elem_of_app. right. apply list_elem_of_here.
      * rewrite (mergedValue_absent _ _ Ee). by destruct bump.
  - rewrite get_mergePair_ne, bool_decide_eq_false_2 by done.
    intros Hl. destruct (IH l Hl) as (q & Hq & Hqk & Hs & Ht & Hv).
    exists q. split_and!; auto. rewrite Hv. unfold mergedValue.
    destruct bump; [lia|done].
Qed.

End MergePairs.


Lemma resolvedPair_Some so to s t :
  resolvedPair so to = Some (s, t) <->
  so = Some s /\ to = Some t /\ Js.truthy s = true /\ Js.truthy t = true /\ s <> t.
Proof.
  unfold resolvedPair. destruct so as [s'|], to as [t'|];
    [|split; [done|intros (? & ? & _); done]..].
  destruct (Js.truthy s') eqn:Hs, (Js.truthy t') eqn:Ht,
    (String.eqb_spec s' t') as [E|E]; simpl;
    (split; [intros [= <- <-]; done || auto
            |intros ([= <-] & [= <-] & ? & ? & ?); congruence]).
Qed.

Lemma unambiguous_spec ids s t s' t' :
  unambiguous ids = true ->
  s ∈ ids -> t ∈ ids -> s' ∈ ids -> t' ∈ ids ->
  viewKey s t = viewKey s' t' -> s = s' /\ t = t'.
Proof.
  unfold unambiguous. intros H Hs Ht Hs' Ht' Hk.
  rewrite forallb_forall in H. apply list_elem_of_In, H in Hs.
  rewrite forallb_forall in Hs. apply list_elem_of_In, Hs in Ht.
  rewrite forallb_forall in Ht. apply list_elem_of_In, Ht in Hs'.
  rewrite forallb_forall in Hs'. apply list_elem_of_In, Hs' in Ht'.
  rewrite Hk, String.eqb_refl in Ht'. simpl in Ht'.
  apply andb_true_iff in Ht' as [?%String.eqb_eq ?%String.eqb_eq]. done.
Qed.

(** Counting the resolved pairs equal to [p] is counting the raw edges
    that resolve to [p]. *)
Lemma countOfPair_omap find raws p :
  countOfPair find raws p
  = Z.of_nat (length (List.filter (fun q => bool_decide (q = p))
                                  (omap (resolvedBy find) raws))).
Proof.
  unfold countOfPair. f_equal.
  induction raws as [|raw raws IH]; simpl; [done|].
  destruct (resolvedBy find raw) as [q|]; simpl.
  - repeat case_bool_decide; simplify_eq; simpl; try congruence;
      [f_equal|]; apply IH.
  - repeat case_bool_decide; simplify_eq; apply IH.
Qed.

(** Where keys tell the pairs apart, counting by key is counting by pair. *)
Lemma mergedValue_pairs (pairs : list (string * string)) p :
  (forall q, q ∈ pairs -> pairKey q = pairKey p -> q = p) ->
  mergedValue true pairs (pairKey p)
  = Z.of_nat (length (List.filter (fun q => bool_decide (q = p)) pairs)).
Proof.
  intros Hinj. unfold mergedValue. f_equal. f_equal.
  induction pairs as [|q pairs IH]; simpl; [done|].
  rewrite IH by (intros; apply Hinj; [by apply list_elem_of_further|done]).
  assert (Hq : bool_decide (pairKey q = pairKey p) = bool_decide (q = p)).
  { apply bool_decide_ext. split; [|by intros ->].
    apply Hinj, list_elem_of_here. }
  by rewrite Hq.
Qed.

Section VisibleEdges.
Variable g : Graph.
Variable ns : list RenderNode.t.
Variable find : string -> result (option string).
Variable bump : bool.

Hypothesis find_sound : forall i a,
  Js.truthy i = true -> find i = Ok (Some a) -> nearestVisible g ns i a.
Hypothesis find_complete : forall i a r,
  nearestVisible g ns i a -> find i = Ok r -> r = Some a.
Hypothesis ends_truthy : forall raw, raw ∈ allLinks g ->
  Js.truthy (GraphLink.source raw) = true /\ Js.truthy (GraphLink.target raw) = true.
Hypothesis find_ok : forall raw, raw ∈ allLinks g ->
  exists so to, find (GraphLink.source raw) = Ok so /\ find (GraphLink.target raw) = Ok to.
Hypothesis keys_apart : unambiguous (map RenderNode.id ns) = true.

Lemma resolvedBy_nearest raw s t :
  raw ∈ allLinks g ->
  resolvedBy find raw = Some (s, t) <->
  nearestVisible g ns (GraphLink.source raw) s
  /\ nearestVisible g ns (GraphLink.target raw) t /\ s <> t.
Proof.
  intros Hraw. destruct (ends_truthy raw Hraw) as [Hts Htt].
  destruct (find_ok raw Hraw) as (so & to & Hso & Hto).
  unfold resolvedBy. rewrite Hso, Hto, resolvedPair_Some. split.
  - intros (-> & -> & _ & _ & Hne). auto.
  - intros (Hs & Ht & Hne).
    pose proof (find_complete _ _ _ Hs Hso) as ->.
    pose proof (find_complete _ _ _ Ht Hto) as ->.
    apply nearestVisible_visible in Hs as [_ ?], Ht as [_ ?]. done.
Qed.

Lemma nearestVisible_on_screen i a :
  nearestVisible g ns i a -> a ∈ map RenderNode.id ns.
Proof.
  intros [Hvis _]%nearestVisible_visible.
  destruct (get_visibleNodeMapOf ns a Hvis) as (an & _ & <- & Han).
  apply list_elem_of_In, in_map. by apply list_elem_of_In.
Qed.

Lemma mergedPairs_spec :
  visibleEdgesSpec g ns
    (fun p => if bump then countOfPair find (allLinks g) p else 1%Z)
    (JsMap.values (mergedPairs bump (visibleNodeMapOf ns)
                     (omap (resolvedBy find) (allLinks g)))).
Proof.
  set (pairs := omap (resolvedBy find) (allLinks g)).
  set (final := mergedPairs bump (visibleNodeMapOf ns) pairs).
  assert (Hnd : NoDup (JsMap.keys final)) by apply mergedPairs_NoDup.
  assert (Hpairs : forall p, p ∈ pairs <->
            exists raw, raw ∈ allLinks g /\ resolvedBy find raw = Some p).
  { intros p. unfold pairs. apply list_elem_of_omap. }
  (* the pairs are pairs of ids on screen, which the keys tell apart *)
  assert (Hscreen : forall p, p ∈ pairs ->
            p.1 ∈ map RenderNode.id ns /\ p.2 ∈ map RenderNode.id ns).
  { intros [s t] (raw & Hraw & Hres)%Hpairs.
    apply resolvedBy_nearest in Hres as (Hs & Ht & _); [|done].
    split; by eapply nearestVisible_on_screen. }
  assert (Hinj : forall p s t, p ∈ pairs ->
            s ∈ map RenderNode.id ns -> t ∈ map RenderNode.id ns ->
            pairKey p = viewKey s t -> p = (s, t)).
  { intros [s' t'] s t Hp Hs Ht Hk. destruct (Hscreen _ Hp) as [Hs' Ht'].
    destruct (unambiguous_spec _ s' t' s t keys_apart Hs' Ht' Hs Ht Hk) as [-> ->].
    done. }
  (* an entry of the final map, read back *)
  assert (Hentry : forall k l, JsMap.get final k = Some l ->
            exists raw sn tn,
              raw ∈ allLinks g
              /\ RenderLink.source l = Some sn /\ RenderLink.target l = Some tn
              /\ sn ∈ ns /\ tn ∈ ns
              /\ nearestVisible g ns (GraphLink.source raw) (RenderNode.id sn)
              /\ nearestVisible g ns (GraphLink.target raw) (RenderNode.id tn)
              /\ RenderNode.id sn <> RenderNode.id tn
              /\ k = viewKey (RenderNode.id sn) (RenderNode.id tn)
              /\ RenderLink.value l = mergedValue bump pairs k).
  { intros k l Hl.
    apply mergedPairs_get in Hl as ([s t] & Hp & Hk & Hs & Ht & Hv).
    apply Hpairs in Hp as (raw & Hraw & Hres).
    apply resolvedBy_nearest in Hres as (Hns & Hnt & Hne); [|done].
    destruct (get_visibleNodeMapOf ns s) as (sn & Hsn & <- & ?);
      [by apply nearestVisible_visible in Hns as [? _]|].
    destruct (get_visibleNodeMapOf ns t) as (tn & Htn & <- & ?);
      [by apply nearestVisible_visible in Hnt as [? _]|].
    simpl in *. exists raw, sn, tn. split_and!; try done; congruence. }
  assert (Hends : forall k l, JsMap.get final k = Some l ->
            exists s t, endsOf l = Some (s, t) /\ k = viewKey s t
                        /\ s ∈ map RenderNode.id ns /\ t ∈ map RenderNode.id ns).
  { intros k l Hl.
    destruct (Hentry _ _ Hl)
      as (_ & sn & tn & _ & Hsn & Htn & Hs & Ht & _ & _ & _ & Hk & _).
    exists (RenderNode.id sn), (RenderNode.id tn). unfold endsOf.
    rewrite Hsn, Htn.
    split_and!; [done|done|..]; apply list_elem_of_In, in_map;
      by apply list_elem_of_In. }
  split_and!.
  - intros l Hl. unfold JsMap.values in Hl.
    apply list_elem_of_fmap in Hl as ([k l'] & -> & Hin). simpl.
    apply in_NoDup_get in Hin; [|done].
    destruct (Hentry k l' Hin)
      as (raw & sn & tn & Hraw & ? & ? & Hsn & Htn & Hs & Ht & Hne & -> & Hv).
    exists raw, sn, tn. split_and!; try done.
    rewrite Hv. destruct bump; [|done].
    change (viewKey (RenderNode.id sn) (RenderNode.id tn))
      with (pairKey (RenderNode.id sn, RenderNode.id tn)).
    rewrite mergedValue_pairs, countOfPair_omap; [done|].
    intros q Hq Hk. apply Hinj; [done|..|done];
      apply list_elem_of_In, in_map; by apply list_elem_of_In.
  - intros raw s t Hraw Hs Ht Hne.
    assert (Hp : (s, t) ∈ pairs).
    { apply Hpairs. exists raw. split; [done|]. by apply resolvedBy_nearest. }
    destruct (mergedPairs_has bump (visibleNodeMapOf ns) pairs _ Hp) as [l Hl].
    fold final in Hl. exists l. split.
    + apply get_Some_in in Hl. by apply (list_elem_of_fmap_2 snd) in Hl.
    + destruct (Hends _ _ Hl) as (s' & t' & He & Hk & Hs' & Ht').
      rewrite He.
      by rewrite (Hinj (s, t) s' t' Hp Hs' Ht' Hk).
  - assert (Hmap : map (fun l => (fun p => viewKey p.1 p.2) <$> endsOf l)
                       (JsMap.values final)
                   = map Some (JsMap.keys final)).
    { unfold JsMap.values, JsMap.keys. rewrite !map_map.
      apply map_ext_in. intros [k l] Hin. simpl.
      apply list_elem_of_In, in_NoDup_get in Hin; [|done].
      destruct (Hends _ _ Hin) as (s & t & He & Hk & _).
      rewrite He. simpl. by rewrite Hk. }
    assert (Hkeys : NoDup (map (fun l => (fun p => viewKey p.1 p.2) <$> endsOf l)
                               (JsMap.values final))).
    { rewrite Hmap. apply NoDup_fmap_2; [|done]. intros ?? [=]. done. }
    rewrite <- (map_map endsOf (fmap (fun p => viewKey p.1 p.2))) in Hkeys.
    by apply NoDup_fmap_1 in Hkeys.
Qed.

End VisibleEdges.


(** ** [updateLinks] as a merge of resolved pairs *)

Lemma linkStepH_Ok g ns fuel acc raw acc' :
  HierarchicalGraph.linkStep g ns fuel acc raw = Ok acc' ->
  exists a so to,
    acc = Ok a
    /\ HierarchicalGraph.findVisible g ns fuel (Some (GraphLink.source raw)) = Ok so
    /\ HierarchicalGraph.findVisible g ns fuel (Some (GraphLink.target raw)) = Ok to
    /\ acc' = match resolvedPair so to with
              | Some p => mergePair false (visibleNodeMapOf ns) a p
              | None => a
              end.
Proof.
  unfold HierarchicalGraph.linkStep. destruct acc as [a| |]; simpl; [|done..].
  destruct (HierarchicalGraph.findVisible g ns fuel (Some (GraphLink.source raw)))
    as [so| |]; simpl; [|done..].
  destruct (HierarchicalGraph.findVisible g ns fuel (Some (GraphLink.target raw)))
    as [to| |]; simpl; [|done..].
  intros H. exists a, so, to. split_and!; try done.
  unfold resolvedPair, mergePair, JsMap.has in *.
  destruct so as [s|], to as [t|]; try by injection H.
  destruct (Js.truthy s && Js.truthy t && negb (String.eqb s t)); simpl in *;
    [|by injection H].
  destruct (JsMap.get a (viewKey s t)); simpl in H; by injection H.
Qed.

Lemma linkStepM_Ok g ns fuel acc raw acc' :
  ModuleFunctionGraph.linkStep g ns fuel acc raw = Ok acc' ->
  exists a so to,
    acc = Ok a
    /\ ModuleFunctionGraph.findVisible g ns fuel (GraphLink.source raw) = Ok so
    /\ ModuleFunctionGraph.findVisible g ns fuel (GraphLink.target raw) = Ok to
    /\ acc' = match resolvedPair so to with
              | Some p => mergePair true (visibleNodeMapOf ns) a p
              | None => a
              end.
Proof.
  unfold ModuleFunctionGraph.linkStep. destruct acc as [a| |]; simpl; [|done..].
  destruct (ModuleFunctionGraph.findVisible g ns fuel (GraphLink.source raw))
    as [so| |]; simpl; [|done..].
  destruct (ModuleFunctionGraph.findVisible g ns fuel (GraphLink.target raw))
    as [to| |]; simpl; [|done..].
  intros H. exists a, so, to. split_and!; try done.
  unfold resolvedPair, mergePair in *.
  destruct so as [s|], to as [t|]; try by injection H.
  destruct (Js.truthy s && Js.truthy t && negb (String.eqb s t)); simpl in *;
    [|by injection H].
  destruct (JsMap.get a (viewKey s t)); simpl in H; by injection H.
Qed.

(** A loop over the raw edges that returns has resolved both ends of each
    edge and merged the resolved pairs in order. *)
Lemma fold_linkStep_Ok {step : result (JsMap.t RenderLink.t) -> GraphLink.t ->
                               result (JsMap.t RenderLink.t)}
    {find : string -> result (option string)} {bump : bool}
    {vmap : JsMap.t RenderNode.t} :
  (forall acc raw acc', step acc raw = Ok acc' ->
     exists a so to,
       acc = Ok a /\ find (GraphLink.source raw) = Ok so
       /\ find (GraphLink.target raw) = Ok to
       /\ acc' = match resolvedPair so to with
                 | Some p => mergePair bump vmap a p
                 | None => a
                 end) ->
  forall raws acc final,
    fold_left step raws acc = Ok final ->
    exists a, acc = Ok a
      /\ final = fold_left (mergePair bump vmap) (omap (resolvedBy find) raws) a
      /\ forall raw, raw ∈ raws ->
           exists so to, find (GraphLink.source raw) = Ok so
                         /\ find (GraphLink.target raw) = Ok to.
Proof.
  intros Hstep raws. induction raws as [|raw raws IH]; intros acc final H; simpl in H.
  - exists final. split_and!; [done..|]. by intros ? ?%elem_of_nil.
  - apply IH in H as (a1 & H1 & -> & Hall).
    apply Hstep in H1 as (a & so & to & -> & Hso & Hto & ->).
    exists a. split_and!; [done| |].
    + simpl. unfold resolvedBy at 2. rewrite Hso, Hto.
      by destruct (resolvedPair so to).
    + intros r [->|Hr]%elem_of_cons; eauto.
Qed.

(** C3, as stated, fails: the call edge [f1::foo -> f2::baz] (weight 3) and
    the file edge [f1 -> f2] (weight 3) both resolve to the visible pair
    [(f1, f2)]; the visible edge has value 1 in either component, not the
    sum of the weights (6 over all raw edges, 3 over the call edges the
    module-function graph keeps).  And where two visible pairs share a key,
    here [(a-b, c)] and [(a, b-c)], the second pair gets no visible edge:
    the raw edge [a -> b-c] joins two nodes on screen, and the one visible
    edge joins [a-b] and [c]. *)
Lemma C3_counterexample :
  let data := buildGraph Examples.functionCall in
  exists v l,
    HierarchicalGraph.loadGraph data 5 = Ok v
    /\ vlinks v = [l] /\ keyOf l = Some "f1-f2"
    /\ RenderLink.value l = 1%Z
    /\ weightOf (fun i => HierarchicalGraph.findVisible
                            (HierarchicalGraph.loadedGraph data) (vnodes v) 5 (Some i))
                (allLinks (HierarchicalGraph.loadedGraph data)) "f1-f2" = 6%Z
    /\ (exists v' l',
         ModuleFunctionGraph.loadGraph data 5 = Ok v'
         /\ vlinks v' = [l'] /\ keyOf l' = Some "f1-f2"
         /\ RenderLink.value l' = 1%Z
         /\ weightOf (ModuleFunctionGraph.findVisible
                        (ModuleFunctionGraph.loadedGraph data) (vnodes v') 5)
                     (allLinks (ModuleFunctionGraph.loadedGraph data)) "f1-f2" = 3%Z)
    /\ exists w e,
         HierarchicalGraph.loadGraph (buildGraph Examples.collidingKeys) 5 = Ok w
         /\ map RenderNode.id (vnodes w) = ["a-b"; "c"; "a"; "b-c"]
         /\ GraphLink.mk "a" "b-c" 1%Z DEPENDENCY None
              ∈ allLinks (HierarchicalGraph.loadedGraph
                            (buildGraph Examples.collidingKeys))
         /\ vlinks w = [e] /\ endsOf e = Some ("a-b", "c")
         /\ viewKey "a" "b-c" = viewKey "a-b" "c".
Proof.
  intros data.
  eexists _, _. split; [vm_compute; reflexivity|].
  split; [reflexivity|]. split; [reflexivity|]. split; [reflexivity|].
  split; [vm_compute; reflexivity|].
  split.
  - eexists _, _. split; [vm_compute; reflexivity|].
    split; [reflexivity|]. split; [reflexivity|]. split; [reflexivity|].
    vm_compute; reflexivity.
  - eexists _, _. split; [vm_compute; reflexivity|].
    split; [reflexivity|].
    split; [apply list_elem_of_further, list_elem_of_here|].
    split; [reflexivity|]. split; reflexivity.
Qed.



(** ** Invariants of the view *)

Lemma updateSimulation_Ok g fuel ns ex v :
  HierarchicalGraph.updateSimulation g fuel ns ex = Ok v ->
  vnodes v = ns /\ expandedNodes v = ex
  /\ HierarchicalGraph.updateLinks g fuel ns = Ok (vlinks v).
Proof.
  unfold HierarchicalGraph.updateSimulation.
  destruct (HierarchicalGraph.updateLinks g fuel ns) as [ls| |]; simpl; [|done..].
  by intros [= <-].
Qed.


Lemma expand_Ok g fuel v parent v' :
  HierarchicalGraph.expand g fuel v parent = Ok v' ->
  exists children,
    getNode g (RenderNode.id parent) ≫= GraphNode.children = Some children
    /\ vnodes v' =
         List.filter (fun n => negb (String.eqb (RenderNode.id n) (RenderNode.id parent)))
                     (vnodes v)
         ++ omap (createRenderNode (objects g)) children
    /\ expandedNodes v' = setAdd (expandedNodes v) (RenderNode.id parent)
    /\ HierarchicalGraph.updateLinks g fuel (vnodes v') = Ok (vlinks v').
Proof.
  unfold HierarchicalGraph.expand.
  destruct (getNode g (RenderNode.id parent) ≫= GraphNode.children) as [cs|];
    [|done].
  intros (Hn & He & Hl)%updateSimulation_Ok. exists cs.
  rewrite Hn. split_and!; congruence.
Qed.

Lemma handleNodeClick_Ok g fuel v node v' :
  HierarchicalGraph.handleNodeClick g fuel v node = Ok v' ->
  v' = v \/ HierarchicalGraph.expand g fuel v node = Ok v'.
Proof.
  unfold HierarchicalGraph.handleNodeClick.
  destruct (getNode g (RenderNode.id node)) as [original|]; [|left; congruence].
  destruct (GraphNode.children original) as [[|c cs]|]; auto; left; congruence.
Qed.

Lemma filterR_Ok {A} (p : A -> result bool) (l r : list A) :
  filterR p l = Ok r ->
  exists q : A -> bool,
    (forall x, x ∈ l -> p x = Ok (q x)) /\ r = List.filter q l.
Proof.
  revert r. induction l as [|x l IH]; intros r H; simpl in H.
  - injection H as <-. exists (fun _ => true). split; [|done].
    by intros ? ?%elem_of_nil.
  - destruct (p x) as [b| |] eqn:Hb; simpl in H; [|done..].
    destruct (filterR p l) as [r'| |]; simpl in H; [|done..].
    injection H as <-. destruct (IH r' eq_refl) as (q & Hq & ->).
    (* the predicate may differ on [x] if [x] occurs again: take [p] itself *)
    exists (fun y => match p y with Ok c => c | _ => false end). split.
    + intros y [->|Hy]%elem_of_cons; [by rewrite Hb|].
      by rewrite (Hq y Hy).
    + simpl. rewrite Hb. f_equal; destruct b; [f_equal|];
        apply filter_ext_in; intros y Hy%list_elem_of_In;
        by rewrite (Hq y Hy).
Qed.

Lemma collapse_Ok g fuel v parentId v' :
  HierarchicalGraph.collapse g fuel v parentId = Ok v' ->
  exists (desc : string -> bool) r pn,
    (forall n, n ∈ vnodes v ->
       HierarchicalGraph.isDescendant g parentId fuel (RenderNode.id n)
       = Ok (desc (RenderNode.id n)))
    /\ JsMap.get (allNodesMap g) parentId = Some r
    /\ createRenderNode (objects g) r = Some pn
    /\ vnodes v' =
         List.filter (fun n => negb (desc (RenderNode.id n))) (vnodes v) ++ [pn]
    /\ expandedNodes v' = setDelete (expandedNodes v) parentId
    /\ HierarchicalGraph.updateLinks g fuel (vnodes v') = Ok (vlinks v').
Proof.
  unfold HierarchicalGraph.collapse.
  destruct (filterR _ (vnodes v)) as [ns| |] eqn:Hf; simpl; [|done..].
  destruct (JsMap.get (allNodesMap g) parentId) as [r|] eqn:Hr; [|done].
  destruct (createRenderNode (objects g) r) as [pn|] eqn:Hpn; [|done].
  intros (Hn & He & Hl)%updateSimulation_Ok.
  apply filterR_Ok in Hf as (q & Hq & ->).
  exists (fun i => match HierarchicalGraph.isDescendant g parentId fuel i with
                   | Ok b => b | _ => false end), r, pn.
  rewrite Hn. split_and!.
  - intros n Hn'. specialize (Hq n Hn').
    destruct (HierarchicalGraph.isDescendant g parentId fuel (RenderNode.id n));
      simpl in Hq; done.
  - done.
  - done.
  - f_equal. apply filter_ext_in. intros n Hn'%list_elem_of_In.
    specialize (Hq n Hn').
    destruct (HierarchicalGraph.isDescendant g parentId fuel (RenderNode.id n))
      as [b| |]; simpl in Hq; [|done..].
    by injection Hq as <-.
  - done.
  - done.
Qed.




(** ** The registry of a loaded graph *)

Lemma loadedGraph_get_snoc (h : list GraphNode.t) (rs : list ref) (r : ref) (i : string) :
  JsMap.get (fold_left (fun m r => match h !! r with
                                   | Some n => JsMap.set m (GraphNode.id n) r
                                   | None => m
                                   end) (rs ++ [r]) []) i =
  match h !! r with
  | Some n => if String.eqb (GraphNode.id n) i then Some r
              else JsMap.get (fold_left (fun m r => match h !! r with
                                   | Some n => JsMap.set m (GraphNode.id n) r
                                   | None => m
                                   end) rs []) i
  | None => JsMap.get (fold_left (fun m r => match h !! r with
                                   | Some n => JsMap.set m (GraphNode.id n) r
                                   | None => m
                                   end) rs []) i
  end.
Proof.
  rewrite fold_left_app. simpl. destruct (h !! r) as [n|]; [|done].
  destruct (String.eqb (GraphNode.id n) i) eqn:E.
  - apply string_eqb_true in E as <-. apply get_set_eq.
  - apply string_eqb_false in E. by apply get_set_ne.
Qed.

(** The registry is keyed by node id and holds listed nodes only. *)
Lemma loadedGraph_getNode data i n :
  getNode (HierarchicalGraph.loadedGraph data) i = Some n ->
  GraphNode.id n = i /\ exists r, r ∈ nodes data /\ store data !! r = Some n.
Proof.
  unfold getNode, HierarchicalGraph.loadedGraph. simpl.
  generalize (nodes data) as rs. intros rs.
  induction rs as [|r rs IH] using rev_ind; [done|].
  rewrite loadedGraph_get_snoc.
  assert (Hlift : (exists r0, r0 ∈ rs /\ store data !! r0 = Some n) ->
                  exists r0, r0 ∈ rs ++ [r] /\ store data !! r0 = Some n).
  { intros (r0 & ? & ?). exists r0. split; [|done]. apply elem_of_app. by left. }
  destruct (store data !! r) as [n'|] eqn:Hr.
  - destruct (String.eqb (GraphNode.id n') i) eqn:E.
    + simpl. rewrite Hr. intros [= <-]. apply string_eqb_true in E.
      split; [done|]. exists r. split; [|done].
      apply elem_of_app. right. apply list_elem_of_here.
    + intros H. destruct (IH H) as [? ?]. auto.
  - intros H. destruct (IH H) as [? ?]. auto.
Qed.

Lemma createRenderNode_Some h r rn :
  createRenderNode h r = Some rn ->
  exists n, h !! r = Some n
            /\ RenderNode.id rn = GraphNode.id n
            /\ RenderNode.parentId rn = GraphNode.parentId n.
Proof.
  unfold createRenderNode. destruct (h !! r) as [n|]; [|done].
  intros [= <-]. by exists n.
Qed.

(** ** Descendants *)

Lemma isDescendant_sound g a fuel i b :
  HierarchicalGraph.isDescendant g a fuel i = Ok b ->
  if b then descendantOf g a i else ~ descendantOf g a i.
Proof.
  revert i. induction fuel as [|fuel IH]; intros i H; simpl in H; [done|].
  destruct (getNode g i) as [n|] eqn:Hn.
  - destruct (GraphNode.parentId n) as [p|] eqn:Hp.
    + destruct (Js.truthy p) eqn:Ht; simpl in H.
      * destruct (String.eqb_spec p a) as [->|Hne].
        -- injection H as <-. by eapply descendant_child.
        -- apply IH in H. destruct b.
           ++ by eapply descendant_up.
           ++ intros Hd; destruct Hd; simplify_eq; congruence.
      * injection H as <-. intros Hd; destruct Hd; simplify_eq; congruence.
    + injection H as <-. intros Hd; destruct Hd; simplify_eq; congruence.
  - injection H as <-. intros Hd; destruct Hd; simplify_eq; congruence.
Qed.

Section Ranked.
Variable g : Graph.
Variable rank : string -> nat.
Hypothesis rank_parent : forall i n p,
  getNode g i = Some n -> GraphNode.parentId n = Some p ->
  Js.truthy p = true -> rank p < rank i.

Lemma descendantOf_rank a i : descendantOf g a i -> rank a < rank i.
Proof.
  induction 1 as [i n Hn Hp Ht|i n p Hn Hp Ht Hd IH].
  - by eapply rank_parent.
  - pose proof (rank_parent _ _ _ Hn Hp Ht). lia.
Qed.

Lemma descendantOf_irrefl a : ~ descendantOf g a a.
Proof. intros H%descendantOf_rank. lia. Qed.

Lemma isDescendant_total a fuel i :
  rank i < fuel -> exists b, HierarchicalGraph.isDescendant g a fuel i = Ok b.
Proof.
  revert i. induction fuel as [|fuel IH]; intros i Hlt; [lia|]. simpl.
  destruct (getNode g i) as [n|] eqn:Hn; [|eauto].
  destruct (GraphNode.parentId n) as [p|] eqn:Hp; [|eauto].
  destruct (Js.truthy p) eqn:Ht; simpl; [|eauto].
  destruct (String.eqb p a); [eauto|].
  apply IH. pose proof (rank_parent _ _ _ Hn Hp Ht). lia.
Qed.

Lemma findVisible_total ns fuel curr :
  0 < fuel ->
  (forall i, curr = Some i -> Js.truthy i = true -> rank i + 1 < fuel) ->
  exists r, HierarchicalGraph.findVisible g ns fuel curr = Ok r.
Proof.
  revert curr. induction fuel as [|fuel IH]; intros curr Hpos Hlt; [lia|]. simpl.
  destruct curr as [c|]; [|eauto].
  destruct (Js.truthy c) eqn:Ht; [|eauto].
  destruct (isVisible ns c); [eauto|].
  specialize (Hlt c eq_refl Ht).
  apply IH; [lia|]. intros p Hp Htp.
  destruct (getNode g c) as [n|] eqn:Hn; [|done]. simpl in Hp.
  pose proof (rank_parent _ _ _ Hn Hp Htp). lia.
Qed.

End Ranked.


(** ** Termination of the handlers on a well-founded registry *)

Lemma enoughFuel_ids rank g ids i :
  i ∈ ids -> rank i + 1 < enoughFuel rank g ids.
Proof.
  intros Hi. unfold enoughFuel.
  set (l := map rank _).
  assert (Hle : rank i <= list_max l).
  { pose proof (proj1 (list_max_le l (list_max l)) (le_n _)) as Hall.
    rewrite List.Forall_forall in Hall. apply Hall.
    apply in_map, in_or_app. right. by apply list_elem_of_In. }
  lia.
Qed.

Lemma enoughFuel_ends rank g ids raw :
  raw ∈ allLinks g ->
  rank (GraphLink.source raw) + 1 < enoughFuel rank g ids
  /\ rank (GraphLink.target raw) + 1 < enoughFuel rank g ids.
Proof.
  intros Hraw. unfold enoughFuel.
  set (l := map rank _).
  assert (Hle : forall x, x ∈ [GraphLink.source raw; GraphLink.target raw] ->
                          rank x <= list_max l).
  { intros x Hx.
    pose proof (proj1 (list_max_le l (list_max l)) (le_n _)) as Hall.
    rewrite List.Forall_forall in Hall. apply Hall.
    apply in_map, in_or_app. left. apply in_flat_map.
    exists raw. split; by apply list_elem_of_In. }
  pose proof (Hle (GraphLink.source raw) ltac:(apply list_elem_of_here)).
  pose proof (Hle (GraphLink.target raw)
                  ltac:(apply list_elem_of_further, list_elem_of_here)).
  lia.
Qed.

Lemma fold_linkStepH_total g ns fuel raws acc :
  (forall raw, raw ∈ raws ->
     exists so to,
       HierarchicalGraph.findVisible g ns fuel (Some (GraphLink.source raw)) = Ok so
       /\ HierarchicalGraph.findVisible g ns fuel (Some (GraphLink.target raw)) = Ok to) ->
  exists final, fold_left (HierarchicalGraph.linkStep g ns fuel) raws (Ok acc) = Ok final.
Proof.
  revert acc. induction raws as [|raw raws IH]; intros acc Hall;
    cbn [fold_left]; [eauto|].
  destruct (Hall raw) as (so & to & Hso & Hto); [apply list_elem_of_here|].
  assert (Hstep : exists acc1,
             HierarchicalGraph.linkStep g ns fuel (Ok acc) raw = Ok acc1).
  { unfold HierarchicalGraph.linkStep. simpl. rewrite Hso. simpl. rewrite Hto. simpl.
    destruct so as [s|], to as [t|]; eauto.
    destruct (Js.truthy s && Js.truthy t && negb (String.eqb s t)); eauto.
    destruct (negb _); eauto. }
  destruct Hstep as [acc1 ->]. apply IH.
  intros r Hr. apply Hall. by apply list_elem_of_further.
Qed.

Lemma updateLinks_total g rank ns ids :
  (forall i n p, getNode g i = Some n -> GraphNode.parentId n = Some p ->
                 Js.truthy p = true -> rank p < rank i) ->
  exists ls, HierarchicalGraph.updateLinks g (enoughFuel rank g ids) ns = Ok ls.
Proof.
  intros Hrank. unfold HierarchicalGraph.updateLinks.
  destruct (fold_linkStepH_total g ns (enoughFuel rank g ids) (allLinks g) [])
    as [final ->]; [|simpl; eauto].
  intros raw Hraw.
  destruct (enoughFuel_ends rank g ids raw Hraw) as [Hs Ht].
  destruct (findVisible_total g rank Hrank ns (enoughFuel rank g ids)
              (Some (GraphLink.source raw))) as [so Hso];
    [unfold enoughFuel; lia|intros ? [= <-] _; done|].
  destruct (findVisible_total g rank Hrank ns (enoughFuel rank g ids)
              (Some (GraphLink.target raw))) as [to Hto];
    [unfold enoughFuel; lia|intros ? [= <-] _; done|].
  eauto.
Qed.

Lemma updateSimulation_total g rank ns ex ids :
  (forall i n p, getNode g i = Some n -> GraphNode.parentId n = Some p ->
                 Js.truthy p = true -> rank p < rank i) ->
  exists ls, HierarchicalGraph.updateSimulation g (enoughFuel rank g ids) ns ex
             = Ok (mkView ns ls ex).
Proof.
  intros Hrank. unfold HierarchicalGraph.updateSimulation.
  destruct (updateLinks_total g rank ns ids Hrank) as [ls ->]. simpl. eauto.
Qed.

Lemma filterR_total {A} (p : A -> result bool) (l : list A) :
  (forall x, x ∈ l -> exists b, p x = Ok b) -> exists r, filterR p l = Ok r.
Proof.
  induction l as [|x l IH]; intros Hall; simpl; [eauto|].
  destruct (Hall x) as [b ->]; [apply list_elem_of_here|]. simpl.
  destruct IH as [r ->]; [|simpl; eauto].
  intros y Hy. apply Hall. by apply list_elem_of_further.
Qed.


(** ** The view of a well-formed graph *)

Lemma descendantOf_parent g a b p :
  descendantOf g a b ->
  GraphNode.parentId <$> getNode g b = Some (Some p) ->
  a = p \/ descendantOf g a p.
Proof.
  intros Hd Hp. destruct Hd as [i n Hn Hpa Ht|i n q Hn Hq Ht Hd];
    rewrite Hn in Hp; simpl in Hp; simplify_eq; auto.
Qed.

Lemma descendantOf_child g a b p :
  GraphNode.parentId <$> getNode g b = Some (Some p) ->
  Js.truthy p = true ->
  a = p \/ descendantOf g a p ->
  descendantOf g a b.
Proof.
  intros Hp Ht Ha. destruct (getNode g b) as [n|] eqn:Hn; [|done].
  simpl in Hp. injection Hp as Hp.
  destruct Ha as [->|Ha]; [by eapply descendant_child|by eapply descendant_up].
Qed.

Lemma descendantOf_has_parent g a b :
  descendantOf g a b ->
  exists p, GraphNode.parentId <$> getNode g b = Some (Some p)
            /\ Js.truthy p = true.
Proof.
  intros [i n Hn Hp Ht|i n p Hn Hp Ht _]; rewrite Hn; simpl; rewrite Hp; eauto.
Qed.

Lemma descendantOf_trans g p a b :
  descendantOf g p a -> descendantOf g a b -> descendantOf g p b.
Proof.
  intros Hpa Hab. induction Hab as [i n Hn Hp Ht|i n q Hn Hq Ht Hd IH];
    eapply descendant_up; eauto.
Qed.

Lemma visibleIds_filter_ne (ns : list RenderNode.t) (p i : string) :
  i ∈ map RenderNode.id
        (List.filter (fun n => negb (String.eqb (RenderNode.id n) p)) ns)
  <-> i ∈ map RenderNode.id ns /\ i <> p.
Proof.
  rewrite !list_elem_of_fmap. split.
  - intros (n & -> & Hn). apply list_elem_of_In, filter_In in Hn as [Hn Hne].
    apply negb_true_iff, string_eqb_false in Hne.
    split; [|done]. exists n. split; [done|]. by apply list_elem_of_In.
  - intros [(n & -> & Hn) Hne]. exists n. split; [done|].
    apply list_elem_of_In, filter_In. split; [by apply list_elem_of_In|].
    by apply negb_true_iff, string_eqb_false.
Qed.

Section WellFormedView.
Variable data : HierarchicalData.
Hypothesis Hwf : wellFormed data.

Local Abbreviation g := (HierarchicalGraph.loadedGraph data).

(** The nodes drawn for the children of a registered node. *)
Lemma child_render i n cs rn :
  getNode g i = Some n -> GraphNode.children n = Some cs ->
  rn ∈ omap (createRenderNode (objects g)) cs ->
  RenderNode.parentId rn = Some i /\ Js.truthy i = true
  /\ GraphNode.parentId <$> getNode g (RenderNode.id rn) = Some (Some i).
Proof.
  intros Hn Hcs Hrn. destruct Hwf as (HA & HB & _).
  apply loadedGraph_getNode in Hn as (<- & r & Hr & Hsr).
  apply list_elem_of_omap in Hrn as (c & Hc & Hcr).
  destruct (HB r n cs c Hr Hsr Hcs Hc) as (Hcn & Ht & cn & Hsc & Hp).
  apply createRenderNode_Some in Hcr as (cn' & Hsc' & Hid & Hpid).
  simpl in Hsc'. rewrite Hsc in Hsc'. injection Hsc' as <-.
  rewrite Hid, Hpid, Hp. split_and!; [done..|].
  rewrite (HA c cn Hcn Hsc). by rewrite Hp.
Qed.

Lemma first_child_render i n c cs :
  getNode g i = Some n -> GraphNode.children n = Some (c :: cs) ->
  exists rn, rn ∈ omap (createRenderNode (objects g)) (c :: cs).
Proof.
  intros Hn Hcs. destruct Hwf as (_ & HB & _).
  apply loadedGraph_getNode in Hn as (_ & r & Hr & Hsr).
  destruct (HB r n (c :: cs) c Hr Hsr Hcs) as (_ & _ & cn & Hsc & _);
    [apply list_elem_of_here|].
  eexists. apply list_elem_of_omap. exists c. split; [apply list_elem_of_here|].
  unfold createRenderNode. simpl. by rewrite Hsc.
Qed.

Lemma parent_truthy i n c cs :
  getNode g i = Some n -> GraphNode.children n = Some (c :: cs) ->
  Js.truthy i = true.
Proof.
  intros Hn Hcs. destruct Hwf as (_ & HB & _).
  apply loadedGraph_getNode in Hn as (<- & r & Hr & Hsr).
  destruct (HB r n (c :: cs) c Hr Hsr Hcs) as (_ & ? & _);
    [apply list_elem_of_here|done].
Qed.

Lemma init_invariant fuel v :
  HierarchicalGraph.loadGraph data fuel = Ok v -> viewInvariant g v.
Proof.
  intros (Hn & He & _)%updateSimulation_Ok. destruct Hwf as (HA & _ & _).
  assert (Hroot : forall n, n ∈ vnodes v ->
            GraphNode.parentId <$> getNode g (RenderNode.id n)
            = Some (RenderNode.parentId n)
            /\ Js.truthyO (RenderNode.parentId n) = false).
  { intros n Hin. rewrite Hn in Hin.
    apply list_elem_of_omap in Hin as (r & Hr & Hcr).
    apply list_elem_of_In, filter_In in Hr as [Hr Hroot].
    apply createRenderNode_Some in Hcr as (gn & Hs & Hid & Hpid).
    rewrite Hs in Hroot. apply negb_true_iff in Hroot.
    rewrite Hid, Hpid. split; [|done].
    apply (HA r gn); [by apply list_elem_of_In|done]. }
  split_and!.
  - intros a b _ Hb Hd. unfold visibleIds in Hb.
    apply list_elem_of_fmap in Hb as (n & -> & Hin).
    destruct (Hroot n Hin) as [Hp Hf].
    apply descendantOf_has_parent in Hd as (p & Hp' & Ht).
    rewrite Hp in Hp'. injection Hp' as Hp'. rewrite Hp' in Hf. simpl in Hf.
    congruence.
  - intros n Hin. by apply Hroot.
  - rewrite He. by intros ? ?%elem_of_nil.
Qed.

Lemma expand_invariant fuel v node v' :
  viewInvariant g v -> node ∈ vnodes v ->
  HierarchicalGraph.handleNodeClick g fuel v node = Ok v' ->
  viewInvariant g v'.
Proof.
  intros Hinv Hnode Hrun.
  unfold HierarchicalGraph.handleNodeClick in Hrun.
  destruct (getNode g (RenderNode.id node)) as [original|] eqn:Horig;
    [|by injection Hrun as <-].
  destruct (GraphNode.children original) as [[|c cs]|] eqn:Hcs;
    [by injection Hrun as <-| |by injection Hrun as <-].
  apply expand_Ok in Hrun as (children & Hch & Hn & He & _).
  rewrite Horig in Hch. simpl in Hch. rewrite Hcs in Hch. injection Hch as <-.
  destruct Hinv as (Hanti & Hmirror & Hexp).
  destruct Hwf as (_ & _ & rank & Hrank).
  set (p := RenderNode.id node) in *.
  assert (Hp : p ∈ visibleIds v) by (by apply list_elem_of_fmap_2).
  assert (Hids : forall i, i ∈ visibleIds v' ->
            (i ∈ visibleIds v /\ i <> p)
            \/ (GraphNode.parentId <$> getNode g i = Some (Some p))).
  { intros i Hi. unfold visibleIds in Hi. rewrite Hn, fmap_app in Hi.
    apply elem_of_app in Hi as [Hi|Hi].
    - left. by apply visibleIds_filter_ne in Hi.
    - right. apply list_elem_of_fmap in Hi as (rn & -> & Hrn).
      by destruct (child_render _ _ _ _ Horig Hcs Hrn) as (_ & _ & ?). }
  assert (Htp : Js.truthy p = true) by (by eapply parent_truthy).
  split_and!.
  - intros a b Ha Hb Hd.
    destruct (Hids b Hb) as [[Hb' Hbp]|Hb'].
    + destruct (Hids a Ha) as [[Ha' Hap]|Ha']; [by apply (Hanti a b)|].
      (* a child of [p] above a node that was on screen *)
      apply (Hanti p b); [done..|].
      apply (descendantOf_trans g p a b); [|done].
      eapply descendantOf_child; eauto.
    + destruct (descendantOf_parent _ _ _ _ Hd Hb') as [->|Hdp].
      * destruct (Hids p Ha) as [[_ ?]|Hpp]; [done|].
        apply (descendantOf_irrefl g rank Hrank p).
        eapply descendantOf_child; eauto.
      * destruct (Hids a Ha) as [[Ha' _]|Ha']; [by apply (Hanti a p)|].
        apply (descendantOf_irrefl g rank Hrank p).
        apply (descendantOf_trans g p a p); [|done].
        eapply descendantOf_child; eauto.
  - intros n Hin. rewrite Hn in Hin. apply elem_of_app in Hin as [Hin|Hin].
    + apply Hmirror. apply list_elem_of_In, filter_In in Hin as [Hin _].
      by apply list_elem_of_In.
    + destruct (child_render _ _ _ _ Horig Hcs Hin) as (-> & _ & ?). done.
  - intros q Hq. rewrite He in Hq. unfold setAdd in Hq.
    case_bool_decide; [by apply Hexp|].
    apply elem_of_app in Hq as [Hq|Hq%list_elem_of_singleton]; [by apply Hexp|].
    by subst q.
Qed.

End WellFormedView.


Lemma hasEnclosure_true v p :
  HierarchicalGraph.hasEnclosure v p = true <->
  p ∈ expandedNodes v
  /\ exists n, n ∈ vnodes v /\ RenderNode.parentId n = Some p.
Proof.
  unfold HierarchicalGraph.hasEnclosure.
  rewrite andb_true_iff, bool_decide_eq_true, existsb_exists.
  split; intros [? (n & Hn & Hp)]; (split; [done|]); exists n.
  - apply bool_decide_eq_true in Hp. split; [by apply list_elem_of_In|done].
  - split; [by apply list_elem_of_In|by apply bool_decide_eq_true].
Qed.

Section WellFormedCollapse.
Variable data : HierarchicalData.
Hypothesis Hwf : wellFormed data.

Local Abbreviation g := (HierarchicalGraph.loadedGraph data).

Lemma collapse_invariant fuel v p v' :
  viewInvariant g v -> HierarchicalGraph.hasEnclosure v p = true ->
  HierarchicalGraph.collapse g fuel v p = Ok v' ->
  viewInvariant g v' /\
  (forall i, i ∈ visibleIds v' <->
             i = p \/ (i ∈ visibleIds v /\ ~ descendantOf g p i)).
Proof.
  intros (Hanti & Hmirror & Hexp) (Hpe & n0 & Hn0 & Hn0p)%hasEnclosure_true Hrun.
  apply collapse_Ok in Hrun as (desc & r & pn & Hdesc & Hr & Hpn & Hn & He & _).
  destruct Hwf as (_ & _ & rank & Hrank).
  apply createRenderNode_Some in Hpn as (gn & Hgn & Hid & Hpid).
  assert (Hgp : getNode g p = Some gn).
  { unfold getNode. rewrite Hr. done. }
  destruct (loadedGraph_getNode _ _ _ Hgp) as [Hidp _].
  assert (Hreflect : forall n, n ∈ vnodes v ->
            desc (RenderNode.id n) = true <-> descendantOf g p (RenderNode.id n)).
  { intros n Hin. pose proof (isDescendant_sound _ _ _ _ _ (Hdesc n Hin)) as Hs.
    destruct (desc (RenderNode.id n)); split; try done. }
  assert (Hids : forall i, i ∈ visibleIds v' <->
            i = p \/ (i ∈ visibleIds v /\ ~ descendantOf g p i)).
  { intros i. unfold visibleIds. rewrite Hn, fmap_app, elem_of_app. simpl.
    rewrite list_elem_of_singleton, Hid, Hidp.
    rewrite !list_elem_of_fmap. split.
    - intros [(n & Hi & Hin)|Hi]; subst i; [|by left]. right.
      apply list_elem_of_In, filter_In in Hin as [Hin Hd].
      apply list_elem_of_In in Hin. split; [by exists n|].
      rewrite <- (Hreflect n Hin). by destruct (desc (RenderNode.id n)).
    - intros [Hi|[(n & Hi & Hin) Hd]]; subst i; [by right|]. left.
      exists n. split; [done|]. apply list_elem_of_In, filter_In.
      split; [by apply list_elem_of_In|].
      rewrite <- (Hreflect n Hin) in Hd. by destruct (desc (RenderNode.id n)). }
  assert (Htp : Js.truthy p = true) by auto.
  split; [|done]. split_and!.
  - intros a b Ha Hb Hd.
    apply Hids in Ha as [->|[Ha _]], Hb as [->|[Hb Hnb]].
    + by apply (descendantOf_irrefl g rank Hrank p).
    + done.
    + (* the node drawn inside the enclosure would lie below [a] *)
      apply (Hanti a (RenderNode.id n0)); [done|by apply list_elem_of_fmap_2|].
      eapply descendantOf_child; [|done|by right].
      by rewrite (Hmirror n0 Hn0), Hn0p.
    + by apply (Hanti a b).
  - intros n Hin. rewrite Hn in Hin.
    apply elem_of_app in Hin as [Hin|Hin%list_elem_of_singleton].
    + apply Hmirror. apply list_elem_of_In, filter_In in Hin as [Hin _].
      by apply list_elem_of_In.
    + subst n. rewrite Hid, Hidp, Hgp, Hpid. done.
  - intros q Hq. rewrite He in Hq. unfold setDelete in Hq.
    apply list_elem_of_filter in Hq as [_ Hq]. by apply Hexp.
Qed.

Lemma reachable_invariant v : reachable data v -> viewInvariant g v.
Proof.
  induction 1 as [v [fuel Hrun]|v e v' Hreach IH Hstep].
  - by eapply init_invariant.
  - destruct Hstep as [v node v' Hnode [fuel Hrun]|v p v' Henc [fuel Hrun]].
    + by eapply expand_invariant.
    + by eapply collapse_invariant.
Qed.

End WellFormedCollapse.


(** The graph of scenario 1 is well-formed. *)
Lemma scenario1_wellFormed : wellFormed (buildGraph Examples.scenario1).
Proof.
  split_and!.
  - intros r n Hr Hs.
    change (r ∈ [0; 1; 2; 3; 4]) in Hr.
    repeat (apply elem_of_cons in Hr as [->|Hr];
            [vm_compute in Hs; injection Hs as <-; reflexivity|]).
    by apply elem_of_nil in Hr.
  - intros r n cs c Hr Hs Hcs Hc.
    change (r ∈ [0; 1; 2; 3; 4]) in Hr.
    repeat (apply elem_of_cons in Hr as [->|Hr];
            [vm_compute in Hs; injection Hs as <-; simpl in Hcs;
             injection Hcs as <-;
             repeat (apply elem_of_cons in Hc as [->|Hc];
                     [split_and!; [apply list_elem_of_In; vm_compute; auto 10|reflexivity
                                 |eexists; split; reflexivity]|]);
             by apply elem_of_nil in Hc|]).
    by apply elem_of_nil in Hr.
  - exists String.length. intros i n p Hn Hp Ht.
    apply loadedGraph_getNode in Hn as (<- & r & Hr & Hs).
    change (r ∈ [0; 1; 2; 3; 4]) in Hr.
    repeat (apply elem_of_cons in Hr as [->|Hr];
            [vm_compute in Hs; injection Hs as <-; simpl in Hp;
             try discriminate; injection Hp as <-; simpl; lia|]).
    by apply elem_of_nil in Hr.
Qed.



(** ** The store under [pushChild] *)

Lemma pushChild_length h p c : length (pushChild h p c) = length h.
Proof. unfold pushChild. destruct (h !! p); [apply length_insert|done]. Qed.

Lemma pushChild_lookup_ne h p c r : r <> p -> pushChild h p c !! r = h !! r.
Proof.
  intros Hne. unfold pushChild. destruct (h !! p); [|done].
  by apply list_lookup_insert_ne.
Qed.

Lemma pushChild_lookup_eq h p c pn :
  h !! p = Some pn ->
  pushChild h p c !! p =
  Some (GraphNode.withChildren pn (Some (default [] (GraphNode.children pn) ++ [c]))).
Proof.
  intros Hp. unfold pushChild. rewrite Hp.
  apply list_lookup_insert_eq. by eapply lookup_lt_Some.
Qed.

(** [pushChild] changes the [children] of one node and nothing else. *)
Lemma pushChild_lookup h p c r n' :
  pushChild h p c !! r = Some n' ->
  exists n, h !! r = Some n
            /\ GraphNode.id n' = GraphNode.id n
            /\ GraphNode.parentId n' = GraphNode.parentId n
            /\ (default [] (GraphNode.children n') =
                if decide (r = p) then default [] (GraphNode.children n) ++ [c]
                else default [] (GraphNode.children n)).
Proof.
  destruct (decide (r = p)) as [->|Hne].
  - destruct (h !! p) as [pn|] eqn:Hp.
    + rewrite (pushChild_lookup_eq _ _ _ _ Hp). intros [= <-]. by exists pn.
    + unfold pushChild. rewrite Hp. intros H. congruence.
  - rewrite pushChild_lookup_ne by done. intros Hr. by exists n'.
Qed.

Lemma pushChild_lookup_fwd h p c r n :
  h !! r = Some n ->
  exists n', pushChild h p c !! r = Some n'
             /\ GraphNode.id n' = GraphNode.id n
             /\ GraphNode.parentId n' = GraphNode.parentId n
             /\ (default [] (GraphNode.children n') =
                 if decide (r = p) then default [] (GraphNode.children n) ++ [c]
                 else default [] (GraphNode.children n)).
Proof.
  intros Hr. destruct (decide (r = p)) as [->|Hne].
  - rewrite (pushChild_lookup_eq _ _ _ _ Hr). eexists. split; [done|]. done.
  - rewrite pushChild_lookup_ne by done. by exists n.
Qed.

Lemma pushChild_id h p c r :
  GraphNode.id <$> pushChild h p c !! r = GraphNode.id <$> h !! r.
Proof.
  destruct (decide (r = p)) as [->|Hne].
  - destruct (h !! p) as [pn|] eqn:Hp.
    + by rewrite (pushChild_lookup_eq _ _ _ _ Hp).
    + unfold pushChild. rewrite Hp. by rewrite Hp.
  - by rewrite pushChild_lookup_ne.
Qed.

(** ** Adding a node to a forest *)

Section AddNode.
Import Containment.
Variable reg : Registry.
Variable n : GraphNode.t.
Hypothesis Hforest : forest reg.
Hypothesis Hfresh : JsMap.get (nodesMap reg) (GraphNode.id n) = None.
Hypothesis Hleaf : GraphNode.children n = Some [].

Local Abbreviation r := (length (heap reg)).
Local Abbreviation m1 := (JsMap.set (nodesMap reg) (GraphNode.id n) r).

Lemma registered_lt i r0 : JsMap.get (nodesMap reg) i = Some r0 -> r0 < r.
Proof.
  intros H. apply (forest_registry _ Hforest) in H.
  destruct (heap reg !! r0) eqn:E; [|done]. by eapply lookup_lt_Some.
Qed.

Lemma registry_after (h' : list GraphNode.t) :
  (forall r0, GraphNode.id <$> h' !! r0 = GraphNode.id <$> (heap reg ++ [n]) !! r0) ->
  forall i r0, JsMap.get m1 i = Some r0 <-> GraphNode.id <$> h' !! r0 = Some i.
Proof.
  intros Hh i r0. rewrite Hh.
  destruct (decide (GraphNode.id n = i)) as [<-|Hne].
  - rewrite get_set_eq. split.
    + intros [= <-]. by rewrite list_lookup_middle.
    + intros H. destruct (lt_eq_lt_dec r0 r) as [[Hlt| ->]|Hgt].
      * rewrite lookup_app_l in H by done.
        apply (forest_registry _ Hforest) in H. congruence.
      * done.
      * rewrite lookup_ge_None_2 in H; [done|]. rewrite length_app. simpl. lia.
  - rewrite get_set_ne by done. rewrite (forest_registry _ Hforest). split.
    + intros H. rewrite lookup_app_l; [done|].
      destruct (heap reg !! r0) eqn:E; [|done]. by eapply lookup_lt_Some.
    + intros H. destruct (lt_eq_lt_dec r0 r) as [[Hlt| ->]|Hgt].
      * by rewrite lookup_app_l in H.
      * rewrite list_lookup_middle in H by done. simpl in H. congruence.
      * rewrite lookup_ge_None_2 in H; [done|]. rewrite length_app. simpl. lia.
Qed.

(** A node without a (truthy) parent becomes a new root. *)
Lemma add_root_forest :
  Js.truthyO (GraphNode.parentId n) = false ->
  forest (mkRegistry (heap reg ++ [n]) m1).
Proof.
  intros Hroot. split; simpl.
  - by apply registry_after.
  - intros r0 n0 p Hr0 Hp Ht.
    destruct (lt_eq_lt_dec r0 r) as [[Hlt| ->]|Hgt].
    + rewrite lookup_app_l in Hr0 by done.
      destruct (forest_parent _ Hforest _ _ _ Hr0 Hp Ht)
        as (rp & pn & Hrp & Hpn & Hlt' & Hin).
      exists rp, pn. split_and!; try done.
      * rewrite get_set_ne; [done|]. intros <-. congruence.
      * rewrite lookup_app_l; [done|]. by eapply lookup_lt_Some.
    + rewrite list_lookup_middle in Hr0 by done. injection Hr0 as <-.
      rewrite Hp in Hroot. simpl in Hroot. congruence.
    + rewrite lookup_ge_None_2 in Hr0; [done|]. rewrite length_app. simpl. lia.
  - intros rp pn c Hrp Hc.
    destruct (lt_eq_lt_dec rp r) as [[Hlt| ->]|Hgt].
    + rewrite lookup_app_l in Hrp by done.
      destruct (forest_children _ Hforest _ _ _ Hrp Hc) as (cn & Hcn & ? & ?).
      exists cn. split_and!; try done.
      rewrite lookup_app_l; [done|]. by eapply lookup_lt_Some.
    + rewrite list_lookup_middle in Hrp by done. injection Hrp as <-.
      rewrite Hleaf in Hc. by apply elem_of_nil in Hc.
    + rewrite lookup_ge_None_2 in Hrp; [done|]. rewrite length_app. simpl. lia.
  - intros rp pn Hrp.
    destruct (lt_eq_lt_dec rp r) as [[Hlt| ->]|Hgt].
    + rewrite lookup_app_l in Hrp by done.
      by eapply (forest_children_once _ Hforest).
    + rewrite list_lookup_middle in Hrp by done. injection Hrp as <-.
      rewrite Hleaf. apply NoDup_nil_2.
    + rewrite lookup_ge_None_2 in Hrp; [done|]. rewrite length_app. simpl. lia.
Qed.

(** A node with a registered parent becomes its last child. *)
Lemma add_child_forest p rp :
  GraphNode.parentId n = Some p -> Js.truthy p = true ->
  JsMap.get (nodesMap reg) p = Some rp ->
  forest (mkRegistry (pushChild (heap reg ++ [n]) rp r) m1).
Proof.
  intros Hp Htp Hrp.
  pose proof (registered_lt _ _ Hrp) as Hlt.
  assert (Hpn : exists pn, heap reg !! rp = Some pn /\ GraphNode.id pn = p).
  { apply (forest_registry _ Hforest) in Hrp.
    destruct (heap reg !! rp) as [pn|]; [|done]. exists pn.
    split; [done|]. by injection Hrp. }
  destruct Hpn as (pn & Hpn & Hpid).
  assert (Hold : forall x y, heap reg !! x = Some y -> (heap reg ++ [n]) !! x = Some y).
  { intros x y Hx. rewrite lookup_app_l; [done|]. by eapply lookup_lt_Some. }
  assert (Hkey : forall i x, JsMap.get (nodesMap reg) i = Some x ->
                             JsMap.get m1 i = Some x).
  { intros i x Hi. rewrite get_set_ne; [done|]. intros <-. congruence. }
  assert (Hcases : forall x y, (heap reg ++ [n]) !! x = Some y ->
            (x < r /\ heap reg !! x = Some y) \/ (x = r /\ y = n)).
  { intros x y Hx. destruct (lt_eq_lt_dec x r) as [[Hx'| ->]|Hx'].
    - left. by rewrite lookup_app_l in Hx.
    - right. rewrite list_lookup_middle in Hx by done. by injection Hx.
    - rewrite lookup_ge_None_2 in Hx; [done|]. rewrite length_app. simpl. lia. }
  split; simpl.
  - apply registry_after. intros r0. apply pushChild_id.
  - intros r0 n0 p0 Hr0 Hp0 Ht0.
    apply pushChild_lookup in Hr0 as (n0' & Hr0 & _ & Hpar & _).
    rewrite Hpar in Hp0.
    apply Hcases in Hr0 as [[Hr0lt Hr0]|[-> ->]].
    + destruct (forest_parent _ Hforest _ _ _ Hr0 Hp0 Ht0)
        as (rp0 & pn0 & Hrp0 & Hpn0 & Hlt0 & Hin).
      destruct (pushChild_lookup_fwd _ rp r _ _ (Hold _ _ Hpn0))
        as (pn0' & Hpn0' & _ & _ & Hch).
      exists rp0, pn0'. split_and!; auto.
      rewrite Hch. case_decide; [|done]. apply elem_of_app. by left.
    + rewrite Hp in Hp0. injection Hp0 as <-.
      destruct (pushChild_lookup_fwd _ rp r _ _ (Hold _ _ Hpn))
        as (pn' & Hpn' & _ & _ & Hch).
      exists rp, pn'. split_and!; auto.
      rewrite Hch, decide_True by done.
      apply elem_of_app. right. apply list_elem_of_here.
  - intros rp0 pn0 c Hrp0 Hc.
    apply pushChild_lookup in Hrp0 as (pn0' & Hrp0 & Hid & _ & Hch).
    rewrite Hch in Hc. rewrite Hid.
    assert (Hstay : forall cn, (heap reg ++ [n]) !! c = Some cn ->
              GraphNode.parentId cn = Some (GraphNode.id pn0') ->
              exists cn', pushChild (heap reg ++ [n]) rp r !! c = Some cn'
                          /\ GraphNode.parentId cn' = Some (GraphNode.id pn0')).
    { intros cn Hcn Hcp.
      destruct (pushChild_lookup_fwd _ rp r _ _ Hcn) as (cn' & Hcn' & _ & Hcp' & _).
      exists cn'. split; [done|]. congruence. }
    assert (Holdchild : c ∈ default [] (GraphNode.children pn0') ->
              rp0 < r -> heap reg !! rp0 = Some pn0' ->
              exists cn, pushChild (heap reg ++ [n]) rp r !! c = Some cn
                         /\ GraphNode.parentId cn = Some (GraphNode.id pn0')
                         /\ Js.truthy (GraphNode.id pn0') = true).
    { intros Hc' _ Hh.
      destruct (forest_children _ Hforest _ _ _ Hh Hc') as (cn & Hcn & Hcp & Ht).
      destruct (Hstay cn (Hold _ _ Hcn) Hcp) as (cn' & ? & ?). by exists cn'. }
    apply Hcases in Hrp0 as [[Hrp0lt Hrp0]|[-> ->]].
    + case_decide as Heq.
      * subst rp0. rewrite Hpn in Hrp0. injection Hrp0 as <-.
        apply elem_of_app in Hc as [Hc|Hc%list_elem_of_singleton]; [by auto|].
        subst c.
        destruct (Hstay n) as (cn' & ? & ?);
          [by apply list_lookup_middle|congruence|].
        exists cn'. split_and!; [done..|]. congruence.
      * by auto.
    + rewrite decide_False in Hc by lia. rewrite Hleaf in Hc.
      by apply elem_of_nil in Hc.
  - intros rp0 pn0 Hrp0.
    apply pushChild_lookup in Hrp0 as (pn0' & Hrp0 & _ & _ & Hch).
    rewrite Hch.
    apply Hcases in Hrp0 as [[Hrp0lt Hrp0]|[-> ->]].
    + pose proof (forest_children_once _ Hforest _ _ Hrp0) as Hnd.
      case_decide; [|done]. apply NoDup_app. split_and!; [done| |apply NoDup_singleton].
      intros c Hc ->%list_elem_of_singleton.
      destruct (forest_children _ Hforest _ _ _ Hrp0 Hc) as (cn & Hcn & _).
      apply lookup_lt_Some in Hcn. lia.
    + rewrite decide_False by lia. rewrite Hleaf. apply NoDup_nil_2.
Qed.

End AddNode.

Import Containment.

(** ** [buildDirectories] builds a forest *)

Lemma has_set {V} (m : JsMap.t V) (k j : string) (v : V) :
  JsMap.has (JsMap.set m k v) j = true <-> j = k \/ JsMap.has m j = true.
Proof.
  destruct (decide (k = j)) as [->|Hne].
  - rewrite has_set_eq. split; auto.
  - rewrite has_set_ne by done. split; [auto|]. intros [->|?]; done.
Qed.

Lemma has_get {V} (m : JsMap.t V) (k : string) :
  JsMap.has m k = true <-> exists v, JsMap.get m k = Some v.
Proof.
  unfold JsMap.has. destruct (JsMap.get m k); split; eauto; [|intros [? ?]]; done.
Qed.

Lemma has_false_get {V} (m : JsMap.t V) (k : string) :
  JsMap.has m k = false <-> JsMap.get m k = None.
Proof. unfold JsMap.has. by destruct (JsMap.get m k). Qed.

Lemma emptyRegistry_forest : forest emptyRegistry.
Proof.
  split; simpl.
  - intros i r. split; [done|]. by destruct r.
  - intros r n p Hr. by destruct r.
  - intros rp pn c Hrp. by destruct rp.
  - intros rp pn Hrp. by destruct rp.
Qed.

(** No child of a registered node carries an unregistered id. *)
Lemma hasChildWithId_fresh reg n rp pn i :
  forest reg -> JsMap.get (nodesMap reg) i = None ->
  heap reg !! rp = Some pn ->
  hasChildWithId (heap reg ++ [n]) (default [] (GraphNode.children pn)) i = false.
Proof.
  intros Hforest Hfresh Hpn. unfold hasChildWithId.
  apply not_true_is_false. intros (c & Hc & Hid)%existsb_exists.
  apply list_elem_of_In in Hc.
  destruct (forest_children _ Hforest _ _ _ Hpn Hc) as (cn & Hcn & _).
  rewrite lookup_app_l in Hid by (by eapply lookup_lt_Some).
  rewrite Hcn in Hid. apply string_eqb_true in Hid.
  assert (Hreg : JsMap.get (nodesMap reg) (GraphNode.id cn) = Some c).
  { apply (forest_registry _ Hforest). by rewrite Hcn. }
  congruence.
Qed.

Lemma dirStep_forest reg cur part ids :
  forest reg -> cursorOk reg cur ->
  (forall j, JsMap.has (nodesMap reg) j = true <-> j ∈ ids) ->
  forest (dirStep (reg, cur) part).1
  /\ cursorOk (dirStep (reg, cur) part).1 (dirStep (reg, cur) part).2
  /\ (forall j, JsMap.has (nodesMap (dirStep (reg, cur) part).1) j = true <->
                j ∈ ids ++ dirIdsFrom (currentPath cur) [part])
  /\ dirIdsFrom (currentPath cur) [part]
     = [currentPath (dirStep (reg, cur) part).2].
Proof.
  intros Hforest Hcur Hids. unfold dirStep. simpl.
  set (i := if Js.truthy (currentPath cur)
            then currentPath cur +:+ "/" +:+ part else part).
  destruct (JsMap.has (nodesMap reg) i) eqn:Hhas; simpl.
  - split_and!; [done| |intros j|done].
    + right. by split.
    + rewrite elem_of_app, list_elem_of_singleton, <- Hids.
      split; [auto|]. intros [?| ->]; done.
  - apply has_false_get in Hhas.
    set (n := GraphNode.mk i part DIRECTORY (parentId cur) (Some []) None
                           (Some (depth cur))).
    assert (Hkeys : forall j,
               JsMap.has (JsMap.set (nodesMap reg) i (length (heap reg))) j = true <->
               j ∈ ids ++ [i]).
    { intros j. rewrite has_set, elem_of_app, list_elem_of_singleton, <- Hids.
      tauto. }
    assert (Hcur' : forall h,
               cursorOk (mkRegistry h (JsMap.set (nodesMap reg) i (length (heap reg))))
                        (mkDirCursor i (Some i) (S (depth cur)))).
    { intros h. right. simpl. split; [done|]. apply has_set_eq. }
    destruct (Js.truthyO (parentId cur)) eqn:Htp.
    + destruct Hcur as [[Hnone _]|[Hparent Hreg]];
        [rewrite Hnone in Htp; done|].
      rewrite Hparent in Htp |- *. simpl in Htp |- *.
      apply has_get in Hreg as [rp Hrp].
      assert (Hne : i <> currentPath cur) by (intros E; congruence).
      rewrite get_set_ne by done. rewrite Hrp.
      pose proof (registered_lt reg Hforest _ _ Hrp) as Hlt.
      destruct (heap reg !! rp) as [pn|] eqn:Hpn;
        [|apply lookup_ge_None in Hpn; lia].
      rewrite lookup_app_l by done. rewrite Hpn.
      rewrite (hasChildWithId_fresh reg n rp pn i Hforest Hhas Hpn).
      split_and!; [|done..].
      apply (add_child_forest reg n Hforest Hhas eq_refl (currentPath cur) rp);
        [by rewrite <- Hparent|done..].
    + split_and!; [|done..].
      by apply (add_root_forest reg n Hforest Hhas eq_refl).
Qed.

Import Containment.

Lemma dirSteps_forest parts : forall reg cur ids,
  forest reg -> cursorOk reg cur ->
  (forall j, JsMap.has (nodesMap reg) j = true <-> j ∈ ids) ->
  forest (fold_left dirStep parts (reg, cur)).1
  /\ cursorOk (fold_left dirStep parts (reg, cur)).1
              (fold_left dirStep parts (reg, cur)).2
  /\ (forall j, JsMap.has (nodesMap (fold_left dirStep parts (reg, cur)).1) j = true <->
                j ∈ ids ++ dirIdsFrom (currentPath cur) parts).
Proof.
  induction parts as [|part parts IH]; intros reg cur ids Hforest Hcur Hids.
  - simpl. rewrite app_nil_r. done.
  - cbn [fold_left].
    destruct (dirStep_forest reg cur part ids Hforest Hcur Hids)
      as (Hf1 & Hc1 & Hk1 & Hnext).
    destruct (dirStep (reg, cur) part) as [reg1 cur1] eqn:Estep. simpl in *.
    destruct (IH reg1 cur1 _ Hf1 Hc1 Hk1) as (Hf2 & Hc2 & Hk2).
    split_and!; [done..|].
    intros j. rewrite Hk2. injection Hnext as Hnext.
    rewrite <- app_assoc. simpl. by rewrite Hnext.
Qed.

Lemma pathStep_forest data reg path ids :
  forest reg ->
  (forall j, JsMap.has (nodesMap reg) j = true <-> j ∈ ids) ->
  path ∉ ids ++ dirIds path ->
  forest (pathStep data reg path)
  /\ (forall j, JsMap.has (nodesMap (pathStep data reg path)) j = true <->
                j ∈ ids ++ dirIds path ++ [path]).
Proof.
  intros Hforest Hids Hfresh. unfold pathStep, dirIds in *.
  destruct (Js.pop (Js.splitChar "/" path)) as [parts fileName]. simpl in *.
  destruct (dirSteps_forest parts reg (mkDirCursor "" None 0) ids Hforest
              ltac:(by left) Hids) as (Hf1 & Hc1 & Hk1).
  destruct (fold_left dirStep parts (reg, mkDirCursor "" None 0))
    as [reg1 cur] eqn:Efold. simpl in *.
  assert (Hnew : JsMap.get (nodesMap reg1) path = None).
  { apply has_false_get, not_true_iff_false. by rewrite Hk1. }
  set (n := GraphNode.mk path (default "" fileName) FILE (parentId cur) (Some [])
                         (Some (fileLoc data path)) (Some (depth cur))).
  assert (Hkeys : forall j,
             JsMap.has (JsMap.set (nodesMap reg1) path (length (heap reg1))) j = true <->
             j ∈ ids ++ dirIdsFrom "" parts ++ [path]).
  { intros j. rewrite has_set, app_assoc, elem_of_app, list_elem_of_singleton, <- Hk1.
    tauto. }
  destruct (Js.truthyO (parentId cur)) eqn:Htp.
  - destruct Hc1 as [[Hnone _]|[Hparent Hreg]]; [rewrite Hnone in Htp; done|].
    rewrite Hparent in Htp |- *. simpl in Htp |- *.
    apply has_get in Hreg as [rp Hrp].
    assert (Hne : path <> currentPath cur) by (intros E; congruence).
    rewrite get_set_ne by done. rewrite Hrp. split; [|done].
    apply (add_child_forest reg1 n Hf1 Hnew eq_refl (currentPath cur) rp);
      [by rewrite <- Hparent|done..].
  - split; [|done]. by apply (add_root_forest reg1 n Hf1 Hnew eq_refl).
Qed.

Lemma pathSteps_forest data paths : forall reg ids,
  forest reg ->
  (forall j, JsMap.has (nodesMap reg) j = true <-> j ∈ ids) ->
  NoDup paths ->
  (forall q, q ∈ paths -> q ∉ ids) ->
  (forall p q, p ∈ paths -> q ∈ paths -> p ∉ dirIds q) ->
  forest (fold_left (pathStep data) paths reg)
  /\ (forall j, JsMap.has (nodesMap (fold_left (pathStep data) paths reg)) j = true <->
                j ∈ ids ++ allIds paths).
Proof.
  induction paths as [|q paths IH]; intros reg ids Hforest Hids Hnd Hout Hdirs.
  - simpl. rewrite app_nil_r. done.
  - cbn [fold_left]. apply NoDup_cons in Hnd as [Hq Hnd].
    assert (Hqin : q ∈ q :: paths) by apply list_elem_of_here.
    destruct (pathStep_forest data reg q ids Hforest Hids) as [Hf1 Hk1].
    { rewrite elem_of_app. intros [?|?]; [by apply (Hout q)|by apply (Hdirs q q)]. }
    destruct (IH (pathStep data reg q) (ids ++ dirIds q ++ [q]) Hf1 Hk1 Hnd)
      as [Hf2 Hk2].
    + intros q' Hq'. rewrite !elem_of_app, list_elem_of_singleton.
      assert (q' ∈ q :: paths) by (by apply list_elem_of_further).
      intros [?|[?|?]]; [by apply (Hout q')|by apply (Hdirs q' q)|congruence].
    + intros p' q' Hp' Hq'. apply Hdirs; by apply list_elem_of_further.
    + split; [done|]. intros j. rewrite Hk2. unfold allIds. simpl.
      by rewrite <- !app_assoc.
Qed.

(** A registered id names exactly one created node. *)
Lemma created_once reg i :
  forest reg -> JsMap.has (nodesMap reg) i = true -> created reg i = 1.
Proof.
  intros Hforest [r Hr]%has_get. unfold created.
  pose proof (forest_registry _ Hforest) as Hreg.
  assert (Hfun : forall r', GraphNode.id <$> heap reg !! r' = Some i -> r' = r).
  { intros r' Hr'. apply Hreg in Hr'. congruence. }
  apply Hreg in Hr. clear Hreg. revert r Hr Hfun.
  generalize (heap reg) as h.
  induction h as [|x h IH] using rev_ind; intros r Hr Hfun; [by destruct r|].
  rewrite List.filter_app, length_app. simpl.
  destruct (String.eqb (GraphNode.id x) i) eqn:E.
  - apply string_eqb_true in E.
    assert (List.filter (fun n => String.eqb (GraphNode.id n) i) h = []) as ->; [|done].
    destruct (List.filter _ h) as [|y ys] eqn:Ef; [done|]. exfalso.
    assert (Hy : y ∈ List.filter (fun n => String.eqb (GraphNode.id n) i) h)
      by (rewrite Ef; apply list_elem_of_here).
    apply list_elem_of_In, filter_In in Hy as [Hy Hyi].
    apply list_elem_of_In, list_elem_of_lookup in Hy as [k Hk].
    apply string_eqb_true in Hyi.
    pose proof (lookup_lt_Some _ _ _ Hk) as Hlt.
    assert (k = r) as <-.
    { apply Hfun. rewrite lookup_app_l by done. by rewrite Hk; simpl; f_equal. }
    assert (length h = k); [|lia].
    apply Hfun. rewrite list_lookup_middle by done. simpl. by f_equal.
  - apply string_eqb_false in E. simpl.
    rewrite Nat.add_0_r.
    assert (Hlt : r < length h).
    { destruct (lt_eq_lt_dec r (length h)) as [[?| ->]|Hgt]; [done| |].
      - rewrite list_lookup_middle in Hr by done. simpl in Hr. congruence.
      - rewrite lookup_ge_None_2 in Hr; [done|]. rewrite length_app. simpl. lia. }
    apply (IH r).
    + by rewrite lookup_app_l in Hr.
    + intros r' Hr'. apply Hfun. rewrite lookup_app_l; [done|].
      destruct (h !! r') eqn:E'; [|done]. by eapply lookup_lt_Some.
Qed.

(** C8 (no duplicate nodes, containment forest), amended.  For a list of
    pairwise different paths none of which is also a directory id of a
    listed path, [buildDirectories] creates exactly one node for every
    directory id and for every path, however many paths share a prefix, and
    the registry it leaves is a forest: every created node is registered
    under its id, every node with a parent is listed exactly once among the
    children of its parent, created before it, and every listed child names
    its parent. *)
Theorem C8_directories_form_forest (data : MetricData) :
  NoDup (filePathsOf data) ->
  (forall p q, p ∈ filePathsOf data -> q ∈ filePathsOf data -> p ∉ dirIds q) ->
  forest (buildDirectories data emptyRegistry []).1
  /\ forall q, q ∈ filePathsOf data ->
       created (buildDirectories data emptyRegistry []).1 q = 1
       /\ forall d, d ∈ dirIds q ->
            created (buildDirectories data emptyRegistry []).1 d = 1.
Proof.
  intros Hnd Hdirs. unfold buildDirectories. simpl.
  destruct (pathSteps_forest data (filePathsOf data) emptyRegistry []
              emptyRegistry_forest) as [Hforest Hkeys]; try done.
  { intros j. simpl. split; [done|]. by intros ?%elem_of_nil. }
  { intros q _ ?%elem_of_nil. done. }
  split; [done|]. intros q Hq.
  assert (Hall : forall i, i ∈ dirIds q ++ [q] ->
            JsMap.has (nodesMap (fold_left (pathStep data) (filePathsOf data)
                                           emptyRegistry)) i = true).
  { intros i Hi. apply Hkeys. simpl. unfold allIds.
    apply list_elem_of_In, in_flat_map. exists q.
    split; by apply list_elem_of_In. }
  split.
  - apply created_once; [done|]. apply Hall, elem_of_app. right.
    apply list_elem_of_here.
  - intros d Hd. apply created_once; [done|]. apply Hall, elem_of_app. by left.
Qed.

Import Containment.

(** C8, as stated, fails: a path listed twice yields two created nodes with
    the same id, both listed among the children of the directory, only the
    second of which is registered. *)
Lemma C8_counterexample :
  created (buildDirectories Examples.duplicatePath emptyRegistry []).1 "a/x.ts" = 2
  /\ (GraphNode.children
        <$> heap (buildDirectories Examples.duplicatePath emptyRegistry []).1 !! 0)
     = Some (Some [1; 2])
  /\ JsMap.get (nodesMap (buildDirectories Examples.duplicatePath emptyRegistry []).1)
               "a/x.ts" = Some 2
  /\ ~ forest (buildDirectories Examples.duplicatePath emptyRegistry []).1.
Proof.
  split_and!; [reflexivity..|].
  intros Hforest.
  pose proof (proj2 (forest_registry _ Hforest "a/x.ts" 1) eq_refl) as H.
  vm_compute in H. discriminate.
Qed.

Lemma C8_witness :
  NoDup (filePathsOf Examples.scenario1)
  /\ (forall p q, p ∈ filePathsOf Examples.scenario1 ->
                  q ∈ filePathsOf Examples.scenario1 -> p ∉ dirIds q)
  /\ forest (buildDirectories Examples.scenario1 emptyRegistry []).1
  /\ created (buildDirectories Examples.scenario1 emptyRegistry []).1 "a" = 1.
Proof.
  assert (Hnd : NoDup (filePathsOf Examples.scenario1)).
  { apply NoDup_cons. split; [|apply NoDup_singleton].
    by intros [=]%list_elem_of_singleton. }
  assert (Hdirs : forall p q, p ∈ filePathsOf Examples.scenario1 ->
                    q ∈ filePathsOf Examples.scenario1 -> p ∉ dirIds q).
  { intros p q Hp Hq Hin.
    change (p ∈ ["a/b/x.ts"; "a/c/y.ts"]) in Hp.
    change (q ∈ ["a/b/x.ts"; "a/c/y.ts"]) in Hq.
    repeat (apply elem_of_cons in Hq as [->|Hq];
            [vm_compute in Hin;
             repeat (apply elem_of_cons in Hp as [->|Hp];
                     [repeat (apply elem_of_cons in Hin as [[=]|Hin]);
                      by apply elem_of_nil in Hin|]);
             by apply elem_of_nil in Hp|]).
    by apply elem_of_nil in Hq. }
  destruct (C8_directories_form_forest Examples.scenario1 Hnd Hdirs)
    as [Hforest Hcreated].
  split; [exact Hnd|]. split; [exact Hdirs|]. split; [exact Hforest|].
  destruct (Hcreated "a/b/x.ts" ltac:(apply list_elem_of_here)) as [_ Hd].
  apply Hd. apply list_elem_of_here.
Defined.


(** ** The fetch layer *)

(** With every failure caught, the join never fails; it emits the settled
    values when no request is pending and stays pending otherwise. *)
Lemma gathered_caught {A} (http : MetricFetch.Request -> MetricFetch.Observable A)
    (srcs : list (string * MetricFetch.Request * A)) :
  MetricFetch.gathered A http srcs <> MetricFetch.Errors
  /\ ((forall s, s ∈ srcs -> http s.1.2 <> MetricFetch.Pending) ->
      MetricFetch.gathered A http srcs
      = MetricFetch.Emits (map (MetricFetch.settled A http) srcs))
  /\ ((exists s, s ∈ srcs /\ http s.1.2 = MetricFetch.Pending) ->
      MetricFetch.gathered A http srcs = MetricFetch.Pending).
Proof.
  unfold MetricFetch.gathered, MetricFetch.settled.
  induction srcs as [|[[field rq] d] srcs IH]; simpl.
  - split_and!; [done..|]. intros (s & Hs & _). by apply elem_of_nil in Hs.
  - destruct IH as (Hne & Hall & Hpend).
    split_and!.
    + destruct (http rq); simpl;
        destruct (MetricFetch.forkJoin _); simpl; done.
    + intros Hno.
      rewrite Hall by (intros s Hs; apply Hno; by apply list_elem_of_further).
      specialize (Hno (field, rq, d) ltac:(apply list_elem_of_here)). simpl in Hno.
      by destruct (http rq).
    + intros (s & [->|Hs]%elem_of_cons & Hp).
      * simpl in Hp. rewrite Hp. simpl.
        destruct (MetricFetch.forkJoin _); simpl; done.
      * rewrite Hpend by eauto. by destruct (http rq).
Qed.

(** C9 (metric fetch layer).  The embedded service requests five metrics:
    [loc-sloc] and [dependencies] are not among them, whereas the earlier
    version of [loadHierarchy] requests all seven.  In the earlier version a
    failing request never fails the whole operation, the graph is built from
    the values of the requests with the default in the place of each failed
    one as soon as no request is pending, and nothing is produced while one
    is pending. *)
Theorem C9_loadHierarchy_requests (Payload : Type)
    (emptyResult emptyByFile emptyGraph : Payload)
    (http : MetricFetch.Request -> MetricFetch.Observable Payload)
    (build : list (string * Payload) -> HierarchicalData) (repoId : string) :
  let srcs := MetricFetch.sources Payload emptyResult repoId in
  let earlier :=
    MetricFetch.sourcesEarlier Payload emptyResult emptyByFile emptyGraph repoId in
  let run :=
    MetricFetch.loadHierarchyEarlier Payload emptyResult emptyByFile emptyGraph
      http build repoId in
  MetricFetch.requested Payload srcs
  = ["files"; "classes-per-file"; "class-coupling"; "functions-per-file";
     "function-coupling"]
  /\ ("loc-sloc" ∉ MetricFetch.requested Payload srcs)
  /\ ("dependencies" ∉ MetricFetch.requested Payload srcs)
  /\ MetricFetch.requested Payload earlier = MetricFetch.requiredMetrics
  /\ run <> MetricFetch.Errors
  /\ ((forall s, s ∈ earlier -> http s.1.2 <> MetricFetch.Pending) ->
      run = MetricFetch.Emits (build (map (MetricFetch.settled Payload http) earlier)))
  /\ ((exists s, s ∈ earlier /\ http s.1.2 = MetricFetch.Pending) ->
      run = MetricFetch.Pending).
Proof.
  intros srcs earlier run.
  destruct (gathered_caught http earlier) as (Hne & Hall & Hpend).
  split_and!.
  - reflexivity.
  - intros Hin; simpl in Hin.
    repeat (apply elem_of_cons in Hin as [[=]|Hin]); by apply elem_of_nil in Hin.
  - intros Hin; simpl in Hin.
    repeat (apply elem_of_cons in Hin as [[=]|Hin]); by apply elem_of_nil in Hin.
  - reflexivity.
  - subst run. unfold MetricFetch.loadHierarchyEarlier, MetricFetch.join.
    fold earlier. by destruct (MetricFetch.gathered _ _ earlier).
  - intros Hno. subst run.
    unfold MetricFetch.loadHierarchyEarlier, MetricFetch.join.
    fold earlier. by rewrite Hall.
  - intros Hp. subst run.
    unfold MetricFetch.loadHierarchyEarlier, MetricFetch.join.
    fold earlier. by rewrite Hpend.
Qed.

(** The earlier version with the [loc-sloc] and [class-coupling] requests
    failing: the graph is built from the five values and the two defaults. *)
Lemma C9_witness :
  let http rq :=
    match rq with
    | MetricFetch.GetLocSloc _ => MetricFetch.Errors
    | MetricFetch.GetMetric _ "class-coupling" => MetricFetch.Errors
    | _ => MetricFetch.Emits (MetricFetch.metricOf rq)
    end in
  let build data :=
    {| store := []; nodes := [];
       links := map (fun d => GraphLink.mk d.1 d.2 0%Z DEPENDENCY None) data |} in
  (forall s, s ∈ MetricFetch.sourcesEarlier string "{result:{}}" "{byFile:{}}" "{graph:{}}" "r1" ->
     http s.1.2 <> MetricFetch.Pending)
  /\ MetricFetch.loadHierarchyEarlier string "{result:{}}" "{byFile:{}}" "{graph:{}}"
       http build "r1"
     = MetricFetch.Emits
         (build [("files", "files"); ("loc", "{byFile:{}}");
                 ("dependencies", "dependencies");
                 ("classes", "classes-per-file");
                 ("classCoupling", "{result:{}}");
                 ("funcs", "functions-per-file");
                 ("funcCoupling", "function-coupling")]).
Proof.
  intros http build.
  assert (Hno : forall s,
             s ∈ MetricFetch.sourcesEarlier string "{result:{}}" "{byFile:{}}" "{graph:{}}" "r1" ->
             http s.1.2 <> MetricFetch.Pending).
  { intros s Hs. simpl in Hs.
    repeat (apply elem_of_cons in Hs as [->|Hs]; [done|]).
    by apply elem_of_nil in Hs. }
  split; [exact Hno|].
  exact (proj1 (proj2 (proj2 (proj2 (proj2 (proj2
           (C9_loadHierarchy_requests string "{result:{}}" "{byFile:{}}" "{graph:{}}"
              http build "r1")))))) Hno).
Defined.


(** ** Keys joined by [::] *)

Lemma string_app_inj_l (a b c : string) : a +:+ b = a +:+ c -> b = c.
Proof.
  induction a as [|x a IH]; [done|].
  rewrite !string_app_cons. intros [= H]. auto.
Qed.

Lemma noColon_app (a x : string) : noColon (a +:+ String ":" x) = false.
Proof.
  induction a as [|c a IH]; [done|].
  rewrite string_app_cons. simpl. rewrite IH. apply andb_false_r.
Qed.

(** Colon-free names are cut at the first colon. *)
Lemma first_colon (a b x y : string) :
  noColon a = true -> noColon b = true ->
  a +:+ String ":" x = b +:+ String ":" y -> a = b.
Proof.
  revert b. induction a as [|c a IH]; intros [|d b] Ha Hb H.
  - done.
  - rewrite string_app_nil, string_app_cons in H. injection H as <- _.
    by simpl in Hb.
  - rewrite string_app_nil, string_app_cons in H. injection H as -> _.
    by simpl in Ha.
  - rewrite !string_app_cons in H. injection H as -> H.
    simpl in Ha, Hb. apply andb_true_iff in Ha as [_ Ha].
    apply andb_true_iff in Hb as [_ Hb]. f_equal. by apply IH.
Qed.

Lemma startsWith_other_name (a b rest : string) :
  noColon a = true -> noColon b = true -> a <> b ->
  Js.startsWith (a +:+ "::" +:+ rest) (b +:+ "::") = false.
Proof.
  intros Ha Hb Hne. destruct (Js.startsWith _ _) eqn:E; [|done].
  apply prefix_inv in E as [r E]. rewrite string_app_assoc in E.
  destruct Hne. by apply (first_colon a b (String ":" rest) (String ":" r)).
Qed.

Lemma startsWith_trans (k p q : string) :
  Js.startsWith k p = false -> Js.startsWith k (p +:+ q) = false.
Proof.
  intros Hk. destruct (Js.startsWith k (p +:+ q)) eqn:E; [|done].
  apply prefix_inv in E as [r ->]. unfold Js.startsWith in Hk.
  by rewrite string_app_assoc, prefix_app in Hk.
Qed.

(** ** The registry only grows *)

Lemma fold_left_preorder {S A} (R : S -> S -> Prop) (f : S -> A -> S) (l : list A) :
  (forall s, R s s) -> (forall a b c, R a b -> R b c -> R a c) ->
  (forall s x, x ∈ l -> R s (f s x)) ->
  forall s, R s (fold_left f l s).
Proof.
  intros Hrefl Htrans. induction l as [|x l IH]; intros Hf s; simpl; [done|].
  eapply Htrans; [apply Hf, list_elem_of_here|].
  apply IH. intros. by apply Hf, list_elem_of_further.
Qed.

Lemma keeps_refl h : keeps h h.
Proof. intros r n Hr. by exists n. Qed.

Lemma keeps_trans h1 h2 h3 : keeps h1 h2 -> keeps h2 h3 -> keeps h1 h3.
Proof.
  intros H12 H23 r n Hr.
  destruct (H12 r n Hr) as (n2 & Hr2 & Hi & Hl & Ht).
  destruct (H23 r n2 Hr2) as (n3 & Hr3 & Hi3 & Hl3 & Ht3).
  exists n3. split_and!; congruence.
Qed.

Lemma keeps_alloc h n : keeps h (alloc h n).1.
Proof.
  intros r n0 Hr. exists n0. split_and!; [|done..].
  simpl. by apply lookup_app_l_Some.
Qed.

Lemma keeps_insert h p pn cs :
  h !! p = Some pn -> keeps h (<[p := GraphNode.withChildren pn cs]> h).
Proof.
  intros Hp r n Hr. destruct (decide (r = p)) as [->|Hne].
  - rewrite list_lookup_insert_eq by (by eapply lookup_lt_Some).
    eexists. split; [done|]. simpl. split_and!; congruence.
  - rewrite list_lookup_insert_ne by done. by exists n.
Qed.

Lemma keeps_pushChild h p c : keeps h (pushChild h p c).
Proof.
  unfold pushChild. destruct (h !! p) eqn:Hp; [|apply keeps_refl].
  by apply keeps_insert.
Qed.

Lemma keeps_pushChildOpt h p c : keeps h (pushChildOpt h p c).
Proof.
  unfold pushChildOpt. destruct (h !! p) as [n|] eqn:Hp; [|apply keeps_refl].
  destruct (GraphNode.children n); [|apply keeps_refl].
  by apply keeps_insert.
Qed.

Lemma grows_refl reg : grows reg reg.
Proof. split; [apply keeps_refl|done]. Qed.

Lemma grows_trans a b c : grows a b -> grows b c -> grows a c.
Proof.
  intros [H1 K1] [H2 K2]. split; [by eapply keeps_trans|auto].
Qed.

Lemma stays_refl k reg : stays k reg reg.
Proof. by intros r. Qed.

Lemma stays_trans k a b c : stays k a b -> stays k b c -> stays k a c.
Proof. intros H1 H2 r Hr. auto. Qed.

Lemma has_set_grows (m : JsMap.t ref) (k j : string) (r : ref) :
  JsMap.has m j = true -> JsMap.has (JsMap.set m k r) j = true.
Proof. intros. apply has_set. by right. Qed.

Lemma dirStep_grows st part : grows st.1 (dirStep st part).1.
Proof.
  destruct st as [reg cur]. unfold dirStep. simpl.
  destruct (JsMap.has (nodesMap reg) _) eqn:Hhas; [apply grows_refl|].
  simpl. split; simpl; [|intros; by apply has_set_grows].
  eapply keeps_trans; [apply (keeps_alloc (heap reg))|]. simpl.
  destruct (Js.truthyO _); [|apply keeps_refl].
  destruct (JsMap.get _ _); [|apply keeps_refl].
  destruct (_ !! _) eqn:Hp; [|apply keeps_refl].
  destruct (hasChildWithId _ _ _); [by apply keeps_insert|apply keeps_pushChild].
Qed.

Lemma pathStep_grows data reg path :
  grows reg (pathStep data reg path)
  /\ JsMap.has (nodesMap (pathStep data reg path)) path = true.
Proof.
  unfold pathStep. destruct (Js.pop _) as [parts fileName].
  pose proof (fold_left_preorder (fun a b => grows a.1 b.1) dirStep parts
                (fun s => grows_refl s.1)
                (fun a b c => grows_trans a.1 b.1 c.1)
                (fun s x _ => dirStep_grows s x)
                (reg, mkDirCursor "" None 0)) as Hg.
  destruct (fold_left dirStep parts _) as [reg1 cur]. simpl in Hg.
  simpl. split; [|apply has_set_eq].
  eapply grows_trans; [exact Hg|].
  split; simpl; [|intros; by apply has_set_grows].
  eapply keeps_trans; [apply (keeps_alloc (heap reg1))|]. simpl.
  destruct (Js.truthyO _); [|apply keeps_refl].
  destruct (JsMap.get _ _); [apply keeps_pushChild|apply keeps_refl].
Qed.

Lemma buildDirectories_registers data path :
  path ∈ filePathsOf data ->
  JsMap.has (nodesMap (buildDirectories data emptyRegistry []).1) path = true.
Proof.
  unfold buildDirectories. simpl. generalize emptyRegistry.
  induction (filePathsOf data) as [|p paths IH]; intros reg Hin.
  - by apply elem_of_nil in Hin.
  - simpl. apply elem_of_cons in Hin as [->|Hin]; [|by apply IH].
    apply (fold_left_preorder grows (pathStep data) paths grows_refl grows_trans).
    + intros s x _. apply pathStep_grows.
    + apply pathStep_grows.
Qed.

Lemma methodStep_grows classId rc cd reg method :
  grows reg (methodStep classId rc cd reg method).
Proof.
  unfold methodStep. simpl. split; simpl.
  - eapply keeps_trans; [apply (keeps_alloc (heap reg))|apply keeps_pushChildOpt].
  - intros k Hk. destruct (String.eqb _ "constructor");
      repeat apply has_set_grows; done.
Qed.

Lemma classStep_grows file rf fd st entry :
  grows st.1 (classStep file rf fd st entry).1.
Proof.
  destruct st as [reg c2f], entry as [className details]. unfold classStep. simpl.
  eapply grows_trans; [|destruct details; [apply grows_refl|]].
  - split; simpl; [|intros; by apply has_set_grows].
    eapply keeps_trans; [apply (keeps_alloc (heap reg))|apply keeps_pushChildOpt].
  - apply (fold_left_preorder grows _ _ grows_refl grows_trans).
    intros s x _. apply methodStep_grows.
Qed.

Lemma classFileStep_grows st entry : grows st.1 (classFileStep st entry).1.
Proof.
  destruct entry as [file clsMap]. unfold classFileStep.
  destruct (JsMap.get _ file); [|apply grows_refl].
  apply (fold_left_preorder (fun a b => grows a.1 b.1) _ _
           (fun s => grows_refl s.1) (fun a b c => grows_trans a.1 b.1 c.1)).
  intros s x _. apply classStep_grows.
Qed.

Lemma funcStep_grows file rf st funcName :
  grows st.1 (funcStep file rf st funcName).1
  /\ forall k, stays k st.1 (funcStep file rf st funcName).1.
Proof.
  destruct st as [reg f2f]. unfold funcStep. simpl.
  destruct (JsMap.has (nodesMap reg) _) eqn:Hhas;
    [split; [apply grows_refl|intros; apply stays_refl]|].
  simpl. split.
  - split; simpl; [|intros; by apply has_set_grows].
    destruct (findParentClass _ _ _); simpl;
      (eapply keeps_trans; [apply (keeps_alloc (heap reg))|apply keeps_pushChild]).
  - intros k r Hr. simpl. rewrite get_set_ne; [done|].
    intros <-. apply has_false_get in Hhas. congruence.
Qed.

Lemma funcFileStep_grows st entry :
  grows st.1 (funcFileStep st entry).1
  /\ forall k, stays k st.1 (funcFileStep st entry).1.
Proof.
  destruct entry as [file funcMap]. unfold funcFileStep.
  destruct (JsMap.get _ file);
    [|split; [apply grows_refl|intros; apply stays_refl]].
  apply (fold_left_preorder
           (fun a b => grows a.1 b.1 /\ forall k, stays k a.1 b.1)).
  - intros s. split; [apply grows_refl|intros; apply stays_refl].
  - intros a b c [G1 S1] [G2 S2].
    split; [by eapply grows_trans|intros; by eapply stays_trans].
  - intros s x _. apply funcStep_grows.
Qed.

Lemma buildFunctionToFileMap_grows data reg :
  grows reg (buildFunctionToFileMap data reg).1
  /\ forall k, stays k reg (buildFunctionToFileMap data reg).1.
Proof.
  unfold buildFunctionToFileMap.
  refine (fold_left_preorder
            (fun a b => grows a.1 b.1 /\ forall k, stays k a.1 b.1)
            funcFileStep (funcs data) _ _ _ (reg, [])).
  - intros s. split; [apply grows_refl|intros; apply stays_refl].
  - intros a b c [G1 S1] [G2 S2].
    split; [by eapply grows_trans|intros; by eapply stays_trans].
  - intros s x _. apply funcFileStep_grows.
Qed.


(** ** The two keys of a constructor *)

Lemma values_lookup {V} (m : JsMap.t V) (i : nat) :
  JsMap.values m !! i = snd <$> m !! i.
Proof.
  revert i. induction m as [|e m IH]; intros [|i]; simpl; auto.
Qed.

(** Two keys with one value: the value is listed twice. *)
Lemma values_twice {V} (m : JsMap.t V) (k1 k2 : string) (v : V) :
  k1 <> k2 -> JsMap.get m k1 = Some v -> JsMap.get m k2 = Some v ->
  exists i j, i <> j /\ JsMap.values m !! i = Some v /\ JsMap.values m !! j = Some v.
Proof.
  intros Hne H1 H2.
  apply get_Some_in, list_elem_of_lookup in H1 as [i Hi].
  apply get_Some_in, list_elem_of_lookup in H2 as [j Hj].
  exists i, j. rewrite !values_lookup, Hi, Hj. split_and!; [|done..].
  intros ->. congruence.
Qed.

Lemma methodStep_constructor classId rc cd reg method :
  keyName method = Some "constructor" ->
  aliased (methodStep classId rc cd reg method)
          (classId +:+ "::" +:+ "_constructor") (classId +:+ "::" +:+ "constructor")
          (length (heap reg)).
Proof.
  intros Hname. unfold methodStep. rewrite Hname. simpl.
  split_and!; simpl.
  - rewrite get_set_ne; [apply get_set_eq|].
    intros H. by apply string_app_inj_l in H.
  - apply get_set_eq.
  - destruct (keeps_pushChildOpt
                (heap reg ++
                 [GraphNode.mk (classId +:+ "::" +:+ "_constructor") "constructor"
                    FUNCTION (Some classId) None (Some 1%Z) (childDepth cd)])
                rc (length (heap reg)) (length (heap reg)) _
                (list_lookup_middle _ [] _ _ eq_refl))
      as (n & Hn & Hi & Hl & Ht).
    exists n. split_and!; done.
Qed.

(** A member with another name leaves both keys alone. *)
Lemma methodStep_stays classId rc cd reg method c :
  rawName method <> "constructor" -> rawName method <> c ->
  stays (classId +:+ "::" +:+ c) reg (methodStep classId rc cd reg method).
Proof.
  unfold rawName. intros Hn1 Hn2 r Hr. unfold methodStep. simpl.
  apply string_eqb_false in Hn1 as Hn1'.
  unfold normalizeMethodName. rewrite Hn1'. simpl.
  rewrite get_set_ne; [done|].
  intros H. by apply string_app_inj_l, string_app_inj_l in H.
Qed.

(** Another class of the file leaves the keys of this class alone. *)
Lemma classStep_stays file rf fd st cls cls' details c :
  cls' <> cls -> noColon cls = true -> noColon cls' = true ->
  stays ((file +:+ "::" +:+ cls) +:+ "::" +:+ c) st.1
        (classStep file rf fd st (cls', details)).1.
Proof.
  intros Hne Hc Hc' r Hr. destruct st as [reg c2f]. unfold classStep. simpl in *.
  assert (Hk : Js.startsWith ((file +:+ "::" +:+ cls) +:+ "::" +:+ c)
                             ((file +:+ "::" +:+ cls') +:+ "::") = false).
  { destruct (Js.startsWith _ _) eqn:E; [|done].
    apply prefix_inv in E as [x E]. rewrite !string_app_assoc in E.
    apply string_app_inj_l, string_app_inj_l in E.
    destruct Hne. symmetry.
    by apply (first_colon cls cls' (String ":" c) (String ":" x)). }
  assert (Hk' : file +:+ "::" +:+ cls' <> (file +:+ "::" +:+ cls) +:+ "::" +:+ c).
  { intros E. rewrite !string_app_assoc in E.
    apply string_app_inj_l, string_app_inj_l in E.
    pose proof (noColon_app cls (String ":" c)) as Hno.
    change (cls +:+ String ":" (String ":" c)) with (cls +:+ "::" +:+ c) in Hno.
    congruence. }
  destruct details as [|ms]; simpl.
  - by rewrite get_set_ne.
  - rewrite methodSteps_get_other by done. simpl. by rewrite get_set_ne.
Qed.

(** A class step sets keys that start with the file and [::] only. *)
Lemma classStep_get_other file rf fd st entry k :
  Js.startsWith k (file +:+ "::") = false ->
  JsMap.get (nodesMap (classStep file rf fd st entry).1) k = JsMap.get (nodesMap st.1) k.
Proof.
  intros Hk. destruct st as [reg c2f], entry as [cls details].
  unfold classStep. simpl.
  assert (Hk' : file +:+ "::" +:+ cls <> k).
  { intros <-. unfold Js.startsWith in Hk.
    by rewrite <- string_app_assoc, prefix_app in Hk. }
  assert (Hk2 : Js.startsWith k ((file +:+ "::" +:+ cls) +:+ "::") = false).
  { rewrite <- (string_app_assoc file "::" cls), string_app_assoc.
    by apply startsWith_trans. }
  destruct details as [|ms]; simpl.
  - by rewrite get_set_ne.
  - rewrite methodSteps_get_other by done. simpl. by rewrite get_set_ne.
Qed.

(** The classes of another file leave the keys of this file alone. *)
Lemma classFileStep_stays st file file' clsMap rest :
  file' <> file -> noColon file = true -> noColon file' = true ->
  stays (file +:+ "::" +:+ rest) st.1 (classFileStep st (file', clsMap)).1.
Proof.
  intros Hne Hc Hc'. unfold classFileStep.
  destruct (JsMap.get _ file') as [rf|]; [|apply stays_refl].
  apply (fold_left_preorder (fun a b => stays (file +:+ "::" +:+ rest) a.1 b.1)).
  - intros s. apply stays_refl.
  - intros a b c. apply stays_trans.
  - intros s x _ r Hr. rewrite classStep_get_other; [done|].
    by apply startsWith_other_name.
Qed.

Lemma later_refl k1 k2 reg : later k1 k2 reg reg.
Proof. split_and!; [apply grows_refl|apply stays_refl..]. Qed.

Lemma later_trans k1 k2 a b c : later k1 k2 a b -> later k1 k2 b c -> later k1 k2 a c.
Proof.
  intros (G1 & S1 & T1) (G2 & S2 & T2).
  split_and!; [by eapply grows_trans|by eapply stays_trans..].
Qed.

Lemma aliased_later reg reg' k1 k2 r :
  later k1 k2 reg reg' -> aliased reg k1 k2 r -> aliased reg' k1 k2 r.
Proof.
  intros ([Hk _] & S1 & S2) (H1 & H2 & n & Hn & Hi & Hl & Ht).
  split_and!; auto.
  destruct (Hk r n Hn) as (n' & Hn' & Hi' & Hl' & Ht').
  exists n'. split_and!; congruence.
Qed.

Lemma elem_of_keys {V} (m : JsMap.t V) (k : string) (v : V) :
  (k, v) ∈ m -> k ∈ JsMap.keys m.
Proof.
  intros H. apply list_elem_of_In. apply list_elem_of_In in H.
  by apply (in_map fst) in H.
Qed.

Lemma NoDup_keys_middle {V} (m1 m2 : JsMap.t V) (k : string) (v : V) :
  NoDup (JsMap.keys (m1 ++ (k, v) :: m2)) -> k ∉ JsMap.keys m2.
Proof.
  unfold JsMap.keys. rewrite map_app. simpl.
  intros (_ & _ & Hnd)%NoDup_app. by apply NoDup_cons in Hnd as [? _].
Qed.

(** The members of one class: the node of the constructor is entered under
    both keys, and the members after it leave them alone. *)
Lemma methodSteps_aliased classId rc cd reg before method after :
  keyName method = Some "constructor" ->
  (forall x, x ∈ after -> rawName x <> "constructor" /\ rawName x <> "_constructor") ->
  exists r, aliased (fold_left (methodStep classId rc cd) (before ++ method :: after) reg)
              (classId +:+ "::" +:+ "_constructor")
              (classId +:+ "::" +:+ "constructor") r.
Proof.
  intros Hname Hafter. rewrite fold_left_app. cbn [fold_left].
  eexists. eapply aliased_later; [|by apply methodStep_constructor].
  apply (fold_left_preorder (later _ _) _ after (later_refl _ _) (later_trans _ _)).
  intros s x Hx. destruct (Hafter x Hx) as [Hn1 Hn2].
  split_and!; [apply methodStep_grows|by apply methodStep_stays..].
Qed.

Lemma classStep_members file rf fd st cls ms :
  exists rc cd reg1,
    (classStep file rf fd st (cls, Members ms)).1
    = fold_left (methodStep (file +:+ "::" +:+ cls) rc cd) ms reg1.
Proof. destruct st as [reg c2f]. unfold classStep. simpl. eauto. Qed.

(** The classes of one file. *)
Lemma classSteps_aliased file rf fd st cpre cls before method after cpost :
  keyName method = Some "constructor" ->
  (forall x, x ∈ after -> rawName x <> "constructor" /\ rawName x <> "_constructor") ->
  NoDup (JsMap.keys (cpre ++ (cls, Members (before ++ method :: after)) :: cpost)) ->
  (forall c, c ∈ JsMap.keys (cpre ++ (cls, Members (before ++ method :: after)) :: cpost) ->
             noColon c = true) ->
  exists r,
    aliased (fold_left (classStep file rf fd)
               (cpre ++ (cls, Members (before ++ method :: after)) :: cpost) st).1
      ((file +:+ "::" +:+ cls) +:+ "::" +:+ "_constructor")
      ((file +:+ "::" +:+ cls) +:+ "::" +:+ "constructor") r.
Proof.
  intros Hname Hafter Hnd Hcolon. rewrite fold_left_app. cbn [fold_left].
  destruct (classStep_members file rf fd (fold_left (classStep file rf fd) cpre st)
              cls (before ++ method :: after)) as (rc & cd & reg1 & Heq).
  destruct (methodSteps_aliased (file +:+ "::" +:+ cls) rc cd reg1 before method after
              Hname Hafter) as [r Hal].
  rewrite <- Heq in Hal. exists r.
  eapply aliased_later; [|exact Hal].
  apply (fold_left_preorder (fun a b => later _ _ a.1 b.1) _ cpost
           (fun s => later_refl _ _ s.1) (fun a b c => later_trans _ _ a.1 b.1 c.1)).
  intros s [cls' details] Hx.
  assert (Hne : cls' <> cls).
  { intros ->. apply NoDup_keys_middle in Hnd. by apply elem_of_keys in Hx. }
  assert (Hc : noColon cls = true).
  { apply Hcolon. apply (elem_of_keys _ _ (Members (before ++ method :: after))).
    apply elem_of_app. right. apply list_elem_of_here. }
  assert (Hc' : noColon cls' = true).
  { apply Hcolon. apply (elem_of_keys _ _ details).
    apply elem_of_app. right. by apply list_elem_of_further. }
  split_and!; [apply classStep_grows|by apply classStep_stays..].
Qed.

(** The files of the class metric. *)
Lemma classFileSteps_aliased st pre file clsMap post cpre cls before method after cpost :
  clsMap = cpre ++ (cls, Members (before ++ method :: after)) :: cpost ->
  JsMap.has (nodesMap st.1) file = true ->
  keyName method = Some "constructor" ->
  (forall x, x ∈ after -> rawName x <> "constructor" /\ rawName x <> "_constructor") ->
  NoDup (JsMap.keys (pre ++ (file, clsMap) :: post)) ->
  NoDup (JsMap.keys clsMap) ->
  (forall f, f ∈ JsMap.keys (pre ++ (file, clsMap) :: post) -> noColon f = true) ->
  (forall c, c ∈ JsMap.keys clsMap -> noColon c = true) ->
  exists r,
    aliased (fold_left classFileStep (pre ++ (file, clsMap) :: post) st).1
      ((file +:+ "::" +:+ cls) +:+ "::" +:+ "_constructor")
      ((file +:+ "::" +:+ cls) +:+ "::" +:+ "constructor") r.
Proof.
  intros -> Hreg Hname Hafter Hnd Hndc Hcolon Hcolonc.
  rewrite fold_left_app. cbn [fold_left].
  set (st0 := fold_left classFileStep pre st).
  assert (Hreg0 : JsMap.has (nodesMap st0.1) file = true).
  { apply (fold_left_preorder (fun a b => grows a.1 b.1) classFileStep pre
             (fun s => grows_refl s.1) (fun a b c => grows_trans a.1 b.1 c.1)
             (fun s x _ => classFileStep_grows s x) st).
    exact Hreg. }
  apply has_get in Hreg0 as [rf Hrf].
  unfold classFileStep at 2. rewrite Hrf.
  destruct (classSteps_aliased file rf
              (match heap st0.1 !! rf with
               | Some n => GraphNode.depth n
               | None => None
               end) st0 cpre cls before method after cpost
              Hname Hafter Hndc Hcolonc) as [r Hal].
  exists r. eapply aliased_later; [|exact Hal].
  apply (fold_left_preorder (fun a b => later _ _ a.1 b.1) _ post
           (fun s => later_refl _ _ s.1) (fun a b c => later_trans _ _ a.1 b.1 c.1)).
  intros s [file' clsMap'] Hx.
  assert (Hne : file' <> file).
  { intros ->. apply NoDup_keys_middle in Hnd. by apply elem_of_keys in Hx. }
  assert (Hc : noColon file = true).
  { apply Hcolon. eapply elem_of_keys.
    apply elem_of_app. right. apply list_elem_of_here. }
  assert (Hc' : noColon file' = true).
  { apply Hcolon. apply (elem_of_keys _ _ clsMap').
    apply elem_of_app. right. by apply list_elem_of_further. }
  split_and!; [apply classFileStep_grows|rewrite string_app_assoc..];
    by apply classFileStep_stays.
Qed.

Lemma buildGraph_registry data :
  store (buildGraph data) = heap (registryOf data)
  /\ nodes (buildGraph data) = JsMap.values (nodesMap (registryOf data)).
Proof.
  unfold buildGraph, registryOf.
  destruct (buildDirectories data emptyRegistry []) as [reg1 links1]. cbn [fst].
  destruct (buildClassToFileMap data reg1) as [reg2 c2f]. cbn [fst].
  destruct (buildFunctionToFileMap data reg2) as [reg3 f2f]. cbn [fst].
  repeat match goal with
         | |- context [let '(_, _) := ?e in _] => destruct e
         end.
  done.
Qed.


(** C10 (constructor alias).  For a class of a listed file, in a class
    metric whose file and class names are distinct and colon-free: the node
    of a member named [constructor] that no later member named
    [constructor] or [_constructor] follows is the entry of both
    [file::Class::_constructor] and [file::Class::constructor], so the
    [nodes] array of [buildGraph] holds it at two positions. *)
Theorem C10_constructor_registered_twice
    (data : MetricData) (file cls : string)
    (pre post : list (string * list (string * ClassDetails)))
    (cpre cpost : list (string * ClassDetails))
    (before after : list ClassMember) (method : ClassMember) :
  let clsMap := cpre ++ (cls, Members (before ++ method :: after)) :: cpost in
  let k1 := (file +:+ "::" +:+ cls) +:+ "::" +:+ "_constructor" in
  let k2 := (file +:+ "::" +:+ cls) +:+ "::" +:+ "constructor" in
  file ∈ filePathsOf data ->
  classes data = pre ++ (file, clsMap) :: post ->
  keyName method = Some "constructor" ->
  (forall x, x ∈ after -> rawName x <> "constructor" /\ rawName x <> "_constructor") ->
  NoDup (JsMap.keys (classes data)) ->
  NoDup (JsMap.keys clsMap) ->
  (forall f, f ∈ JsMap.keys (classes data) -> noColon f = true) ->
  (forall c, c ∈ JsMap.keys clsMap -> noColon c = true) ->
  k1 <> k2
  /\ exists r n,
       JsMap.get (nodesMap (registryOf data)) k1 = Some r
       /\ JsMap.get (nodesMap (registryOf data)) k2 = Some r
       /\ store (buildGraph data) !! r = Some n
       /\ GraphNode.id n = k1
       /\ GraphNode.label n = "constructor"
       /\ GraphNode.type n = FUNCTION
       /\ (exists i j, i <> j
                       /\ nodes (buildGraph data) !! i = Some r
                       /\ nodes (buildGraph data) !! j = Some r)
       /\ ~ NoDup (nodes (buildGraph data)).
Proof.
  intros clsMap k1 k2 Hfile Hcls Hname Hafter Hnd Hndc Hcolon Hcolonc.
  assert (Hne : k1 <> k2).
  { intros H. by apply string_app_inj_l, string_app_inj_l in H. }
  split; [exact Hne|].
  assert (exists r, aliased (registryOf data) k1 k2 r) as [r Hal].
  { unfold registryOf, buildClassToFileMap. rewrite Hcls in Hnd, Hcolon |- *.
    destruct (classFileSteps_aliased
                ((buildDirectories data emptyRegistry []).1, [])
                pre file clsMap post cpre cls before method after cpost eq_refl
                (buildDirectories_registers data file Hfile)
                Hname Hafter Hnd Hndc Hcolon Hcolonc) as [r Hal].
    exists r. eapply aliased_later; [|exact Hal].
    destruct (buildFunctionToFileMap_grows data
                (fold_left classFileStep (pre ++ (file, clsMap) :: post)
                   ((buildDirectories data emptyRegistry []).1, [])).1) as [G S].
    split_and!; [exact G|apply S..]. }
  destruct Hal as (H1 & H2 & n & Hn & Hi & Hl & Ht).
  destruct (buildGraph_registry data) as [-> ->].
  destruct (values_twice _ k1 k2 r Hne H1 H2) as (i & j & Hij & Hvi & Hvj).
  exists r, n. split_and!; [done..| |].
  - by exists i, j.
  - intros Hno. apply Hij. by eapply NoDup_lookup.
Qed.

(** A class whose members are [constructor] and [_constructor]: the two
    keys are entries of two nodes and no node is listed twice; and a class
    of a file that is not listed is not registered at all. *)
Lemma C10_counterexample :
  JsMap.get (nodesMap (registryOf Examples.constructorPair)) "a.ts::Foo::_constructor"
  = Some 3
  /\ JsMap.get (nodesMap (registryOf Examples.constructorPair)) "a.ts::Foo::constructor"
     = Some 2
  /\ nodes (buildGraph Examples.constructorPair) = [0; 1; 3; 2]
  /\ NoDup (nodes (buildGraph Examples.constructorPair))
  /\ nodes (buildGraph Examples.unlistedFile) = [].
Proof.
  split_and!; [reflexivity..| |reflexivity].
  change (NoDup [0; 1; 3; 2]).
  repeat (apply NoDup_cons; split;
          [intros H; repeat (apply elem_of_cons in H as [[=]|H]);
           by apply elem_of_nil in H|]).
  apply NoDup_nil_2.
Qed.

(** The theorem at a class [Foo] with members [constructor] and [run]. *)
Lemma C10_witness :
  JsMap.get (nodesMap (registryOf Examples.withConstructor))
            "src/a.ts::Foo::_constructor" = Some 3
  /\ exists r n,
       JsMap.get (nodesMap (registryOf Examples.withConstructor))
                 "src/a.ts::Foo::_constructor" = Some r
       /\ JsMap.get (nodesMap (registryOf Examples.withConstructor))
                    "src/a.ts::Foo::constructor" = Some r
       /\ store (buildGraph Examples.withConstructor) !! r = Some n
       /\ GraphNode.id n = "src/a.ts::Foo::_constructor"
       /\ GraphNode.label n = "constructor"
       /\ GraphNode.type n = FUNCTION
       /\ (exists i j, i <> j
                       /\ nodes (buildGraph Examples.withConstructor) !! i = Some r
                       /\ nodes (buildGraph Examples.withConstructor) !! j = Some r)
       /\ ~ NoDup (nodes (buildGraph Examples.withConstructor)).
Proof.
  split; [reflexivity|].
  refine (proj2 (C10_constructor_registered_twice Examples.withConstructor
            "src/a.ts" "Foo" [] [] [] [("Bar", Members [Examples.method "go" [] []])]
            [] [Examples.method "run" [] []] (Examples.method "constructor" [] [])
            _ eq_refl eq_refl _ _ _ _ _)).
  - apply list_elem_of_here.
  - intros x Hx. apply elem_of_cons in Hx as [->|Hx]; [|by apply elem_of_nil in Hx].
    split; discriminate.
  - apply NoDup_cons. split; [apply not_elem_of_nil|apply NoDup_nil_2].
  - apply NoDup_cons. split.
    + intros H. apply elem_of_cons in H as [[=]|H]. by apply elem_of_nil in H.
    + apply NoDup_cons. split; [apply not_elem_of_nil|apply NoDup_nil_2].
  - intros f Hf. apply elem_of_cons in Hf as [->|Hf]; [reflexivity|].
    by apply elem_of_nil in Hf.
  - intros c Hc. apply elem_of_cons in Hc as [->|Hc]; [reflexivity|].
    apply elem_of_cons in Hc as [->|Hc]; [reflexivity|].
    by apply elem_of_nil in Hc.
Defined.


(** * Further properties of the view *)

(** ** The two walks up the registry *)

Section RankedWalks.
Variable g : Graph.
Variable rank : string -> nat.
Hypothesis Hrank : ranked g rank.

Lemma findVisibleLoopM_total ns fuel curr :
  0 < fuel ->
  (forall p, curr ≫= GraphNode.parentId = Some p -> Js.truthy p = true ->
             rank p + 1 < fuel) ->
  exists r, ModuleFunctionGraph.findVisibleLoop g ns fuel curr = Ok r.
Proof.
  revert curr. induction fuel as [|fuel IH]; intros curr Hpos Hlt; [lia|]. simpl.
  destruct (curr ≫= GraphNode.parentId) as [p|] eqn:Hp; [|eauto].
  destruct (Js.truthy p) eqn:Ht; [|eauto].
  destruct (isVisible ns p); [eauto|].
  specialize (Hlt p eq_refl Ht).
  apply IH.
  - lia.
  - intros q Hq Htq. destruct (getNode g p) as [n|] eqn:Hn; [|done]. simpl in Hq.
    pose proof (Hrank _ _ _ Hn Hq Htq). lia.
Qed.

Lemma findVisibleM_total ns fuel i :
  rank i + 1 < fuel ->
  exists r, ModuleFunctionGraph.findVisible g ns fuel i = Ok r.
Proof.
  intros Hlt. unfold ModuleFunctionGraph.findVisible.
  destruct (isVisible ns i); [eauto|].
  apply findVisibleLoopM_total; [lia|].
  intros p Hp Htp. destruct (getNode g i) as [n|] eqn:Hn; [|done]. simpl in Hp.
  pose proof (Hrank _ _ _ Hn Hp Htp). lia.
Qed.

Lemma isDescendantLoopM_sound a fuel curr b :
  ModuleFunctionGraph.isDescendantLoop g a fuel curr = Ok b ->
  forall i, getNode g i = curr ->
    if b then descendantOf g a i else ~ descendantOf g a i.
Proof.
  revert curr. induction fuel as [|fuel IH]; intros curr H i Hi; [done|].
  simpl in H.
  destruct curr as [n|]; simpl in H.
  - destruct (GraphNode.parentId n) as [p|] eqn:Hp.
    + destruct (Js.truthy p) eqn:Ht.
      * destruct (String.eqb p a) eqn:E.
        -- apply string_eqb_true in E as ->. injection H as <-.
           by eapply descendant_child.
        -- apply string_eqb_false in E.
           specialize (IH _ H p eq_refl). destruct b.
           ++ by eapply descendant_up.
           ++ intros Hd. inversion Hd as [? n' Hn' Hp' Ht'|? n' p' Hn' Hp' Ht' Hd'];
                subst; rewrite Hi in Hn'; injection Hn' as <-;
                rewrite Hp in Hp'; injection Hp' as <-; [done|]. by apply IH.
      * injection H as <-. intros Hd.
        inversion Hd as [? n' Hn' Hp' Ht'|? n' p' Hn' Hp' Ht' Hd'];
          subst; rewrite Hi in Hn'; injection Hn' as <-;
          rewrite Hp in Hp'; injection Hp' as <-; congruence.
    + injection H as <-. intros Hd.
      inversion Hd as [? n' Hn' Hp' Ht'|? n' p' Hn' Hp' Ht' Hd'];
        subst; rewrite Hi in Hn'; injection Hn' as <-; congruence.
  - injection H as <-. intros Hd.
    inversion Hd as [? n' Hn' Hp' Ht'|? n' p' Hn' Hp' Ht' Hd'];
      subst; congruence.
Qed.

Lemma isDescendantLoopM_total a fuel i :
  rank i < fuel ->
  exists b, ModuleFunctionGraph.isDescendantLoop g a fuel (getNode g i) = Ok b.
Proof.
  revert i. induction fuel as [|fuel IH]; intros i Hlt; [lia|]. simpl.
  destruct (getNode g i) as [n|] eqn:Hn; simpl; [|eauto].
  destruct (GraphNode.parentId n) as [p|] eqn:Hp; [|eauto].
  destruct (Js.truthy p) eqn:Ht; [|eauto].
  destruct (String.eqb p a); [eauto|].
  apply IH. pose proof (Hrank _ _ _ Hn Hp Ht). lia.
Qed.

End RankedWalks.

(** A registry built from a list of node references is keyed by node id
    and holds nodes of the list only. *)
Lemma registry_get (h : list GraphNode.t) (rs : list ref) (i : string) (r : ref) :
  JsMap.get (fold_left (fun m r => match h !! r with
                                   | Some n => JsMap.set m (GraphNode.id n) r
                                   | None => m
                                   end) rs []) i = Some r ->
  r ∈ rs /\ exists n, h !! r = Some n /\ GraphNode.id n = i.
Proof.
  induction rs as [|r0 rs IH] using rev_ind; [done|].
  rewrite loadedGraph_get_snoc.
  assert (Hlift : r ∈ rs -> r ∈ rs ++ [r0]).
  { intros. apply elem_of_app. by left. }
  destruct (h !! r0) as [n'|] eqn:Hr.
  - destruct (String.eqb (GraphNode.id n') i) eqn:E.
    + intros [= <-]. apply string_eqb_true in E. split; [|eauto].
      apply elem_of_app. right. apply list_elem_of_here.
    + intros H. destruct (IH H) as [? ?]. auto.
  - intros H. destruct (IH H) as [? ?]. auto.
Qed.

(** Every id of a listed node is a key of the registry. *)
Lemma registry_has (h : list GraphNode.t) (rs : list ref) (r : ref) (n : GraphNode.t) :
  r ∈ rs -> h !! r = Some n ->
  exists r', JsMap.get (fold_left (fun m r => match h !! r with
                                   | Some n => JsMap.set m (GraphNode.id n) r
                                   | None => m
                                   end) rs []) (GraphNode.id n) = Some r'.
Proof.
  induction rs as [|r0 rs IH] using rev_ind; intros Hin Hr.
  - by apply elem_of_nil in Hin.
  - rewrite loadedGraph_get_snoc.
    destruct (h !! r0) as [n'|] eqn:Hr0.
    + destruct (String.eqb (GraphNode.id n') (GraphNode.id n)) eqn:E; [eauto|].
      apply elem_of_app in Hin as [Hin|Hin]; [by apply IH|].
      apply list_elem_of_singleton in Hin as ->.
      rewrite Hr in Hr0. injection Hr0 as <-.
      by rewrite String.eqb_refl in E.
    + apply elem_of_app in Hin as [Hin|Hin]; [by apply IH|].
      apply list_elem_of_singleton in Hin as ->. congruence.
Qed.


(** ** What the two walks compute *)

(** X1.  On a registry with finite parent chains, [findVisible] of either
    view returns, for a non-empty id and with enough iterations, the
    nearest ancestor-or-self of the id that is on screen, and [undefined]
    exactly when there is none. *)
Theorem findVisible_nearest_ancestor (g : Graph) (rank : string -> nat)
    (ns : list RenderNode.t) (i : string) :
  ranked g rank -> Js.truthy i = true ->
  exists r,
    (forall fuel, rank i + 1 < fuel ->
       HierarchicalGraph.findVisible g ns fuel (Some i) = Ok r
       /\ ModuleFunctionGraph.findVisible g ns fuel i = Ok r)
    /\ (forall a, r = Some a <-> nearestVisible g ns i a).
Proof.
  intros Hrank Hi.
  destruct (findVisible_total g rank Hrank ns (rank i + 2) (Some i)) as [r Hr];
    [lia|intros ? [= <-] _; lia|].
  assert (Hchar : forall a, r = Some a <-> nearestVisible g ns i a).
  { intros a. split.
    - intros ->. apply findVisibleH_sound in Hr as (i' & [= <-] & Hn). exact Hn.
    - intros Hn. exact (findVisibleH_complete _ _ _ _ _ _ Hn Hr). }
  exists r. split; [|exact Hchar]. intros fuel Hf. split.
  - destruct (findVisible_total g rank Hrank ns fuel (Some i)) as [r' Hr'];
      [lia|intros ? [= <-] _; lia|].
    rewrite Hr'. f_equal. destruct r' as [a|].
    + apply findVisibleH_sound in Hr' as (i' & [= <-] & Hn).
      symmetry. by apply Hchar.
    + destruct r as [a|]; [|done].
      pose proof (proj1 (Hchar a) eq_refl) as Hn.
      exact (findVisibleH_complete _ _ _ _ _ _ Hn Hr').
  - destruct (findVisibleM_total g rank Hrank ns fuel i Hf) as [r' Hr'].
    rewrite Hr'. f_equal. destruct r' as [a|].
    + apply findVisibleM_sound in Hr'; [|done]. symmetry. by apply Hchar.
    + destruct r as [a|]; [|done].
      pose proof (proj1 (Hchar a) eq_refl) as Hn.
      exact (findVisibleM_complete _ _ _ _ _ _ Hn Hr').
Qed.

(** X2.  On a registry with finite parent chains, [isDescendant] of either
    view returns, with enough iterations, whether the chain of parents of
    the node reaches the given ancestor. *)
Theorem isDescendant_decides (g : Graph) (rank : string -> nat) (a i : string) :
  ranked g rank ->
  exists b,
    (forall fuel, rank i < fuel ->
       HierarchicalGraph.isDescendant g a fuel i = Ok b
       /\ ModuleFunctionGraph.isDescendant g fuel i a = Ok b)
    /\ (b = true <-> descendantOf g a i).
Proof.
  intros Hrank.
  destruct (isDescendant_total g rank Hrank a (S (rank i)) i) as [b Hb]; [lia|].
  pose proof (isDescendant_sound _ _ _ _ _ Hb) as Hs.
  assert (Hchar : b = true <-> descendantOf g a i).
  { destruct b; split; done. }
  exists b. split; [|exact Hchar]. intros fuel Hf. split.
  - destruct (isDescendant_total g rank Hrank a fuel i Hf) as [b' Hb'].
    rewrite Hb'. f_equal. apply isDescendant_sound in Hb'.
    destruct b, b'; try done; tauto.
  - unfold ModuleFunctionGraph.isDescendant.
    destruct (isDescendantLoopM_total g rank Hrank a fuel i Hf) as [b' Hb'].
    rewrite Hb'. f_equal.
    pose proof (isDescendantLoopM_sound g a fuel _ b' Hb' i eq_refl) as Hs'.
    destruct b, b'; try done; tauto.
Qed.

Lemma scenario1_ranked :
  ranked (HierarchicalGraph.loadedGraph (buildGraph Examples.scenario1)) String.length.
Proof.
  intros i n p Hn Hp Ht.
  apply loadedGraph_getNode in Hn as (<- & r & Hr & Hs).
  change (r ∈ [0; 1; 2; 3; 4]) in Hr.
  repeat (apply elem_of_cons in Hr as [->|Hr];
          [vm_compute in Hs; injection Hs as <-; simpl in Hp;
           try discriminate; injection Hp as <-; simpl; lia|]).
  by apply elem_of_nil in Hr.
Qed.

(** With only the directory [a] on screen, the file [a/b/x.ts] resolves. *)
Lemma findVisible_nearest_ancestor_witness :
  exists r,
    (forall fuel, String.length "a/b/x.ts" + 1 < fuel ->
       HierarchicalGraph.findVisible
         (HierarchicalGraph.loadedGraph (buildGraph Examples.scenario1))
         [RenderNode.mk "a" "a" DIRECTORY None 0] fuel (Some "a/b/x.ts") = Ok r
       /\ ModuleFunctionGraph.findVisible
            (HierarchicalGraph.loadedGraph (buildGraph Examples.scenario1))
            [RenderNode.mk "a" "a" DIRECTORY None 0] fuel "a/b/x.ts" = Ok r)
    /\ (forall a, r = Some a <->
          nearestVisible (HierarchicalGraph.loadedGraph (buildGraph Examples.scenario1))
            [RenderNode.mk "a" "a" DIRECTORY None 0] "a/b/x.ts" a).
Proof.
  exact (findVisible_nearest_ancestor _ String.length
           [RenderNode.mk "a" "a" DIRECTORY None 0] "a/b/x.ts"
           scenario1_ranked eq_refl).
Defined.

(** Whether [a/b/x.ts] lies below [a]. *)
Lemma isDescendant_decides_witness :
  exists b,
    (forall fuel, String.length "a/b/x.ts" < fuel ->
       HierarchicalGraph.isDescendant
         (HierarchicalGraph.loadedGraph (buildGraph Examples.scenario1))
         "a" fuel "a/b/x.ts" = Ok b
       /\ ModuleFunctionGraph.isDescendant
            (HierarchicalGraph.loadedGraph (buildGraph Examples.scenario1))
            fuel "a/b/x.ts" "a" = Ok b)
    /\ (b = true <->
        descendantOf (HierarchicalGraph.loadedGraph (buildGraph Examples.scenario1))
          "a" "a/b/x.ts").
Proof.
  exact (isDescendant_decides _ String.length "a" "a/b/x.ts" scenario1_ranked).
Defined.


(** ** The states of the hierarchical view *)

(** X3.  In every state the hierarchical view reaches on well-formed graph
    data, no node on screen is a descendant of a node on screen, and every
    node on screen carries the parent the registry records for its id. *)
Theorem reachable_views_show_no_descendant (data : HierarchicalData) (v : View) :
  wellFormed data -> reachable data v ->
  (forall a b, a ∈ visibleIds v -> b ∈ visibleIds v ->
               ~ descendantOf (HierarchicalGraph.loadedGraph data) a b)
  /\ (forall n, n ∈ vnodes v ->
        GraphNode.parentId <$> getNode (HierarchicalGraph.loadedGraph data) (RenderNode.id n)
        = Some (RenderNode.parentId n)).
Proof.
  intros Hwf Hreach.
  destruct (reachable_invariant data Hwf v Hreach) as (H1 & H2 & _). by split.
Qed.

Lemma reachable_views_show_no_descendant_witness :
  exists v,
    reachable (buildGraph Examples.scenario1) v
    /\ visibleIds v = ["a/b"; "a/c"]
    /\ (forall a b, a ∈ visibleIds v -> b ∈ visibleIds v ->
          ~ descendantOf (HierarchicalGraph.loadedGraph (buildGraph Examples.scenario1)) a b).
Proof.
  set (data := buildGraph Examples.scenario1).
  set (node := RenderNode.mk "a" "a" DIRECTORY None 0).
  assert (Hinit : reachable data (mkView [node] [] [])).
  { apply reachable_init. exists 5. vm_compute. reflexivity. }
  set (v := mkView [RenderNode.mk "a/b" "b" DIRECTORY (Some "a") 1;
                    RenderNode.mk "a/c" "c" DIRECTORY (Some "a") 3] [] ["a"]).
  assert (Hreach : reachable data v).
  { eapply reachable_step; [exact Hinit|].
    apply step_click; [apply list_elem_of_here|].
    exists 5. vm_compute. reflexivity. }
  exists v. split; [exact Hreach|]. split; [reflexivity|].
  exact (proj1 (reachable_views_show_no_descendant data v scenario1_wellFormed Hreach)).
Defined.

(** Every expanded id of a reachable state is a key of the registry. *)
Lemma reachable_expanded_registered (data : HierarchicalData) (v : View) :
  reachable data v ->
  forall p, p ∈ expandedNodes v ->
    exists n, getNode (HierarchicalGraph.loadedGraph data) p = Some n.
Proof.
  induction 1 as [v [fuel Hrun]|v e v' Hreach IH Hstep].
  - apply updateSimulation_Ok in Hrun as (_ & -> & _).
    intros p Hp. by apply elem_of_nil in Hp.
  - destruct Hstep as [v node v' Hnode [fuel Hrun]|v p v' Henc [fuel Hrun]].
    + apply handleNodeClick_Ok in Hrun as [->|Hrun]; [done|].
      apply expand_Ok in Hrun as (children & Hch & _ & -> & _).
      intros p. unfold setAdd. case_bool_decide; [apply IH|].
      intros [Hp|Hp]%elem_of_app; [by apply IH|].
      apply list_elem_of_singleton in Hp as ->.
      destruct (getNode _ (RenderNode.id node)); [eauto|done].
    + apply collapse_Ok in Hrun as (_ & _ & _ & _ & _ & _ & _ & -> & _).
      intros q Hq. unfold setDelete in Hq.
      apply list_elem_of_filter in Hq as [_ Hq]. by apply IH.
Qed.

(** X4.  A click on a node of the hierarchical view always completes on a
    registry with finite parent chains.  A node that is unknown to the
    registry or has no children leaves the view as it is; otherwise the
    node leaves the screen, its children enter it, and its id is marked as
    expanded. *)
Theorem click_replaces_node_by_children (g : Graph) (rank : string -> nat)
    (v : View) (node : RenderNode.t) :
  ranked g rank ->
  (exists v', runs (fun fuel => HierarchicalGraph.handleNodeClick g fuel v node) v')
  /\ forall fuel v',
       HierarchicalGraph.handleNodeClick g fuel v node = Ok v' ->
       match getNode g (RenderNode.id node) ≫= GraphNode.children with
       | Some (c :: cs) =>
           (forall i, i ∈ visibleIds v' <->
              (i ∈ visibleIds v /\ i <> RenderNode.id node)
              \/ exists c' cn, c' ∈ c :: cs /\ objects g !! c' = Some cn
                               /\ GraphNode.id cn = i)
           /\ expandedNodes v' = setAdd (expandedNodes v) (RenderNode.id node)
       | _ => v' = v
       end.
Proof.
  intros Hrank. split.
  - unfold HierarchicalGraph.handleNodeClick, HierarchicalGraph.expand.
    destruct (getNode g (RenderNode.id node)) as [n|] eqn:Hn; [|by exists v, 0].
    destruct (GraphNode.children n) as [[|c cs]|] eqn:Hcs;
      [by exists v, 0| |by exists v, 0].
    simpl. rewrite Hcs.
    destruct (updateSimulation_total g rank
                (List.filter (fun n0 => negb (String.eqb (RenderNode.id n0)
                                                         (RenderNode.id node)))
                             (vnodes v)
                 ++ omap (createRenderNode (objects g)) (c :: cs))
                (setAdd (expandedNodes v) (RenderNode.id node)) [] Hrank)
      as [ls Hls].
    eexists. eexists. exact Hls.
  - intros fuel v' Hrun.
    unfold HierarchicalGraph.handleNodeClick in Hrun.
    destruct (getNode g (RenderNode.id node)) as [n|] eqn:Hn; simpl;
      [|by injection Hrun].
    destruct (GraphNode.children n) as [[|c cs]|] eqn:Hcs;
      [by injection Hrun| |by injection Hrun].
    apply expand_Ok in Hrun as (children & Hch & Hns & Hex & _).
    rewrite Hn in Hch. simpl in Hch. rewrite Hcs in Hch. injection Hch as <-.
    split; [|exact Hex].
    intros i. unfold visibleIds. rewrite Hns, fmap_app, elem_of_app.
    rewrite visibleIds_filter_ne.
    apply or_iff_compat_l. split.
    + intros (rn & -> & Hrn)%list_elem_of_fmap.
      apply list_elem_of_omap in Hrn as (c' & Hc' & Hrn).
      unfold createRenderNode in Hrn.
      destruct (objects g !! c') as [cn|] eqn:Hcn; [|done].
      injection Hrn as <-. by exists c', cn.
    + intros (c' & cn & Hc' & Hcn & <-).
      apply list_elem_of_fmap.
      exists (RenderNode.mk (GraphNode.id cn) (GraphNode.label cn) (GraphNode.type cn)
                            (GraphNode.parentId cn) c').
      split; [done|]. apply list_elem_of_omap. exists c'. split; [done|].
      unfold createRenderNode. by rewrite Hcn.
Qed.

(** A click on the root directory of scenario 1. *)
Lemma click_replaces_node_by_children_witness :
  exists v',
    runs (fun fuel => HierarchicalGraph.handleNodeClick
            (HierarchicalGraph.loadedGraph (buildGraph Examples.scenario1)) fuel
            (mkView [RenderNode.mk "a" "a" DIRECTORY None 0] [] [])
            (RenderNode.mk "a" "a" DIRECTORY None 0)) v'.
Proof.
  exact (proj1 (click_replaces_node_by_children _ String.length
                  (mkView [RenderNode.mk "a" "a" DIRECTORY None 0] [] [])
                  (RenderNode.mk "a" "a" DIRECTORY None 0) scenario1_ranked)).
Defined.

(** On well-formed graph data the collapse of a drawn enclosure returns
    within the iterations that [enoughFuel] allows. *)
Lemma collapse_completes (data : HierarchicalData) (v : View) (p : string) :
  wellFormed data -> reachable data v ->
  HierarchicalGraph.hasEnclosure v p = true ->
  exists F v', HierarchicalGraph.collapse (HierarchicalGraph.loadedGraph data) F v p
               = Ok v'.
Proof.
  intros Hwf Hreach Henc.
  set (g := HierarchicalGraph.loadedGraph data) in *.
  destruct Hwf as (HA & HB & rank & Hrank).
  set (F := enoughFuel rank g (visibleIds v)).
  destruct (filterR_total
              (fun n => b <- HierarchicalGraph.isDescendant g p F (RenderNode.id n) ;;;
                        Ok (negb b)) (vnodes v)) as [ns2 Hfilter].
  { intros x Hx.
    destruct (isDescendant_total g rank Hrank p F (RenderNode.id x)) as [b ->].
    - assert (Hxi : RenderNode.id x ∈ visibleIds v).
      { unfold visibleIds. apply list_elem_of_In, in_map. by apply list_elem_of_In. }
      pose proof (enoughFuel_ids rank g (visibleIds v) (RenderNode.id x) Hxi) as H.
      fold F in H. lia.
    - simpl. eauto. }
  apply hasEnclosure_true in Henc as Henc'. destruct Henc' as [Hex _].
  destruct (reachable_expanded_registered data v Hreach p Hex) as [n Hn].
  fold g in Hn.
  assert (Hgetp : exists r, JsMap.get (allNodesMap g) p = Some r
                            /\ objects g !! r = Some n).
  { unfold getNode in Hn. destruct (JsMap.get (allNodesMap g) p) as [r|]; [|done].
    exists r. by split. }
  destruct Hgetp as (r & Hr & Hrn').
  set (pn := RenderNode.mk (GraphNode.id n) (GraphNode.label n) (GraphNode.type n)
                           (GraphNode.parentId n) r).
  destruct (updateSimulation_total g rank (ns2 ++ [pn])
              (setDelete (expandedNodes v) p) (visibleIds v) Hrank)
    as [ls2 Hrun2].
  fold F in Hrun2.
  exists F, (mkView (ns2 ++ [pn]) ls2 (setDelete (expandedNodes v) p)).
  unfold HierarchicalGraph.collapse.
  rewrite Hfilter. cbn [rbind].
  rewrite Hr. unfold createRenderNode. rewrite Hrn'. exact Hrun2.
Qed.

(** X5.  In every state the hierarchical view reaches on well-formed graph
    data, a click on a drawn enclosure completes: the descendants of the
    enclosure's node leave the screen, the node itself enters it, every
    other node stays, and the id is no longer marked as expanded. *)
Theorem collapse_hides_descendants (data : HierarchicalData) (v : View) (p : string) :
  wellFormed data -> reachable data v ->
  HierarchicalGraph.hasEnclosure v p = true ->
  exists v',
    runs (fun fuel => HierarchicalGraph.collapse (HierarchicalGraph.loadedGraph data)
                        fuel v p) v'
    /\ (forall i, i ∈ visibleIds v' <->
          i = p \/ (i ∈ visibleIds v
                    /\ ~ descendantOf (HierarchicalGraph.loadedGraph data) p i))
    /\ expandedNodes v' = setDelete (expandedNodes v) p.
Proof.
  intros Hwf Hreach Henc.
  pose proof (reachable_invariant data Hwf v Hreach) as Hinv.
  destruct (collapse_completes data v p Hwf Hreach Henc) as (F & v2 & Hcollapse).
  exists v2.
  destruct (collapse_invariant data Hwf F v p v2 Hinv Henc Hcollapse) as [_ Hids].
  apply collapse_Ok in Hcollapse as Hshape.
  destruct Hshape as (_ & _ & _ & _ & _ & _ & _ & Hex & _).
  split_and!; [by exists F|exact Hids|exact Hex].
Qed.

(** The enclosure of [a] once the root directory of scenario 1 is expanded. *)
Lemma collapse_hides_descendants_witness :
  exists v v',
    reachable (buildGraph Examples.scenario1) v
    /\ HierarchicalGraph.hasEnclosure v "a" = true
    /\ runs (fun fuel => HierarchicalGraph.collapse
               (HierarchicalGraph.loadedGraph (buildGraph Examples.scenario1))
               fuel v "a") v'
    /\ (forall i, i ∈ visibleIds v' <->
          i = "a" \/ (i ∈ visibleIds v
                      /\ ~ descendantOf
                           (HierarchicalGraph.loadedGraph (buildGraph Examples.scenario1))
                           "a" i)).
Proof.
  set (data := buildGraph Examples.scenario1).
  set (node := RenderNode.mk "a" "a" DIRECTORY None 0).
  assert (Hinit : reachable data (mkView [node] [] [])).
  { apply reachable_init. exists 5. vm_compute. reflexivity. }
  set (v := mkView [RenderNode.mk "a/b" "b" DIRECTORY (Some "a") 1;
                    RenderNode.mk "a/c" "c" DIRECTORY (Some "a") 3] [] ["a"]).
  assert (Hreach : reachable data v).
  { eapply reachable_step; [exact Hinit|].
    apply step_click; [apply list_elem_of_here|].
    exists 5. vm_compute. reflexivity. }
  assert (Henc : HierarchicalGraph.hasEnclosure v "a" = true) by reflexivity.
  destruct (collapse_hides_descendants data v "a" scenario1_wellFormed Hreach Henc)
    as (v' & Hrun & Hids & _).
  exists v, v'. by split_and!.
Defined.


(** ** The module-function view *)

Lemma updateSimulationM_Ok g fuel ns ex v :
  ModuleFunctionGraph.updateSimulation g fuel ns ex = Ok v ->
  vnodes v = ns /\ expandedNodes v = ex.
Proof.
  unfold ModuleFunctionGraph.updateSimulation.
  destruct (ModuleFunctionGraph.updateLinks g fuel ns); simpl; [|done..].
  by intros [= <-].
Qed.

Lemma fold_linkStepM_total g ns fuel raws acc :
  (forall raw, raw ∈ raws ->
     exists so to,
       ModuleFunctionGraph.findVisible g ns fuel (GraphLink.source raw) = Ok so
       /\ ModuleFunctionGraph.findVisible g ns fuel (GraphLink.target raw) = Ok to) ->
  exists final, fold_left (ModuleFunctionGraph.linkStep g ns fuel) raws (Ok acc) = Ok final.
Proof.
  revert acc. induction raws as [|raw raws IH]; intros acc Hall;
    cbn [fold_left]; [eauto|].
  destruct (Hall raw) as (so & to & Hso & Hto); [apply list_elem_of_here|].
  assert (Hstep : exists acc1,
             ModuleFunctionGraph.linkStep g ns fuel (Ok acc) raw = Ok acc1).
  { unfold ModuleFunctionGraph.linkStep. simpl. rewrite Hso. simpl. rewrite Hto. simpl.
    destruct so as [s|], to as [t|]; eauto.
    destruct (Js.truthy s && Js.truthy t && negb (String.eqb s t)); eauto.
    destruct (JsMap.get acc _); eauto. }
  destruct Hstep as [acc1 ->]. apply IH.
  intros r Hr. apply Hall. by apply list_elem_of_further.
Qed.

Lemma updateSimulationM_total g rank ns ex ids :
  ranked g rank ->
  exists ls, ModuleFunctionGraph.updateSimulation g (enoughFuel rank g ids) ns ex
             = Ok (mkView ns ls ex).
Proof.
  intros Hrank.
  unfold ModuleFunctionGraph.updateSimulation, ModuleFunctionGraph.updateLinks.
  destruct (fold_linkStepM_total g ns (enoughFuel rank g ids) (allLinks g) [])
    as [final ->]; [|simpl; eauto].
  intros raw Hraw.
  destruct (enoughFuel_ends rank g ids raw Hraw) as [Hs Ht].
  destruct (findVisibleM_total g rank Hrank ns (enoughFuel rank g ids)
              (GraphLink.source raw) Hs) as [so Hso].
  destruct (findVisibleM_total g rank Hrank ns (enoughFuel rank g ids)
              (GraphLink.target raw) Ht) as [to Hto].
  eauto.
Qed.

Lemma shown_not_class ty : ModuleFunctionGraph.shown ty = true <-> ty <> CLASS.
Proof. by destruct ty. Qed.

Lemma filteredNodes_shown data r :
  r ∈ ModuleFunctionGraph.filteredNodes data ->
  r ∈ nodes data
  /\ exists n, store data !! r = Some n /\ GraphNode.type n <> CLASS.
Proof.
  unfold ModuleFunctionGraph.filteredNodes.
  intros H. apply list_elem_of_In, filter_In in H as [Hin Hr].
  split; [by apply list_elem_of_In|].
  destruct (store data !! r) as [n|]; [|done].
  exists n. split; [done|]. by apply shown_not_class.
Qed.

Lemma createRenderNode_type h r rn :
  createRenderNode h r = Some rn ->
  exists n, h !! r = Some n /\ RenderNode.type rn = GraphNode.type n
            /\ RenderNode.id rn = GraphNode.id n.
Proof.
  unfold createRenderNode. destruct (h !! r) as [n|]; [|done].
  intros [= <-]. by exists n.
Qed.

(** X6.  The module-function view never shows a class: in every state it
    reaches, on any graph data, the nodes on screen are directories, files
    and functions. *)
Theorem module_function_view_shows_no_class (data : HierarchicalData) (v : View) :
  ModuleFunctionView.reachable data v ->
  forall n, n ∈ vnodes v -> RenderNode.type n <> CLASS.
Proof.
  induction 1 as [v [fuel Hrun]|v e v' Hreach IH Hstep].
  - apply updateSimulationM_Ok in Hrun as [-> _].
    intros n (r & Hr & Hn)%list_elem_of_omap.
    apply createRenderNode_type in Hn as (gn & Hgn & -> & _).
    unfold ModuleFunctionGraph.rootNodes in Hr.
    apply list_elem_of_In, filter_In in Hr as [Hr _].
    apply list_elem_of_In, filteredNodes_shown in Hr as (_ & gn' & Hgn' & Hty).
    congruence.
  - destruct Hstep as [v node v' Hnode [fuel Hrun]|v p v' Henc [fuel Hrun]].
    + unfold ModuleFunctionGraph.handleNodeClick in Hrun.
      destruct (getNode _ (RenderNode.id node)) as [original|];
        [|by injection Hrun as <-].
      destruct (GraphNode.children original) as [[|c cs]|];
        [by injection Hrun as <-| |by injection Hrun as <-].
      apply updateSimulationM_Ok in Hrun as [-> _].
      intros n [Hn|Hn]%elem_of_app.
      * apply list_elem_of_In, filter_In in Hn as [Hn _].
        by apply IH, list_elem_of_In.
      * apply list_elem_of_In, filter_In in Hn as [_ Hn].
        by apply shown_not_class.
    + unfold ModuleFunctionGraph.collapse in Hrun.
      destruct (filterR _ (vnodes v)) as [ns| |] eqn:Hf; [|done..].
      cbn [rbind] in Hrun.
      destruct (JsMap.get _ p) as [r|] eqn:Hr; [|done].
      destruct (createRenderNode _ r) as [pn|] eqn:Hpn; [|done].
      apply updateSimulationM_Ok in Hrun as [-> _].
      apply filterR_Ok in Hf as (q & _ & ->).
      intros n [Hn|Hn]%elem_of_app.
      * apply list_elem_of_In, filter_In in Hn as [Hn _].
        by apply IH, list_elem_of_In.
      * apply list_elem_of_singleton in Hn as ->.
        apply registry_get in Hr as (Hin & _).
        apply filteredNodes_shown in Hin as (_ & gn & Hgn & Hty).
        apply createRenderNode_type in Hpn as (gn' & Hgn' & -> & _).
        simpl in Hgn'. congruence.
Qed.

(** X7.  A click on a node of the module-function view with children
    completes on a registry with finite parent chains: the node leaves the
    screen and those of its children that are not classes enter it.  When
    every child is a class, nothing replaces the node. *)
Theorem module_function_click_drops_classes (g : Graph) (rank : string -> nat)
    (v : View) (node : RenderNode.t) (original : GraphNode.t) (c : ref) (cs : list ref) :
  ranked g rank ->
  getNode g (RenderNode.id node) = Some original ->
  GraphNode.children original = Some (c :: cs) ->
  (exists v', runs (fun fuel => ModuleFunctionGraph.handleNodeClick g fuel v node) v')
  /\ forall fuel v',
       ModuleFunctionGraph.handleNodeClick g fuel v node = Ok v' ->
       (forall n, n ∈ vnodes v' <->
          (n ∈ vnodes v /\ RenderNode.id n <> RenderNode.id node)
          \/ exists c', c' ∈ c :: cs /\ createRenderNode (objects g) c' = Some n
                        /\ RenderNode.type n <> CLASS)
       /\ ((forall c' cn, c' ∈ c :: cs -> objects g !! c' = Some cn ->
                          GraphNode.type cn = CLASS) ->
           vnodes v' =
           List.filter (fun n => negb (String.eqb (RenderNode.id n) (RenderNode.id node)))
                       (vnodes v))
       /\ expandedNodes v' = setAdd (expandedNodes v) (RenderNode.id node).
Proof.
  intros Hrank Hn Hcs.
  unfold ModuleFunctionGraph.handleNodeClick. rewrite Hn, Hcs.
  split.
  - destruct (updateSimulationM_total g rank
                (List.filter (fun n0 => negb (String.eqb (RenderNode.id n0)
                                                         (RenderNode.id node)))
                             (vnodes v)
                 ++ List.filter (fun n0 => ModuleFunctionGraph.shown (RenderNode.type n0))
                      (omap (createRenderNode (objects g)) (c :: cs)))
                (setAdd (expandedNodes v) (RenderNode.id node)) [] Hrank) as [ls Hls].
    eexists. eexists. exact Hls.
  - intros fuel v' Hrun.
    apply updateSimulationM_Ok in Hrun as [-> ->].
    split_and!; [|intros Hall|done].
    + intros n. rewrite elem_of_app.
      assert (H1 : n ∈ List.filter
                         (fun n0 => negb (String.eqb (RenderNode.id n0)
                                                     (RenderNode.id node))) (vnodes v)
                   <-> n ∈ vnodes v /\ RenderNode.id n <> RenderNode.id node).
      { rewrite !list_elem_of_In, filter_In, negb_true_iff.
        by rewrite string_eqb_false. }
      assert (H2 : n ∈ List.filter
                         (fun n0 => ModuleFunctionGraph.shown (RenderNode.type n0))
                         (omap (createRenderNode (objects g)) (c :: cs))
                   <-> exists c', c' ∈ c :: cs
                                  /\ createRenderNode (objects g) c' = Some n
                                  /\ RenderNode.type n <> CLASS).
      { rewrite list_elem_of_In, filter_In, <- list_elem_of_In, list_elem_of_omap.
        rewrite shown_not_class. split.
        - intros [(c' & Hc' & Hrn) Hty]. by exists c'.
        - intros (c' & Hc' & Hrn & Hty). split; [by exists c'|done]. }
      tauto.
    + rewrite <- (app_nil_r (List.filter _ (vnodes v))) at 2. f_equal.
      assert (Hnone : forall rn,
                 rn ∈ omap (createRenderNode (objects g)) (c :: cs) ->
                 ModuleFunctionGraph.shown (RenderNode.type rn) = false).
      { intros rn (c' & Hc' & Hrn)%list_elem_of_omap.
        apply createRenderNode_type in Hrn as (cn & Hcn & -> & _).
        by rewrite (Hall c' cn Hc' Hcn). }
      induction (omap (createRenderNode (objects g)) (c :: cs)) as [|rn l IH];
        [done|].
      simpl. rewrite (Hnone rn ltac:(apply list_elem_of_here)).
      apply IH. intros. by apply Hnone, list_elem_of_further.
Qed.

Lemma scenario2_ranked :
  ranked (ModuleFunctionGraph.loadedGraph (buildGraph Examples.scenario2)) String.length.
Proof.
  intros i n p Hn Hp Ht.
  unfold getNode in Hn.
  destruct (JsMap.get _ i) as [r|] eqn:Hr; [|done]. simpl in Hn.
  apply registry_get in Hr as (Hr & n' & Hn' & <-).
  change (store (buildGraph Examples.scenario2) !! r = Some n) in Hn.
  rewrite Hn' in Hn. injection Hn as ->.
  change (r ∈ [0; 1; 3; 5]) in Hr.
  repeat (apply elem_of_cons in Hr as [->|Hr];
          [vm_compute in Hn'; injection Hn' as <-; simpl in Hp;
           try discriminate; injection Hp as <-; vm_compute; lia|]).
  by apply elem_of_nil in Hr.
Qed.

(** The file [f1] of scenario 2 holds the class [Foo] only: a click on it
    empties the screen of the file. *)
Lemma module_function_click_drops_classes_witness :
  (exists v',
     runs (fun fuel => ModuleFunctionGraph.handleNodeClick
             (ModuleFunctionGraph.loadedGraph (buildGraph Examples.scenario2)) fuel
             (mkView [RenderNode.mk "f1" "f1" FILE None 0] [] [])
             (RenderNode.mk "f1" "f1" FILE None 0)) v')
  /\ forall fuel v',
       ModuleFunctionGraph.handleNodeClick
         (ModuleFunctionGraph.loadedGraph (buildGraph Examples.scenario2)) fuel
         (mkView [RenderNode.mk "f1" "f1" FILE None 0] [] [])
         (RenderNode.mk "f1" "f1" FILE None 0) = Ok v' ->
       vnodes v' = [].
Proof.
  destruct (module_function_click_drops_classes
              (ModuleFunctionGraph.loadedGraph (buildGraph Examples.scenario2))
              String.length
              (mkView [RenderNode.mk "f1" "f1" FILE None 0] [] [])
              (RenderNode.mk "f1" "f1" FILE None 0)
              (GraphNode.mk "f1" "f1" FILE None (Some [2]) (Some 10%Z) (Some 0))
              2 [] scenario2_ranked eq_refl eq_refl) as [Hruns Hall].
  split; [exact Hruns|].
  intros fuel v' Hrun. destruct (Hall fuel v' Hrun) as (_ & Hclasses & _).
  rewrite Hclasses; [reflexivity|].
  intros c' cn Hc' Hcn. apply list_elem_of_singleton in Hc' as ->.
  vm_compute in Hcn. by injection Hcn as <-.
Defined.

(** X8.  The module-function view keeps call edges only, and both ends of
    every edge it keeps are ids of its registry, held by nodes that are
    not classes. *)
Theorem module_function_links_are_calls_between_kept_nodes
    (data : HierarchicalData) (l : GraphLink.t) :
  l ∈ allLinks (ModuleFunctionGraph.loadedGraph data) ->
  l ∈ links data
  /\ GraphLink.type l = CALL
  /\ (exists n, getNode (ModuleFunctionGraph.loadedGraph data) (GraphLink.source l) = Some n
                /\ GraphNode.id n = GraphLink.source l /\ GraphNode.type n <> CLASS)
  /\ (exists n, getNode (ModuleFunctionGraph.loadedGraph data) (GraphLink.target l) = Some n
                /\ GraphNode.id n = GraphLink.target l /\ GraphNode.type n <> CLASS).
Proof.
  unfold ModuleFunctionGraph.loadedGraph at 1. simpl.
  intros H. apply list_elem_of_In, filter_In in H as [Hin H].
  apply andb_true_iff in H as [H Ht]. apply andb_true_iff in H as [Hty Hs].
  apply bool_decide_eq_true in Hty.
  assert (Hend : forall i,
             ModuleFunctionGraph.hasNodeWithId data
               (ModuleFunctionGraph.filteredNodes data) i = true ->
             exists n, getNode (ModuleFunctionGraph.loadedGraph data) i = Some n
                       /\ GraphNode.id n = i /\ GraphNode.type n <> CLASS).
  { intros i Hi. unfold ModuleFunctionGraph.hasNodeWithId in Hi.
    apply existsb_exists in Hi as (r & Hr & Hi). apply list_elem_of_In in Hr.
    destruct (store data !! r) as [n|] eqn:Hn; [|done].
    apply string_eqb_true in Hi as <-.
    destruct (registry_has (store data) _ r n Hr Hn) as [r' Hr'].
    pose proof Hr' as Hr''.
    apply registry_get in Hr'' as (Hin' & n' & Hn' & Hid).
    apply filteredNodes_shown in Hin' as (_ & n'' & Hn'' & Hty').
    exists n'. split_and!; [|done|congruence].
    unfold getNode, ModuleFunctionGraph.loadedGraph. simpl. rewrite Hr'. exact Hn'. }
  split_and!; [by apply list_elem_of_In|done|by apply Hend..].
Qed.

(** The first screen of the module-function view of scenario 2. *)
Lemma module_function_view_shows_no_class_witness :
  exists v n,
    ModuleFunctionView.reachable (buildGraph Examples.scenario2) v
    /\ n ∈ vnodes v
    /\ RenderNode.type n <> CLASS.
Proof.
  set (v := mkView [RenderNode.mk "f1" "f1" FILE None 0;
                    RenderNode.mk "f2" "f2" FILE None 1] [] []).
  assert (Hreach : ModuleFunctionView.reachable (buildGraph Examples.scenario2) v).
  { apply ModuleFunctionView.reachable_init. exists 5. vm_compute. reflexivity. }
  assert (Hn : RenderNode.mk "f1" "f1" FILE None 0 ∈ vnodes v)
    by apply list_elem_of_here.
  exists v, (RenderNode.mk "f1" "f1" FILE None 0).
  split; [exact Hreach|]. split; [exact Hn|].
  exact (module_function_view_shows_no_class _ v Hreach _ Hn).
Defined.

(** The call edge between the two standalone functions of the example. *)
Lemma module_function_links_are_calls_between_kept_nodes_witness :
  GraphLink.mk "f1::foo" "f2::baz" 3%Z CALL (Some FanOut)
    ∈ allLinks (ModuleFunctionGraph.loadedGraph (buildGraph Examples.functionCall))
  /\ exists n,
       getNode (ModuleFunctionGraph.loadedGraph (buildGraph Examples.functionCall))
               "f1::foo" = Some n
       /\ GraphNode.id n = "f1::foo" /\ GraphNode.type n <> CLASS.
Proof.
  assert (Hin : GraphLink.mk "f1::foo" "f2::baz" 3%Z CALL (Some FanOut)
                  ∈ allLinks (ModuleFunctionGraph.loadedGraph
                                (buildGraph Examples.functionCall))).
  { apply list_elem_of_In. vm_compute. auto. }
  split; [exact Hin|].
  exact (proj1 (proj2 (proj2 (module_function_links_are_calls_between_kept_nodes
                                _ _ Hin)))).
Defined.


(** * Further properties of the service *)

(** ** Objects keep their fields *)

Lemma sameFields_refl n : sameFields n n.
Proof. done. Qed.

Lemma sameFields_trans a b c : sameFields a b -> sameFields b c -> sameFields a c.
Proof. unfold sameFields. congruence. Qed.

Lemma sameFields_withChildren n cs : sameFields n (GraphNode.withChildren n cs).
Proof. done. Qed.

Lemma sameFields_fields n n' :
  sameFields n n' ->
  GraphNode.id n' = GraphNode.id n /\ GraphNode.label n' = GraphNode.label n
  /\ GraphNode.type n' = GraphNode.type n
  /\ GraphNode.parentId n' = GraphNode.parentId n
  /\ GraphNode.loc n' = GraphNode.loc n /\ GraphNode.depth n' = GraphNode.depth n.
Proof.
  unfold sameFields, GraphNode.withChildren. intros [= -> -> -> -> -> ->]. done.
Qed.

Lemma keepsFields_refl h : keepsFields h h.
Proof. intros r n Hr. by exists n. Qed.

Lemma keepsFields_trans h1 h2 h3 :
  keepsFields h1 h2 -> keepsFields h2 h3 -> keepsFields h1 h3.
Proof.
  intros H12 H23 r n Hr.
  destruct (H12 r n Hr) as (n2 & Hr2 & Hs2).
  destruct (H23 r n2 Hr2) as (n3 & Hr3 & Hs3).
  exists n3. split; [done|]. by eapply sameFields_trans.
Qed.

Lemma keepsFields_alloc h n : keepsFields h (alloc h n).1.
Proof.
  intros r n0 Hr. exists n0. split; [|done]. simpl. by apply lookup_app_l_Some.
Qed.

Lemma keepsFields_insert h p pn cs :
  h !! p = Some pn -> keepsFields h (<[p := GraphNode.withChildren pn cs]> h).
Proof.
  intros Hp r n Hr. destruct (decide (r = p)) as [->|Hne].
  - rewrite list_lookup_insert_eq by (by eapply lookup_lt_Some).
    eexists. split; [done|]. rewrite Hp in Hr. injection Hr as ->.
    apply sameFields_withChildren.
  - rewrite list_lookup_insert_ne by done. by exists n.
Qed.

Lemma keepsFields_pushChild h p c : keepsFields h (pushChild h p c).
Proof.
  unfold pushChild. destruct (h !! p) eqn:Hp; [|apply keepsFields_refl].
  by apply keepsFields_insert.
Qed.

Lemma keepsFields_pushChildOpt h p c : keepsFields h (pushChildOpt h p c).
Proof.
  unfold pushChildOpt. destruct (h !! p) as [n|] eqn:Hp; [|apply keepsFields_refl].
  destruct (GraphNode.children n); [|apply keepsFields_refl].
  by apply keepsFields_insert.
Qed.

(** ** [buildDirectories]: the keys and the file nodes *)

(** One directory step registers its id, keeps every entry, and moves the
    cursor to that id. *)
Lemma dirStep_effect reg cur part :
  let i := if Js.truthy (currentPath cur)
           then currentPath cur +:+ "/" +:+ part else part in
  (dirStep (reg, cur) part).2 = mkDirCursor i (Some i) (S (depth cur))
  /\ keepsFields (heap reg) (heap (dirStep (reg, cur) part).1)
  /\ (forall j, JsMap.has (nodesMap (dirStep (reg, cur) part).1) j = true
                <-> JsMap.has (nodesMap reg) j = true \/ j = i)
  /\ (forall j r, JsMap.get (nodesMap reg) j = Some r ->
                  JsMap.get (nodesMap (dirStep (reg, cur) part).1) j = Some r).
Proof.
  intros i. unfold dirStep. fold i. simpl.
  destruct (JsMap.has (nodesMap reg) i) eqn:Hhas; simpl.
  - split_and!; [done|apply keepsFields_refl| |done].
    intros j. split; [by left|]. by intros [?| ->].
  - split_and!; [done| | |].
    + eapply keepsFields_trans; [apply (keepsFields_alloc (heap reg))|]. simpl.
      destruct (Js.truthyO _); [|apply keepsFields_refl].
      destruct (JsMap.get _ _); [|apply keepsFields_refl].
      destruct (_ !! _) eqn:Hp; [|apply keepsFields_refl].
      destruct (hasChildWithId _ _ _);
        [by apply keepsFields_insert|apply keepsFields_pushChild].
    + intros j. rewrite has_set. tauto.
    + intros j r Hr. rewrite get_set_ne; [done|].
      intros <-. apply has_false_get in Hhas. congruence.
Qed.

Lemma last_cons_default {A} (x : A) (l : list A) :
  last (x :: l) = Some (default x (last l)).
Proof. rewrite last_cons. by destruct (last l). Qed.

(** The directory steps of one path. *)
Lemma dirSteps_effect parts : forall reg cur,
  let ids := dirIdsFrom (currentPath cur) parts in
  let st := fold_left dirStep parts (reg, cur) in
  currentPath st.2 = default (currentPath cur) (last ids)
  /\ parentId st.2 = match last ids with Some i => Some i | None => parentId cur end
  /\ depth st.2 = depth cur + length ids
  /\ keepsFields (heap reg) (heap st.1)
  /\ (forall j, JsMap.has (nodesMap st.1) j = true
                <-> JsMap.has (nodesMap reg) j = true \/ j ∈ ids)
  /\ (forall j r, JsMap.get (nodesMap reg) j = Some r ->
                  JsMap.get (nodesMap st.1) j = Some r).
Proof.
  induction parts as [|part parts IH]; intros reg cur; cbn [fold_left dirIdsFrom].
  - simpl. split_and!; [done|done|lia|apply keepsFields_refl| |done].
    intros j. split; [by left|]. intros [?|?%elem_of_nil]; done.
  - destruct (dirStep_effect reg cur part) as (Hcur & Hk & Hhas & Hget).
    destruct (dirStep (reg, cur) part) as [reg1 cur1] eqn:E. simpl in *.
    subst cur1.
    set (i := if Js.truthy (currentPath cur)
              then currentPath cur +:+ "/" +:+ part else part) in *.
    destruct (IH reg1 (mkDirCursor i (Some i) (S (depth cur))))
      as (H1 & H2 & H3 & H4 & H5 & H6).
    simpl in *. rewrite last_cons.
    split_and!.
    + rewrite H1. by destruct (last _).
    + rewrite H2. by destruct (last _).
    + rewrite H3. simpl. lia.
    + by eapply keepsFields_trans.
    + intros j. rewrite H5, Hhas, elem_of_cons. tauto.
    + intros j r Hr. by apply H6, Hget.
Qed.

(** One path step: the keys it adds, the entries it keeps, and the file
    node it registers. *)
Lemma pathStep_effect data reg path :
  keepsFields (heap reg) (heap (pathStep data reg path))
  /\ (forall j, JsMap.has (nodesMap (pathStep data reg path)) j = true
                <-> JsMap.has (nodesMap reg) j = true \/ j ∈ dirIds path ++ [path])
  /\ (forall j r, j <> path -> JsMap.get (nodesMap reg) j = Some r ->
                  JsMap.get (nodesMap (pathStep data reg path)) j = Some r)
  /\ fileRegistered data (pathStep data reg path) path.
Proof.
  unfold pathStep, dirIds, Js.pop. cbn [fst snd].
  set (parts := removelast (Js.splitChar "/" path)).
  destruct (dirSteps_effect parts reg (mkDirCursor "" None 0))
    as (H1 & H2 & H3 & H4 & H5 & H6).
  destruct (fold_left dirStep parts _) as [reg1 cur] eqn:E. simpl in *.
  set (node := GraphNode.mk path _ FILE (parentId cur) (Some []) _ _).
  set (h2 := if Js.truthyO (parentId cur) then _ else _).
  assert (Hk2 : keepsFields (heap reg1 ++ [node]) h2).
  { unfold h2. destruct (Js.truthyO _); [|apply keepsFields_refl].
    destruct (JsMap.get _ _); [apply keepsFields_pushChild|apply keepsFields_refl]. }
  split_and!.
  - eapply keepsFields_trans; [exact H4|].
    eapply keepsFields_trans; [apply (keepsFields_alloc (heap reg1) node)|exact Hk2].
  - intros j. rewrite has_set, H5, elem_of_app, list_elem_of_singleton. tauto.
  - intros j r Hne Hr. rewrite get_set_ne by done. by apply H6.
  - destruct (Hk2 (length (heap reg1)) node) as (n' & Hn' & Hs).
    { by apply list_lookup_middle. }
    apply sameFields_fields in Hs as (Hi & Hl & Ht & Hp & Hlo & Hd).
    exists (length (heap reg1)), n'.
    split_and!; [apply get_set_eq|exact Hn'|done|done|done| | |done].
    + rewrite Hp. simpl. rewrite H2. by destruct (last _).
    + rewrite Hd. simpl. by rewrite H3.
Qed.

Lemma fileRegistered_later data reg reg' path :
  keepsFields (heap reg) (heap reg') ->
  (forall r, JsMap.get (nodesMap reg) path = Some r ->
             JsMap.get (nodesMap reg') path = Some r) ->
  fileRegistered data reg path -> fileRegistered data reg' path.
Proof.
  intros Hk Hget (r & n & Hr & Hn & Hi & Ht & Hl & Hp & Hd & Hlo).
  destruct (Hk r n Hn) as (n' & Hn' & Hs).
  apply sameFields_fields in Hs as (Hi' & Hl' & Ht' & Hp' & Hlo' & Hd').
  exists r, n'. split_and!; [auto|done|congruence..].
Qed.

Lemma pathSteps_fileRegistered data paths : forall reg path,
  path ∈ paths \/ fileRegistered data reg path ->
  fileRegistered data (fold_left (pathStep data) paths reg) path.
Proof.
  induction paths as [|q paths IH]; intros reg path Hin; cbn [fold_left].
  - destruct Hin as [Hin|Hreg]; [by apply elem_of_nil in Hin|done].
  - apply IH. destruct (pathStep_effect data reg q) as (Hk & _ & Hget & Hq).
    destruct (decide (path = q)) as [->|Hne]; [by right|].
    destruct Hin as [Hin|Hreg].
    + apply elem_of_cons in Hin as [?|Hin]; [done|by left].
    + right. eapply fileRegistered_later; [exact Hk| |exact Hreg].
      intros r. by apply Hget.
Qed.

(** X9.  Every listed path is registered by [buildDirectories] as a file
    node: its label is the last segment of the path, its parent the
    directory of the path (none for a path without a slash), its depth the
    number of directory segments, and its size the reported number of
    lines of the path, or 10 when none (or zero) is reported. *)
Theorem listed_files_are_registered (data : MetricData) (path : string) :
  path ∈ filePathsOf data ->
  fileRegistered data (buildDirectories data emptyRegistry []).1 path.
Proof.
  intros Hin. unfold buildDirectories. simpl.
  apply pathSteps_fileRegistered. by left.
Qed.

Lemma listed_files_are_registered_witness :
  exists r n,
    JsMap.get (nodesMap (buildDirectories Examples.scenario1 emptyRegistry []).1)
              "a/b/x.ts" = Some r
    /\ heap (buildDirectories Examples.scenario1 emptyRegistry []).1 !! r = Some n
    /\ GraphNode.id n = "a/b/x.ts"
    /\ GraphNode.type n = FILE
    /\ GraphNode.label n = "x.ts"
    /\ GraphNode.parentId n = Some "a/b"
    /\ GraphNode.depth n = Some 2
    /\ GraphNode.loc n = Some 10%Z.
Proof.
  exact (listed_files_are_registered Examples.scenario1 "a/b/x.ts"
           ltac:(apply list_elem_of_here)).
Defined.

(** The keys after a run of path steps. *)
Lemma pathSteps_keys (data : MetricData) (j : string) (paths : list string) :
  forall reg,
    JsMap.has (nodesMap (fold_left (pathStep data) paths reg)) j = true
    <-> JsMap.has (nodesMap reg) j = true \/ j ∈ allIds paths.
Proof.
  induction paths as [|q paths IH]; intros reg; cbn [fold_left].
  - split; [by left|]. intros [?|?%elem_of_nil]; done.
  - rewrite IH. destruct (pathStep_effect data reg q) as (_ & Hhas & _).
    rewrite Hhas. unfold allIds. cbn [flat_map]. rewrite !elem_of_app. tauto.
Qed.

Lemma buildDirectories_keys (data : MetricData) (j : string) :
  JsMap.has (nodesMap (buildDirectories data emptyRegistry []).1) j = true
  <-> j ∈ allIds (filePathsOf data).
Proof.
  unfold buildDirectories. cbn [fst]. rewrite pathSteps_keys.
  split; [intros [?|?]; done|by right].
Qed.

(** X10.  The keys [buildDirectories] registers are exactly the listed
    paths and the cumulative directory prefixes of the listed paths. *)
Theorem directory_keys_are_paths_and_prefixes (data : MetricData) (j : string) :
  JsMap.has (nodesMap (buildDirectories data emptyRegistry []).1) j = true
  <-> j ∈ allIds (filePathsOf data).
Proof.
  unfold buildDirectories. cbn [fst].
  split.
  - intros [Hempty|Hin]%pathSteps_keys; [done|exact Hin].
  - intros Hin. apply pathSteps_keys. by right.
Qed.

(** X11.  [buildDirectories] emits an import edge exactly for the entries
    of the dependency graph whose source and target are both registered,
    that is, listed paths or directory prefixes of listed paths; the edge
    has value 1, type [DEPENDENCY] and no direction.  Imports of unknown
    files are dropped. *)
Theorem import_edges_join_registered_ids (data : MetricData) (l : GraphLink.t) :
  l ∈ (buildDirectories data emptyRegistry []).2
  <-> exists src imports tgt,
        (src, imports) ∈ dependencies data /\ tgt ∈ imports
        /\ src ∈ allIds (filePathsOf data) /\ tgt ∈ allIds (filePathsOf data)
        /\ l = GraphLink.mk src tgt 1%Z DEPENDENCY None.
Proof.
  pose proof (buildDirectories_keys data) as Hkeys.
  unfold buildDirectories in *. cbn [fst snd] in *.
  rewrite app_nil_l. unfold importLinks.
  rewrite list_elem_of_In, in_flat_map. split.
  - intros ([src imports] & Hin & Hl).
    destruct (JsMap.has _ src) eqn:Hsrc; [|done].
    apply in_flat_map in Hl as (tgt & Htgt & Hl).
    destruct (JsMap.has _ tgt) eqn:Ht; [|done].
    destruct Hl as [<-|[]].
    exists src, imports, tgt.
    split_and!; [by apply list_elem_of_In|by apply list_elem_of_In
                |by apply Hkeys|by apply Hkeys|done].
  - intros (src & imports & tgt & Hin & Htgt & Hs & Ht & ->).
    exists (src, imports). split; [by apply list_elem_of_In|].
    apply Hkeys in Hs. apply Hkeys in Ht. rewrite Hs.
    apply in_flat_map. exists tgt. split; [by apply list_elem_of_In|].
    rewrite Ht. by left.
Qed.


(** ** The registry stays consistent *)

Lemma pushChildOpt_length h p c : length (pushChildOpt h p c) = length h.
Proof.
  unfold pushChildOpt. destruct (h !! p) as [n|]; [|done].
  destruct (GraphNode.children n); [apply length_insert|done].
Qed.

Lemma keepsFields_back h h' r n' :
  keepsFields h h' -> length h' = length h -> h' !! r = Some n' ->
  exists n, h !! r = Some n /\ sameFields n n'.
Proof.
  intros Hk Hlen Hr.
  destruct (lookup_lt_is_Some_2 h r) as [n Hn].
  { rewrite <- Hlen. by eapply lookup_lt_Some. }
  destruct (Hk r n Hn) as (n'' & Hn'' & Hs).
  exists n. split; [done|]. congruence.
Qed.

Lemma consistent_empty : consistent emptyRegistry.
Proof. split; simpl; [apply NoDup_nil_2|done..]. Qed.

(** A new object registered under its id. *)
Lemma consistent_add reg n :
  consistent reg ->
  (forall p, GraphNode.parentId n = Some p ->
             JsMap.has (nodesMap reg) p = true \/ p = GraphNode.id n) ->
  (GraphNode.type n = CLASS ->
   exists file, GraphNode.parentId n = Some file
                /\ GraphNode.id n = file +:+ "::" +:+ GraphNode.label n) ->
  consistent (mkRegistry (heap reg ++ [n])
                (JsMap.set (nodesMap reg) (GraphNode.id n) (length (heap reg)))).
Proof.
  intros [Hkeys Hentry Hid Hparent Hclass] Hp Hcl. split; simpl.
  - by apply NoDup_keys_set.
  - intros k r. destruct (decide (GraphNode.id n = k)) as [<-|Hne].
    + rewrite get_set_eq. intros [= <-]. exists n. split; [|by left].
      by apply list_lookup_middle.
    + rewrite get_set_ne by done. intros Hr.
      destruct (Hentry k r Hr) as (n0 & Hn0 & Hk). exists n0. split; [|done].
      by apply lookup_app_l_Some.
  - intros r n' [Hr|[_ Hr]]%lookup_app_Some.
    + apply has_set_grows. by eapply Hid.
    + apply list_lookup_singleton_Some in Hr as [_ <-]. apply has_set_eq.
  - intros r n' p [Hr|[_ Hr]]%lookup_app_Some Hpp.
    + apply has_set_grows. by eapply Hparent.
    + apply list_lookup_singleton_Some in Hr as [_ <-].
      destruct (Hp p Hpp) as [?| ->]; [by apply has_set_grows|apply has_set_eq].
  - intros r n' [Hr|[_ Hr]]%lookup_app_Some Hty.
    + by eapply Hclass.
    + apply list_lookup_singleton_Some in Hr as [_ <-]. auto.
Qed.

(** A change of [children] arrays. *)
Lemma consistent_mutate reg h' :
  consistent reg -> keepsFields (heap reg) h' -> length h' = length (heap reg) ->
  consistent (mkRegistry h' (nodesMap reg)).
Proof.
  intros [Hkeys Hentry Hid Hparent Hclass] Hk Hlen. split; simpl.
  - done.
  - intros k r Hr. destruct (Hentry k r Hr) as (n & Hn & Hkn).
    destruct (Hk r n Hn) as (n' & Hn' & Hs).
    apply sameFields_fields in Hs as (Hi & _).
    exists n'. split; [done|]. by rewrite Hi.
  - intros r n' Hr.
    destruct (keepsFields_back _ _ _ _ Hk Hlen Hr) as (n & Hn & Hs).
    apply sameFields_fields in Hs as (-> & _). by eapply Hid.
  - intros r n' p Hr Hp.
    destruct (keepsFields_back _ _ _ _ Hk Hlen Hr) as (n & Hn & Hs).
    apply sameFields_fields in Hs as (_ & _ & _ & Hpp & _).
    rewrite Hpp in Hp. by eapply Hparent.
  - intros r n' Hr Hty.
    destruct (keepsFields_back _ _ _ _ Hk Hlen Hr) as (n & Hn & Hs).
    apply sameFields_fields in Hs as (-> & -> & Ht & -> & _).
    rewrite Ht in Hty. by eapply Hclass.
Qed.

(** The alias key of a constructor. *)
Lemma consistent_alias reg classId r n :
  consistent reg -> heap reg !! r = Some n ->
  GraphNode.id n = classId +:+ "::_constructor" ->
  consistent (mkRegistry (heap reg) (JsMap.set (nodesMap reg) (classId +:+ "::constructor") r)).
Proof.
  intros [Hkeys Hentry Hid Hparent Hclass] Hn Hi. split; simpl.
  - by apply NoDup_keys_set.
  - intros k r'. destruct (decide (classId +:+ "::constructor" = k)) as [<-|Hne].
    + rewrite get_set_eq. intros [= <-]. exists n. split; [done|]. right. eauto.
    + rewrite get_set_ne by done. apply Hentry.
  - intros r' n' Hr. apply has_set_grows. by eapply Hid.
  - intros r' n' p Hr Hp. apply has_set_grows. by eapply Hparent.
  - done.
Qed.

Lemma dirStep_consistent reg cur part :
  consistent reg ->
  (forall p, parentId cur = Some p -> JsMap.has (nodesMap reg) p = true) ->
  consistent (dirStep (reg, cur) part).1
  /\ (forall p, parentId (dirStep (reg, cur) part).2 = Some p ->
                JsMap.has (nodesMap (dirStep (reg, cur) part).1) p = true).
Proof.
  intros Hc Hcur.
  destruct (dirStep_effect reg cur part) as (Hcur' & _ & Hhas & _).
  split.
  - unfold dirStep. cbn [fst].
    set (i := if Js.truthy (currentPath cur)
              then currentPath cur +:+ "/" +:+ part else part).
    destruct (JsMap.has (nodesMap reg) i) eqn:Hi; [done|]. simpl.
    set (node := GraphNode.mk i part DIRECTORY (parentId cur) (Some []) None
                              (Some (depth cur))).
    pose proof (consistent_add reg node Hc
                  (fun p Hp => or_introl (Hcur p Hp))
                  ltac:(intros [=])) as Hadd.
    set (h2 := if Js.truthyO (parentId cur) then _ else _).
    apply (consistent_mutate _ h2) in Hadd; [exact Hadd|..]; simpl; unfold h2.
    + destruct (Js.truthyO _); [|apply keepsFields_refl].
      destruct (JsMap.get _ _); [|apply keepsFields_refl].
      destruct (_ !! _) eqn:Hp; [|apply keepsFields_refl].
      destruct (hasChildWithId _ _ _);
        [by apply keepsFields_insert|apply keepsFields_pushChild].
    + destruct (Js.truthyO _); [|done].
      destruct (JsMap.get _ _); [|done].
      destruct (_ !! _) eqn:Hp; [|done].
      destruct (hasChildWithId _ _ _);
        [apply length_insert|apply pushChild_length].
  - rewrite Hcur'. simpl. intros p [= <-]. apply Hhas. by right.
Qed.

Lemma dirSteps_consistent parts : forall reg cur,
  consistent reg ->
  (forall p, parentId cur = Some p -> JsMap.has (nodesMap reg) p = true) ->
  consistent (fold_left dirStep parts (reg, cur)).1
  /\ (forall p, parentId (fold_left dirStep parts (reg, cur)).2 = Some p ->
                JsMap.has (nodesMap (fold_left dirStep parts (reg, cur)).1) p = true).
Proof.
  induction parts as [|part parts IH]; intros reg cur Hc Hcur; cbn [fold_left];
    [done|].
  destruct (dirStep_consistent reg cur part Hc Hcur) as [Hc1 Hcur1].
  destruct (dirStep (reg, cur) part) as [reg1 cur1]. by apply IH.
Qed.

Lemma pathStep_consistent data reg path :
  consistent reg -> consistent (pathStep data reg path).
Proof.
  intros Hc. unfold pathStep. destruct (Js.pop _) as [parts fileName].
  destruct (dirSteps_consistent parts reg (mkDirCursor "" None 0) Hc)
    as [Hc1 Hcur1]; [done|].
  destruct (fold_left dirStep parts _) as [reg1 cur]. simpl in *.
  set (node := GraphNode.mk path _ FILE (parentId cur) (Some []) _ _).
  pose proof (consistent_add reg1 node Hc1 (fun p Hp => or_introl (Hcur1 p Hp))
                ltac:(intros [=])) as Hadd.
  set (h2 := if Js.truthyO (parentId cur) then _ else _).
  apply (consistent_mutate _ h2) in Hadd; [exact Hadd|..]; simpl; unfold h2.
  - destruct (Js.truthyO _); [|apply keepsFields_refl].
    destruct (JsMap.get _ _); [apply keepsFields_pushChild|apply keepsFields_refl].
  - destruct (Js.truthyO _); [|done].
    destruct (JsMap.get _ _); [apply pushChild_length|done].
Qed.

Lemma methodStep_consistent classId rc cd reg method :
  consistent reg -> JsMap.has (nodesMap reg) classId = true ->
  consistent (methodStep classId rc cd reg method).
Proof.
  intros Hc Hclass. unfold methodStep. cbn [alloc].
  set (methodName := Js.orElse (keyName method) "unknown").
  set (node := GraphNode.mk _ _ FUNCTION (Some classId) None _ _).
  pose proof (consistent_add reg node Hc) as Hadd.
  specialize (Hadd ltac:(by intros p [= <-]; left) ltac:(intros [=])).
  assert (Halias : consistent
            (mkRegistry (heap reg ++ [node])
               (if String.eqb methodName "constructor"
                then JsMap.set (JsMap.set (nodesMap reg) (GraphNode.id node)
                                          (length (heap reg)))
                               (classId +:+ "::constructor") (length (heap reg))
                else JsMap.set (nodesMap reg) (GraphNode.id node) (length (heap reg))))).
  { destruct (String.eqb methodName "constructor") eqn:E; [|exact Hadd].
    apply (consistent_alias _ classId (length (heap reg)) node) in Hadd;
      [exact Hadd|by apply list_lookup_middle|].
    simpl. unfold normalizeMethodName. fold methodName. by rewrite E. }
  apply (consistent_mutate _ (pushChildOpt (heap reg ++ [node]) rc (length (heap reg))))
    in Halias; [exact Halias|apply keepsFields_pushChildOpt|apply pushChildOpt_length].
Qed.

Lemma classStep_consistent file rf fd st entry :
  consistent st.1 -> JsMap.has (nodesMap st.1) file = true ->
  consistent (classStep file rf fd st entry).1.
Proof.
  destruct st as [reg c2f], entry as [className details]. simpl.
  intros Hc Hfile. unfold classStep. cbn [alloc fst].
  set (classId := file +:+ "::" +:+ className).
  set (node := GraphNode.mk classId className CLASS (Some file) (Some []) _ _).
  pose proof (consistent_add reg node Hc) as Hadd.
  specialize (Hadd ltac:(intros p Hp; injection Hp as Hp; left; by rewrite <- Hp)
                   ltac:(intros _; by exists file)).
  apply (consistent_mutate _ (pushChildOpt (heap reg ++ [node]) rf (length (heap reg))))
    in Hadd; [|apply keepsFields_pushChildOpt|apply pushChildOpt_length].
  destruct details as [|ms]; [exact Hadd|].
  set (reg1 := mkRegistry _ _) in *.
  assert (Hhas : JsMap.has (nodesMap reg1) classId = true) by apply has_set_eq.
  clearbody reg1. revert reg1 Hadd Hhas.
  induction ms as [|x ms IH]; intros reg1 Hadd Hhas; cbn [fold_left]; [done|].
  apply IH; [by apply methodStep_consistent|].
  by apply (methodStep_grows classId (length (heap reg)) (childDepth fd) reg1 x).
Qed.

Lemma classFileStep_consistent st entry :
  consistent st.1 -> consistent (classFileStep st entry).1.
Proof.
  destruct entry as [file clsMap]. intros Hc. unfold classFileStep.
  destruct (JsMap.get (nodesMap st.1) file) as [rf|] eqn:Hrf; [|done].
  assert (Hhas : JsMap.has (nodesMap st.1) file = true) by (apply has_get; eauto).
  generalize (match heap st.1 !! rf with
              | Some n => GraphNode.depth n
              | None => None
              end) as fd. intros fd.
  clear Hrf. revert st Hc Hhas.
  induction clsMap as [|x clsMap IH]; intros st Hc Hhas; cbn [fold_left]; [done|].
  apply IH; [by apply classStep_consistent|].
  by apply (classStep_grows file rf fd st x).
Qed.

Lemma funcStep_consistent file rf st funcName :
  consistent st.1 -> JsMap.has (nodesMap st.1) file = true ->
  consistent (funcStep file rf st funcName).1.
Proof.
  destruct st as [reg f2f]. simpl. intros Hc Hfile. unfold funcStep.
  destruct (JsMap.has (nodesMap reg) (file +:+ "::" +:+ funcName)) eqn:Hhas;
    [exact Hc|]. cbn [alloc fst].
  set (parentClass := findParentClass (heap reg) rf funcName).
  set (pnode := match parentClass with
                | Some rc => heap reg !! rc
                | None => None
                end).
  set (node := GraphNode.mk _ _ FUNCTION _ None _ _).
  pose proof (consistent_add reg node Hc) as Hadd.
  assert (Hp : forall p, GraphNode.parentId node = Some p ->
                         JsMap.has (nodesMap reg) p = true \/ p = GraphNode.id node).
  { intros p [= <-]. left. unfold pnode.
    destruct parentClass as [rc|]; [|done].
    destruct (heap reg !! rc) as [n|] eqn:Hn; [|done].
    by eapply (consistent_id _ Hc). }
  specialize (Hadd Hp ltac:(intros [=])).
  destruct parentClass as [rc|].
  - apply (consistent_mutate _ (pushChild (heap reg ++ [node]) rc (length (heap reg))))
      in Hadd; [exact Hadd|apply keepsFields_pushChild|apply pushChild_length].
  - apply (consistent_mutate _ (pushChild (heap reg ++ [node]) rf (length (heap reg))))
      in Hadd; [exact Hadd|apply keepsFields_pushChild|apply pushChild_length].
Qed.

Lemma funcFileStep_consistent st entry :
  consistent st.1 -> consistent (funcFileStep st entry).1.
Proof.
  destruct entry as [file funcMap]. intros Hc. unfold funcFileStep.
  destruct (JsMap.get (nodesMap st.1) file) as [rf|] eqn:Hrf; [|done].
  assert (Hhas : JsMap.has (nodesMap st.1) file = true) by (apply has_get; eauto).
  clear Hrf. revert st Hc Hhas.
  induction funcMap as [|x funcMap IH]; intros st Hc Hhas; cbn [fold_left]; [done|].
  apply IH; [by apply funcStep_consistent|].
  by apply (funcStep_grows file rf st x).
Qed.

Lemma registryOf_consistent data : consistent (registryOf data).
Proof.
  unfold registryOf, buildFunctionToFileMap, buildClassToFileMap, buildDirectories.
  cbn [fst].
  apply (fold_left_preorder (fun a b => consistent a.1 -> consistent b.1)
           funcFileStep (funcs data)); [auto|auto| |].
  { intros s x _. apply funcFileStep_consistent. }
  apply (fold_left_preorder (fun a b => consistent a.1 -> consistent b.1)
           classFileStep (classes data)); [auto|auto| |].
  { intros s x _. apply classFileStep_consistent. }
  apply (fold_left_preorder (fun a b => consistent a -> consistent b)
           (pathStep data) (filePathsOf data)); [auto|auto| |].
  { intros s x _. apply pathStep_consistent. }
  apply consistent_empty.
Qed.

Lemma values_elem {V} (m : JsMap.t V) (v : V) :
  NoDup (JsMap.keys m) ->
  v ∈ JsMap.values m <-> exists k, JsMap.get m k = Some v.
Proof.
  intros Hnd. split.
  - intros ([k v'] & -> & Hin)%list_elem_of_fmap. exists k. by apply in_NoDup_get.
  - intros [k Hk]. apply get_Some_in in Hk.
    by apply (list_elem_of_fmap_2 snd) in Hk.
Qed.

(** X12.  In the graph [buildGraph] returns, every listed node exists, and
    every node with a [parentId] has its parent among the listed nodes:
    some listed node carries that id (or, when the id is a constructor
    alias [C::constructor], the id [C::_constructor]). *)
Theorem buildGraph_lists_every_parent (data : MetricData) (r : ref) :
  r ∈ nodes (buildGraph data) ->
  exists n,
    store (buildGraph data) !! r = Some n
    /\ forall p, GraphNode.parentId n = Some p ->
         exists r' n',
           r' ∈ nodes (buildGraph data)
           /\ store (buildGraph data) !! r' = Some n'
           /\ (GraphNode.id n' = p
               \/ exists classId, p = classId +:+ "::constructor"
                                  /\ GraphNode.id n' = classId +:+ "::_constructor").
Proof.
  destruct (buildGraph_registry data) as [-> ->].
  pose proof (registryOf_consistent data) as [Hkeys Hentry Hid Hparent _].
  intros Hr. apply values_elem in Hr as [k Hk]; [|done].
  destruct (Hentry k r Hk) as (n & Hn & _).
  exists n. split; [done|]. intros p Hp.
  pose proof (Hparent r n p Hn Hp) as Hhas.
  apply has_get in Hhas as [r' Hr'].
  destruct (Hentry p r' Hr') as (n' & Hn' & Hpn).
  exists r', n'. split_and!; [|done..].
  apply values_elem; [done|]. by exists p.
Qed.

(** The method [bar] of scenario 2 and its class. *)
Lemma buildGraph_lists_every_parent_witness :
  exists n,
    store (buildGraph Examples.scenario2) !! 3 = Some n
    /\ forall p, GraphNode.parentId n = Some p ->
         exists r' n',
           r' ∈ nodes (buildGraph Examples.scenario2)
           /\ store (buildGraph Examples.scenario2) !! r' = Some n'
           /\ (GraphNode.id n' = p
               \/ exists classId, p = classId +:+ "::constructor"
                                  /\ GraphNode.id n' = classId +:+ "::_constructor").
Proof.
  apply (buildGraph_lists_every_parent Examples.scenario2 3).
  apply list_elem_of_In. vm_compute. auto 10.
Defined.


(** ** The link maps as sums of contributions *)

Lemma promoteMethodLink_reports h m cl entry :
  promoteMethodLink h m cl entry =
  Reports.applyReports (Promotion.ofMethodLink h m entry) cl.
Proof.
  destruct entry as [key ld]. unfold promoteMethodLink, Promotion.ofMethodLink.
  cbn [fst snd]. destruct (Js.splitArrowPair key) as [s t].
  destruct (node h m s) as [sm|]; [|done].
  destruct (node h m t) as [tm|]; [|done].
  by destruct (_ && _).
Qed.

Lemma promoteFunctionLink_reports h m cl entry :
  promoteFunctionLink h m cl entry =
  Reports.applyReports (Promotion.ofFunctionLink h m entry) cl.
Proof.
  destruct entry as [key ld]. unfold promoteFunctionLink, Promotion.ofFunctionLink.
  cbn [fst snd]. destruct (Js.splitArrowPair key) as [s t].
  destruct (node h m s) as [sm|]; [|done].
  destruct (node h m t) as [tm|]; [|done].
  by destruct (_ && _).
Qed.

Lemma classFanStep_reports m c2f out src cl entry :
  classFanStep m c2f out src cl entry =
  Reports.applyReports (Promotion.ofClassFan m c2f out src entry) cl.
Proof.
  destruct entry as [cn ms]. unfold classFanStep, Promotion.ofClassFan. cbn [fst snd].
  destruct (findClassFile m c2f cn) as [f|]; [|done].
  destruct (Js.truthy f); simpl; [|done].
  destruct (JsMap.has m _); simpl; [|done].
  destruct (String.eqb src _); simpl; [done|].
  by destruct out.
Qed.

Lemma directClassStep_reports m c2f file cl entry :
  directClassStep m c2f file cl entry =
  Reports.applyReports (Promotion.ofClassEntry m c2f file entry) cl.
Proof.
  destruct entry as [cn [|ms]]; unfold directClassStep, Promotion.ofClassEntry;
    cbn [fst snd]; [done|].
  destruct (JsMap.has m _); simpl; [|done].
  apply fold_left_reports. intros cl' method.
  rewrite applyReports_app.
  set (src := file +:+ "::" +:+ cn).
  rewrite (fold_left_reports (classFanStep m c2f true src)
             (Promotion.ofClassFan m c2f true src))
    by (intros; apply classFanStep_reports).
  by rewrite (fold_left_reports (classFanStep m c2f false src)
                (Promotion.ofClassFan m c2f false src))
    by (intros; apply classFanStep_reports).
Qed.

Lemma classLinksOf_reports h m c2f ml fl data cl :
  classLinksOf h m c2f ml fl data cl =
  Reports.applyReports (Promotion.classReports h m c2f ml fl data) cl.
Proof.
  unfold classLinksOf, Promotion.classReports, Promotion.directReports.
  rewrite !applyReports_app.
  rewrite (fold_left_reports (promoteMethodLink h m) (Promotion.ofMethodLink h m))
    by (intros; apply promoteMethodLink_reports).
  rewrite (fold_left_reports (promoteFunctionLink h m) (Promotion.ofFunctionLink h m))
    by (intros; apply promoteFunctionLink_reports).
  apply fold_left_reports. intros cl' [file clsMap]. cbn [fst snd].
  apply fold_left_reports. intros. apply directClassStep_reports.
Qed.

Lemma promoteClassLink_reports h m fl entry :
  promoteClassLink h m fl entry =
  Reports.applyReports (Promotion.ofClassLink h m entry) fl.
Proof.
  destruct entry as [key ld]. unfold promoteClassLink, Promotion.ofClassLink.
  cbn [fst snd]. destruct (Js.splitArrowPair key) as [s t].
  destruct (node h m s) as [sm|]; [|done].
  destruct (node h m t) as [tm|]; [|done].
  destruct (bool_decide (GraphNode.type sm = CLASS)); [|done].
  destruct (bool_decide (GraphNode.type tm = CLASS)); [|done].
  by destruct (negb _).
Qed.

Lemma promoteStandaloneLink_reports h m fl entry :
  promoteStandaloneLink h m fl entry =
  Reports.applyReports (Promotion.ofStandaloneLink h m entry) fl.
Proof.
  destruct entry as [key ld]. unfold promoteStandaloneLink, Promotion.ofStandaloneLink.
  cbn [fst snd]. destruct (Js.splitArrowPair key) as [s t].
  destruct (node h m s) as [sm|]; [|done].
  destruct (node h m t) as [tm|]; [|done].
  destruct (bool_decide (_ = Some FILE)); [|done].
  destruct (bool_decide (_ = Some FILE)); [|done].
  by destruct (negb _).
Qed.

Lemma fileLinksOf_reports h m cl fl :
  fileLinksOf h m cl fl =
  Reports.applyReports (Promotion.fileReports h m cl fl) [].
Proof.
  unfold fileLinksOf, Promotion.fileReports. rewrite applyReports_app.
  rewrite (fold_left_reports (promoteClassLink h m) (Promotion.ofClassLink h m))
    by (intros; apply promoteClassLink_reports).
  by rewrite (fold_left_reports (promoteStandaloneLink h m)
                (Promotion.ofStandaloneLink h m))
    by (intros; apply promoteStandaloneLink_reports).
Qed.

Lemma countsFor_app k rs1 rs2 :
  Reports.countsFor k (rs1 ++ rs2) = Reports.countsFor k rs1 ++ Reports.countsFor k rs2.
Proof. unfold Reports.countsFor. by rewrite List.filter_app, List.map_app. Qed.

Lemma total_app ns1 ns2 :
  Reports.total (ns1 ++ ns2) = (Reports.total ns1 + Reports.total ns2)%Z.
Proof.
  unfold Reports.total. induction ns1 as [|n ns1 IH]; simpl; [done|]. rewrite IH. lia.
Qed.

Lemma count_applyReports_nil rs k :
  count <$> JsMap.get (Reports.applyReports rs []) k =
  if bool_decide (Reports.countsFor k rs = []) then None
  else Some (Reports.total (Reports.countsFor k rs)).
Proof.
  rewrite count_applyReports. simpl.
  destruct (Reports.countsFor k rs) as [|n ns]; [done|].
  rewrite bool_decide_eq_false_2 by done. done.
Qed.

(** The links emitted from a replay of reports: one per reported key, with
    the sum of the counts reported for the key. *)
Lemma emitLinks_elem ty rs l :
  l ∈ emitLinks ty (Reports.applyReports rs []) <->
  exists k ld,
    JsMap.get (Reports.applyReports rs []) k = Some ld
    /\ Reports.countsFor k rs <> []
    /\ count ld = Reports.total (Reports.countsFor k rs)
    /\ l = GraphLink.mk (Js.splitArrowPair k).1 (Js.splitArrowPair k).2
                        (count ld) ty (Some (dir ld)).
Proof.
  set (ml := Reports.applyReports rs []).
  assert (Hnd : NoDup (JsMap.keys ml)) by (apply NoDup_keys_applyReports, NoDup_nil_2).
  assert (Hcount : forall k ld, JsMap.get ml k = Some ld ->
             Reports.countsFor k rs <> []
             /\ count ld = Reports.total (Reports.countsFor k rs)).
  { intros k ld Hget. pose proof (count_applyReports rs [] k) as Hc.
    fold ml in Hc. rewrite Hget in Hc. simpl in Hc.
    destruct (Reports.countsFor k rs) as [|n ns]; [done|].
    injection Hc as Hc. split; [done|]. rewrite Hc. simpl. lia. }
  unfold emitLinks. split.
  - intros ([k ld] & -> & Hin)%list_elem_of_fmap.
    apply in_NoDup_get in Hin; [|done].
    destruct (Hcount k ld Hin) as [Hne Hc].
    exists k, ld. split_and!; [done..|]. by destruct (Js.splitArrowPair k).
  - intros (k & ld & Hget & _ & _ & ->).
    apply get_Some_in in Hget. apply list_elem_of_fmap.
    exists (k, ld). split; [|done]. by destruct (Js.splitArrowPair k).
Qed.

Lemma app_nil3 {A} (l1 l2 l3 : list A) :
  l1 ++ l2 ++ l3 = [] <-> l1 = [] /\ l2 = [] /\ l3 = [].
Proof.
  split.
  - intros [-> [-> ->]%app_eq_nil]%app_eq_nil. done.
  - by intros (-> & -> & ->).
Qed.

Lemma app_nil2 {A} (l1 l2 : list A) : l1 ++ l2 = [] <-> l1 = [] /\ l2 = [].
Proof.
  split; [apply app_eq_nil|]. by intros (-> & ->).
Qed.

(** X13.  The value under a key of the class-level link map is the sum of
    what the three loops of [buildClassLevelCoupling] contribute to the
    key: the counts of the method-level links between members of the two
    classes, the counts of the function-level links between members of the
    two classes, and the totals of the class-coupling metric itself; a key
    without a contribution is absent, and one [COUPLING] link is emitted
    per key. *)
Theorem class_link_value_is_sum_of_contributions
    (methodLinks functionLinks : JsMap.t LinkData) (reg : Registry)
    (data : MetricData) (classToFilesMap : JsMap.t (list string))
    (links : list GraphLink.t) :
  let promotedMethods :=
    flat_map (Promotion.ofMethodLink (heap reg) (nodesMap reg)) methodLinks in
  let promotedFunctions :=
    flat_map (Promotion.ofFunctionLink (heap reg) (nodesMap reg)) functionLinks in
  let direct := Promotion.directReports (nodesMap reg) classToFilesMap data in
  let out := buildClassLevelCoupling methodLinks reg [] functionLinks data
                                     classToFilesMap links in
  (forall k,
     count <$> JsMap.get out.1 k =
     if bool_decide (Reports.countsFor k promotedMethods = []
                     /\ Reports.countsFor k promotedFunctions = []
                     /\ Reports.countsFor k direct = [])
     then None
     else Some (Reports.total (Reports.countsFor k promotedMethods)
                + Reports.total (Reports.countsFor k promotedFunctions)
                + Reports.total (Reports.countsFor k direct))%Z)
  /\ NoDup (JsMap.keys out.1)
  /\ out.2 = links ++ map (fun e => GraphLink.mk (Js.splitArrowPair e.1).1
                                                 (Js.splitArrowPair e.1).2
                                                 (count e.2) COUPLING (Some (dir e.2)))
                          out.1.
Proof.
  intros pm pf direct out. unfold out, buildClassLevelCoupling. cbn [fst snd].
  rewrite classLinksOf_reports. unfold Promotion.classReports.
  fold pm pf direct. split_and!.
  - intros k. rewrite count_applyReports_nil, !countsFor_app, !total_app.
    rewrite (bool_decide_ext _ _ (app_nil3 _ _ _)).
    case_bool_decide; [done|]. f_equal. lia.
  - apply NoDup_keys_applyReports, NoDup_nil_2.
  - f_equal. unfold emitLinks. apply map_ext. intros [k ld]. cbn [fst snd].
    by destruct (Js.splitArrowPair k).
Qed.

(** X14.  The value under a key of the file-level link map is the sum of
    the counts of the class-level links between classes of the two files
    and of the function-level links between standalone functions of the
    two files; one [DEPENDENCY] link is emitted per key. *)
Theorem file_link_value_is_sum_of_contributions
    (classLinks functionLinks : JsMap.t LinkData) (reg : Registry)
    (links : list GraphLink.t) :
  let promotedClasses :=
    flat_map (Promotion.ofClassLink (heap reg) (nodesMap reg)) classLinks in
  let promotedFunctions :=
    flat_map (Promotion.ofStandaloneLink (heap reg) (nodesMap reg)) functionLinks in
  let fileLinks := fileLinksOf (heap reg) (nodesMap reg) classLinks functionLinks in
  (forall k,
     count <$> JsMap.get fileLinks k =
     if bool_decide (Reports.countsFor k promotedClasses = []
                     /\ Reports.countsFor k promotedFunctions = [])
     then None
     else Some (Reports.total (Reports.countsFor k promotedClasses)
                + Reports.total (Reports.countsFor k promotedFunctions))%Z)
  /\ NoDup (JsMap.keys fileLinks)
  /\ buildFileLevelCoupling classLinks reg functionLinks links
     = links ++ map (fun e => GraphLink.mk (Js.splitArrowPair e.1).1
                                           (Js.splitArrowPair e.1).2
                                           (count e.2) DEPENDENCY (Some (dir e.2)))
                    fileLinks.
Proof.
  intros pc pf fileLinks. unfold fileLinks, buildFileLevelCoupling.
  rewrite fileLinksOf_reports. unfold Promotion.fileReports.
  fold pc pf. split_and!.
  - intros k. rewrite count_applyReports_nil, !countsFor_app, !total_app.
    rewrite (bool_decide_ext _ _ (app_nil2 _ _)).
    by case_bool_decide.
  - apply NoDup_keys_applyReports, NoDup_nil_2.
  - f_equal. unfold emitLinks. apply map_ext. intros [k ld]. cbn [fst snd].
    by destruct (Js.splitArrowPair k).
Qed.


(** ** Every link joins two registered ids *)

Lemma ofMethodFan_distinct m c2f out src entry r :
  JsMap.has m src = true ->
  r ∈ Reports.ofMethodFan m c2f out src entry -> Promotion.joinsDistinct m r.
Proof.
  intros Hsrc. destruct entry as [cn ms]. unfold Reports.ofMethodFan.
  destruct (findClassFile m c2f cn) as [f|]; [|by intros ?%elem_of_nil].
  destruct (Js.truthy f && JsMap.has m _); [|by intros ?%elem_of_nil].
  intros ([mn cnt] & _ & Hr)%in_flat_map_inv.
  destruct (JsMap.has m ((f +:+ "::" +:+ cn) +:+ "::" +:+ normalizeMethodName mn))
    eqn:Ho; simpl in Hr; [|by apply elem_of_nil in Hr].
  destruct (String.eqb src _) eqn:E; simpl in Hr; [by apply elem_of_nil in Hr|].
  apply string_eqb_false in E.
  apply list_elem_of_singleton in Hr as ->.
  destruct out; eexists _, _; simpl; split_and!; done.
Qed.

Lemma methodReports_distinct m c2f data r :
  r ∈ Reports.methodReports m c2f data -> Promotion.joinsDistinct m r.
Proof.
  intros ([file clsMap] & _ & Hr)%in_flat_map_inv. simpl in Hr.
  apply in_flat_map_inv in Hr as ([cn details] & _ & Hr).
  unfold Reports.ofClass in Hr. simpl in Hr.
  destruct details as [|ms]; [by apply elem_of_nil in Hr|].
  destruct (JsMap.has m _); [|by apply elem_of_nil in Hr].
  apply in_flat_map_inv in Hr as (method & _ & Hr).
  unfold Reports.ofMethod in Hr.
  destruct (JsMap.has m _) eqn:Hsrc; [|by apply elem_of_nil in Hr].
  apply elem_of_app in Hr as [Hr|Hr];
    apply in_flat_map_inv in Hr as (entry & _ & Hr);
    by eapply ofMethodFan_distinct.
Qed.

Lemma functionReports_distinct m f2f fnCoupling r :
  r ∈ Reports.functionReports m f2f fnCoupling -> Promotion.joinsDistinct m r.
Proof.
  intros ([file fnMap] & _ & Hr)%in_flat_map_inv. simpl in Hr.
  apply in_flat_map_inv in Hr as ([fn details] & _ & Hr).
  unfold Reports.ofFunc in Hr. simpl in Hr.
  destruct (JsMap.has m _) eqn:Hsrc; [|by apply elem_of_nil in Hr].
  assert (Hfan : forall out entry,
             r ∈ Reports.ofFuncFan m f2f out (file +:+ "::" +:+ fn) entry ->
             Promotion.joinsDistinct m r).
  { intros out [on cnt]. unfold Reports.ofFuncFan.
    destruct (JsMap.get f2f on) as [f|]; [|by intros ?%elem_of_nil].
    destruct (Js.truthy f); simpl; [|by intros ?%elem_of_nil].
    destruct (JsMap.has m (f +:+ "::" +:+ on)) eqn:Ho; simpl;
      [|by intros ?%elem_of_nil].
    destruct (String.eqb _ _) eqn:E; simpl; [by intros ?%elem_of_nil|].
    apply string_eqb_false in E.
    intros ->%list_elem_of_singleton.
    destruct out; eexists _, _; simpl; split_and!; done. }
  apply elem_of_app in Hr as [Hr|Hr];
    apply in_flat_map_inv in Hr as (entry & _ & Hr); by eapply Hfan.
Qed.

(** The links emitted from reports that join different registered ids,
    none of which contains ['->']. *)
Lemma emitLinks_distinct (m : JsMap.t ref) ty rs l :
  (forall k, JsMap.has m k = true -> Js.splitArrow k = [k]) ->
  (forall r, r ∈ rs -> Promotion.joinsDistinct m r) ->
  l ∈ emitLinks ty (Reports.applyReports rs []) ->
  GraphLink.type l = ty
  /\ JsMap.has m (GraphLink.source l) = true
  /\ JsMap.has m (GraphLink.target l) = true
  /\ GraphLink.source l <> GraphLink.target l
  /\ Reports.countsFor (linkKey (GraphLink.source l) (GraphLink.target l)) rs <> []
  /\ GraphLink.value l
     = Reports.total (Reports.countsFor (linkKey (GraphLink.source l) (GraphLink.target l)) rs)
  /\ GraphLink.direction l <> None.
Proof.
  intros Harrow Hjoin (k & ld & Hget & Hne & Hcount & ->)%emitLinks_elem.
  destruct (countsFor_nonempty_in k rs Hne) as (r & Hr & <-).
  destruct (Hjoin r Hr) as (s & t & Hkey & Hs & Ht & Hst).
  rewrite Hkey in *. rewrite splitArrowPair_linkKey by auto. simpl.
  split_and!; done.
Qed.

(** X15.  Every [CALL] edge of the method-level pass, and likewise of the
    function-level pass, joins two different registered nodes and carries
    the sum of the counts reported for its pair, provided no registered id
    contains ['->']: a call is never drawn to an unknown node or from a
    node to itself. *)
Theorem call_edges_join_distinct_registered_nodes
    (data : MetricData) (m : JsMap.t ref)
    (classToFilesMap : JsMap.t (list string)) (functionToFileMap : JsMap.t string)
    (l : GraphLink.t) :
  (forall k, JsMap.has m k = true -> Js.splitArrow k = [k]) ->
  l ∈ (buildMethodLevelCoupling data m classToFilesMap [] []).2
      ++ (buildFunctionLevelCoupling (funcCoupling data) m functionToFileMap [] []).2 ->
  GraphLink.type l = CALL
  /\ JsMap.has m (GraphLink.source l) = true
  /\ JsMap.has m (GraphLink.target l) = true
  /\ GraphLink.source l <> GraphLink.target l
  /\ exists reports,
       (reports = Reports.methodReports m classToFilesMap data
        \/ reports = Reports.functionReports m functionToFileMap (funcCoupling data))
       /\ Reports.countsFor (linkKey (GraphLink.source l) (GraphLink.target l)) reports
          <> []
       /\ GraphLink.value l
          = Reports.total
              (Reports.countsFor (linkKey (GraphLink.source l) (GraphLink.target l))
                 reports).
Proof.
  intros Harrow [Hl|Hl]%elem_of_app.
  - unfold buildMethodLevelCoupling in Hl. cbn [snd] in Hl.
    rewrite app_nil_l, methodLinksOf_reports in Hl.
    apply (emitLinks_distinct m) in Hl as (Hty & Hs & Ht & Hne & Hc & Hv & _);
      [|done|apply methodReports_distinct].
    split_and!; [done..|]. eexists. split; [by left|]. by split.
  - unfold buildFunctionLevelCoupling in Hl. cbn [snd] in Hl.
    rewrite app_nil_l, functionLinksOf_reports in Hl.
    apply (emitLinks_distinct m) in Hl as (Hty & Hs & Ht & Hne & Hc & Hv & _);
      [|done|apply functionReports_distinct].
    split_and!; [done..|]. eexists. split; [by right|]. by split.
Qed.

Lemma scenario2_arrow_free (k : string) :
  JsMap.has (nodesMap (registryOf Examples.scenario2)) k = true ->
  Js.splitArrow k = [k].
Proof.
  intros Hk. apply has_true_in in Hk.
  change (k ∈ ["f1"; "f2"; "f1::Foo"; "f1::Foo::bar"; "f2::Baz"; "f2::Baz::qux"])
    in Hk.
  repeat (apply elem_of_cons in Hk as [->|Hk]; [reflexivity|]).
  by apply elem_of_nil in Hk.
Qed.

(** The call edge of scenario 2. *)
Lemma call_edges_join_distinct_registered_nodes_witness :
  let l := GraphLink.mk "f1::Foo::bar" "f2::Baz::qux" 3%Z CALL (Some FanOut) in
  l ∈ (buildMethodLevelCoupling Examples.scenario2
         (nodesMap (registryOf Examples.scenario2))
         (classIndexOf Examples.scenario2) [] []).2
      ++ (buildFunctionLevelCoupling (funcCoupling Examples.scenario2)
            (nodesMap (registryOf Examples.scenario2))
            (functionIndexOf Examples.scenario2) [] []).2
  /\ JsMap.has (nodesMap (registryOf Examples.scenario2)) (GraphLink.source l) = true
  /\ GraphLink.source l <> GraphLink.target l.
Proof.
  intros l.
  assert (Hl : l ∈ (buildMethodLevelCoupling Examples.scenario2
                      (nodesMap (registryOf Examples.scenario2))
                      (classIndexOf Examples.scenario2) [] []).2
                   ++ (buildFunctionLevelCoupling (funcCoupling Examples.scenario2)
                         (nodesMap (registryOf Examples.scenario2))
                         (functionIndexOf Examples.scenario2) [] []).2).
  { apply list_elem_of_In. vm_compute. auto. }
  split; [exact Hl|].
  destruct (call_edges_join_distinct_registered_nodes Examples.scenario2 _ _ _ l
              scenario2_arrow_free Hl) as (_ & Hs & _ & Hne & _).
  by split.
Defined.

(** The contributions to the class-level and file-level maps join
    different registered ids, in a consistent registry. *)
Lemma node_parent_registered reg i n p :
  consistent reg -> node (heap reg) (nodesMap reg) i = Some n ->
  GraphNode.parentId n = Some p -> JsMap.has (nodesMap reg) p = true.
Proof.
  intros Hc Hn Hp. unfold node in Hn.
  destruct (JsMap.get (nodesMap reg) i) as [r|]; [|done].
  by eapply (consistent_parent _ Hc).
Qed.

Lemma bind_node_has reg (o : option string) n :
  o ≫= node (heap reg) (nodesMap reg) = Some n ->
  exists p, o = Some p /\ JsMap.has (nodesMap reg) p = true.
Proof.
  destruct o as [p|]; [|done]. simpl. unfold node. intros Hn.
  exists p. split; [done|]. apply has_get.
  destruct (JsMap.get (nodesMap reg) p); [eauto|done].
Qed.

Lemma classReports_distinct reg c2f ml fl data r :
  consistent reg ->
  r ∈ Promotion.classReports (heap reg) (nodesMap reg) c2f ml fl data ->
  Promotion.joinsDistinct (nodesMap reg) r.
Proof.
  intros Hc. unfold Promotion.classReports.
  intros [Hr|[Hr|Hr]%elem_of_app]%elem_of_app.
  - apply in_flat_map_inv in Hr as ([key ld] & _ & Hr).
    unfold Promotion.ofMethodLink in Hr. cbn [fst snd] in Hr.
    destruct (Js.splitArrowPair key) as [s t].
    destruct (node _ _ s) as [sm|] eqn:Hsm; [|by apply elem_of_nil in Hr].
    destruct (node _ _ t) as [tm|] eqn:Htm; [|by apply elem_of_nil in Hr].
    destruct (_ && _) eqn:E; [|by apply elem_of_nil in Hr].
    apply andb_true_iff in E as [E E3]. apply andb_true_iff in E as [E1 E2].
    apply negb_true_iff, bool_decide_eq_false in E3.
    destruct (GraphNode.parentId sm) as [a|] eqn:Ha; [|done].
    destruct (GraphNode.parentId tm) as [b|] eqn:Hb; [|done].
    apply list_elem_of_singleton in Hr as ->.
    exists a, b. simpl. split_and!; [done| | |congruence].
    + exact (node_parent_registered reg s sm a Hc Hsm Ha).
    + exact (node_parent_registered reg t tm b Hc Htm Hb).
  - apply in_flat_map_inv in Hr as ([key ld] & _ & Hr).
    unfold Promotion.ofFunctionLink in Hr. cbn [fst snd] in Hr.
    destruct (Js.splitArrowPair key) as [s t].
    destruct (node _ _ s) as [sm|] eqn:Hsm; [|by apply elem_of_nil in Hr].
    destruct (node _ _ t) as [tm|] eqn:Htm; [|by apply elem_of_nil in Hr].
    destruct (_ && _) eqn:E; [|by apply elem_of_nil in Hr].
    apply andb_true_iff in E as [E E3]. apply andb_true_iff in E as [E1 E2].
    apply bool_decide_eq_true in E1, E2.
    apply negb_true_iff, bool_decide_eq_false in E3.
    destruct (GraphNode.parentId sm ≫= node (heap reg) (nodesMap reg)) as [sc|] eqn:Hsc;
      [|done].
    destruct (GraphNode.parentId tm ≫= node (heap reg) (nodesMap reg)) as [tc|] eqn:Htc;
      [|done].
    apply bind_node_has in Hsc as (a & Ha & Hha).
    apply bind_node_has in Htc as (b & Hb & Hhb).
    apply list_elem_of_singleton in Hr as ->.
    exists a, b. rewrite Ha, Hb in *. simpl. split_and!; [done..|congruence].
  - unfold Promotion.directReports in Hr.
    apply in_flat_map_inv in Hr as ([file clsMap] & _ & Hr). cbn [fst snd] in Hr.
    apply in_flat_map_inv in Hr as ([cn details] & _ & Hr).
    unfold Promotion.ofClassEntry in Hr. cbn [fst snd] in Hr.
    destruct details as [|ms]; [by apply elem_of_nil in Hr|].
    destruct (JsMap.has (nodesMap reg) (file +:+ "::" +:+ cn)) eqn:Hsrc;
      [|by apply elem_of_nil in Hr].
    apply in_flat_map_inv in Hr as (method & _ & Hr).
    assert (Hfan : forall out entry,
               r ∈ Promotion.ofClassFan (nodesMap reg) c2f out (file +:+ "::" +:+ cn) entry ->
               Promotion.joinsDistinct (nodesMap reg) r).
    { intros out [on tms]. unfold Promotion.ofClassFan. cbn [fst snd].
      destruct (findClassFile _ c2f on) as [f|]; [|by intros ?%elem_of_nil].
      destruct (Js.truthy f); simpl; [|by intros ?%elem_of_nil].
      destruct (JsMap.has (nodesMap reg) (f +:+ "::" +:+ on)) eqn:Ho; simpl;
        [|by intros ?%elem_of_nil].
      destruct (String.eqb _ _) eqn:E; simpl; [by intros ?%elem_of_nil|].
      apply string_eqb_false in E.
      intros ->%list_elem_of_singleton.
      destruct out; eexists _, _; simpl; split_and!; done. }
    apply elem_of_app in Hr as [Hr|Hr];
      apply in_flat_map_inv in Hr as (entry & _ & Hr); by eapply Hfan.
Qed.

Lemma node_class_parent reg i n :
  consistent reg -> node (heap reg) (nodesMap reg) i = Some n ->
  GraphNode.type n = CLASS ->
  exists file, GraphNode.parentId n = Some file
               /\ JsMap.has (nodesMap reg) file = true.
Proof.
  intros Hc Hn Hty. unfold node in Hn.
  destruct (JsMap.get (nodesMap reg) i) as [r|]; [|done].
  destruct (consistent_class _ Hc r n Hn Hty) as (file & Hp & _).
  exists file. split; [done|]. by eapply (consistent_parent _ Hc).
Qed.

Lemma fileReports_distinct reg cl fl r :
  consistent reg ->
  r ∈ Promotion.fileReports (heap reg) (nodesMap reg) cl fl ->
  Promotion.joinsDistinct (nodesMap reg) r.
Proof.
  intros Hc. unfold Promotion.fileReports.
  intros [Hr|Hr]%elem_of_app.
  - apply in_flat_map_inv in Hr as ([key ld] & _ & Hr).
    unfold Promotion.ofClassLink in Hr. cbn [fst snd] in Hr.
    destruct (Js.splitArrowPair key) as [s t].
    destruct (node _ _ s) as [sm|] eqn:Hsm; [|by apply elem_of_nil in Hr].
    destruct (node _ _ t) as [tm|] eqn:Htm; [|by apply elem_of_nil in Hr].
    destruct (_ && _) eqn:E; [|by apply elem_of_nil in Hr].
    apply andb_true_iff in E as [E E3]. apply andb_true_iff in E as [E1 E2].
    apply bool_decide_eq_true in E1, E2.
    apply negb_true_iff, bool_decide_eq_false in E3.
    destruct (node_class_parent reg s sm Hc Hsm E1) as (a & Ha & Hha).
    destruct (node_class_parent reg t tm Hc Htm E2) as (b & Hb & Hhb).
    apply list_elem_of_singleton in Hr as ->.
    exists a, b. rewrite Ha, Hb in *. simpl. split_and!; [done..|congruence].
  - apply in_flat_map_inv in Hr as ([key ld] & _ & Hr).
    unfold Promotion.ofStandaloneLink in Hr. cbn [fst snd] in Hr.
    destruct (Js.splitArrowPair key) as [s t].
    destruct (node _ _ s) as [sm|] eqn:Hsm; [|by apply elem_of_nil in Hr].
    destruct (node _ _ t) as [tm|] eqn:Htm; [|by apply elem_of_nil in Hr].
    destruct (_ && _) eqn:E; [|by apply elem_of_nil in Hr].
    apply andb_true_iff in E as [E E3]. apply andb_true_iff in E as [E1 E2].
    apply bool_decide_eq_true in E1, E2.
    apply negb_true_iff, bool_decide_eq_false in E3.
    destruct (GraphNode.parentId sm ≫= node (heap reg) (nodesMap reg)) as [sc|] eqn:Hsc;
      [|done].
    destruct (GraphNode.parentId tm ≫= node (heap reg) (nodesMap reg)) as [tc|] eqn:Htc;
      [|done].
    apply bind_node_has in Hsc as (a & Ha & Hha).
    apply bind_node_has in Htc as (b & Hb & Hhb).
    apply list_elem_of_singleton in Hr as ->.
    exists a, b. rewrite Ha, Hb in *. simpl. split_and!; [done..|congruence].
Qed.

(** The links of [buildGraph], pass by pass. *)
Lemma buildGraph_links data :
  let reg := registryOf data in
  let ml := methodLinksOf (nodesMap reg) (classIndexOf data) data [] in
  let fl := functionLinksOf (nodesMap reg) (functionIndexOf data) (funcCoupling data) [] in
  let cl := classLinksOf (heap reg) (nodesMap reg) (classIndexOf data) ml fl data [] in
  links (buildGraph data)
  = (buildDirectories data emptyRegistry []).2
    ++ emitLinks CALL ml ++ emitLinks CALL fl ++ emitLinks COUPLING cl
    ++ emitLinks DEPENDENCY (fileLinksOf (heap reg) (nodesMap reg) cl fl).
Proof.
  unfold buildGraph, registryOf, classIndexOf, functionIndexOf.
  destruct (buildDirectories data emptyRegistry []) as [reg1 links1]. cbn [fst snd].
  destruct (buildClassToFileMap data reg1) as [reg2 c2f]. cbn [fst snd].
  destruct (buildFunctionToFileMap data reg2) as [reg3 f2f]. cbn [fst snd].
  unfold buildMethodLevelCoupling, buildFunctionLevelCoupling,
    buildClassLevelCoupling, buildFileLevelCoupling. cbn [links].
  by rewrite <- !app_assoc.
Qed.

Lemma registryOf_grows data :
  grows (buildDirectories data emptyRegistry []).1 (registryOf data).
Proof.
  unfold registryOf.
  eapply grows_trans; [|apply buildFunctionToFileMap_grows].
  unfold buildClassToFileMap.
  apply (fold_left_preorder (fun a b => grows a.1 b.1) classFileStep (classes data)
           (fun s => grows_refl s.1) (fun a b c => grows_trans a.1 b.1 c.1)
           (fun s x _ => classFileStep_grows s x)
           ((buildDirectories data emptyRegistry []).1, [])).
Qed.

(** X16.  Provided no registered id contains ['->'], every link of the
    graph [buildGraph] returns joins two registered ids, and every link
    other than an import edge joins two different ids: the call, coupling
    and coupling-derived dependency edges are never self-loops and never
    dangle. *)
Theorem buildGraph_links_join_registered_ids (data : MetricData) (l : GraphLink.t) :
  (forall k, JsMap.has (nodesMap (registryOf data)) k = true -> Js.splitArrow k = [k]) ->
  l ∈ links (buildGraph data) ->
  JsMap.has (nodesMap (registryOf data)) (GraphLink.source l) = true
  /\ JsMap.has (nodesMap (registryOf data)) (GraphLink.target l) = true
  /\ (GraphLink.source l <> GraphLink.target l
      \/ l ∈ (buildDirectories data emptyRegistry []).2).
Proof.
  intros Harrow. rewrite buildGraph_links. cbn zeta.
  pose proof (registryOf_consistent data) as Hc.
  set (reg := registryOf data) in *.
  rewrite methodLinksOf_reports, functionLinksOf_reports, classLinksOf_reports,
    fileLinksOf_reports.
  intros [Hl|[Hl|[Hl|[Hl|Hl]%elem_of_app]%elem_of_app]%elem_of_app]%elem_of_app.
  - destruct (registryOf_grows data) as [_ Hgrow]. fold reg in Hgrow.
    assert (Himp : JsMap.has (nodesMap (buildDirectories data emptyRegistry []).1)
                             (GraphLink.source l) = true
                   /\ JsMap.has (nodesMap (buildDirectories data emptyRegistry []).1)
                                (GraphLink.target l) = true).
    { unfold buildDirectories in *. cbn [fst snd] in *.
      rewrite app_nil_l in Hl. unfold importLinks in Hl.
      apply in_flat_map_inv in Hl as ([src imports] & _ & Hl).
      destruct (JsMap.has _ src) eqn:Hsrc; [|by apply elem_of_nil in Hl].
      apply in_flat_map_inv in Hl as (tgt & _ & Hl).
      destruct (JsMap.has _ tgt) eqn:Ht; [|by apply elem_of_nil in Hl].
      apply list_elem_of_singleton in Hl as ->. by split. }
    destruct Himp as [Hs Ht]. split_and!; [by apply Hgrow|by apply Hgrow|by right].
  - apply (emitLinks_distinct (nodesMap reg)) in Hl as (_ & Hs & Ht & Hne & _);
      [|done|apply methodReports_distinct]. split_and!; [done..|by left].
  - apply (emitLinks_distinct (nodesMap reg)) in Hl as (_ & Hs & Ht & Hne & _);
      [|done|apply functionReports_distinct]. split_and!; [done..|by left].
  - apply (emitLinks_distinct (nodesMap reg)) in Hl as (_ & Hs & Ht & Hne & _);
      [|done|intros r; by apply classReports_distinct].
    split_and!; [done..|by left].
  - apply (emitLinks_distinct (nodesMap reg)) in Hl as (_ & Hs & Ht & Hne & _);
      [|done|intros r; by apply fileReports_distinct].
    split_and!; [done..|by left].
Qed.

(** The file-level edge of scenario 2. *)
Lemma buildGraph_links_join_registered_ids_witness :
  let l := GraphLink.mk "f1" "f2" 6%Z DEPENDENCY (Some FanOut) in
  l ∈ links (buildGraph Examples.scenario2)
  /\ JsMap.has (nodesMap (registryOf Examples.scenario2)) (GraphLink.source l) = true
  /\ JsMap.has (nodesMap (registryOf Examples.scenario2)) (GraphLink.target l) = true
  /\ (GraphLink.source l <> GraphLink.target l
      \/ l ∈ (buildDirectories Examples.scenario2 emptyRegistry []).2).
Proof.
  intros l.
  assert (Hl : l ∈ links (buildGraph Examples.scenario2)).
  { apply list_elem_of_In. vm_compute. auto. }
  split; [exact Hl|].
  exact (buildGraph_links_join_registered_ids Examples.scenario2 l
           scenario2_arrow_free Hl).
Defined.


(** ** The function pass creates no duplicate *)

Lemma created_app reg_heap n i :
  length (List.filter (fun n => String.eqb (GraphNode.id n) i) (reg_heap ++ [n]))
  = length (List.filter (fun n => String.eqb (GraphNode.id n) i) reg_heap)
    + (if String.eqb (GraphNode.id n) i then 1 else 0).
Proof.
  rewrite List.filter_app, length_app. simpl.
  by destruct (String.eqb (GraphNode.id n) i).
Qed.

Lemma created_insert (h : list GraphNode.t) p pn cs i :
  h !! p = Some pn ->
  length (List.filter (fun n => String.eqb (GraphNode.id n) i)
                      (<[p := GraphNode.withChildren pn cs]> h))
  = length (List.filter (fun n => String.eqb (GraphNode.id n) i) h).
Proof.
  revert p. induction h as [|x h IH]; intros [|p] Hp; try done.
  - simpl in Hp. injection Hp as ->. simpl. by destruct (String.eqb _ i).
  - simpl in Hp. simpl. destruct (String.eqb (GraphNode.id x) i); simpl; auto.
Qed.

Lemma created_pushChild h p c i :
  length (List.filter (fun n => String.eqb (GraphNode.id n) i) (pushChild h p c))
  = length (List.filter (fun n => String.eqb (GraphNode.id n) i) h).
Proof.
  unfold pushChild. destruct (h !! p) as [pn|] eqn:Hp; [|done].
  by apply created_insert.
Qed.

(** The number of nodes a step adds under the id [i]. *)
Lemma funcStep_created file rf st funcName i :
  created (funcStep file rf st funcName).1 i
  = created st.1 i
    + (if JsMap.has (nodesMap st.1) i then 0
       else if JsMap.has (nodesMap (funcStep file rf st funcName).1) i then 1 else 0).
Proof.
  destruct st as [reg f2f]. unfold funcStep. cbn [fst].
  destruct (JsMap.has (nodesMap reg) (file +:+ "::" +:+ funcName)) eqn:Hhas;
    cbn [fst].
  - destruct (JsMap.has (nodesMap reg) i); lia.
  - unfold created.
    assert (Hh : JsMap.has (JsMap.set (nodesMap reg) (file +:+ "::" +:+ funcName)
                                      (length (heap reg))) i
                 = if String.eqb (file +:+ "::" +:+ funcName) i then true
                   else JsMap.has (nodesMap reg) i).
    { destruct (String.eqb (file +:+ "::" +:+ funcName) i) eqn:E.
      - apply string_eqb_true in E as <-. apply has_set_eq.
      - apply string_eqb_false in E. by apply has_set_ne. }
    destruct (findParentClass (heap reg) rf funcName) as [rc|];
      cbn [alloc heap nodesMap fst snd];
      rewrite created_pushChild, created_app, Hh; cbn [GraphNode.id];
      (destruct (String.eqb (file +:+ "::" +:+ funcName) i) eqn:E;
       [apply string_eqb_true in E as <-; by rewrite Hhas
       |by destruct (JsMap.has (nodesMap reg) i)]).
Qed.

Lemma created_compose (a b c : Registry) (i : string) :
  (JsMap.has (nodesMap a) i = true -> JsMap.has (nodesMap b) i = true) ->
  (JsMap.has (nodesMap b) i = true -> JsMap.has (nodesMap c) i = true) ->
  created b i = created a i
                + (if JsMap.has (nodesMap a) i then 0
                   else if JsMap.has (nodesMap b) i then 1 else 0) ->
  created c i = created b i
                + (if JsMap.has (nodesMap b) i then 0
                   else if JsMap.has (nodesMap c) i then 1 else 0) ->
  created c i = created a i
                + (if JsMap.has (nodesMap a) i then 0
                   else if JsMap.has (nodesMap c) i then 1 else 0).
Proof.
  intros Hab Hbc H1 H2.
  destruct (JsMap.has (nodesMap a) i) eqn:Ha.
  - rewrite (Hab eq_refl) in *. lia.
  - destruct (JsMap.has (nodesMap b) i) eqn:Hb.
    + rewrite (Hbc eq_refl) in *. lia.
    + lia.
Qed.

(** X17.  From any registry, the function pass creates exactly one node
    for every id it registers and none for an id that is registered already
    (by a directory, a file, a class, a method or an earlier function of
    that name). *)
Theorem function_pass_creates_one_node_per_new_id
    (data : MetricData) (before : Registry) (i : string) :
  created (buildFunctionToFileMap data before).1 i
  = created before i
    + (if JsMap.has (nodesMap before) i then 0
       else if JsMap.has (nodesMap (buildFunctionToFileMap data before).1) i
            then 1 else 0).
Proof.
  unfold buildFunctionToFileMap.
  set (R := fun a b : Registry * JsMap.t string =>
              grows a.1 b.1
              /\ created b.1 i
                 = created a.1 i
                   + (if JsMap.has (nodesMap a.1) i then 0
                      else if JsMap.has (nodesMap b.1) i then 1 else 0)).
  assert (Hrefl : forall s, R s s).
  { intros s. split; [apply grows_refl|]. destruct (JsMap.has _ i); lia. }
  assert (Htrans : forall a b c, R a b -> R b c -> R a c).
  { intros a b c [G1 C1] [G2 C2]. split; [by eapply grows_trans|].
    apply (created_compose a.1 b.1 c.1); [apply G1|apply G2|done..]. }
  assert (Hstep : forall file rf s x, R s (funcStep file rf s x)).
  { intros file rf s x. split; [apply funcStep_grows|apply funcStep_created]. }
  assert (Hfile : forall s x, R s (funcFileStep s x)).
  { intros s [file funcMap]. unfold funcFileStep.
    destruct (JsMap.get _ file) as [rf|]; [|apply Hrefl].
    apply (fold_left_preorder R _ funcMap Hrefl Htrans).
    intros s' x _. apply Hstep. }
  destruct (fold_left_preorder R funcFileStep (funcs data) Hrefl Htrans
              (fun s x _ => Hfile s x) (before, [])) as [_ Hc].
  exact Hc.
Qed.

(** ** The class index *)

Lemma get_addClassFile_ne c2f className file cn :
  className <> cn ->
  JsMap.get (addClassFile c2f className file) cn = JsMap.get c2f cn.
Proof. intros. unfold addClassFile. by rewrite get_set_ne. Qed.

(** The files listed for [cn] after the class entries of one file. *)
Lemma classSteps_index file rf fd cn (cl : list (string * ClassDetails)) : forall st,
  let fs := default [] (JsMap.get st.2 cn) in
  let st' := fold_left (classStep file rf fd) cl st in
  default [] (JsMap.get st'.2 cn)
  = (if bool_decide (cn ∈ JsMap.keys cl)
     then if bool_decide (file ∈ fs) then fs else fs ++ [file]
     else fs)
  /\ (JsMap.get st.2 cn <> Some [] -> JsMap.get st'.2 cn <> Some []).
Proof.
  induction cl as [|[className details] cl IH]; intros st; cbn [fold_left].
  - split; [|done]. case_bool_decide as H; [by apply elem_of_nil in H|done].
  - cbn zeta in IH. destruct (IH (classStep file rf fd st (className, details)))
      as [IH1 IH2].
    rewrite IH1. clear IH1.
    assert (Hstep : (classStep file rf fd st (className, details)).2
                    = addClassFile st.2 className file).
    { destruct st as [reg c2f]. unfold classStep. cbn [alloc fst snd].
      by destruct details. }
    rewrite Hstep in *. clear Hstep.
    simpl JsMap.keys. split.
    + destruct (decide (className = cn)) as [->|Hne].
      * rewrite get_addClassFile.
        rewrite (bool_decide_eq_true_2 (cn ∈ cn :: _)) by apply list_elem_of_here.
        set (fs := default [] (JsMap.get st.2 cn)).
        cbn [default from_option id].
        destruct (bool_decide (file ∈ fs)) eqn:Hin.
        -- rewrite Hin. by destruct (bool_decide (cn ∈ JsMap.keys cl)).
        -- rewrite (bool_decide_eq_true_2 (file ∈ fs ++ [file]))
             by (apply elem_of_app; right; apply list_elem_of_here).
           by destruct (bool_decide (cn ∈ JsMap.keys cl)).
      * rewrite get_addClassFile_ne by done.
        destruct (bool_decide (cn ∈ JsMap.keys cl)) eqn:E.
        -- apply bool_decide_eq_true in E.
           rewrite (bool_decide_eq_true_2 (cn ∈ className :: _))
             by (by apply list_elem_of_further). done.
        -- apply bool_decide_eq_false in E.
           rewrite (bool_decide_eq_false_2 (cn ∈ className :: _)); [done|].
           intros [?|?]%elem_of_cons; done.
    + intros Hne. apply IH2.
      destruct (decide (className = cn)) as [->|Hne'].
      * rewrite get_addClassFile. cbn zeta.
        destruct (bool_decide (file ∈ default [] (JsMap.get st.2 cn))) eqn:E.
        -- apply bool_decide_eq_true in E.
           destruct (default [] (JsMap.get st.2 cn)); [by apply elem_of_nil in E|done].
        -- intros [= H]. by apply app_eq_nil in H as [_ ?].
      * by rewrite get_addClassFile_ne.
Qed.

Lemma classFileStep_index cn reg1 st processed entry :
  grows reg1 st.1 -> indexes cn reg1 processed st ->
  grows reg1 (classFileStep st entry).1
  /\ indexes cn reg1 (processed ++ [entry]) (classFileStep st entry).
Proof.
  intros Hg (Hnd & Hne & Hin & Hall). destruct entry as [file clsMap].
  pose proof (classFileStep_grows st (file, clsMap)) as Hg'.
  split; [by eapply grows_trans|].
  unfold classFileStep in *.
  destruct (JsMap.get (nodesMap st.1) file) as [rf|] eqn:Hrf.
  - set (fd := match heap st.1 !! rf with
               | Some n => GraphNode.depth n
               | None => None
               end) in *.
    destruct (classSteps_index file rf fd cn clsMap st) as [Hfs Hne'].
    set (st' := fold_left (classStep file rf fd) clsMap st) in *.
    assert (Hfile : JsMap.has (nodesMap st.1) file = true) by (apply has_get; eauto).
    unfold indexes. rewrite Hfs. split_and!.
    + case_bool_decide; [|done]. case_bool_decide; [done|].
      apply NoDup_app. split_and!; [done| |apply NoDup_singleton].
      intros x Hx ->%list_elem_of_singleton. done.
    + by apply Hne'.
    + intros f Hf.
      assert (Hcases : f ∈ default [] (JsMap.get st.2 cn)
                       \/ (f = file /\ cn ∈ JsMap.keys clsMap)).
      { case_bool_decide as Hcn; [|by left].
        case_bool_decide; [by left|].
        apply elem_of_app in Hf as [?| ->%list_elem_of_singleton]; [by left|by right]. }
      destruct Hcases as [Hold|[ -> Hcn]].
      * destruct (Hin f Hold) as (cm & Hcm & Hk & Hh).
        exists cm. split_and!; [apply elem_of_app; by left|done|by apply Hg'].
      * exists clsMap. split_and!; [|done|by apply Hg'].
        apply elem_of_app. right. apply list_elem_of_here.
    + intros f cm [Hcm|Hcm]%elem_of_app Hk Hh.
      * pose proof (Hall f cm Hcm Hk Hh) as Hold.
        case_bool_decide; [|done]. case_bool_decide; [done|].
        apply elem_of_app. by left.
      * apply list_elem_of_singleton in Hcm. injection Hcm as Hf1 Hf2. subst f cm.
        rewrite bool_decide_eq_true_2 by done.
        destruct (decide (file ∈ default [] (JsMap.get st.2 cn))) as [Hd|Hd].
        { by rewrite bool_decide_eq_true_2 by done. }
        rewrite bool_decide_eq_false_2 by done.
        apply elem_of_app. right. apply list_elem_of_here.
  - unfold indexes. split_and!; [done|done| |].
    + intros f Hf. destruct (Hin f Hf) as (cm & Hcm & Hk & Hh).
      exists cm. split_and!; [apply elem_of_app; by left|done..].
    + intros f cm [Hcm|Hcm]%elem_of_app Hk Hh; [by eapply Hall|].
      apply list_elem_of_singleton in Hcm. injection Hcm as Hf1 Hf2. subst f cm.
      destruct Hg as [_ Hg]. apply Hg, has_get in Hh as [r Hr]. congruence.
Qed.

Lemma classFileSteps_index cn reg1 l : forall st processed,
  grows reg1 st.1 -> indexes cn reg1 processed st ->
  grows reg1 (fold_left classFileStep l st).1
  /\ indexes cn reg1 (processed ++ l) (fold_left classFileStep l st).
Proof.
  induction l as [|entry l IH]; intros st processed Hg Hi; cbn [fold_left].
  - by rewrite app_nil_r.
  - destruct (classFileStep_index cn reg1 st processed entry Hg Hi) as [Hg' Hi'].
    destruct (IH _ _ Hg' Hi') as [Hg'' Hi''].
    split; [done|]. by rewrite <- app_assoc in Hi''.
Qed.

(** X18.  The class index lists, for every class name, files of the class
    metric that declare the class and are registered, each of them once;
    it lists every declaring file that [buildDirectories] registered; and
    it never holds an empty list. *)
Theorem class_index_lists_registered_declaring_files (data : MetricData) (cn : string) :
  let files := default [] (JsMap.get (classIndexOf data) cn) in
  NoDup files
  /\ JsMap.get (classIndexOf data) cn <> Some []
  /\ (forall f, f ∈ files ->
        exists clsMap, (f, clsMap) ∈ classes data /\ cn ∈ JsMap.keys clsMap
                       /\ JsMap.has (nodesMap (registryOf data)) f = true)
  /\ (forall f clsMap,
        (f, clsMap) ∈ classes data -> cn ∈ JsMap.keys clsMap ->
        f ∈ allIds (filePathsOf data) -> f ∈ files).
Proof.
  intros files. unfold files, classIndexOf, buildClassToFileMap.
  set (reg1 := (buildDirectories data emptyRegistry []).1).
  destruct (classFileSteps_index cn reg1 (classes data) (reg1, []) [])
    as [Hg (Hnd & Hne & Hin & Hall)].
  { apply grows_refl. }
  { unfold indexes. simpl. split_and!; [apply NoDup_nil_2|done| |].
    - intros f Hf. by apply elem_of_nil in Hf.
    - intros f cm Hcm. by apply elem_of_nil in Hcm. }
  rewrite app_nil_l in *. split_and!; [done|done| |].
  - intros f Hf. destruct (Hin f Hf) as (cm & Hcm & Hk & Hh).
    exists cm. split_and!; [done..|].
    unfold registryOf. fold reg1. unfold buildClassToFileMap.
    by apply (proj1 (buildFunctionToFileMap_grows data _)).
  - intros f cm Hcm Hk Hf. apply (Hall f cm Hcm Hk).
    by apply buildDirectories_keys.
Qed.


(** ** The visible edges, by pair *)

(** C3 (recompute visible edges), amended.  On a registry with finite
    parent chains, for raw edges with non-empty ends and nodes on screen
    whose ids give every pair a key of its own, [updateLinks] returns in
    either component, and whenever it returns: every visible edge joins the
    nearest visible ancestors of the two ends of a raw edge, which differ;
    every raw edge whose ends resolve to different visible nodes is
    represented by a visible edge between these two nodes, one per pair;
    and the value of a visible edge is 1 in the hierarchical graph
    component and the number of raw edges that resolve to its pair in the
    module-function graph component. *)
Theorem C3_visible_edges_merge_by_pair
    (g : Graph) (rank : string -> nat) (ns : list RenderNode.t) :
  ranked g rank ->
  (forall raw, raw ∈ allLinks g ->
     Js.truthy (GraphLink.source raw) = true
     /\ Js.truthy (GraphLink.target raw) = true) ->
  unambiguous (map RenderNode.id ns) = true ->
  (exists ls, runs (fun fuel => HierarchicalGraph.updateLinks g fuel ns) ls)
  /\ (forall fuel ls, HierarchicalGraph.updateLinks g fuel ns = Ok ls ->
        visibleEdgesSpec g ns (fun _ => 1%Z) ls)
  /\ (exists ls, runs (fun fuel => ModuleFunctionGraph.updateLinks g fuel ns) ls)
  /\ (forall fuel ls, ModuleFunctionGraph.updateLinks g fuel ns = Ok ls ->
        visibleEdgesSpec g ns
          (countOfPair (ModuleFunctionGraph.findVisible g ns fuel) (allLinks g)) ls
        /\ forall raw s t, raw ∈ allLinks g ->
             (resolvedBy (ModuleFunctionGraph.findVisible g ns fuel) raw = Some (s, t)
              <-> nearestVisible g ns (GraphLink.source raw) s
                  /\ nearestVisible g ns (GraphLink.target raw) t /\ s <> t)).
Proof.
  intros Hrank Hends Hkeys. split_and!.
  - destruct (updateLinks_total g rank ns [] Hrank) as [ls Hls].
    exists ls. by eexists.
  - intros fuel ls Hls.
    unfold HierarchicalGraph.updateLinks in Hls.
    destruct (fold_left _ _ _) as [final| |] eqn:Hfold; [|done..].
    simpl in Hls. injection Hls as <-.
    apply (fold_linkStep_Ok
             (find := fun i => HierarchicalGraph.findVisible g ns fuel (Some i))
             (linkStepH_Ok g ns fuel)) in Hfold
      as (a & [= <-] & -> & Hok).
    apply (mergedPairs_spec g ns _ false); try done.
    + intros i a _ H. by apply findVisibleH_sound in H as (? & [= <-] & ?).
    + intros i a r. apply findVisibleH_complete.
  - destruct (updateSimulationM_total g rank ns [] [] Hrank) as [ls Hls].
    exists ls, (enoughFuel rank g []).
    unfold ModuleFunctionGraph.updateSimulation in Hls.
    destruct (ModuleFunctionGraph.updateLinks g _ ns) as [ls'| |]; simpl in Hls;
      [|done..].
    by injection Hls as ->.
  - intros fuel ls Hls.
    unfold ModuleFunctionGraph.updateLinks in Hls.
    destruct (fold_left _ _ _) as [final| |] eqn:Hfold; [|done..].
    simpl in Hls. injection Hls as <-.
    apply (fold_linkStep_Ok (linkStepM_Ok g ns fuel)) in Hfold
      as (a & [= <-] & -> & Hok).
    split.
    + apply (mergedPairs_spec g ns _ true); try done.
      * intros i a. apply findVisibleM_sound.
      * intros i a r. apply findVisibleM_complete.
    + intros raw s t Hraw.
      apply (resolvedBy_nearest g ns (ModuleFunctionGraph.findVisible g ns fuel));
        try done.
      * intros i a. apply findVisibleM_sound.
      * intros i a r. apply findVisibleM_complete.
Qed.

Lemma functionCall_ranked :
  ranked (HierarchicalGraph.loadedGraph (buildGraph Examples.functionCall))
         String.length.
Proof.
  intros i n p Hn Hp Ht.
  apply loadedGraph_getNode in Hn as (<- & r & Hr & Hs).
  change (r ∈ [0; 1; 2; 3]) in Hr.
  repeat (apply elem_of_cons in Hr as [->|Hr];
          [vm_compute in Hs; injection Hs as <-; simpl in Hp;
           try discriminate; injection Hp as <-; simpl; lia|]).
  by apply elem_of_nil in Hr.
Qed.

(** The two files of [functionCall] on screen: the call edge and the file
    edge both resolve to the pair [(f1, f2)]. *)
Lemma C3_witness :
  let g := HierarchicalGraph.loadedGraph (buildGraph Examples.functionCall) in
  let ns := omap (createRenderNode (objects g)) [0; 1] in
  (exists ls, runs (fun fuel => HierarchicalGraph.updateLinks g fuel ns) ls
              /\ visibleEdgesSpec g ns (fun _ => 1%Z) ls)
  /\ (exists fuel ls,
        ModuleFunctionGraph.updateLinks g fuel ns = Ok ls
        /\ visibleEdgesSpec g ns
             (countOfPair (ModuleFunctionGraph.findVisible g ns fuel) (allLinks g))
             ls).
Proof.
  intros g ns.
  assert (Hends : forall raw, raw ∈ allLinks g ->
            Js.truthy (GraphLink.source raw) = true
            /\ Js.truthy (GraphLink.target raw) = true).
  { intros raw Hraw.
    change (raw ∈ [ GraphLink.mk "f1::foo" "f2::baz" 3%Z CALL (Some FanOut);
                    GraphLink.mk "f1" "f2" 3%Z DEPENDENCY (Some FanOut) ]) in Hraw.
    repeat (apply elem_of_cons in Hraw as [->|Hraw]; [by split|]).
    by apply elem_of_nil in Hraw. }
  assert (Hkeys : unambiguous (map RenderNode.id ns) = true) by reflexivity.
  destruct (C3_visible_edges_merge_by_pair g String.length ns
              functionCall_ranked Hends Hkeys)
    as ([lsH [fH HrunH]] & HspecH & [lsM [fM HrunM]] & HspecM).
  split.
  - exists lsH. split; [by exists fH|]. by apply (HspecH fH).
  - exists fM, lsM. split; [done|]. by apply HspecM.
Defined.


(** ** The views on coherent graph data *)

Lemma filter_all {A} (l : list A) : List.filter (fun _ => true) l = l.
Proof. induction l as [|x l IH]; simpl; by rewrite ?IH. Qed.

Section CoherentView.
Variable g : Graph.
Variable roots : list ref.
Variable keep : NodeType -> bool.
Hypothesis Hco : coherentOn g roots keep.

Local Abbreviation kept cs :=
  (List.filter (fun n => keep (RenderNode.type n))
               (omap (createRenderNode (objects g)) cs)).

(** The nodes drawn for the children of a registered node. *)
Lemma kept_child i n cs rn :
  getNode g i = Some n -> GraphNode.children n = Some cs ->
  rn ∈ kept cs ->
  RenderNode.parentId rn = Some i /\ Js.truthy i = true
  /\ GraphNode.parentId <$> getNode g (RenderNode.id rn) = Some (Some i).
Proof.
  intros Hn Hcs Hrn. destruct Hco as (_ & HB & _).
  apply list_elem_of_In, filter_In in Hrn as [Hrn Hk].
  apply list_elem_of_In, list_elem_of_omap in Hrn as (c & Hc & Hcr).
  destruct (HB i n cs c Hn Hcs Hc) as (Ht & cn & Hsc & Hkeep).
  destruct (createRenderNode_type _ _ _ Hcr) as (cn1 & Hc1 & Hty & _).
  apply createRenderNode_Some in Hcr as (cn' & Hsc' & Hid & Hpid).
  simplify_eq. rewrite Hty in Hk. destruct (Hkeep Hk) as [Hp Hregp].
  rewrite Hid, Hpid. done.
Qed.

Lemma children_truthy i n c cs :
  getNode g i = Some n -> GraphNode.children n = Some (c :: cs) ->
  Js.truthy i = true.
Proof.
  intros Hn Hcs. destruct Hco as (_ & HB & _).
  destruct (HB i n (c :: cs) c Hn Hcs) as [? _]; [apply list_elem_of_here|done].
Qed.

Lemma kept_descendant i n cs rn :
  getNode g i = Some n -> GraphNode.children n = Some cs ->
  rn ∈ kept cs -> descendantOf g i (RenderNode.id rn).
Proof.
  intros Hn Hcs Hrn.
  destruct (kept_child _ _ _ _ Hn Hcs Hrn) as (_ & Ht & Hp).
  eapply descendantOf_child; [done..|by left].
Qed.

(** The first view. *)
Lemma coherent_init v :
  (forall r n, r ∈ roots -> objects g !! r = Some n ->
     Js.truthyO (GraphNode.parentId n) = false) ->
  vnodes v = omap (createRenderNode (objects g)) roots ->
  expandedNodes v = [] ->
  viewInvariant g v.
Proof.
  intros Hfalsy Hn He. destruct Hco as (HA & _ & _).
  assert (Hroot : forall n, n ∈ vnodes v ->
            GraphNode.parentId <$> getNode g (RenderNode.id n)
            = Some (RenderNode.parentId n)
            /\ Js.truthyO (RenderNode.parentId n) = false).
  { intros n Hin. rewrite Hn in Hin.
    apply list_elem_of_omap in Hin as (r & Hr & Hcr).
    apply createRenderNode_Some in Hcr as (gn & Hs & Hid & Hpid).
    rewrite Hid, Hpid. split; [by apply (HA r gn)|by apply (Hfalsy r gn)]. }
  split_and!.
  - intros a b _ Hb Hd. unfold visibleIds in Hb.
    apply list_elem_of_fmap in Hb as (n & -> & Hin).
    destruct (Hroot n Hin) as [Hp Hf].
    apply descendantOf_has_parent in Hd as (p & Hp' & Ht).
    rewrite Hp in Hp'. injection Hp' as Hp'. rewrite Hp' in Hf. simpl in Hf.
    congruence.
  - intros n Hin. by apply Hroot.
  - rewrite He. by intros ? ?%elem_of_nil.
Qed.

(** A node on screen replaced by its children. *)
Lemma coherent_click v v' node n c cs :
  viewInvariant g v -> node ∈ vnodes v ->
  getNode g (RenderNode.id node) = Some n ->
  GraphNode.children n = Some (c :: cs) ->
  vnodes v' =
    List.filter (fun x => negb (String.eqb (RenderNode.id x) (RenderNode.id node)))
                (vnodes v)
    ++ kept (c :: cs) ->
  expandedNodes v' = setAdd (expandedNodes v) (RenderNode.id node) ->
  viewInvariant g v'.
Proof.
  intros (Hanti & Hmirror & Hexp) Hnode Horig Hcs Hn He.
  destruct Hco as (_ & _ & rank & Hrank).
  set (p := RenderNode.id node) in *.
  assert (Hp : p ∈ visibleIds v) by (by apply list_elem_of_fmap_2).
  assert (Hids : forall i, i ∈ visibleIds v' ->
            (i ∈ visibleIds v /\ i <> p)
            \/ (GraphNode.parentId <$> getNode g i = Some (Some p))).
  { intros i Hi. unfold visibleIds in Hi. rewrite Hn, fmap_app in Hi.
    apply elem_of_app in Hi as [Hi|Hi].
    - left. by apply visibleIds_filter_ne in Hi.
    - right. apply list_elem_of_fmap in Hi as (rn & -> & Hrn).
      by destruct (kept_child _ _ _ _ Horig Hcs Hrn) as (_ & _ & ?). }
  assert (Htp : Js.truthy p = true) by (by eapply children_truthy).
  split_and!.
  - intros a b Ha Hb Hd.
    destruct (Hids b Hb) as [[Hb' Hbp]|Hb'].
    + destruct (Hids a Ha) as [[Ha' Hap]|Ha']; [by apply (Hanti a b)|].
      apply (Hanti p b); [done..|].
      apply (descendantOf_trans g p a b); [|done].
      eapply descendantOf_child; eauto.
    + destruct (descendantOf_parent _ _ _ _ Hd Hb') as [->|Hdp].
      * destruct (Hids p Ha) as [[_ ?]|Hpp]; [done|].
        apply (descendantOf_irrefl g rank Hrank p).
        eapply descendantOf_child; eauto.
      * destruct (Hids a Ha) as [[Ha' _]|Ha']; [by apply (Hanti a p)|].
        apply (descendantOf_irrefl g rank Hrank p).
        apply (descendantOf_trans g p a p); [|done].
        eapply descendantOf_child; eauto.
  - intros x Hin. rewrite Hn in Hin. apply elem_of_app in Hin as [Hin|Hin].
    + apply Hmirror. apply list_elem_of_In, filter_In in Hin as [Hin _].
      by apply list_elem_of_In.
    + destruct (kept_child _ _ _ _ Horig Hcs Hin) as (-> & _ & ?). done.
  - intros q Hq. rewrite He in Hq. unfold setAdd in Hq.
    case_bool_decide; [by apply Hexp|].
    apply elem_of_app in Hq as [Hq|Hq%list_elem_of_singleton]; [by apply Hexp|].
    by subst q.
Qed.

(** The ids on screen once the descendants of [p] made room for [p]. *)
Lemma coherent_collapse_ids v v' p (desc : string -> bool) (pn : RenderNode.t) :
  (forall x, x ∈ vnodes v ->
     desc (RenderNode.id x) = true <-> descendantOf g p (RenderNode.id x)) ->
  RenderNode.id pn = p ->
  vnodes v' = List.filter (fun x => negb (desc (RenderNode.id x))) (vnodes v) ++ [pn] ->
  forall i, i ∈ visibleIds v' <->
            i = p \/ (i ∈ visibleIds v /\ ~ descendantOf g p i).
Proof.
  intros Hreflect Hid Hn i.
  unfold visibleIds. rewrite Hn, fmap_app, elem_of_app. simpl.
  rewrite list_elem_of_singleton, Hid.
  rewrite !list_elem_of_fmap. split.
  - intros [(x & Hi & Hin)|Hi]; subst i; [|by left]. right.
    apply list_elem_of_In, filter_In in Hin as [Hin Hd].
    apply list_elem_of_In in Hin. split; [by exists x|].
    rewrite <- (Hreflect x Hin). by destruct (desc (RenderNode.id x)).
  - intros [Hi|[(x & Hi & Hin) Hd]]; subst i; [by right|]. left.
    exists x. split; [done|]. apply list_elem_of_In, filter_In.
    split; [by apply list_elem_of_In|].
    rewrite <- (Hreflect x Hin) in Hd. by destruct (desc (RenderNode.id x)).
Qed.

(** The view once the enclosure of [p], which holds the node [d], is
    collapsed. *)
Lemma coherent_collapse v v' p (desc : string -> bool) (pn : RenderNode.t) gn d :
  viewInvariant g v -> p ∈ expandedNodes v ->
  d ∈ visibleIds v -> descendantOf g p d ->
  (forall x, x ∈ vnodes v ->
     desc (RenderNode.id x) = true <-> descendantOf g p (RenderNode.id x)) ->
  getNode g p = Some gn ->
  RenderNode.id pn = p -> RenderNode.parentId pn = GraphNode.parentId gn ->
  vnodes v' = List.filter (fun x => negb (desc (RenderNode.id x))) (vnodes v) ++ [pn] ->
  expandedNodes v' = setDelete (expandedNodes v) p ->
  viewInvariant g v'.
Proof.
  intros (Hanti & Hmirror & Hexp) Hpe Hd Hpd Hreflect Hgp Hid Hpid Hn He.
  destruct Hco as (_ & _ & rank & Hrank).
  pose proof (coherent_collapse_ids v v' p desc pn Hreflect Hid Hn) as Hids.
  split_and!.
  - intros a b Ha Hb Hab.
    apply Hids in Ha as [->|[Ha _]], Hb as [->|[Hb Hnb]].
    + by apply (descendantOf_irrefl g rank Hrank p).
    + done.
    + apply (Hanti a d); [done..|].
      by apply (descendantOf_trans g a p d).
    + by apply (Hanti a b).
  - intros x Hin. rewrite Hn in Hin.
    apply elem_of_app in Hin as [Hin|Hin%list_elem_of_singleton].
    + apply Hmirror. apply list_elem_of_In, filter_In in Hin as [Hin _].
      by apply list_elem_of_In.
    + subst x. rewrite Hid, Hgp, Hpid. done.
  - intros q Hq. rewrite He in Hq. unfold setDelete in Hq.
    apply list_elem_of_filter in Hq as [_ Hq]. by apply Hexp.
Qed.

(** Expanding a node on screen and collapsing it again. *)
Lemma coherent_round_trip v v1 v2 node n c cs (desc : string -> bool) pn :
  viewInvariant g v -> node ∈ vnodes v ->
  getNode g (RenderNode.id node) = Some n ->
  GraphNode.children n = Some (c :: cs) ->
  vnodes v1 =
    List.filter (fun x => negb (String.eqb (RenderNode.id x) (RenderNode.id node)))
                (vnodes v)
    ++ kept (c :: cs) ->
  (forall x, x ∈ vnodes v1 ->
     desc (RenderNode.id x) = true
     <-> descendantOf g (RenderNode.id node) (RenderNode.id x)) ->
  RenderNode.id pn = RenderNode.id node ->
  vnodes v2 = List.filter (fun x => negb (desc (RenderNode.id x))) (vnodes v1) ++ [pn] ->
  (RenderNode.id node ∉ visibleIds v1)
  /\ forall i, i ∈ visibleIds v2 <-> i ∈ visibleIds v.
Proof.
  intros (Hanti & _ & _) Hnode Hn Hcs Hn1 Hreflect Hid Hn2.
  destruct Hco as (_ & _ & rank & Hrank).
  set (p := RenderNode.id node) in *.
  assert (Hpv : p ∈ visibleIds v) by (by apply list_elem_of_fmap_2).
  assert (Hids1 : forall i, i ∈ visibleIds v1 <->
            (i ∈ visibleIds v /\ i <> p)
            \/ i ∈ map RenderNode.id (kept (c :: cs))).
  { intros i. unfold visibleIds. rewrite Hn1.
    by rewrite fmap_app, elem_of_app, visibleIds_filter_ne. }
  assert (Hkids : forall i, i ∈ map RenderNode.id (kept (c :: cs)) ->
            descendantOf g p i).
  { intros i (x & -> & Hx)%list_elem_of_fmap. by eapply kept_descendant. }
  split.
  - intros [[_ ?]|Hi]%Hids1; [done|].
    by apply (descendantOf_irrefl g rank Hrank p), Hkids.
  - intros i.
    rewrite (coherent_collapse_ids v1 v2 p desc pn Hreflect Hid Hn2 i), Hids1.
    split.
    + intros [->|[[[Hi _]|Hi] Hnd]]; [done..|]. exfalso. by apply Hnd, Hkids.
    + intros Hi. destruct (decide (i = p)) as [->|Hne]; [by left|].
      right. split; [by left|]. by apply Hanti.
Qed.

End CoherentView.


(** ** The hierarchical view on coherent graph data *)

Section CoherentHierarchical.
Variable data : HierarchicalData.
Hypothesis Hco :
  coherentOn (HierarchicalGraph.loadedGraph data) (HierarchicalGraph.rootNodes data)
             (fun _ => true).

Local Abbreviation g := (HierarchicalGraph.loadedGraph data).

Lemma rootNodes_falsy r n :
  r ∈ HierarchicalGraph.rootNodes data -> store data !! r = Some n ->
  Js.truthyO (GraphNode.parentId n) = false.
Proof.
  intros Hr Hn. apply list_elem_of_In, filter_In in Hr as [_ Hr].
  rewrite Hn in Hr. by apply negb_true_iff.
Qed.

Lemma coherent_reachable v : reachable data v -> viewInvariant g v.
Proof.
  induction 1 as [v [fuel Hrun]|v e v' Hreach IH Hstep].
  - apply updateSimulation_Ok in Hrun as (Hn & He & _).
    apply (coherent_init g _ _ Hco); [apply rootNodes_falsy|done..].
  - destruct Hstep as [v node v' Hnode [fuel Hrun]|v p v' Henc [fuel Hrun]].
    + unfold HierarchicalGraph.handleNodeClick in Hrun.
      destruct (getNode g (RenderNode.id node)) as [n|] eqn:Hn;
        [|by injection Hrun as <-].
      destruct (GraphNode.children n) as [[|c cs]|] eqn:Hcs;
        [by injection Hrun as <-| |by injection Hrun as <-].
      apply expand_Ok in Hrun as (children & Hch & Hns & Hex & _).
      rewrite Hn in Hch. simpl in Hch. rewrite Hcs in Hch. injection Hch as <-.
      apply (coherent_click g _ _ Hco v v' node n c cs); try done.
      by rewrite filter_all.
    + pose proof IH as (_ & Hmirror & Hexp).
      apply hasEnclosure_true in Henc as (Hpe & n0 & Hn0 & Hn0p).
      apply collapse_Ok in Hrun as (desc & r & pn & Hdesc & Hr & Hpn & Hn & He & _).
      apply createRenderNode_Some in Hpn as (gn & Hgn & Hid & Hpid).
      assert (Hgp : getNode g p = Some gn) by (unfold getNode; by rewrite Hr).
      destruct (loadedGraph_getNode _ _ _ Hgp) as [Hidp _].
      apply (coherent_collapse g _ _ Hco v v' p desc pn gn (RenderNode.id n0));
        try done; try congruence.
      * by apply list_elem_of_fmap_2.
      * eapply descendantOf_child; [|by apply Hexp|by left].
        by rewrite (Hmirror n0 Hn0), Hn0p.
      * intros x Hx. pose proof (isDescendant_sound _ _ _ _ _ (Hdesc x Hx)) as Hs.
        destruct (desc (RenderNode.id x)); split; done.
Qed.

(** Expand and collapse on the hierarchical view. *)
Lemma coherent_round_trip_hierarchical v node c cs :
  reachable data v -> node ∈ vnodes v ->
  getNode g (RenderNode.id node) ≫= GraphNode.children = Some (c :: cs) ->
  exists v1 v2,
    runs (fun fuel => HierarchicalGraph.handleNodeClick g fuel v node) v1
    /\ RenderNode.id node ∈ expandedNodes v1
    /\ (RenderNode.id node ∉ visibleIds v1)
    /\ HierarchicalGraph.hasEnclosure v1 (RenderNode.id node) = true
    /\ runs (fun fuel => HierarchicalGraph.collapse g fuel v1 (RenderNode.id node)) v2
    /\ forall i, i ∈ visibleIds v2 <-> i ∈ visibleIds v.
Proof.
  intros Hreach Hnode Hch.
  pose proof (coherent_reachable v Hreach) as Hinv.
  destruct (getNode g (RenderNode.id node)) as [n|] eqn:Hn; [|done].
  simpl in Hch. rename Hch into Hcs.
  set (p := RenderNode.id node) in *.
  set (ns1 := List.filter (fun x => negb (String.eqb (RenderNode.id x) p)) (vnodes v)
              ++ omap (createRenderNode (objects g)) (c :: cs)).
  pose proof Hco as (_ & HB & rank & Hrank).
  set (F := enoughFuel rank g (map RenderNode.id ns1)).
  destruct (updateSimulation_total g rank ns1 (setAdd (expandedNodes v) p)
              (map RenderNode.id ns1) Hrank) as [ls1 Hrun1].
  fold F in Hrun1.
  set (v1 := mkView ns1 ls1 (setAdd (expandedNodes v) p)) in *.
  assert (Hclick : HierarchicalGraph.handleNodeClick g F v node = Ok v1).
  { unfold HierarchicalGraph.handleNodeClick, HierarchicalGraph.expand.
    fold p. rewrite Hn, Hcs. simpl. rewrite Hcs. exact Hrun1. }
  assert (Hex1 : p ∈ expandedNodes v1).
  { simpl. unfold setAdd. case_bool_decide; [done|].
    apply elem_of_app. right. apply list_elem_of_here. }
  (* the first child is drawn, inside the enclosure *)
  destruct (HB p n (c :: cs) c Hn Hcs) as (Htp & cn & Hcn & Hkeep);
    [apply list_elem_of_here|].
  destruct (Hkeep eq_refl) as [Hcp _].
  set (rn := RenderNode.mk (GraphNode.id cn) (GraphNode.label cn) (GraphNode.type cn)
                           (GraphNode.parentId cn) c).
  assert (Hrn : rn ∈ omap (createRenderNode (objects g)) (c :: cs)).
  { apply list_elem_of_omap. exists c. split; [apply list_elem_of_here|].
    unfold createRenderNode. by rewrite Hcn. }
  assert (Henc : HierarchicalGraph.hasEnclosure v1 p = true).
  { apply hasEnclosure_true. split; [done|].
    exists rn. split; [|done]. simpl. apply elem_of_app. by right. }
  (* the collapse *)
  destruct (filterR_total
              (fun x => b <- HierarchicalGraph.isDescendant g p F (RenderNode.id x) ;;;
                        Ok (negb b)) ns1) as [ns2 Hfilter].
  { intros x Hx.
    destruct (isDescendant_total g rank Hrank p F (RenderNode.id x)) as [b ->].
    - pose proof (enoughFuel_ids rank g (map RenderNode.id ns1) (RenderNode.id x)
                    ltac:(by apply list_elem_of_fmap_2)). fold F in H. lia.
    - simpl. eauto. }
  assert (Hgetp : exists r, JsMap.get (allNodesMap g) p = Some r
                            /\ objects g !! r = Some n).
  { unfold getNode in Hn. destruct (JsMap.get (allNodesMap g) p) as [r|]; [|done].
    exists r. by split. }
  destruct Hgetp as (r & Hr & Hrn').
  set (pn := RenderNode.mk (GraphNode.id n) (GraphNode.label n) (GraphNode.type n)
                           (GraphNode.parentId n) r).
  destruct (updateSimulation_total g rank (ns2 ++ [pn])
              (setDelete (expandedNodes v1) p) (map RenderNode.id ns1) Hrank)
    as [ls2 Hrun2].
  fold F in Hrun2.
  set (v2 := mkView (ns2 ++ [pn]) ls2 (setDelete (expandedNodes v1) p)) in *.
  assert (Hcollapse : HierarchicalGraph.collapse g F v1 p = Ok v2).
  { unfold HierarchicalGraph.collapse. change (vnodes v1) with ns1.
    rewrite Hfilter. cbn [rbind].
    rewrite Hr. unfold createRenderNode. rewrite Hrn'. exact Hrun2. }
  apply collapse_Ok in Hcollapse as Hshape.
  destruct Hshape as (desc & r' & pn' & Hdesc & Hr' & Hpn' & Hn2 & _).
  apply createRenderNode_Some in Hpn' as (gn & Hgn & Hid & _).
  assert (Hgp : getNode g p = Some gn) by (unfold getNode; by rewrite Hr').
  destruct (loadedGraph_getNode _ _ _ Hgp) as [Hidp _].
  destruct (coherent_round_trip g _ _ Hco v v1 v2 node n c cs desc pn')
    as [Hout Hids]; try done; try congruence.
  { simpl. unfold ns1. by rewrite filter_all. }
  { intros x Hx. pose proof (isDescendant_sound _ _ _ _ _ (Hdesc x Hx)) as Hs.
    destruct (desc (RenderNode.id x)); split; done. }
  { rewrite Hid. exact Hidp. }
  exists v1, v2. split_and!; try done; by exists F.
Qed.

End CoherentHierarchical.


(** ** The module-function view on coherent graph data *)

Lemma getNodeM_id data i n :
  getNode (ModuleFunctionGraph.loadedGraph data) i = Some n ->
  GraphNode.id n = i.
Proof.
  unfold getNode. simpl.
  destruct (JsMap.get _ i) as [r|] eqn:Hr; [|done]. simpl. intros Hn.
  apply registry_get in Hr as (_ & n' & Hn' & <-). congruence.
Qed.

Lemma handleNodeClickM_Ok g fuel v node v' :
  ModuleFunctionGraph.handleNodeClick g fuel v node = Ok v' ->
  v' = v
  \/ exists n c cs,
       getNode g (RenderNode.id node) = Some n
       /\ GraphNode.children n = Some (c :: cs)
       /\ vnodes v' =
            List.filter (fun x => negb (String.eqb (RenderNode.id x)
                                                   (RenderNode.id node))) (vnodes v)
            ++ List.filter (fun x => ModuleFunctionGraph.shown (RenderNode.type x))
                           (omap (createRenderNode (objects g)) (c :: cs))
       /\ expandedNodes v' = setAdd (expandedNodes v) (RenderNode.id node).
Proof.
  unfold ModuleFunctionGraph.handleNodeClick.
  destruct (getNode g (RenderNode.id node)) as [n|]; [|left; congruence].
  destruct (GraphNode.children n) as [[|c cs]|] eqn:Hcs; [left; congruence| |left; congruence].
  intros [Hn He]%updateSimulationM_Ok. right. by exists n, c, cs.
Qed.

Lemma collapseM_Ok g fuel v parentId v' :
  ModuleFunctionGraph.collapse g fuel v parentId = Ok v' ->
  exists (desc : string -> bool) r pn,
    (forall n, n ∈ vnodes v ->
       ModuleFunctionGraph.isDescendant g fuel (RenderNode.id n) parentId
       = Ok (desc (RenderNode.id n)))
    /\ JsMap.get (allNodesMap g) parentId = Some r
    /\ createRenderNode (objects g) r = Some pn
    /\ vnodes v' =
         List.filter (fun n => negb (desc (RenderNode.id n))) (vnodes v) ++ [pn]
    /\ expandedNodes v' = setDelete (expandedNodes v) parentId.
Proof.
  unfold ModuleFunctionGraph.collapse.
  destruct (filterR _ (vnodes v)) as [ns| |] eqn:Hf; simpl; [|done..].
  destruct (JsMap.get (allNodesMap g) parentId) as [r|] eqn:Hr; [|done].
  destruct (createRenderNode (objects g) r) as [pn|] eqn:Hpn; [|done].
  intros (Hn & He)%updateSimulationM_Ok.
  apply filterR_Ok in Hf as (q & Hq & ->).
  exists (fun i => match ModuleFunctionGraph.isDescendant g fuel i parentId with
                   | Ok b => b | _ => false end), r, pn.
  rewrite Hn. split_and!; try done.
  - intros n Hn'. specialize (Hq n Hn').
    destruct (ModuleFunctionGraph.isDescendant g fuel (RenderNode.id n) parentId);
      simpl in Hq; done.
  - f_equal. apply filter_ext_in. intros n Hn'%list_elem_of_In.
    specialize (Hq n Hn').
    destruct (ModuleFunctionGraph.isDescendant g fuel (RenderNode.id n) parentId)
      as [b| |]; simpl in Hq; [|done..].
    by injection Hq as <-.
Qed.

Lemma isDescendantM_sound g fuel i a b :
  ModuleFunctionGraph.isDescendant g fuel i a = Ok b ->
  if b then descendantOf g a i else ~ descendantOf g a i.
Proof.
  intros H. by apply (isDescendantLoopM_sound g a fuel _ b H i).
Qed.

Lemma hasEnclosureM_true g fuel v p :
  ModuleFunctionView.hasEnclosure g fuel v p = Ok true ->
  p ∈ expandedNodes v
  /\ exists d, d ∈ visibleIds v /\ descendantOf g p d.
Proof.
  unfold ModuleFunctionView.hasEnclosure.
  case_bool_decide as Hp; [|done].
  destruct (filterR _ (vnodes v)) as [ds| |] eqn:Hf; simpl; [|done..].
  intros [= Hlen]. split; [done|].
  apply filterR_Ok in Hf as (q & Hq & ->).
  destruct (List.filter q (vnodes v)) as [|x xs] eqn:Hxs; [done|].
  assert (Hx : x ∈ List.filter q (vnodes v)) by (rewrite Hxs; apply list_elem_of_here).
  apply list_elem_of_In, filter_In in Hx as [Hx Hqx].
  apply list_elem_of_In in Hx. specialize (Hq x Hx). rewrite Hqx in Hq.
  exists (RenderNode.id x). split; [by apply list_elem_of_fmap_2|].
  by apply isDescendantM_sound in Hq.
Qed.

Section CoherentModuleFunction.
Variable data : HierarchicalData.
Hypothesis Hco :
  coherentOn (ModuleFunctionGraph.loadedGraph data)
             (ModuleFunctionGraph.rootNodes data) ModuleFunctionGraph.shown.

Local Abbreviation g := (ModuleFunctionGraph.loadedGraph data).

Lemma rootNodesM_falsy r n :
  r ∈ ModuleFunctionGraph.rootNodes data -> store data !! r = Some n ->
  Js.truthyO (GraphNode.parentId n) = false.
Proof.
  intros Hr Hn. apply list_elem_of_In, filter_In in Hr as [_ Hr].
  rewrite Hn in Hr. by apply negb_true_iff.
Qed.

Lemma coherent_reachableM v :
  ModuleFunctionView.reachable data v -> viewInvariant g v.
Proof.
  induction 1 as [v [fuel Hrun]|v e v' Hreach IH Hstep].
  - apply updateSimulationM_Ok in Hrun as (Hn & He).
    apply (coherent_init g _ _ Hco); [apply rootNodesM_falsy|done..].
  - destruct Hstep as [v node v' Hnode [fuel Hrun]|v p v' [fe Henc] [fuel Hrun]].
    + apply handleNodeClickM_Ok in Hrun
        as [->|(n & c & cs & Hn & Hcs & Hns & Hex)]; [done|].
      by apply (coherent_click g _ _ Hco v v' node n c cs).
    + pose proof IH as (_ & Hmirror & Hexp).
      apply hasEnclosureM_true in Henc as (Hpe & d & Hd & Hpd).
      apply collapseM_Ok in Hrun as (desc & r & pn & Hdesc & Hr & Hpn & Hn & He).
      apply createRenderNode_Some in Hpn as (gn & Hgn & Hid & Hpid).
      assert (Hgp : getNode g p = Some gn) by (unfold getNode; by rewrite Hr).
      pose proof (getNodeM_id _ _ _ Hgp) as Hidp.
      apply (coherent_collapse g _ _ Hco v v' p desc pn gn d);
        try done; try congruence.
      intros x Hx. pose proof (isDescendantM_sound _ _ _ _ _ (Hdesc x Hx)) as Hs.
      destruct (desc (RenderNode.id x)); split; done.
Qed.

(** Expand and collapse on the module-function view. *)
Lemma coherent_round_trip_module_function v node c cs :
  ModuleFunctionView.reachable data v -> node ∈ vnodes v ->
  getNode g (RenderNode.id node) ≫= GraphNode.children = Some (c :: cs) ->
  exists v1 v2,
    runs (fun fuel => ModuleFunctionGraph.handleNodeClick g fuel v node) v1
    /\ RenderNode.id node ∈ expandedNodes v1
    /\ (RenderNode.id node ∉ visibleIds v1)
    /\ runs (fun fuel => ModuleFunctionGraph.collapse g fuel v1 (RenderNode.id node)) v2
    /\ forall i, i ∈ visibleIds v2 <-> i ∈ visibleIds v.
Proof.
  intros Hreach Hnode Hch.
  pose proof (coherent_reachableM v Hreach) as Hinv.
  destruct (getNode g (RenderNode.id node)) as [n|] eqn:Hn; [|done].
  simpl in Hch. rename Hch into Hcs.
  set (p := RenderNode.id node) in *.
  set (ns1 := List.filter (fun x => negb (String.eqb (RenderNode.id x) p)) (vnodes v)
              ++ List.filter (fun x => ModuleFunctionGraph.shown (RenderNode.type x))
                             (omap (createRenderNode (objects g)) (c :: cs))).
  pose proof Hco as (_ & _ & rank & Hrank).
  set (F := enoughFuel rank g (map RenderNode.id ns1)).
  destruct (updateSimulationM_total g rank ns1 (setAdd (expandedNodes v) p)
              (map RenderNode.id ns1) Hrank) as [ls1 Hrun1].
  fold F in Hrun1.
  set (v1 := mkView ns1 ls1 (setAdd (expandedNodes v) p)) in *.
  assert (Hclick : ModuleFunctionGraph.handleNodeClick g F v node = Ok v1).
  { unfold ModuleFunctionGraph.handleNodeClick.
    fold p. rewrite Hn, Hcs. exact Hrun1. }
  assert (Hex1 : p ∈ expandedNodes v1).
  { simpl. unfold setAdd. case_bool_decide; [done|].
    apply elem_of_app. right. apply list_elem_of_here. }
  destruct (filterR_total
              (fun x => b <- ModuleFunctionGraph.isDescendant g F (RenderNode.id x) p ;;;
                        Ok (negb b)) ns1) as [ns2 Hfilter].
  { intros x Hx. unfold ModuleFunctionGraph.isDescendant.
    destruct (isDescendantLoopM_total g rank Hrank p F (RenderNode.id x)) as [b ->].
    - pose proof (enoughFuel_ids rank g (map RenderNode.id ns1) (RenderNode.id x)
                    ltac:(by apply list_elem_of_fmap_2)). fold F in H. lia.
    - simpl. eauto. }
  assert (Hgetp : exists r, JsMap.get (allNodesMap g) p = Some r
                            /\ objects g !! r = Some n).
  { unfold getNode in Hn. destruct (JsMap.get (allNodesMap g) p) as [r|]; [|done].
    exists r. by split. }
  destruct Hgetp as (r & Hr & Hrn').
  set (pn := RenderNode.mk (GraphNode.id n) (GraphNode.label n) (GraphNode.type n)
                           (GraphNode.parentId n) r).
  destruct (updateSimulationM_total g rank (ns2 ++ [pn])
              (setDelete (expandedNodes v1) p) (map RenderNode.id ns1) Hrank)
    as [ls2 Hrun2].
  fold F in Hrun2.
  set (v2 := mkView (ns2 ++ [pn]) ls2 (setDelete (expandedNodes v1) p)) in *.
  assert (Hcollapse : ModuleFunctionGraph.collapse g F v1 p = Ok v2).
  { unfold ModuleFunctionGraph.collapse. change (vnodes v1) with ns1.
    rewrite Hfilter. cbn [rbind].
    rewrite Hr. unfold createRenderNode. rewrite Hrn'. exact Hrun2. }
  apply collapseM_Ok in Hcollapse as Hshape.
  destruct Hshape as (desc & r' & pn' & Hdesc & Hr' & Hpn' & Hn2 & _).
  apply createRenderNode_Some in Hpn' as (gn & Hgn & Hid & _).
  assert (Hgp : getNode g p = Some gn) by (unfold getNode; by rewrite Hr').
  pose proof (getNodeM_id _ _ _ Hgp) as Hidp.
  destruct (coherent_round_trip g _ _ Hco v v1 v2 node n c cs desc pn')
    as [Hout Hids]; try done; try congruence.
  { intros x Hx. pose proof (isDescendantM_sound _ _ _ _ _ (Hdesc x Hx)) as Hs.
    destruct (desc (RenderNode.id x)); split; done. }
  { rewrite Hid. exact Hidp. }
  exists v1, v2. split_and!; try done; by exists F.
Qed.

End CoherentModuleFunction.


(** ** Ids and their parents *)

Lemma noColon_append (a b : string) :
  noColon (a +:+ b) = noColon a && noColon b.
Proof.
  induction a as [|x a IH]; simpl; [done|].
  rewrite IH. by rewrite andb_assoc.
Qed.

Lemma splitChar_nonempty (c : ascii) (s : string) : Js.splitChar c s <> [].
Proof.
  destruct s as [|a s]; simpl; [done|].
  destruct (Ascii.eqb a c); [done|]. by destruct (Js.splitChar c s).
Qed.

Lemma splitChar_noColon (c : ascii) (s : string) :
  noColon s = true -> Forall (fun x => noColon x = true) (Js.splitChar c s).
Proof.
  induction s as [|a s IH]; simpl; intros H.
  - by constructor.
  - apply andb_true_iff in H as [Ha Hs]. specialize (IH Hs).
    destruct (Ascii.eqb a c); [by constructor|].
    destruct (Js.splitChar c s) as [|h t]; [by constructor; [simpl; rewrite Ha|]|].
    inversion IH; subst. constructor; [|done]. simpl. by rewrite Ha.
Qed.

Lemma splitChar_length (c : ascii) (s : string) :
  list_sum (map (fun x => S (String.length x)) (Js.splitChar c s))
  = S (String.length s).
Proof.
  induction s as [|a s IH]; simpl; [done|].
  destruct (Ascii.eqb a c); simpl; [by rewrite IH|].
  destruct (Js.splitChar c s) as [|h t]; simpl in *; lia.
Qed.

Lemma removelast_sum {A} (f : A -> nat) (l : list A) :
  l <> [] ->
  list_sum (map (fun x => S (f x)) (removelast l))
  < list_sum (map (fun x => S (f x)) l).
Proof.
  induction l as [|x l IH]; [done|]. intros _.
  destruct l as [|y l]; simpl; [lia|].
  specialize (IH ltac:(done)). simpl in IH. lia.
Qed.

Lemma Forall_removelast {A} (P : A -> Prop) (l : list A) :
  Forall P l -> Forall P (removelast l).
Proof.
  induction 1 as [|x l Hx Hl IH]; simpl; [constructor|].
  destruct l; [constructor|by constructor].
Qed.

Lemma dirIdsFrom_length parts : forall cp i,
  i ∈ dirIdsFrom cp parts ->
  String.length i
  <= String.length cp + list_sum (map (fun x => S (String.length x)) parts).
Proof.
  induction parts as [|part rest IH]; intros cp i; simpl.
  - by intros ?%elem_of_nil.
  - intros [->|Hi]%elem_of_cons.
    + destruct (Js.truthy cp); rewrite ?string_app_length; simpl; lia.
    + apply IH in Hi.
      destruct (Js.truthy cp); rewrite ?string_app_length in Hi; simpl in Hi; lia.
Qed.

Lemma dirIds_shorter (path i : string) :
  i ∈ dirIds path -> String.length i < String.length path.
Proof.
  unfold dirIds, Js.pop. simpl. intros Hi.
  pose proof (splitChar_length "/" path) as Hlen.
  pose proof (removelast_sum String.length (Js.splitChar "/" path)
                (splitChar_nonempty _ _)) as Hlt.
  destruct (removelast (Js.splitChar "/" path)) as [|part rest]; simpl in *.
  - by apply elem_of_nil in Hi.
  - apply elem_of_cons in Hi as [->|Hi]; [lia|].
    apply dirIdsFrom_length in Hi. lia.
Qed.

Lemma dirIdsFrom_noColon parts : forall cp i,
  noColon cp = true -> Forall (fun x => noColon x = true) parts ->
  i ∈ dirIdsFrom cp parts -> noColon i = true.
Proof.
  induction parts as [|part rest IH]; intros cp i Hcp Hparts; simpl.
  - by intros ?%elem_of_nil.
  - inversion Hparts as [|?? Hp Hrest]; subst.
    assert (Hi0 : noColon (if Js.truthy cp then cp +:+ "/" +:+ part else part) = true).
    { destruct (Js.truthy cp); [|done].
      rewrite !noColon_append, Hcp, Hp. done. }
    intros [->|Hi]%elem_of_cons; [done|]. by eapply IH.
Qed.

Lemma dirIds_noColon (path i : string) :
  noColon path = true -> i ∈ dirIds path -> noColon i = true.
Proof.
  intros Hp. unfold dirIds, Js.pop. simpl.
  apply dirIdsFrom_noColon; [done|].
  by apply Forall_removelast, splitChar_noColon.
Qed.

Lemma allIds_noColon (paths : list string) (i : string) :
  (forall p, p ∈ paths -> noColon p = true) -> i ∈ allIds paths -> noColon i = true.
Proof.
  intros Hpaths Hi. unfold allIds in Hi.
  apply list_elem_of_In, in_flat_map in Hi as (q & Hq%list_elem_of_In & Hi).
  apply list_elem_of_In, elem_of_app in Hi as [Hi|Hi%list_elem_of_singleton].
  - eapply dirIds_noColon; [|done]. by apply Hpaths.
  - subst. by apply Hpaths.
Qed.

(** Ids of the form [a::x] with a colon-free [a] decompose in one way. *)
Lemma colon_split (a b x y : string) :
  noColon a = true -> noColon b = true ->
  a +:+ "::" +:+ x = b +:+ "::" +:+ y -> a = b /\ x = y.
Proof.
  intros Ha Hb H.
  assert (Hab : a = b) by (by eapply first_colon).
  subst b. split; [done|].
  apply string_app_inj_l in H. by apply (string_app_inj_l "::") in H.
Qed.

Lemma truthy_colon (a x : string) : Js.truthy (a +:+ "::" +:+ x) = true.
Proof.
  unfold Js.truthy. apply negb_true_iff, String.eqb_neq. intros H.
  apply (f_equal String.length) in H. rewrite !string_app_length in H.
  simpl in H. lia.
Qed.

Lemma prefix_length (p s : string) :
  String.prefix p s = true -> String.length p <= String.length s.
Proof.
  revert s. induction p as [|a p IH]; intros [|b s]; simpl; try lia; try done.
  destruct (ascii_dec a b); [|done]. intros H%IH. lia.
Qed.

Lemma noColon_colon (a x : string) : noColon (a +:+ "::" +:+ x) = false.
Proof. rewrite noColon_append. simpl. by rewrite andb_false_r. Qed.

Lemma id_class_method (f c m f' c' : string) :
  noColon f = true -> noColon f' = true -> noColon c' = true ->
  f' +:+ "::" +:+ c' = (f +:+ "::" +:+ c) +:+ "::" +:+ m -> False.
Proof.
  intros Hf Hf' Hc' H. rewrite string_app_assoc in H.
  apply colon_split in H as [-> ->]; [|done..].
  change ("::" +:+ c +:+ "::" +:+ m) with ("::" +:+ (c +:+ "::" +:+ m)) in Hc'.
  by rewrite noColon_colon in Hc'.
Qed.

Lemma id_method_method (f c m f' c' m' : string) :
  noColon f = true -> noColon c = true ->
  noColon f' = true -> noColon c' = true ->
  (f' +:+ "::" +:+ c') +:+ "::" +:+ m' = (f +:+ "::" +:+ c) +:+ "::" +:+ m ->
  f' = f /\ c' = c /\ m' = m.
Proof.
  intros Hf Hc Hf' Hc' H. rewrite !string_app_assoc in H.
  apply colon_split in H as [-> H]; [|done..].
  apply colon_split in H as [-> ->]; done.
Qed.

(** ** Tidy registries *)

Lemma sameFields_shorter n n' : sameFields n n' -> shorter n -> shorter n'.
Proof.
  intros (Hi & _ & _ & Hp & _)%sameFields_fields Hs p. rewrite Hi, Hp. apply Hs.
Qed.

Lemma sameFields_shaped n n' : sameFields n n' -> shaped n -> shaped n'.
Proof.
  intros (Hi & _ & Ht & Hp & _)%sameFields_fields. unfold shaped.
  rewrite Hi, Ht, Hp. done.
Qed.

Lemma all_keepsFields (P : GraphNode.t -> Prop) h h' :
  (forall n n', sameFields n n' -> P n -> P n') ->
  keepsFields h h' -> length h' = length h ->
  (forall r n, h !! r = Some n -> P n) ->
  forall r n, h' !! r = Some n -> P n.
Proof.
  intros HP Hk Hlen Hall r n' Hr.
  destruct (keepsFields_back _ _ _ _ Hk Hlen Hr) as (n & Hn & Hs).
  eapply HP; [done|]. by eapply Hall.
Qed.

Lemma all_alloc (P : GraphNode.t -> Prop) h x :
  (forall r n, h !! r = Some n -> P n) -> P x ->
  forall r n, (h ++ [x]) !! r = Some n -> P n.
Proof.
  intros Hall Hx r n [Hr|[_ Hr]]%lookup_app_Some; [by eapply Hall|].
  by apply list_lookup_singleton_Some in Hr as [_ <-].
Qed.

Lemma pushChildOpt_cases h p c :
  pushChildOpt h p c = h \/ pushChildOpt h p c = pushChild h p c.
Proof.
  unfold pushChildOpt, pushChild. destruct (h !! p) as [n|]; [|by left].
  destruct (GraphNode.children n); [by right|by left].
Qed.

(** A new object, registered under its id. *)
Lemma tidy_add reg x :
  tidy reg ->
  default [] (GraphNode.children x) = [] ->
  shorter x ->
  (forall r n, heap reg !! r = Some n -> GraphNode.id n = GraphNode.id x ->
     GraphNode.parentId n = GraphNode.parentId x
     /\ GraphNode.type n = GraphNode.type x) ->
  tidy (mkRegistry (heap reg ++ [x])
          (JsMap.set (nodesMap reg) (GraphNode.id x) (length (heap reg)))).
Proof.
  intros [Hch Hsame Hself Hshort] Hnone Hx Hfresh. split; simpl.
  - intros rp pn c [Hr|[_ Hr]]%lookup_app_Some Hc.
    + destruct (Hch rp pn c Hr Hc) as (cn & Hcn & ?).
      exists cn. split; [by apply lookup_app_l_Some|done].
    + apply list_lookup_singleton_Some in Hr as [_ <-].
      rewrite Hnone in Hc. by apply elem_of_nil in Hc.
  - intros r1 r2 n1 n2 [H1|[_ H1]]%lookup_app_Some [H2|[_ H2]]%lookup_app_Some Hid.
    + by eapply Hsame.
    + apply list_lookup_singleton_Some in H2 as [_ <-]. by eapply Hfresh.
    + apply list_lookup_singleton_Some in H1 as [_ <-].
      destruct (Hfresh r2 n2 H2 (eq_sym Hid)). by split.
    + apply list_lookup_singleton_Some in H1 as [_ <-].
      by apply list_lookup_singleton_Some in H2 as [_ <-].
  - intros r n Hr.
    destruct (decide (GraphNode.id x = GraphNode.id n)) as [He|Hne].
    + exists (length (heap reg)), x. rewrite <- He, get_set_eq.
      split_and!; [done| |done]. by apply list_lookup_middle.
    + apply lookup_app_Some in Hr as [Hr|[_ Hr]].
      * destruct (Hself r n Hr) as (r' & n' & Hg & Hn' & Hi).
        exists r', n'. rewrite get_set_ne by done.
        split_and!; [done| |done]. by apply lookup_app_l_Some.
      * by apply list_lookup_singleton_Some in Hr as [_ <-].
  - by apply all_alloc.
Qed.

(** A child pushed to its parent's list. *)
Lemma tidy_push reg p c pn cn :
  tidy reg -> heap reg !! p = Some pn -> heap reg !! c = Some cn ->
  GraphNode.parentId cn = Some (GraphNode.id pn) ->
  Js.truthy (GraphNode.id pn) = true ->
  tidy (mkRegistry (pushChild (heap reg) p c) (nodesMap reg)).
Proof.
  intros [Hch Hsame Hself Hshort] Hp Hc Hcp Ht.
  pose proof (keepsFields_pushChild (heap reg) p c) as Hk.
  pose proof (pushChild_length (heap reg) p c) as Hlen.
  split; simpl.
  - intros rp pn' c0 Hr Hc0.
    apply pushChild_lookup in Hr as (n0 & Hn0 & Hi & _ & Hcs).
    rewrite Hcs in Hc0. rewrite Hi.
    assert (Hcase : c0 ∈ default [] (GraphNode.children n0) \/ (rp = p /\ c0 = c)).
    { destruct (decide (rp = p)); [|by left].
      apply elem_of_app in Hc0 as [?|?%list_elem_of_singleton]; [by left|by right]. }
    destruct Hcase as [Hold|[-> ->]].
    + destruct (Hch rp n0 c0 Hn0 Hold) as (cn0 & Hcn0 & Hpar & Htr).
      destruct (pushChild_lookup_fwd (heap reg) p c c0 cn0 Hcn0)
        as (cn' & Hcn' & _ & Hpar' & _).
      exists cn'. split_and!; [done| |done]. by rewrite Hpar'.
    + rewrite Hp in Hn0. injection Hn0 as <-.
      destruct (pushChild_lookup_fwd (heap reg) p c c cn Hc)
        as (cn' & Hcn' & _ & Hpar' & _).
      exists cn'. split_and!; [done| |done]. by rewrite Hpar'.
  - intros r1 r2 n1 n2 H1 H2 Hid.
    destruct (keepsFields_back _ _ _ _ Hk Hlen H1) as (m1 & Hm1 & Hs1).
    destruct (keepsFields_back _ _ _ _ Hk Hlen H2) as (m2 & Hm2 & Hs2).
    apply sameFields_fields in Hs1 as (Hi1 & _ & Ht1 & Hp1 & _).
    apply sameFields_fields in Hs2 as (Hi2 & _ & Ht2 & Hp2 & _).
    rewrite Hp1, Hp2, Ht1, Ht2. apply (Hsame r1 r2 m1 m2); congruence.
  - intros r n Hr.
    destruct (keepsFields_back _ _ _ _ Hk Hlen Hr) as (m & Hm & Hs).
    apply sameFields_fields in Hs as (Hi & _).
    destruct (Hself r m Hm) as (r' & n' & Hg & Hn' & Hi').
    destruct (Hk r' n' Hn') as (n'' & Hn'' & Hs').
    apply sameFields_fields in Hs' as (Hi'' & _).
    rewrite Hi. exists r', n''. split_and!; [done..|congruence].
  - by apply (all_keepsFields shorter (heap reg)); [apply sameFields_shorter|..].
Qed.

Lemma tidy_pushOpt reg p c pn cn :
  tidy reg -> heap reg !! p = Some pn -> heap reg !! c = Some cn ->
  GraphNode.parentId cn = Some (GraphNode.id pn) ->
  Js.truthy (GraphNode.id pn) = true ->
  tidy (mkRegistry (pushChildOpt (heap reg) p c) (nodesMap reg)).
Proof.
  intros Ht Hp Hc Hcp Htr.
  destruct (pushChildOpt_cases (heap reg) p c) as [-> | ->].
  - by destruct reg.
  - by eapply tidy_push.
Qed.

(** A second key for an object, where no object has the key as its id. *)
Lemma tidy_alias reg k r :
  tidy reg ->
  (forall r0 n, heap reg !! r0 = Some n -> GraphNode.id n <> k) ->
  tidy (mkRegistry (heap reg) (JsMap.set (nodesMap reg) k r)).
Proof.
  intros [Hch Hsame Hself Hshort] Hk. split; simpl; try done.
  intros r0 n Hr. destruct (Hself r0 n Hr) as (r' & n' & Hg & Hn' & Hi).
  exists r', n'. rewrite get_set_ne; [done|]. intros He. by apply (Hk r0 n Hr).
Qed.

(** *** The directory pass *)

Lemma dirStep_shorter reg cur part :
  (forall r n, heap reg !! r = Some n -> shorter n) ->
  parentId cur = None \/ parentId cur = Some (currentPath cur) ->
  forall r n, heap (dirStep (reg, cur) part).1 !! r = Some n -> shorter n.
Proof.
  intros Hall Hcur. unfold dirStep. cbn [fst].
  set (i := if Js.truthy (currentPath cur)
            then currentPath cur +:+ "/" +:+ part else part).
  destruct (JsMap.has (nodesMap reg) i) eqn:Hi; [done|]. simpl.
  set (node := GraphNode.mk i part DIRECTORY (parentId cur) (Some []) None
                            (Some (depth cur))).
  assert (Hnode : shorter node).
  { intros p Hp Ht. simpl in *. destruct Hcur as [Hc|Hc]; rewrite Hc in Hp; [done|].
    injection Hp as <-. unfold i. rewrite Ht, !string_app_length. simpl. lia. }
  set (h2 := if Js.truthyO (parentId cur) then _ else _).
  apply (all_keepsFields shorter (heap reg ++ [node]) h2);
    [apply sameFields_shorter|..|by apply all_alloc]; unfold h2.
  - destruct (Js.truthyO _); [|apply keepsFields_refl].
    destruct (JsMap.get _ _); [|apply keepsFields_refl].
    destruct (_ !! _) eqn:Hp; [|apply keepsFields_refl].
    destruct (hasChildWithId _ _ _);
      [by apply keepsFields_insert|apply keepsFields_pushChild].
  - destruct (Js.truthyO _); [|done].
    destruct (JsMap.get _ _); [|done].
    destruct (_ !! _) eqn:Hp; [|done].
    destruct (hasChildWithId _ _ _);
      [apply length_insert|apply pushChild_length].
Qed.

Lemma dirSteps_shorter parts : forall reg cur,
  (forall r n, heap reg !! r = Some n -> shorter n) ->
  parentId cur = None \/ parentId cur = Some (currentPath cur) ->
  forall r n, heap (fold_left dirStep parts (reg, cur)).1 !! r = Some n -> shorter n.
Proof.
  induction parts as [|part parts IH]; intros reg cur Hall Hcur; cbn [fold_left];
    [done|].
  pose proof (dirStep_shorter reg cur part Hall Hcur) as Hall1.
  destruct (dirStep_effect reg cur part) as (Hcur1 & _).
  destruct (dirStep (reg, cur) part) as [reg1 cur1]. simpl in *.
  apply IH; [done|]. rewrite Hcur1. by right.
Qed.

Lemma pathStep_shorter data reg path :
  (forall r n, heap reg !! r = Some n -> shorter n) ->
  forall r n, heap (pathStep data reg path) !! r = Some n -> shorter n.
Proof.
  intros Hall. unfold pathStep.
  pose proof (dirSteps_effect (Js.pop (Js.splitChar "/" path)).1 reg
                (mkDirCursor "" None 0)) as Heff.
  pose proof (dirSteps_shorter (Js.pop (Js.splitChar "/" path)).1 reg
                (mkDirCursor "" None 0) Hall (or_introl eq_refl)) as Hall1.
  cbv zeta in Heff. cbn [currentPath parentId depth] in Heff.
  change (dirIdsFrom "" (Js.pop (Js.splitChar "/" path)).1) with (dirIds path) in Heff.
  destruct (Js.pop _) as [parts fileName]. simpl in Heff, Hall1.
  destruct Heff as (_ & Hpar & _).
  destruct (fold_left dirStep parts _) as [reg1 cur]. simpl in *.
  set (node := GraphNode.mk path _ FILE (parentId cur) (Some []) _ _).
  assert (Hnode : shorter node).
  { intros p Hp Ht. simpl in *. rewrite Hpar in Hp.
    destruct (last (dirIds path)) as [d|] eqn:Hd; [|done]. injection Hp as <-.
    apply dirIds_shorter. by apply last_Some_elem_of. }
  set (h2 := if Js.truthyO (parentId cur) then _ else _).
  apply (all_keepsFields shorter (heap reg1 ++ [node]) h2);
    [apply sameFields_shorter|..|by apply all_alloc]; unfold h2.
  - destruct (Js.truthyO _); [|apply keepsFields_refl].
    destruct (JsMap.get _ _); [apply keepsFields_pushChild|apply keepsFields_refl].
  - destruct (Js.truthyO _); [|done].
    destruct (JsMap.get _ _); [apply pushChild_length|done].
Qed.

Lemma pathSteps_shorter data paths : forall reg,
  (forall r n, heap reg !! r = Some n -> shorter n) ->
  forall r n, heap (fold_left (pathStep data) paths reg) !! r = Some n -> shorter n.
Proof.
  induction paths as [|path paths IH]; intros reg Hall; cbn [fold_left]; [done|].
  apply IH. by apply pathStep_shorter.
Qed.

(** The registry of the directory pass is tidy, and its ids are colon-free. *)
Lemma buildDirectories_tidy (data : MetricData) :
  plainNames data ->
  tidy (buildDirectories data emptyRegistry []).1
  /\ forall r n, heap (buildDirectories data emptyRegistry []).1 !! r = Some n ->
                 shaped n.
Proof.
  intros (Hnd & Hdirs & Hcolon & _).
  pose proof (buildDirectories_keys data) as Hkeys.
  unfold buildDirectories in *. simpl in *.
  destruct (pathSteps_forest data (filePathsOf data) emptyRegistry []
              emptyRegistry_forest) as [[Hreg Hpar Hch Honce] _]; try done.
  { intros j. simpl. split; [done|]. by intros ?%elem_of_nil. }
  { intros q _ ?%elem_of_nil. done. }
  set (reg := fold_left (pathStep data) (filePathsOf data) emptyRegistry) in *.
  split; [split|].
  - exact Hch.
  - intros r1 r2 n1 n2 H1 H2 Hid.
    assert (r1 = r2).
    { assert (G1 : JsMap.get (nodesMap reg) (GraphNode.id n1) = Some r1)
        by (apply Hreg; by rewrite H1).
      assert (G2 : JsMap.get (nodesMap reg) (GraphNode.id n1) = Some r2)
        by (apply Hreg; rewrite H2; simpl; by rewrite Hid).
      congruence. }
    subst r2. by simplify_eq.
  - intros r n Hr. exists r, n. split_and!; [|done..].
    apply Hreg. by rewrite Hr.
  - apply pathSteps_shorter. simpl. intros r n Hr. by rewrite lookup_nil in Hr.
  - intros r n Hr. left.
    apply (allIds_noColon (filePathsOf data)); [done|].
    apply Hkeys, has_get. exists r. apply Hreg. by rewrite Hr.
Qed.


(** *** The class pass *)

Lemma normalizeMethodName_ne (name : string) :
  normalizeMethodName name <> "constructor".
Proof.
  unfold normalizeMethodName.
  destruct (String.eqb name "constructor") eqn:E; [done|]. by apply String.eqb_neq.
Qed.

(** No shaped object has a constructor alias as its id. *)
Lemma alias_free (f c : string) (n : GraphNode.t) :
  noColon f = true -> noColon c = true -> shaped n ->
  GraphNode.id n <> (f +:+ "::" +:+ c) +:+ "::constructor".
Proof.
  intros Hf Hc Hn Hid.
  change ((f +:+ "::" +:+ c) +:+ "::constructor")
    with ((f +:+ "::" +:+ c) +:+ "::" +:+ "constructor") in Hid.
  destruct Hn as [Hp|[(f' & c' & Hf' & Hc' & Hi & _)|(f' & c' & m & Hf' & Hc' & Hm & Hi & _)]].
  - by rewrite Hid, noColon_colon in Hp.
  - rewrite Hi in Hid. exact (id_class_method f c _ f' c' Hf Hf' Hc' Hid).
  - rewrite Hi in Hid. by apply id_method_method in Hid as (_ & _ & ?).
Qed.

Lemma keepsFields_at h h' r n i :
  keepsFields h h' -> h !! r = Some n -> GraphNode.id n = i ->
  exists n', h' !! r = Some n' /\ GraphNode.id n' = i.
Proof.
  intros Hk Hn Hi. destruct (Hk r n Hn) as (n' & Hn' & Hs).
  apply sameFields_fields in Hs as (Hi' & _). exists n'. split; [done|congruence].
Qed.

Lemma methodStep_tidy f c rc cd reg method cnode :
  noColon f = true -> noColon c = true ->
  tidy reg -> (forall r n, heap reg !! r = Some n -> shaped n) ->
  heap reg !! rc = Some cnode -> GraphNode.id cnode = f +:+ "::" +:+ c ->
  tidy (methodStep (f +:+ "::" +:+ c) rc cd reg method)
  /\ (forall r n, heap (methodStep (f +:+ "::" +:+ c) rc cd reg method) !! r = Some n ->
                  shaped n)
  /\ keepsFields (heap reg) (heap (methodStep (f +:+ "::" +:+ c) rc cd reg method)).
Proof.
  intros Hf Hc Ht Hsh Hrc Hid. unfold methodStep. cbn [alloc].
  set (name := Js.orElse (keyName method) "unknown").
  set (norm := normalizeMethodName name).
  set (x := GraphNode.mk ((f +:+ "::" +:+ c) +:+ "::" +:+ norm) _ FUNCTION
                         (Some (f +:+ "::" +:+ c)) None _ _).
  set (r := length (heap reg)).
  set (m1 := JsMap.set (nodesMap reg) ((f +:+ "::" +:+ c) +:+ "::" +:+ norm) r).
  set (m2 := if String.eqb name "constructor" then _ else m1).
  assert (Hx : shaped x).
  { right. right. exists f, c, norm. split_and!; try done.
    apply normalizeMethodName_ne. }
  assert (Hsh1 : forall r0 n, (heap reg ++ [x]) !! r0 = Some n -> shaped n)
    by (by apply all_alloc).
  assert (Hadd : tidy (mkRegistry (heap reg ++ [x]) m1)).
  { apply (tidy_add reg x Ht); [done| |].
    - intros p [= <-] _. simpl. rewrite !string_app_length. simpl. lia.
    - intros r0 n Hn Hi. simpl in Hi.
      destruct (Hsh r0 n Hn)
        as [Hp|[(f' & c' & Hf' & Hc' & Hi' & _)
               |(f' & c' & m & Hf' & Hc' & _ & Hi' & Hp' & Hty)]].
      + by rewrite Hi, noColon_colon in Hp.
      + rewrite Hi' in Hi. exfalso. exact (id_class_method f c _ f' c' Hf Hf' Hc' Hi).
      + rewrite Hi' in Hi. apply id_method_method in Hi as (-> & -> & _); done. }
  assert (Halias : tidy (mkRegistry (heap reg ++ [x]) m2)).
  { unfold m2. destruct (String.eqb name "constructor"); [|done].
    apply (tidy_alias (mkRegistry (heap reg ++ [x]) m1)); [done|].
    simpl. intros r0 n Hn. apply alias_free; [done..|]. by eapply Hsh1. }
  assert (Hpush : tidy (mkRegistry (pushChildOpt (heap reg ++ [x]) rc r) m2)).
  { apply (tidy_pushOpt (mkRegistry (heap reg ++ [x]) m2) rc r cnode x); simpl.
    - done.
    - by apply lookup_app_l_Some.
    - by apply list_lookup_middle.
    - by rewrite Hid.
    - rewrite Hid. apply truthy_colon. }
  split_and!; simpl.
  - exact Hpush.
  - apply (all_keepsFields shaped (heap reg ++ [x]));
      [apply sameFields_shaped|apply keepsFields_pushChildOpt
      |apply pushChildOpt_length|done].
  - eapply keepsFields_trans; [|apply keepsFields_pushChildOpt].
    apply (keepsFields_alloc (heap reg) x).
Qed.

Lemma methodSteps_tidy f c rc cd ms : forall reg cnode,
  noColon f = true -> noColon c = true ->
  tidy reg -> (forall r n, heap reg !! r = Some n -> shaped n) ->
  heap reg !! rc = Some cnode -> GraphNode.id cnode = f +:+ "::" +:+ c ->
  tidy (fold_left (methodStep (f +:+ "::" +:+ c) rc cd) ms reg)
  /\ (forall r n,
        heap (fold_left (methodStep (f +:+ "::" +:+ c) rc cd) ms reg) !! r = Some n ->
        shaped n)
  /\ keepsFields (heap reg)
                 (heap (fold_left (methodStep (f +:+ "::" +:+ c) rc cd) ms reg)).
Proof.
  induction ms as [|m ms IH]; intros reg cnode Hf Hc Ht Hsh Hrc Hid; cbn [fold_left].
  - split_and!; [done..|apply keepsFields_refl].
  - destruct (methodStep_tidy f c rc cd reg m cnode Hf Hc Ht Hsh Hrc Hid)
      as (Ht1 & Hsh1 & Hk1).
    destruct (keepsFields_at _ _ _ _ _ Hk1 Hrc Hid) as (cnode1 & Hrc1 & Hid1).
    destruct (IH _ cnode1 Hf Hc Ht1 Hsh1 Hrc1 Hid1) as (Ht2 & Hsh2 & Hk2).
    split_and!; [done..|]. by eapply keepsFields_trans.
Qed.

Lemma classStep_tidy file rf fd st entry fnode :
  noColon file = true -> Js.truthy file = true -> noColon entry.1 = true ->
  tidy st.1 -> (forall r n, heap st.1 !! r = Some n -> shaped n) ->
  heap st.1 !! rf = Some fnode -> GraphNode.id fnode = file ->
  tidy (classStep file rf fd st entry).1
  /\ (forall r n, heap (classStep file rf fd st entry).1 !! r = Some n -> shaped n)
  /\ keepsFields (heap st.1) (heap (classStep file rf fd st entry).1).
Proof.
  destruct st as [reg c2f], entry as [className details]. simpl.
  intros Hf Htf Hc Ht Hsh Hrf Hid. cbn [alloc].
  set (x := GraphNode.mk (file +:+ "::" +:+ className) className CLASS (Some file)
                         (Some []) _ _).
  set (rc := length (heap reg)).
  set (m1 := JsMap.set (nodesMap reg) (file +:+ "::" +:+ className) rc).
  assert (Hx : shaped x).
  { right. left. by exists file, className. }
  assert (Hsh1 : forall r0 n, (heap reg ++ [x]) !! r0 = Some n -> shaped n)
    by (by apply all_alloc).
  assert (Hadd : tidy (mkRegistry (heap reg ++ [x]) m1)).
  { apply (tidy_add reg x Ht); [done| |].
    - intros p [= <-] _. simpl. rewrite !string_app_length. simpl. lia.
    - intros r0 n Hn Hi. simpl in Hi.
      destruct (Hsh r0 n Hn)
        as [Hp|[(f' & c' & Hf' & Hc' & Hi' & Hp' & Hty)
               |(f' & c' & m & Hf' & Hc' & _ & Hi' & _)]].
      + by rewrite Hi, noColon_colon in Hp.
      + rewrite Hi' in Hi. apply colon_split in Hi as [-> _]; done.
      + rewrite Hi' in Hi. symmetry in Hi. exfalso.
        exact (id_class_method f' c' _ file className Hf' Hf Hc Hi). }
  assert (Hpush : tidy (mkRegistry (pushChildOpt (heap reg ++ [x]) rf rc) m1)).
  { apply (tidy_pushOpt (mkRegistry (heap reg ++ [x]) m1) rf rc fnode x); simpl.
    - done.
    - by apply lookup_app_l_Some.
    - by apply list_lookup_middle.
    - by rewrite Hid.
    - by rewrite Hid. }
  assert (Hsh2 : forall r0 n, pushChildOpt (heap reg ++ [x]) rf rc !! r0 = Some n ->
                              shaped n).
  { apply (all_keepsFields shaped (heap reg ++ [x]));
      [apply sameFields_shaped|apply keepsFields_pushChildOpt
      |apply pushChildOpt_length|done]. }
  assert (Hk : keepsFields (heap reg) (pushChildOpt (heap reg ++ [x]) rf rc)).
  { eapply keepsFields_trans; [|apply keepsFields_pushChildOpt].
    apply (keepsFields_alloc (heap reg) x). }
  destruct details as [|ms]; [done|].
  assert (Hrc : exists cnode, pushChildOpt (heap reg ++ [x]) rf rc !! rc = Some cnode
                              /\ GraphNode.id cnode = file +:+ "::" +:+ className).
  { apply (keepsFields_at (heap reg ++ [x]) _ rc x);
      [apply keepsFields_pushChildOpt|by apply list_lookup_middle|done]. }
  destruct Hrc as (cnode & Hrc & Hidc).
  destruct (methodSteps_tidy file className rc (childDepth fd) ms
              (mkRegistry (pushChildOpt (heap reg ++ [x]) rf rc) m1) cnode
              Hf Hc Hpush Hsh2 Hrc Hidc) as (Ht3 & Hsh3 & Hk3).
  split_and!; [done..|]. by eapply keepsFields_trans.
Qed.

Lemma classSteps_tidy file rf fd cl : forall st fnode,
  noColon file = true -> Js.truthy file = true ->
  (forall c, c ∈ JsMap.keys cl -> noColon c = true) ->
  tidy st.1 -> (forall r n, heap st.1 !! r = Some n -> shaped n) ->
  heap st.1 !! rf = Some fnode -> GraphNode.id fnode = file ->
  tidy (fold_left (classStep file rf fd) cl st).1
  /\ (forall r n, heap (fold_left (classStep file rf fd) cl st).1 !! r = Some n ->
                  shaped n).
Proof.
  induction cl as [|entry cl IH]; intros st fnode Hf Htf Hc Ht Hsh Hrf Hid;
    cbn [fold_left]; [done|].
  destruct (classStep_tidy file rf fd st entry fnode) as (Ht1 & Hsh1 & Hk1);
    try done.
  { apply Hc. destruct entry. apply list_elem_of_here. }
  destruct (keepsFields_at _ _ _ _ _ Hk1 Hrf Hid) as (fnode1 & Hrf1 & Hid1).
  apply (IH _ fnode1); try done.
  intros c' Hc'. apply Hc. by apply list_elem_of_further.
Qed.

Lemma classFileStep_tidy st entry :
  noColon entry.1 = true -> Js.truthy entry.1 = true ->
  (forall c, c ∈ JsMap.keys entry.2 -> noColon c = true) ->
  consistent st.1 -> tidy st.1 ->
  (forall r n, heap st.1 !! r = Some n -> shaped n) ->
  tidy (classFileStep st entry).1
  /\ (forall r n, heap (classFileStep st entry).1 !! r = Some n -> shaped n).
Proof.
  destruct entry as [file clsMap]. simpl. intros Hf Htf Hc Hcons Ht Hsh.
  unfold classFileStep.
  destruct (JsMap.get (nodesMap st.1) file) as [rf|] eqn:Hrf; [|done].
  destruct (consistent_entry _ Hcons file rf Hrf) as (fnode & Hfn & [Hid|Halias]).
  - by apply (classSteps_tidy file rf _ clsMap st fnode).
  - destruct Halias as (classId & -> & _).
    change (classId +:+ "::constructor") with (classId +:+ "::" +:+ "constructor") in Hf.
    by rewrite noColon_colon in Hf.
Qed.

Lemma buildClassToFileMap_tidy (data : MetricData) (reg : Registry) :
  plainNames data -> consistent reg -> tidy reg ->
  (forall r n, heap reg !! r = Some n -> shaped n) ->
  tidy (buildClassToFileMap data reg).1.
Proof.
  intros (_ & _ & _ & Hcls & _) Hcons Ht Hsh. unfold buildClassToFileMap.
  assert (Hgen : forall l st,
            (forall e, e ∈ l -> e ∈ classes data) ->
            consistent st.1 -> tidy st.1 ->
            (forall r n, heap st.1 !! r = Some n -> shaped n) ->
            tidy (fold_left classFileStep l st).1).
  { induction l as [|e l IH]; intros st Hl Hc0 Ht0 Hsh0; cbn [fold_left]; [done|].
    assert (He : e ∈ classes data) by apply Hl, list_elem_of_here.
    destruct e as [file cm]. destruct (Hcls file cm He) as (Hf & Htf & Hc).
    destruct (classFileStep_tidy st (file, cm) Hf Htf Hc Hc0 Ht0 Hsh0) as [Ht1 Hsh1].
    apply IH; [|by apply classFileStep_consistent|done..].
    intros e' He'. apply Hl. by apply list_elem_of_further. }
  by apply Hgen.
Qed.

(** *** The function pass *)

Lemma findParentClass_Some h rf funcName rc fnode :
  h !! rf = Some fnode -> findParentClass h rf funcName = Some rc ->
  rc ∈ default [] (GraphNode.children fnode)
  /\ exists pn, h !! rc = Some pn /\ GraphNode.type pn = CLASS
       /\ String.length (GraphNode.label pn) < String.length funcName.
Proof.
  intros Hrf. unfold findParentClass. rewrite Hrf.
  intros [Hin Hpred]%find_some. split; [by apply list_elem_of_In|].
  destruct (h !! rc) as [pn|]; [|done]. exists pn. split; [done|].
  apply andb_true_iff in Hpred as [Hty Hst]. split; [by apply bool_decide_eq_true in Hty|].
  apply orb_true_iff in Hst as [Hst|Hst]; apply prefix_length in Hst;
    rewrite string_app_length in Hst; simpl in Hst; lia.
Qed.

Lemma funcStep_tidy file rf st funcName fnode :
  noColon file = true -> Js.truthy file = true ->
  consistent st.1 -> tidy st.1 ->
  heap st.1 !! rf = Some fnode -> GraphNode.id fnode = file ->
  tidy (funcStep file rf st funcName).1
  /\ keepsFields (heap st.1) (heap (funcStep file rf st funcName).1).
Proof.
  destruct st as [reg f2f]. simpl. intros Hf Htf Hcons Ht Hrf Hid.
  unfold funcStep.
  destruct (JsMap.has (nodesMap reg) (file +:+ "::" +:+ funcName)) eqn:Hhas;
    [split; [done|apply keepsFields_refl]|]. cbn [alloc fst].
  assert (Hfresh : forall r n, heap reg !! r = Some n ->
            GraphNode.id n <> file +:+ "::" +:+ funcName).
  { intros r n Hn Hi. destruct (tidy_self _ Ht r n Hn) as (r' & _ & Hg & _).
    rewrite Hi in Hg. apply has_false_get in Hhas. congruence. }
  destruct (findParentClass (heap reg) rf funcName) as [rc|] eqn:Hpc.
  - destruct (findParentClass_Some _ _ _ _ _ Hrf Hpc) as (Hin & pn & Hpn & Hty & Hlen).
    rewrite Hpn.
    destruct (tidy_children _ Ht rf fnode rc Hrf Hin) as (pn' & Hpn' & Hpar & _).
    rewrite Hpn in Hpn'. injection Hpn' as <-.
    destruct (consistent_class _ Hcons rc pn Hpn Hty) as (file' & Hpar' & Hidp).
    rewrite Hpar in Hpar'. injection Hpar' as <-. rewrite Hid in Hidp.
    set (x := GraphNode.mk (file +:+ "::" +:+ funcName) _ FUNCTION
                           (Some (GraphNode.id pn)) None _ _).
    assert (Hadd : tidy (mkRegistry (heap reg ++ [x])
                           (JsMap.set (nodesMap reg) (file +:+ "::" +:+ funcName)
                                      (length (heap reg))))).
    { apply (tidy_add reg x Ht); [done| |].
      - intros p [= <-] _. simpl. rewrite Hidp, !string_app_length. simpl. lia.
      - intros r n Hn Hi. by destruct (Hfresh r n Hn). }
    split.
    + apply (tidy_push (mkRegistry (heap reg ++ [x]) _) rc (length (heap reg)) pn x);
        simpl; [done|by apply lookup_app_l_Some|by apply list_lookup_middle|done|].
      rewrite Hidp. apply truthy_colon.
    + simpl. eapply keepsFields_trans; [|apply keepsFields_pushChild].
      apply (keepsFields_alloc (heap reg) x).
  - set (x := GraphNode.mk (file +:+ "::" +:+ funcName) _ FUNCTION
                           (Some file) None _ _).
    assert (Hadd : tidy (mkRegistry (heap reg ++ [x])
                           (JsMap.set (nodesMap reg) (file +:+ "::" +:+ funcName)
                                      (length (heap reg))))).
    { apply (tidy_add reg x Ht); [done| |].
      - intros p [= <-] _. simpl. rewrite !string_app_length. simpl. lia.
      - intros r n Hn Hi. by destruct (Hfresh r n Hn). }
    split.
    + apply (tidy_push (mkRegistry (heap reg ++ [x]) _) rf (length (heap reg)) fnode x);
        simpl; [done|by apply lookup_app_l_Some|by apply list_lookup_middle
               |by rewrite Hid|by rewrite Hid].
    + simpl. eapply keepsFields_trans; [|apply keepsFields_pushChild].
      apply (keepsFields_alloc (heap reg) x).
Qed.

Lemma funcSteps_tidy file rf fns : forall st fnode,
  noColon file = true -> Js.truthy file = true ->
  consistent st.1 -> JsMap.has (nodesMap st.1) file = true -> tidy st.1 ->
  heap st.1 !! rf = Some fnode -> GraphNode.id fnode = file ->
  tidy (fold_left (funcStep file rf) fns st).1.
Proof.
  induction fns as [|fn fns IH]; intros st fnode Hf Htf Hc Hhas Ht Hrf Hid;
    cbn [fold_left]; [done|].
  destruct (funcStep_tidy file rf st fn fnode Hf Htf Hc Ht Hrf Hid) as [Ht1 Hk1].
  destruct (keepsFields_at _ _ _ _ _ Hk1 Hrf Hid) as (fnode1 & Hrf1 & Hid1).
  apply (IH _ fnode1); try done.
  - by apply funcStep_consistent.
  - by apply (proj1 (funcStep_grows file rf st fn)).
Qed.

Lemma funcFileStep_tidy st entry :
  noColon entry.1 = true -> Js.truthy entry.1 = true ->
  consistent st.1 -> tidy st.1 -> tidy (funcFileStep st entry).1.
Proof.
  destruct entry as [file funcMap]. simpl. intros Hf Htf Hcons Ht.
  unfold funcFileStep.
  destruct (JsMap.get (nodesMap st.1) file) as [rf|] eqn:Hrf; [|done].
  destruct (consistent_entry _ Hcons file rf Hrf) as (fnode & Hfn & [Hid|Halias]).
  - apply (funcSteps_tidy file rf funcMap st fnode); try done.
    apply has_get. eauto.
  - destruct Halias as (classId & -> & _).
    change (classId +:+ "::constructor") with (classId +:+ "::" +:+ "constructor") in Hf.
    by rewrite noColon_colon in Hf.
Qed.

Lemma buildFunctionToFileMap_tidy (data : MetricData) (reg : Registry) :
  plainNames data -> consistent reg -> tidy reg ->
  tidy (buildFunctionToFileMap data reg).1.
Proof.
  intros (_ & _ & _ & _ & Hfns) Hcons Ht. unfold buildFunctionToFileMap.
  assert (Hgen : forall l st,
            (forall e, e ∈ l -> e ∈ funcs data) ->
            consistent st.1 -> tidy st.1 ->
            tidy (fold_left funcFileStep l st).1).
  { induction l as [|e l IH]; intros st Hl Hc0 Ht0; cbn [fold_left]; [done|].
    assert (He : e ∈ funcs data) by apply Hl, list_elem_of_here.
    destruct (Hfns e.1) as [Hf Htf].
    { unfold JsMap.keys. apply list_elem_of_In, in_map. by apply list_elem_of_In. }
    apply IH; [|by apply funcFileStep_consistent|by apply funcFileStep_tidy].
    intros e' He'. apply Hl. by apply list_elem_of_further. }
  by apply Hgen.
Qed.

(** On payloads with plain names the registry of [buildGraph] is tidy. *)
Lemma registryOf_tidy (data : MetricData) :
  plainNames data -> tidy (registryOf data).
Proof.
  intros Hplain. unfold registryOf.
  destruct (buildDirectories_tidy data Hplain) as [Ht1 Hsh1].
  assert (Hc1 : consistent (buildDirectories data emptyRegistry []).1).
  { unfold buildDirectories. simpl.
    assert (Hgen : forall l reg, consistent reg ->
              consistent (fold_left (pathStep data) l reg)).
    { induction l as [|p l IH]; intros reg Hc; cbn [fold_left]; [done|].
      by apply IH, pathStep_consistent. }
    apply Hgen, consistent_empty. }
  apply buildFunctionToFileMap_tidy; [done| |by apply buildClassToFileMap_tidy].
  unfold buildClassToFileMap.
  assert (Hgen : forall l st, consistent st.1 ->
            consistent (fold_left classFileStep l st).1).
  { induction l as [|e l IH]; intros st Hc; cbn [fold_left]; [done|].
    by apply IH, classFileStep_consistent. }
  by apply Hgen.
Qed.


(** ** The graph of a tidy registry is coherent *)

Section TidyGraph.
Variable data : HierarchicalData.
Variable reg : Registry.
Hypothesis Hstore : store data = heap reg.
Hypothesis Hnodes : nodes data = JsMap.values (nodesMap reg).
Hypothesis Hcons : consistent reg.
Hypothesis Htidy : tidy reg.

Lemma listed_entry r n :
  heap reg !! r = Some n ->
  exists r' n', r' ∈ nodes data /\ heap reg !! r' = Some n'
                /\ GraphNode.id n' = GraphNode.id n
                /\ GraphNode.parentId n' = GraphNode.parentId n
                /\ GraphNode.type n' = GraphNode.type n.
Proof.
  intros Hn. destruct (tidy_self _ Htidy r n Hn) as (r' & n' & Hg & Hn' & Hi).
  destruct (tidy_same _ Htidy r' r n' n Hn' Hn Hi) as [Hp Hty].
  exists r', n'. split_and!; try done.
  rewrite Hnodes. apply values_elem; [apply (consistent_keys _ Hcons)|eauto].
Qed.

(** The hierarchical view's registry finds, for the id of every object, an
    object with the same parent and type. *)
Lemma hierarchical_entry r n :
  heap reg !! r = Some n ->
  exists n', getNode (HierarchicalGraph.loadedGraph data) (GraphNode.id n) = Some n'
             /\ GraphNode.parentId n' = GraphNode.parentId n
             /\ GraphNode.type n' = GraphNode.type n.
Proof.
  intros Hn. destruct (listed_entry r n Hn) as (r' & n' & Hr' & Hn' & Hi & Hp & Hty).
  rewrite <- Hstore in Hn'.
  destruct (registry_has (store data) (nodes data) r' n' Hr' Hn') as [r'' Hg].
  destruct (registry_get _ _ _ _ Hg) as (_ & n'' & Hn'' & Hi'').
  exists n''. unfold getNode. simpl. rewrite <- Hi, Hg. simpl.
  split; [done|]. rewrite Hstore in Hn'', Hn'.
  destruct (tidy_same _ Htidy r'' r' n'' n' Hn'' Hn' Hi''). split; congruence.
Qed.

Lemma tidy_coherent_hierarchical :
  coherentOn (HierarchicalGraph.loadedGraph data) (HierarchicalGraph.rootNodes data)
             (fun _ => true).
Proof.
  split_and!.
  - intros r n _ Hn. simpl in Hn. rewrite Hstore in Hn.
    destruct (hierarchical_entry r n Hn) as (n' & -> & Hp & _). simpl. by rewrite Hp.
  - intros i n cs c Hn Hcs Hc.
    apply loadedGraph_getNode in Hn as (<- & r & _ & Hr). rewrite Hstore in Hr.
    destruct (tidy_children _ Htidy r n c Hr) as (cn & Hcn & Hpar & Ht);
      [by rewrite Hcs|].
    split; [done|]. exists cn. simpl. rewrite Hstore. split; [done|]. intros _.
    split; [done|].
    destruct (hierarchical_entry c cn Hcn) as (n' & -> & Hp & _). simpl.
    by rewrite Hp, Hpar.
  - exists String.length. intros i n p Hn Hp Htp.
    apply loadedGraph_getNode in Hn as (<- & r & _ & Hr). rewrite Hstore in Hr.
    by apply (tidy_shorter _ Htidy r n Hr).
Qed.

(** So does the module-function view's registry, for the objects it
    keeps. *)
Lemma module_function_entry r n :
  heap reg !! r = Some n -> ModuleFunctionGraph.shown (GraphNode.type n) = true ->
  exists n', getNode (ModuleFunctionGraph.loadedGraph data) (GraphNode.id n) = Some n'
             /\ GraphNode.parentId n' = GraphNode.parentId n.
Proof.
  intros Hn Hshown.
  destruct (listed_entry r n Hn) as (r' & n' & Hr' & Hn' & Hi & Hp & Hty).
  rewrite <- Hstore in Hn'.
  assert (Hf : r' ∈ ModuleFunctionGraph.filteredNodes data).
  { apply list_elem_of_In, filter_In. split; [by apply list_elem_of_In|].
    by rewrite Hn', Hty. }
  destruct (registry_has (store data) _ r' n' Hf Hn') as [r'' Hg].
  destruct (registry_get _ _ _ _ Hg) as (_ & n'' & Hn'' & Hi'').
  exists n''. unfold getNode. simpl. rewrite <- Hi, Hg. simpl.
  split; [done|]. rewrite Hstore in Hn'', Hn'.
  destruct (tidy_same _ Htidy r'' r' n'' n' Hn'' Hn' Hi''). congruence.
Qed.

Lemma getNodeM_listed i n :
  getNode (ModuleFunctionGraph.loadedGraph data) i = Some n ->
  GraphNode.id n = i /\ exists r, heap reg !! r = Some n.
Proof.
  intros Hn. split; [by eapply getNodeM_id|].
  unfold getNode in Hn. simpl in Hn.
  destruct (JsMap.get _ i) as [r|] eqn:Hr; [|done]. simpl in Hn.
  exists r. by rewrite <- Hstore.
Qed.

Lemma tidy_coherent_module_function :
  coherentOn (ModuleFunctionGraph.loadedGraph data)
             (ModuleFunctionGraph.rootNodes data) ModuleFunctionGraph.shown.
Proof.
  split_and!.
  - intros r n Hr Hn. simpl in Hn.
    apply list_elem_of_In, filter_In in Hr as [Hr _].
    apply filter_In in Hr as [_ Hsh]. rewrite Hn in Hsh.
    rewrite Hstore in Hn.
    destruct (module_function_entry r n Hn Hsh) as (n' & -> & Hp). simpl.
    by rewrite Hp.
  - intros i n cs c Hn Hcs Hc.
    apply getNodeM_listed in Hn as (<- & r & Hr).
    destruct (tidy_children _ Htidy r n c Hr) as (cn & Hcn & Hpar & Ht);
      [by rewrite Hcs|].
    split; [done|]. exists cn. simpl. rewrite Hstore. split; [done|]. intros Hsh.
    split; [done|].
    destruct (module_function_entry c cn Hcn Hsh) as (n' & -> & Hp). simpl.
    by rewrite Hp, Hpar.
  - exists String.length. intros i n p Hn Hp Htp.
    apply getNodeM_listed in Hn as (<- & r & Hr).
    by apply (tidy_shorter _ Htidy r n Hr).
Qed.

End TidyGraph.

Lemma buildGraph_coherent (data : MetricData) :
  plainNames data ->
  coherentOn (HierarchicalGraph.loadedGraph (buildGraph data))
             (HierarchicalGraph.rootNodes (buildGraph data)) (fun _ => true)
  /\ coherentOn (ModuleFunctionGraph.loadedGraph (buildGraph data))
                (ModuleFunctionGraph.rootNodes (buildGraph data))
                ModuleFunctionGraph.shown.
Proof.
  intros Hplain. destruct (buildGraph_registry data) as [Hs Hn].
  pose proof (registryOf_consistent data) as Hc.
  pose proof (registryOf_tidy data Hplain) as Ht.
  split.
  - by apply (tidy_coherent_hierarchical _ (registryOf data)).
  - by apply (tidy_coherent_module_function _ (registryOf data)).
Qed.


(** ** The enclosure of an expanded node in the module-function view *)

Lemma filter_none {A} (q : A -> bool) (l : list A) :
  (forall x, x ∈ l -> q x = false) -> List.filter q l = [].
Proof.
  induction l as [|x l IH]; intros H; simpl; [done|].
  rewrite (H x) by apply list_elem_of_here.
  apply IH. intros y Hy. apply H. by apply list_elem_of_further.
Qed.

Lemma filter_every {A} (q : A -> bool) (l : list A) :
  (forall x, x ∈ l -> q x = true) -> List.filter q l = l.
Proof.
  induction l as [|x l IH]; intros H; simpl; [done|].
  rewrite (H x) by apply list_elem_of_here. f_equal.
  apply IH. intros y Hy. apply H. by apply list_elem_of_further.
Qed.

Lemma filter_nonempty {A} (f : A -> bool) (l : list A) :
  negb (Nat.eqb (length (List.filter f l)) 0) = existsb f l.
Proof.
  induction l as [|x l IH]; simpl; [done|]. by destruct (f x).
Qed.

(** Once a click has expanded a node of the module-function view, the
    enclosure of that node is computed exactly when one of its children is
    drawn, that is, is not a class. *)
Lemma coherent_enclosure_module_function (data : HierarchicalData)
    (v v1 : View) (node : RenderNode.t) (c : ref) (cs : list ref) (fuel0 : nat) :
  coherentOn (ModuleFunctionGraph.loadedGraph data)
             (ModuleFunctionGraph.rootNodes data) ModuleFunctionGraph.shown ->
  ModuleFunctionView.reachable data v -> node ∈ vnodes v ->
  getNode (ModuleFunctionGraph.loadedGraph data) (RenderNode.id node)
    ≫= GraphNode.children = Some (c :: cs) ->
  ModuleFunctionGraph.handleNodeClick (ModuleFunctionGraph.loadedGraph data)
    fuel0 v node = Ok v1 ->
  runs (fun fuel => ModuleFunctionView.hasEnclosure
          (ModuleFunctionGraph.loadedGraph data) fuel v1 (RenderNode.id node))
       (existsb (fun x => ModuleFunctionGraph.shown (RenderNode.type x))
                (omap (createRenderNode (store data)) (c :: cs))).
Proof.
  intros Hco Hreach Hnode Hch Hrun.
  set (g := ModuleFunctionGraph.loadedGraph data) in *.
  pose proof (coherent_reachableM data Hco v Hreach) as (Hanti & _ & _).
  destruct (getNode g (RenderNode.id node)) as [n|] eqn:Hn; [|done].
  simpl in Hch. rename Hch into Hcs.
  unfold ModuleFunctionGraph.handleNodeClick in Hrun. rewrite Hn, Hcs in Hrun.
  apply updateSimulationM_Ok in Hrun as [Hns Hex].
  set (p := RenderNode.id node) in *.
  pose proof Hco as (_ & _ & rank & Hrank).
  set (F := enoughFuel rank g (map RenderNode.id (vnodes v1))).
  destruct (filterR_total
              (fun x => ModuleFunctionGraph.isDescendant g F (RenderNode.id x) p)
              (vnodes v1)) as [ds Hfilter].
  { intros x Hx. unfold ModuleFunctionGraph.isDescendant.
    apply (isDescendantLoopM_total g rank Hrank p F (RenderNode.id x)).
    pose proof (enoughFuel_ids rank g (map RenderNode.id (vnodes v1)) (RenderNode.id x)
                  ltac:(by apply list_elem_of_fmap_2)). fold F in H. lia. }
  exists F. unfold ModuleFunctionView.hasEnclosure.
  rewrite bool_decide_eq_true_2.
  2:{ rewrite Hex. unfold setAdd. case_bool_decide; [done|].
      apply elem_of_app. right. apply list_elem_of_here. }
  rewrite Hfilter. cbn [rbind]. f_equal.
  apply filterR_Ok in Hfilter as (q & Hq & ->).
  assert (Hreflect : forall x, x ∈ vnodes v1 ->
            q x = true <-> descendantOf g p (RenderNode.id x)).
  { intros x Hx. pose proof (isDescendantM_sound _ _ _ _ _ (Hq x Hx)) as Hs.
    destruct (q x); split; done. }
  assert (Hpv : p ∈ visibleIds v) by (by apply list_elem_of_fmap_2).
  rewrite Hns in Hreflect |- *. rewrite List.filter_app.
  rewrite filter_none, filter_every.
  - apply filter_nonempty.
  - intros x Hx. apply Hreflect; [apply elem_of_app; by right|].
    by eapply (kept_descendant g _ _ Hco).
  - intros x Hx.
    destruct (q x) eqn:Hqx; [|done]. exfalso.
    apply Hreflect in Hqx; [|apply elem_of_app; by left].
    apply list_elem_of_In, filter_In in Hx as [Hx _].
    apply (Hanti p (RenderNode.id x)); [done| |done].
    apply list_elem_of_fmap_2. by apply list_elem_of_In.
Qed.

(** C5 (expand/collapse round trip), amended.  For the graph the service
    builds from a payload with plain names and every state a view reaches
    on it: a click on a node on screen that has children returns, marks
    the node as expanded and takes it off the screen, and the collapse of
    that node then returns and puts on screen the node ids that were there
    before the click.  In the hierarchical component the enclosure on
    which the user clicks to collapse is always drawn; in the
    module-function component it is computed exactly when one of the
    children is not a class. *)
Theorem C5_expand_collapse_round_trip (data : MetricData) :
  plainNames data ->
  (forall v node c cs,
     reachable (buildGraph data) v -> node ∈ vnodes v ->
     getNode (HierarchicalGraph.loadedGraph (buildGraph data)) (RenderNode.id node)
       ≫= GraphNode.children = Some (c :: cs) ->
     exists v1 v2,
       runs (fun fuel => HierarchicalGraph.handleNodeClick
               (HierarchicalGraph.loadedGraph (buildGraph data)) fuel v node) v1
       /\ RenderNode.id node ∈ expandedNodes v1
       /\ (RenderNode.id node ∉ visibleIds v1)
       /\ HierarchicalGraph.hasEnclosure v1 (RenderNode.id node) = true
       /\ runs (fun fuel => HierarchicalGraph.collapse
                  (HierarchicalGraph.loadedGraph (buildGraph data)) fuel v1
                  (RenderNode.id node)) v2
       /\ forall i, i ∈ visibleIds v2 <-> i ∈ visibleIds v)
  /\ (forall v node c cs,
        ModuleFunctionView.reachable (buildGraph data) v -> node ∈ vnodes v ->
        getNode (ModuleFunctionGraph.loadedGraph (buildGraph data)) (RenderNode.id node)
          ≫= GraphNode.children = Some (c :: cs) ->
        exists v1 v2,
          runs (fun fuel => ModuleFunctionGraph.handleNodeClick
                  (ModuleFunctionGraph.loadedGraph (buildGraph data)) fuel v node) v1
          /\ RenderNode.id node ∈ expandedNodes v1
          /\ (RenderNode.id node ∉ visibleIds v1)
          /\ runs (fun fuel => ModuleFunctionView.hasEnclosure
                     (ModuleFunctionGraph.loadedGraph (buildGraph data)) fuel v1
                     (RenderNode.id node))
                  (existsb (fun x => ModuleFunctionGraph.shown (RenderNode.type x))
                           (omap (createRenderNode (store (buildGraph data)))
                                 (c :: cs)))
          /\ runs (fun fuel => ModuleFunctionGraph.collapse
                     (ModuleFunctionGraph.loadedGraph (buildGraph data)) fuel v1
                     (RenderNode.id node)) v2
          /\ forall i, i ∈ visibleIds v2 <-> i ∈ visibleIds v).
Proof.
  intros Hplain. destruct (buildGraph_coherent data Hplain) as [HcoH HcoM].
  split.
  - intros v node c cs. by apply coherent_round_trip_hierarchical.
  - intros v node c cs Hreach Hnode Hch.
    destruct (coherent_round_trip_module_function (buildGraph data) HcoM
                v node c cs Hreach Hnode Hch)
      as (v1 & v2 & [fuel Hclick] & Hex & Hout & Hcol & Hids).
    exists v1, v2. split_and!; try done; [by exists fuel|].
    by apply (coherent_enclosure_module_function (buildGraph data) v v1 node c cs fuel).
Qed.


(** C5, as stated, fails on a payload in which the file name [a/b::c] is
    also the id of the class [c] of the file [a/b]: the registry holds the
    class under that id; with [a/b] and [a/b::c] on screen, expanding [a/b]
    and collapsing it again takes the file [a/b::c] off the screen with the
    class, as a descendant of [a/b]. *)
Lemma C5_counterexample :
  let gd := buildGraph Examples.colonPath in
  let g := HierarchicalGraph.loadedGraph gd in
  let node := RenderNode.mk "a/b" "b" FILE (Some "a") 1 in
  exists v v1 v2,
    reachable gd v /\ node ∈ vnodes v
    /\ getNode g (RenderNode.id node) ≫= GraphNode.children = Some [3]
    /\ HierarchicalGraph.handleNodeClick g 9 v node = Ok v1
    /\ HierarchicalGraph.hasEnclosure v1 (RenderNode.id node) = true
    /\ HierarchicalGraph.collapse g 9 v1 (RenderNode.id node) = Ok v2
    /\ visibleIds v = ["a/b"; "a/b::c"]
    /\ visibleIds v1 = ["a/b::c"; "a/b::c"]
    /\ visibleIds v2 = ["a/b"]
    /\ ~ (forall i, i ∈ visibleIds v2 <-> i ∈ visibleIds v).
Proof.
  intros gd g node.
  set (v0 := mkView [RenderNode.mk "a" "a" DIRECTORY None 0] [] []).
  set (v := mkView [node; RenderNode.mk "a/b::c" "b::c" FILE (Some "a") 2] [] ["a"]).
  assert (H0 : reachable gd v0).
  { apply reachable_init. exists 9. vm_compute. reflexivity. }
  assert (Hv : reachable gd v).
  { eapply reachable_step; [exact H0|].
    apply step_click; [apply list_elem_of_here|]. exists 9. vm_compute. reflexivity. }
  exists v. eexists _, _.
  split; [exact Hv|]. split; [apply list_elem_of_here|].
  split; [vm_compute; reflexivity|].
  split; [vm_compute; reflexivity|].
  split; [reflexivity|].
  split; [vm_compute; reflexivity|].
  split; [reflexivity|]. split; [reflexivity|]. split; [reflexivity|].
  intros H. specialize (H "a/b::c"). simpl in H.
  assert (Hin : "a/b::c" ∈ ["a/b"; "a/b::c"])
    by apply list_elem_of_further, list_elem_of_here.
  apply H in Hin. apply list_elem_of_singleton in Hin. discriminate.
Qed.

Lemma accessorPair_plainNames : plainNames Examples.accessorPair.
Proof.
  split_and!.
  - apply NoDup_cons. split; [|apply NoDup_singleton].
    by intros [=]%list_elem_of_singleton.
  - intros p q Hp Hq Hin.
    change (p ∈ ["src/a.ts"; "src/b.ts"]) in Hp.
    change (q ∈ ["src/a.ts"; "src/b.ts"]) in Hq.
    repeat (apply elem_of_cons in Hq as [->|Hq];
            [vm_compute in Hin;
             repeat (apply elem_of_cons in Hp as [->|Hp];
                     [repeat (apply elem_of_cons in Hin as [[=]|Hin]);
                      by apply elem_of_nil in Hin|]);
             by apply elem_of_nil in Hp|]).
    by apply elem_of_nil in Hq.
  - intros p Hp. change (p ∈ ["src/a.ts"; "src/b.ts"]) in Hp.
    repeat (apply elem_of_cons in Hp as [->|Hp]; [reflexivity|]).
    by apply elem_of_nil in Hp.
  - intros f cm Hin. simpl in Hin.
    apply list_elem_of_singleton in Hin. injection Hin as -> ->.
    split_and!; [reflexivity..|]. intros c Hc.
    change (c ∈ ["Foo"; "Bar"]) in Hc.
    repeat (apply elem_of_cons in Hc as [->|Hc]; [reflexivity|]).
    by apply elem_of_nil in Hc.
  - intros f Hf. change (f ∈ ["src/a.ts"]) in Hf.
    apply list_elem_of_singleton in Hf as ->. by split.
Qed.

(** The class [Foo] of [accessorPair], whose two members share one id,
    expanded and collapsed in the hierarchical view; the file [src/a.ts],
    whose classes the module-function view does not draw, expanded and
    collapsed there. *)
Lemma C5_witness :
  let gd := buildGraph Examples.accessorPair in
  let foo := RenderNode.mk "src/a.ts::Foo" "Foo" CLASS (Some "src/a.ts") 3 in
  let file := RenderNode.mk "src/a.ts" "a.ts" FILE (Some "src") 1 in
  (exists v, reachable gd v /\ foo ∈ vnodes v
     /\ exists v1 v2,
          runs (fun fuel => HierarchicalGraph.handleNodeClick
                  (HierarchicalGraph.loadedGraph gd) fuel v foo) v1
          /\ HierarchicalGraph.hasEnclosure v1 "src/a.ts::Foo" = true
          /\ runs (fun fuel => HierarchicalGraph.collapse
                     (HierarchicalGraph.loadedGraph gd) fuel v1 "src/a.ts::Foo") v2
          /\ forall i, i ∈ visibleIds v2 <-> i ∈ visibleIds v)
  /\ (exists v, ModuleFunctionView.reachable gd v /\ file ∈ vnodes v
        /\ exists v1 v2,
             runs (fun fuel => ModuleFunctionGraph.handleNodeClick
                     (ModuleFunctionGraph.loadedGraph gd) fuel v file) v1
             /\ runs (fun fuel => ModuleFunctionView.hasEnclosure
                        (ModuleFunctionGraph.loadedGraph gd) fuel v1 "src/a.ts") true
             /\ runs (fun fuel => ModuleFunctionGraph.collapse
                        (ModuleFunctionGraph.loadedGraph gd) fuel v1 "src/a.ts") v2
             /\ forall i, i ∈ visibleIds v2 <-> i ∈ visibleIds v).
Proof.
  intros gd foo file.
  destruct (C5_expand_collapse_round_trip Examples.accessorPair
              accessorPair_plainNames) as [HH HM].
  fold gd in HH, HM.
  set (src := RenderNode.mk "src" "src" DIRECTORY None 0).
  set (b := RenderNode.mk "src/b.ts" "b.ts" FILE (Some "src") 2).
  set (v0 := mkView [src] [] []).
  set (v1 := mkView [file; b] [] ["src"]).
  split.
  - set (v2 := mkView [b; foo;
                       RenderNode.mk "src/a.ts::Bar" "Bar" CLASS (Some "src/a.ts") 6;
                       RenderNode.mk "src/a.ts::helper" "helper" FUNCTION
                                     (Some "src/a.ts") 8]
                      [] ["src"; "src/a.ts"]).
    assert (H0 : reachable gd v0).
    { apply reachable_init. exists 9. vm_compute. reflexivity. }
    assert (H1 : reachable gd v1).
    { eapply reachable_step; [exact H0|].
      apply step_click; [apply list_elem_of_here|]. exists 9. vm_compute. reflexivity. }
    assert (H2 : reachable gd v2).
    { eapply reachable_step; [exact H1|].
      apply step_click; [apply list_elem_of_here|]. exists 9. vm_compute. reflexivity. }
    assert (Hfoo : foo ∈ vnodes v2) by apply list_elem_of_further, list_elem_of_here.
    exists v2. split; [exact H2|]. split; [exact Hfoo|].
    destruct (HH v2 foo 4 [5] H2 Hfoo) as (w1 & w2 & Hc & _ & _ & He & Hcol & Hids).
    { vm_compute. reflexivity. }
    by exists w1, w2.
  - assert (H0 : ModuleFunctionView.reachable gd v0).
    { apply ModuleFunctionView.reachable_init. exists 9. vm_compute. reflexivity. }
    assert (H1 : ModuleFunctionView.reachable gd v1).
    { eapply ModuleFunctionView.reachable_step; [exact H0|].
      apply ModuleFunctionView.step_click; [apply list_elem_of_here|].
      exists 9. vm_compute. reflexivity. }
    assert (Hfile : file ∈ vnodes v1) by apply list_elem_of_here.
    exists v1. split; [exact H1|]. split; [exact Hfile|].
    destruct (HM v1 file 3 [6; 8] H1 Hfile)
      as (w1 & w2 & Hc & _ & _ & Henc & Hcol & Hids).
    { vm_compute. reflexivity. }
    by exists w1, w2.
Defined.
